(** * Expression handling, byte buffers and the NASM front end of the assembler

    A shallow embedding of
    - [libyasmx/expr.cpp]: the n-ary expression tree, negative normalization,
      leveling, identity simplification, substitution and SEG:OFF / WRT
      extraction;
    - [libyasmx/Bytes.h]: the read cursor of the byte buffer;
    - [modules/parsers/nasm/NasmParser_parse.cpp]: symbol resolution, label
      definition and the align directive;
    - [modules/parsers/nasm/nasm-eval.cpp]: the file-scope state of the
      preprocessor expression evaluator.

    Mutation in place is rendered as functions from the old value to the new
    one.  A C++ exception, a use of an empty vector's [front()]/[back()] and
    running out of recursion fuel are kept apart in the [failure] type. *)

From Stdlib Require Import String Ascii ZArith List Bool Lia PeanoNat.
Import ListNotations.
Open Scope Z_scope.

(** ** Outcomes of fallible code *)

Inductive failure : Type :=
| ZeroDivisionError   (* thrown by IntNum::calc on division or modulo by zero *)
| ArithmeticError     (* thrown by IntNum::calc on a misuse of an operator *)
| OutOfRange          (* std::out_of_range *)
| UndefinedBehaviour  (* front()/back()/operator[] outside a vector, null dereference *)
| OutOfFuel.          (* the recursion bound of the model was reached *)

Inductive result (A : Type) : Type :=
| Ok (a : A)
| Fail (f : failure).
Arguments Ok {A} a.
Arguments Fail {A} f.

Definition bind {A B : Type} (r : result A) (k : A -> result B) : result B :=
  match r with
  | Ok a => k a
  | Fail f => Fail f
  end.

Notation "x <- r ;; k" := (bind r (fun x => k))
  (at level 61, r at next level, right associativity).
Notation "' pat <- r ;; k" := (bind r (fun x => match x with pat => k end))
  (at level 61, pat pattern, r at next level, right associativity).

(** Left-to-right traversal that stops at the first failure. *)
Definition mapM {A B : Type} (f : A -> result B) : list A -> result (list B) :=
  fix go (l : list A) : result (list B) :=
    match l with
    | [] => Ok []
    | a :: l' => b <- f a ;; bs <- go l' ;; Ok (b :: bs)
    end.

(** ** Operators *)

(** Modelled from the spec: the [Op] enumeration is not under src/.  The
    glossary gives the operator set in this order; expr.cpp compares an
    operator with the marker [Op::NONNUM] ("start of non-numeric operations"),
    which sits between the numeric operators and SEG. *)
Inductive Op : Type :=
| ADD | SUB | MUL | DIV | SIGNDIV | MOD | SIGNMOD | NEG | NOT
| OR | AND | XOR | XNOR | NOR | SHL | SHR
| LOR | LAND | LNOT | LXOR | LXNOR | LNOR
| LT | GT | LE | GE | NE | EQ
| SEG | WRT | SEGOFF | IDENT | COND.

Scheme Equality for Op.

Definition op_index (op : Op) : nat :=
  match op with
  | ADD => 0 | SUB => 1 | MUL => 2 | DIV => 3 | SIGNDIV => 4 | MOD => 5
  | SIGNMOD => 6 | NEG => 7 | NOT => 8 | OR => 9 | AND => 10 | XOR => 11
  | XNOR => 12 | NOR => 13 | SHL => 14 | SHR => 15 | LOR => 16 | LAND => 17
  | LNOT => 18 | LXOR => 19 | LXNOR => 20 | LNOR => 21 | LT => 22 | GT => 23
  | LE => 24 | GE => 25 | NE => 26 | EQ => 27
  | SEG => 29 | WRT => 30 | SEGOFF => 31 | IDENT => 32 | COND => 33
  end%nat.

Definition NONNUM_index : nat := 28.

(** [m_op > Op::NONNUM] *)
Definition is_nonnum (op : Op) : bool := Nat.ltb NONNUM_index (op_index op).

(** Modelled from the spec: [is_associative] is not under src/; the data model
    lists the associative operators as ADD, MUL, AND, OR, XOR, LAND, LOR. *)
Definition is_associative (op : Op) : bool :=
  match op with
  | ADD | MUL | AND | OR | XOR | LAND | LOR => true
  | _ => false
  end.

(** Modelled from the spec: [is_unary] is not under src/; the operators that
    carry exactly one term. *)
Definition is_unary (op : Op) : bool :=
  match op with
  | NEG | NOT | LNOT | SEG | IDENT => true
  | _ => false
  end.

(** ** Numbers and opaque handles *)

Definition IntNum : Type := Z.

Definition is_zero (n : IntNum) : bool := n =? 0.
Definition is_pos1 (n : IntNum) : bool := n =? 1.
Definition is_neg1 (n : IntNum) : bool := n =? -1.

Definition b2z (b : bool) : Z := if b then 1 else 0.
Definition truth (n : IntNum) : bool := negb (n =? 0).

(** Modelled from the spec: [IntNum::calc] is not under src/.  Arbitrary
    precision; division and modulo by zero signal an error; the unsigned and
    the signed division differ in sign handling (floor against truncation);
    the boolean operators yield 0 or 1; the unary operators take no operand. *)
Definition calc (op : Op) (n : IntNum) (operand : option IntNum) : result IntNum :=
  match op with
  | NEG => Ok (- n)
  | NOT => Ok (Z.lnot n)
  | LNOT => Ok (b2z (n =? 0))
  | _ =>
    match operand with
    | None => Fail ArithmeticError
    | Some m =>
      match op with
      | ADD => Ok (n + m)
      | SUB => Ok (n - m)
      | MUL => Ok (n * m)
      | DIV => if m =? 0 then Fail ZeroDivisionError else Ok (n / m)
      | SIGNDIV => if m =? 0 then Fail ZeroDivisionError else Ok (Z.quot n m)
      | MOD => if m =? 0 then Fail ZeroDivisionError else Ok (n mod m)
      | SIGNMOD => if m =? 0 then Fail ZeroDivisionError else Ok (Z.rem n m)
      | OR => Ok (Z.lor n m)
      | AND => Ok (Z.land n m)
      | XOR => Ok (Z.lxor n m)
      | XNOR => Ok (Z.lnot (Z.lxor n m))
      | NOR => Ok (Z.lnot (Z.lor n m))
      | SHL => Ok (Z.shiftl n m)
      | SHR => Ok (Z.shiftr n m)
      | LOR => Ok (b2z (truth n || truth m))
      | LAND => Ok (b2z (truth n && truth m))
      | LXOR => Ok (b2z (xorb (truth n) (truth m)))
      | LXNOR => Ok (b2z (negb (xorb (truth n) (truth m))))
      | LNOR => Ok (b2z (negb (truth n || truth m)))
      | LT => Ok (b2z (n <? m))
      | GT => Ok (b2z (n >? m))
      | LE => Ok (b2z (n <=? m))
      | GE => Ok (b2z (n >=? m))
      | NE => Ok (b2z (negb (n =? m)))
      | EQ => Ok (b2z (n =? m))
      | IDENT => Ok m
      | _ => Fail ArithmeticError
      end
    end
  end.

(** Modelled from the spec: [FloatNum] is not under src/; a binary float kept
    as sign, exponent and mantissa.  Only its negation is used by expr.cpp. *)
Record FloatNum : Type := mkFloat { flt_sign : bool; flt_exponent : Z; flt_mantissa : N }.

Definition float_neg (f : FloatNum) : FloatNum :=
  mkFloat (negb (flt_sign f)) (flt_exponent f) (flt_mantissa f).

(** Registers, symbols and locations are handles compared by identity. *)
Definition Register : Type := nat.
Definition SymbolRef : Type := string.
Record Location : Type := mkLoc { loc_bc : nat; loc_off : Z }.

(** ** Expression terms and expressions *)

Inductive ExprTerm : Type :=
| NONE
| REG (r : Register)
| INT (n : IntNum)
| SUBST (i : nat)
| FLOAT (f : FloatNum)
| SYM (s : SymbolRef)
| LOC (l : Location)
| EXPR (e : Expr)
with Expr : Type :=
| mkExpr (op : Op) (terms : list ExprTerm).

Definition m_op (e : Expr) : Op := match e with mkExpr op _ => op end.
Definition m_terms (e : Expr) : list ExprTerm := match e with mkExpr _ ts => ts end.

Inductive TermType : Type :=
| T_NONE | T_REG | T_INT | T_SUBST | T_FLOAT | T_SYM | T_LOC | T_EXPR.

Scheme Equality for TermType.

Definition get_type (t : ExprTerm) : TermType :=
  match t with
  | NONE => T_NONE | REG _ => T_REG | INT _ => T_INT | SUBST _ => T_SUBST
  | FLOAT _ => T_FLOAT | SYM _ => T_SYM | LOC _ => T_LOC | EXPR _ => T_EXPR
  end.

Definition is_type (t : ExprTerm) (ty : TermType) : bool := TermType_beq (get_type t) ty.
Definition is_empty (t : ExprTerm) : bool := is_type t T_NONE.

Definition get_expr (t : ExprTerm) : option Expr :=
  match t with EXPR e => Some e | _ => None end.
Definition get_int (t : ExprTerm) : option IntNum :=
  match t with INT n => Some n | _ => None end.
Definition get_subst (t : ExprTerm) : option nat :=
  match t with SUBST i => Some i | _ => None end.

(** [m_terms.front()] and [m_terms.back()]: undefined on an empty vector. *)
Definition front (ts : list ExprTerm) : result ExprTerm :=
  match ts with
  | [] => Fail UndefinedBehaviour
  | t :: _ => Ok t
  end.

Fixpoint back (ts : list ExprTerm) : result ExprTerm :=
  match ts with
  | [] => Fail UndefinedBehaviour
  | t :: ts' => match ts' with [] => Ok t | _ :: _ => back ts' end
  end.

(** [m_terms[k]] and the in-place update of that slot. *)
Fixpoint set_nth (k : nat) (t : ExprTerm) (ts : list ExprTerm) : list ExprTerm :=
  match ts, k with
  | [], _ => []
  | _ :: ts', O => t :: ts'
  | x :: ts', S k' => x :: set_nth k' t ts'
  end.

Definition int_at (ts : list ExprTerm) (k : nat) : result IntNum :=
  match nth_error ts k with
  | Some (INT n) => Ok n
  | _ => Fail UndefinedBehaviour
  end.

(** ** ExprTerm::clone, Expr::clone *)

Fixpoint clone (e : Expr) : Expr :=
  match e with
  | mkExpr op ts =>
    mkExpr op (map (fun t => match t with EXPR sube => EXPR (clone sube) | _ => t end) ts)
  end.

Definition clone_term (t : ExprTerm) : ExprTerm :=
  match t with
  | EXPR e => EXPR (clone e)
  | _ => t
  end.

(** ** Traversals *)

Fixpoint traverse_leaves_in (func : ExprTerm -> bool) (e : Expr) : bool :=
  match e with
  | mkExpr _ ts =>
    existsb (fun t => match t with
                      | EXPR sube => traverse_leaves_in func sube
                      | _ => func t
                      end) ts
  end.

Definition contains (ty : TermType) (e : Expr) : bool :=
  traverse_leaves_in (fun t => is_type t ty) e.

(** ** Negative normalization (Expr::xform_neg_term, xform_neg_helper, xform_neg) *)

(** Negate a single term by building the sub-expression [-1 * term]. *)
Definition xform_neg_term (term : ExprTerm) : ExprTerm :=
  EXPR (mkExpr MUL [INT (-1); term]).

(** Negates [e] by multiplying by -1, with distribution over ADD and special
    handling of SUB, NEG and IDENT. *)
Fixpoint xform_neg_helper (e : Expr) : result Expr :=
  match e with
  | mkExpr op ts =>
    match op with
    | ADD =>
      (* distribute (recursively if expr) over terms *)
      ts' <- mapM (fun t => match t with
                            | EXPR sube => r <- xform_neg_helper sube ;; Ok (EXPR r)
                            | _ => Ok (xform_neg_term t)
                            end) ts ;;
      Ok (mkExpr ADD ts')
    | SUB =>
      (* change op to ADD, and recursively negate left side (if expr) *)
      match ts with
      | [] => Fail UndefinedBehaviour
      | EXPR sube :: rest => r <- xform_neg_helper sube ;; Ok (mkExpr ADD (EXPR r :: rest))
      | t :: rest => Ok (mkExpr ADD (xform_neg_term t :: rest))
      end
    | NEG =>
      (* Negating a negated value?  Make it an IDENT. *)
      Ok (mkExpr IDENT ts)
    | IDENT =>
      match ts with
      | [] => Fail UndefinedBehaviour
      | FLOAT flt :: rest => Ok (mkExpr IDENT (FLOAT (float_neg flt) :: rest))
      | INT intn :: rest => n <- calc NEG intn None ;; Ok (mkExpr IDENT (INT n :: rest))
      | EXPR sube :: rest =>
        if contains T_FLOAT sube
        then r <- xform_neg_helper sube ;; Ok (mkExpr IDENT (EXPR r :: rest))
        else Ok (mkExpr MUL (ts ++ [INT (-1)]))
      | _ :: _ => Ok (mkExpr MUL (ts ++ [INT (-1)]))
      end
    | _ =>
      (* Everything else: replace ourselves with -1*e. *)
      Ok (mkExpr MUL [INT (-1); EXPR (mkExpr op ts)])
    end
  end.

(** -x -> -1*x and a-b -> a+(-1*b) at this node. *)
Definition xform_neg (e : Expr) : result Expr :=
  match e with
  | mkExpr NEG ts =>
    (* Turn -x into -1*x *)
    xform_neg_helper (mkExpr IDENT ts)
  | mkExpr SUB ts =>
    (* change op to ADD, and recursively negate right side (if expr) *)
    match ts with
    | lhs :: EXPR sube :: rest =>
      r <- xform_neg_helper sube ;; Ok (mkExpr ADD (lhs :: EXPR r :: rest))
    | lhs :: rhs :: rest => Ok (mkExpr ADD (lhs :: xform_neg_term rhs :: rest))
    | _ => Fail UndefinedBehaviour
    end
  | _ => Ok e
  end.

(** ** Identity tables (is_constant, can_destroy_int_left, can_destroy_int_right) *)

(** Identities that make the entire result constant: 0*x, 0&x, 0&&x, -1|x. *)
Definition is_constant (op : Op) (intn : IntNum) : bool :=
  let iszero := is_zero intn in
  (iszero && Op_beq op MUL) ||
  (iszero && Op_beq op AND) ||
  (iszero && Op_beq op LAND) ||
  (is_neg1 intn && Op_beq op OR).

(** "Left" identities like 0+x, 1*x. *)
Definition can_destroy_int_left (op : Op) (intn : IntNum) : bool :=
  let iszero := is_zero intn in
  (is_pos1 intn && Op_beq op MUL) ||
  (iszero && Op_beq op ADD) ||
  (is_neg1 intn && Op_beq op AND) ||
  (negb iszero && Op_beq op LAND) ||
  (iszero && Op_beq op OR) ||
  (iszero && Op_beq op LOR).

(** "Right" identities like x+0, x-0, x*1, x/1, x<<0. *)
Definition can_destroy_int_right (op : Op) (intn : IntNum) : bool :=
  let iszero := is_zero intn in
  let ispos1 := is_pos1 intn in
  (ispos1 && Op_beq op MUL) ||
  (ispos1 && Op_beq op DIV) ||
  (iszero && Op_beq op ADD) ||
  (iszero && Op_beq op SUB) ||
  (is_neg1 intn && Op_beq op AND) ||
  (negb iszero && Op_beq op LAND) ||
  (iszero && Op_beq op OR) ||
  (iszero && Op_beq op LOR) ||
  (iszero && Op_beq op SHL) ||
  (iszero && Op_beq op SHR).

(** ** Expr::simplify_identity *)

(** [m_terms.erase(std::find_if(begin, end, is_type INT))] *)
Fixpoint erase_first_int (ts : list ExprTerm) : list ExprTerm :=
  match ts with
  | [] => []
  | INT _ :: ts' => ts'
  | t :: ts' => t :: erase_first_int ts'
  end.

(** [*std::find_if(begin, end, is_type INT)] *)
Fixpoint find_first_int (ts : list ExprTerm) : result ExprTerm :=
  match ts with
  | [] => Fail UndefinedBehaviour
  | INT n :: _ => Ok (INT n)
  | _ :: ts' => find_first_int ts'
  end.

(** The C++ parameter [intn] points at the IntNum held by one of the terms; it
    is modelled by the index [intn] of that term ([None] once the pointer has
    been zeroed).  [is_first] is the pointer comparison with the IntNum of the
    front term. *)
Definition simplify_identity (intn : nat) (simplify_reg_mul : bool) (e : Expr)
  : result Expr :=
  let op := m_op e in
  let ts := m_terms e in
  first <- front ts ;;
  n <- int_at ts intn ;;
  let is_first := match first with INT _ => Nat.eqb intn 0 | _ => false end in
  '(ts1, intn1) <-
    (if Nat.ltb 1 (length ts)
     then
       if (simplify_reg_mul || negb (Op_beq op MUL) || negb (is_pos1 n) ||
           negb (contains T_REG e)) &&
          ((is_first && can_destroy_int_left op n) ||
           (negb is_first && can_destroy_int_right op n))
       then (* delete int term *)
         Ok (erase_first_int ts, None)
       else if is_constant op n
       then (* delete everything but the integer term *)
         i <- find_first_int ts ;; Ok ([i], Some O)
       else Ok (ts, Some intn)
     else Ok (ts, Some intn)) ;;
  (* Compute NOT, NEG, and LNOT on single intnum. *)
  ts2 <-
    (match intn1 with
     | Some k =>
       if Nat.eqb (length ts1) 1 && is_first &&
          (Op_beq op NOT || Op_beq op NEG || Op_beq op LNOT)
       then v <- int_at ts1 k ;; v' <- calc op v None ;; Ok (set_nth k (INT v') ts1)
       else Ok ts1
     | None => Ok ts1
     end) ;;
  (* Change expression to IDENT if possible. *)
  Ok (mkExpr (if Nat.eqb (length ts2) 1 then IDENT else op) ts2).

(** ** Expr::level_op *)

(** The inner [while (e && e->m_op == Op::IDENT)] loop of the first pass:
    search downward until something other than an IDENT is found, taking the
    back term of each IDENT wrapper. *)
Fixpoint strip_ident (t : ExprTerm) : result ExprTerm :=
  match t with
  | EXPR (mkExpr IDENT ts) =>
    (fix back_of (l : list ExprTerm) : result ExprTerm :=
       match l with
       | [] => Fail UndefinedBehaviour
       | x :: l' => match l' with [] => strip_ident x | _ :: _ => back_of l' end
       end) ts
  | _ => Ok t
  end.

Definition same_op_expr (op : Op) (t : ExprTerm) : bool :=
  match t with
  | EXPR e => Op_beq (m_op e) op
  | _ => false
  end.

(** First pass over the terms, left to right.  [done] holds the terms already
    visited, [int_term] the index of the first integer term (C++ -1 is [None]),
    [do_level] the shortcut flag.  Later integers are folded into the first
    with [calc] and their slot is destroyed (set to NONE). *)
Fixpoint level_scan (op : Op) (fold_const : bool) (todo done : list ExprTerm)
         (int_term : option nat) (do_level : bool)
  : result (list ExprTerm * option nat * bool) :=
  match todo with
  | [] => Ok (done, int_term, do_level)
  | t :: todo' =>
    t1 <- strip_ident t ;;
    let do_level' := do_level || same_op_expr op t1 in
    match t1 with
    | INT n =>
      if fold_const
      then match int_term with
           | None =>
             level_scan op fold_const todo' (done ++ [t1]) (Some (length done)) do_level'
           | Some k =>
             v <- int_at done k ;;
             v' <- calc op v (Some n) ;;
             level_scan op fold_const todo' (set_nth k (INT v') done ++ [NONE])
                        int_term do_level'
           end
      else level_scan op fold_const todo' (done ++ [t1]) int_term do_level'
    | _ => level_scan op fold_const todo' (done ++ [t1]) int_term do_level'
    end
  end.

(** [std::remove_if(begin+int_term+1, end, is_empty)] followed by [erase]. *)
Definition erase_folded (int_term : nat) (ts : list ExprTerm) : list ExprTerm :=
  firstn (S int_term) ts ++ filter (fun t => negb (is_empty t)) (skipn (S int_term) ts).

(** "If just an IDENT'ed expression, bring up expression to this level." *)
Definition bring_up (e : Expr) : result Expr :=
  match m_op e with
  | IDENT =>
    first <- front (m_terms e) ;;
    match first with
    | EXPR sube => Ok sube
    | _ => Ok e
    end
  | _ => Ok e
  end.

(** The inner loop of the second pass: move up the terms of a same-operator
    child, back to front ([sub_rev] is the child's term list reversed), folding
    constants into [terms[int_term]]. *)
Fixpoint level_move_up (op : Op) (fold_const : bool) (sub_rev terms : list ExprTerm)
         (int_term : option nat) : result (list ExprTerm * option nat) :=
  match sub_rev with
  | [] => Ok (terms, int_term)
  | last :: rest =>
    match last with
    | INT n =>
      if fold_const
      then match int_term with
           | Some k =>
             v <- int_at terms k ;;
             v' <- calc op v (Some n) ;;
             level_move_up op fold_const rest (set_nth k (INT v') terms) int_term
           | None =>
             level_move_up op fold_const rest (terms ++ [last]) (Some (length terms))
           end
      else level_move_up op fold_const rest (terms ++ [last]) int_term
    | _ => level_move_up op fold_const rest (terms ++ [last]) int_term
    end
  end.

(** The second pass, over the node's terms in reverse order ([ts_rev]); [terms]
    is the vector being filled by push_back. *)
Fixpoint level_copy_up (op : Op) (fold_const : bool) (ts_rev terms : list ExprTerm)
         (int_term : option nat) : result (list ExprTerm * option nat) :=
  match ts_rev with
  | [] => Ok (terms, int_term)
  | t :: rest =>
    match t with
    | EXPR (mkExpr op' sub) =>
      if Op_beq op' op
      then
        '(terms', int_term') <- level_move_up op fold_const (rev sub) terms int_term ;;
        level_copy_up op fold_const rest terms' int_term'
      else level_copy_up op fold_const rest (terms ++ [t]) int_term
    | INT _ =>
      level_copy_up op fold_const rest (terms ++ [t])
                    (match int_term with None => Some (length terms) | Some k => Some k end)
    | _ => level_copy_up op fold_const rest (terms ++ [t]) int_term
    end
  end.

(** "else if (m_terms.size() == 1) m_op = Op::IDENT" *)
Definition ident_if_single (e : Expr) : Expr :=
  mkExpr (if Nat.eqb (length (m_terms e)) 1 then IDENT else m_op e) (m_terms e).

Definition level_op (fold_const simplify_ident simplify_reg_mul : bool) (e : Expr)
  : result Expr :=
  let op := m_op e in
  (* If non-numeric expression, don't fold constants. *)
  let fold_const := if is_nonnum op then false else fold_const in
  '(ts, int_term, do_level) <- level_scan op fold_const (m_terms e) [] None false ;;
  e1 <-
    (match int_term with
     | Some k =>
       (* Erase folded integer terms *)
       let e' := mkExpr op (erase_folded k ts) in
       (* Simplify identities and make IDENT if possible. *)
       if simplify_ident
       then simplify_identity k simplify_reg_mul e'
       else Ok (ident_if_single e')
     | None => Ok (mkExpr op ts)
     end) ;;
  e2 <- bring_up e1 ;;
  (* Only level associative operators, and only when there is something to
     bring up. *)
  if negb do_level || negb (is_associative (m_op e2))
  then Ok e2
  else
    let op2 := m_op e2 in
    '(terms, int_term2) <- level_copy_up op2 fold_const (rev (m_terms e2)) [] None ;;
    let e3 := mkExpr op2 (rev terms) in
    e4 <-
      (match int_term2 with
       | Some k =>
         if simplify_ident
         then simplify_identity ((length (m_terms e3) - 1) - k) simplify_reg_mul e3
         else Ok (ident_if_single e3)
       | None => Ok (ident_if_single e3)
       end) ;;
    bring_up e4.

(** ** Expr::level_tree *)

(** "Check for SEG of SEG:OFF, if we match, simplify to just the segment". *)
Definition seg_of_segoff (e : Expr) : result Expr :=
  match m_op e with
  | SEG =>
    first <- front (m_terms e) ;;
    match first with
    | EXPR (mkExpr SEGOFF sub) =>
      _ <- back sub ;;
      Ok (mkExpr IDENT (EXPR (mkExpr IDENT (removelast sub)) :: tl (m_terms e)))
    | _ => Ok e
    end
  | _ => Ok e
  end.

(** The recursion follows the terms of the node after [xform_neg], which are
    not sub-terms of the argument, so it is bounded by [fuel]. *)
Fixpoint level_tree (fuel : nat) (fold_const simplify_ident simplify_reg_mul : bool)
         (xform_extra : option (Expr -> Expr)) (e : Expr) : result Expr :=
  match fuel with
  | O => Fail OutOfFuel
  | S fuel' =>
    e1 <- xform_neg e ;;
    (* Recurse into all expr terms first *)
    ts <- mapM (fun t => match t with
                         | EXPR sube =>
                           r <- level_tree fuel' fold_const simplify_ident
                                           simplify_reg_mul xform_extra sube ;;
                           Ok (EXPR r)
                         | _ => Ok t
                         end) (m_terms e1) ;;
    e2 <- seg_of_segoff (mkExpr (m_op e1) ts) ;;
    (* Do this level *)
    e3 <- level_op fold_const simplify_ident simplify_reg_mul e2 ;;
    (* Do callback, then the cleanup recursion pass without it *)
    match xform_extra with
    | Some f => level_tree fuel' fold_const simplify_ident simplify_reg_mul None (f e3)
    | None => Ok e3
    end
  end.

(** Height of an expression tree; twice the height is enough fuel. *)
Fixpoint expr_height (e : Expr) : nat :=
  match e with
  | mkExpr _ ts =>
    S (fold_right (fun t acc => Nat.max (match t with
                                         | EXPR sube => expr_height sube
                                         | _ => O
                                         end) acc) O ts)
  end.

Definition level_fuel (e : Expr) : nat := (2 * expr_height e)%nat.

(** ** Expr::traverse_post, substitute_cb, substitute *)

(** A callback mutates the node it is given and returns a stop flag; the pair
    is the returned flag and the node afterwards. *)

(** The loop over the terms: [rec] is the traversal of a sub-expression; the
    loop returns as soon as one of them asks to stop. *)
Definition traverse_post_terms (rec : Expr -> bool * Expr)
  : list ExprTerm -> bool * list ExprTerm :=
  fix go (l : list ExprTerm) : bool * list ExprTerm :=
    match l with
    | [] => (false, [])
    | EXPR sube :: l' =>
      let '(stop, r) := rec sube in
      if stop
      then (true, EXPR r :: l')
      else let '(stop', rs) := go l' in (stop', EXPR r :: rs)
    | t :: l' => let '(stop', rs) := go l' in (stop', t :: rs)
    end.

Fixpoint traverse_post (func : Expr -> bool * Expr) (e : Expr) : bool * Expr :=
  match e with
  | mkExpr op ts =>
    let '(stop, ts') := traverse_post_terms (traverse_post func) ts in
    if stop then (true, mkExpr op ts') else func (mkExpr op ts')
  end.

Fixpoint substitute_cb_terms (subst_terms ts : list ExprTerm) : bool * list ExprTerm :=
  match ts with
  | [] => (false, [])
  | t :: ts' =>
    match get_subst t with
    | None => let '(err, rs) := substitute_cb_terms subst_terms ts' in (err, t :: rs)
    | Some substp =>
      if Nat.leb (length subst_terms) substp
      then (true, t :: ts')   (* error *)
      else
        let '(err, rs) := substitute_cb_terms subst_terms ts' in
        (err, clone_term (nth substp subst_terms NONE) :: rs)
    end
  end.

Definition substitute_cb (subst_terms : list ExprTerm) (e : Expr) : bool * Expr :=
  let '(err, ts) := substitute_cb_terms subst_terms (m_terms e) in
  (err, mkExpr (m_op e) ts).

Definition substitute (subst_terms : list ExprTerm) (e : Expr) : bool * Expr :=
  traverse_post (substitute_cb subst_terms) e.

(** ** Expr::extract_segoff, Expr::extract_wrt *)

(** The pair is the returned auto_ptr ([None] is the null pointer) and the
    expression afterwards. *)
Definition extract_segoff (e : Expr) : option Expr * Expr :=
  (* If not SEG:OFF, we can't do this transformation *)
  if negb (Op_beq (m_op e) SEGOFF) || negb (Nat.eqb (length (m_terms e)) 2)
  then (None, e)
  else
    match m_terms e with
    | left_ :: rest =>
      (* Extract the SEG portion out to its own expression *)
      let retval := match left_ with
                    | EXPR sube => sube
                    | _ => mkExpr IDENT [left_]
                    end in
      (* Change the expression into an IDENT *)
      (Some retval, mkExpr IDENT rest)
    | [] => (None, e)
    end.

Definition extract_wrt (e : Expr) : option Expr * Expr :=
  (* If not WRT, we can't do this transformation *)
  if negb (Op_beq (m_op e) WRT) || negb (Nat.eqb (length (m_terms e)) 2)
  then (None, e)
  else
    match back (m_terms e) with
    | Ok right_ =>
      (* Extract the right side portion out to its own expression *)
      let retval := match right_ with
                    | EXPR sube => sube
                    | _ => mkExpr IDENT [right_]
                    end in
      (* Change the expr into an IDENT *)
      (Some retval, mkExpr IDENT (removelast (m_terms e)))
    | Fail _ => (None, e)
    end.

(** ** Bytes (libyasmx/Bytes.h) *)

(** [size_type] is an unsigned machine word; its arithmetic wraps. *)
Definition size_type_bits : Z := 64.
Definition size_type_wrap (x : Z) : Z := x mod 2 ^ size_type_bits.

Record Bytes : Type := mkBytes {
  bytes_vector : list Byte.byte;   (* the private std::vector<unsigned char> base *)
  m_bigendian : bool;
  m_readpos : Z
}.

Definition size (b : Bytes) : Z := Z.of_nat (length (bytes_vector b)).

Definition set_readpos (pos : Z) (b : Bytes) : Bytes :=
  mkBytes (bytes_vector b) (m_bigendian b) pos.

Definition get_readpos (b : Bytes) : Z := m_readpos b.

(** [&(at(pos))]: the address of element [pos], as its index in the buffer;
    [std::vector::at] throws std::out_of_range unless [pos < size()]. *)
Definition at_ (b : Bytes) (pos : Z) : result Z :=
  if pos <? size b then Ok pos else Fail OutOfRange.

(** [read(n)]; the pair is the buffer afterwards and the returned pointer or
    the exception thrown. *)
Definition read (n : Z) (b : Bytes) : Bytes * result Z :=
  let oldpos := m_readpos b in
  let b' := set_readpos (size_type_wrap (m_readpos b + n)) b in
  if size b' <? m_readpos b'
  then (b', Fail OutOfRange)
  else (b', at_ b' oldpos).

(** ** The NASM front end *)

Module Nasm.

Section Collaborators.

(** The object and its symbols are collaborators whose code is not under
  src/; the parser and the evaluator reach them only through these calls.
  A [SymbolRef] wraps a pointer that may be null. *)
Variable Object : Type.
Variable Symbol : Type.

Definition SymbolRef : Type := option Symbol.

Variable getSymbol : string -> Object -> SymbolRef * Object.
Variable FindSpecialSymbol : string -> Object -> SymbolRef.
Variable getName : Symbol -> string.

(** *** yasmx Expr as the front end uses it *)

(** Modelled from the spec: yasmx/Expr.h is not under src/.  The front end
  builds an expression by appending terms and operators ([Append],
  [AppendOp], [Calc]), so it is kept as the postfix sequence these calls
  produce; an operator item records how many operands it takes. *)
Inductive ExprItem : Type :=
| X_INT (n : IntNum)
| X_SYM (s : Symbol)
| X_OP (op : Op) (nchild : nat).

Definition Expr : Type := list ExprItem.

Definition isEmpty (e : Expr) : bool :=
match e with [] => true | _ :: _ => false end.

Definition Expr_int (n : IntNum) : Expr := [X_INT n].
Definition Expr_sym (s : Symbol) : Expr := [X_SYM s].
Definition Append (e f : Expr) : Expr := e ++ f.
Definition AppendOp (e : Expr) (op : Op) (nchild : nat) : Expr := e ++ [X_OP op nchild].
(** [e.Calc(op)] and [e.Calc(op, f)] *)
Definition Calc1 (op : Op) (e : Expr) : Expr := AppendOp e op 1.
Definition Calc (op : Op) (e f : Expr) : Expr := AppendOp (Append e f) op 2.
(** The free function [SUB(a, b)] *)
Definition SUB_ (a b : Expr) : Expr := Calc SUB a b.

(** The value of an expression once every symbol in it has a value. *)
Fixpoint eval_items (symval : Symbol -> option Z) (items : Expr) (stack : list Z)
: option (list Z) :=
match items with
| [] => Some stack
| X_INT n :: rest => eval_items symval rest (n :: stack)
| X_SYM s :: rest =>
  match symval s with
  | Some v => eval_items symval rest (v :: stack)
  | None => None
  end
| X_OP op 1 :: rest =>
  match stack with
  | a :: st =>
    match calc op a None with
    | Ok v => eval_items symval rest (v :: st)
    | Fail _ => None
    end
  | _ => None
  end
| X_OP op 2 :: rest =>
  match stack with
  | b :: a :: st =>
    match calc op a (Some b) with
    | Ok v => eval_items symval rest (v :: st)
    | Fail _ => None
    end
  | _ => None
  end
| X_OP _ _ :: _ => None
end.

Definition eval (symval : Symbol -> option Z) (e : Expr) : option Z :=
match eval_items symval e [] with
| Some [v] => Some v
| _ => None
end.

(** *** NasmParser state *)

Inductive Bytecode : Type :=
| BC_Align (boundary : Expr) (fill maxskip : Expr)
| BC_Other.

Inductive Definition_ : Type :=
| DefineEqu (e : Expr)      (* CheckedDefineEqu(m_abspos, ...) *)
| DefineLabelAt (bc : nat). (* CheckedDefineLabel at a fresh bytecode of the container *)

Inductive DiagID : Type :=
| warn_no_nonlocal.

Record NasmParser : Type := mkParser {
m_object : Object;
m_locallabel_base : string;
m_absstart : Expr;
m_abspos : Expr;
section_align : Z;                   (* getAlign() of the current section *)
section_bytecodes : list Bytecode;   (* the bytecodes of the current section *)
defined : list (Symbol * Definition_);
diagnostics : list DiagID
}.

Definition with_object (o : Object) (p : NasmParser) : NasmParser :=
mkParser o (m_locallabel_base p) (m_absstart p) (m_abspos p) (section_align p)
         (section_bytecodes p) (defined p) (diagnostics p).
Definition with_locallabel_base (s : string) (p : NasmParser) : NasmParser :=
mkParser (m_object p) s (m_absstart p) (m_abspos p) (section_align p)
         (section_bytecodes p) (defined p) (diagnostics p).
Definition with_abspos (e : Expr) (p : NasmParser) : NasmParser :=
mkParser (m_object p) (m_locallabel_base p) (m_absstart p) e (section_align p)
         (section_bytecodes p) (defined p) (diagnostics p).
Definition with_section (a : Z) (bcs : list Bytecode) (p : NasmParser) : NasmParser :=
mkParser (m_object p) (m_locallabel_base p) (m_absstart p) (m_abspos p) a bcs
         (defined p) (diagnostics p).
Definition with_defined (s : Symbol) (d : Definition_) (p : NasmParser) : NasmParser :=
mkParser (m_object p) (m_locallabel_base p) (m_absstart p) (m_abspos p)
         (section_align p) (section_bytecodes p) (defined p ++ [(s, d)])
         (diagnostics p).
Definition Diag (d : DiagID) (p : NasmParser) : NasmParser :=
mkParser (m_object p) (m_locallabel_base p) (m_absstart p) (m_abspos p)
         (section_align p) (section_bytecodes p) (defined p) (diagnostics p ++ [d]).

(** An identifier with its cached symbol ([isSymbol()] holds when the cache
  is filled). *)
Record IdentifierInfo : Type := mkII {
ii_name : string;
ii_symbol : option SymbolRef
}.

Definition setSymbol (sym : SymbolRef) (ii : IdentifierInfo) : IdentifierInfo :=
mkII (ii_name ii) (Some sym).

(** [name[k]] on the NUL-terminated name. *)
Definition char_at (name : string) (k : nat) : ascii :=
match String.get k name with
| Some c => c
| None => Ascii.zero
end.

(** [name + k] *)
Definition advance (k : nat) (name : string) : string :=
String.substring k (String.length name - k) name.

(** *** NasmParser::ParseSymbol *)

Record ParsedSymbol : Type := mkParsed {
ps_sym : SymbolRef;        (* the returned reference *)
ps_local : bool;           (* what is stored through [local] *)
ps_ii : IdentifierInfo;    (* the identifier afterwards *)
ps_parser : NasmParser     (* the parser afterwards *)
}.

Definition ParseSymbol (ii : IdentifierInfo) (p : NasmParser) : ParsedSymbol :=
let name := ii_name ii in
let len := String.length (ii_name ii) in
(* see if there's a cached version *)
match ii_symbol ii with
| Some cached => mkParsed cached false ii p
| None =>
  (* skip over initial $ (forced identifier) *)
  let name := if Ascii.eqb (char_at name 0) "$" then advance 1 name else name in
  (* check for local labels *)
  if Nat.ltb 1 len && Ascii.eqb (char_at name 0) "."
  then
    (* check for special labels like ..start *)
    if Nat.ltb 2 len && Ascii.eqb (char_at name 1) "."
    then
      (* check for non-local ..@label *)
      if Nat.ltb 3 len && Ascii.eqb (char_at name 2) "@"
      then
        let '(sym, o) := getSymbol name (m_object p) in
        mkParsed sym false (setSymbol sym ii) (with_object o p)
      else
        (* otherwise it's a special symbol; skip the ".." portion *)
        let sym := FindSpecialSymbol (advance 2 name) (m_object p) in
        mkParsed sym false (setSymbol sym ii) p
    else
      let p1 := if Nat.eqb (String.length (m_locallabel_base p)) 0
                then Diag warn_no_nonlocal p else p in
      (* don't try to cache local labels *)
      let '(sym, o) := getSymbol (m_locallabel_base p ++ name)%string (m_object p1) in
      mkParsed sym true ii (with_object o p1)
  else
    (* just a normal label *)
    let '(sym, o) := getSymbol name (m_object p) in
    mkParsed sym false (setSymbol sym ii) (with_object o p)
end.

(** *** NasmParser::DefineLabel *)

Definition DefineLabel (sym : SymbolRef) (local : bool) (p : NasmParser)
: result NasmParser :=
match sym with
| None => Fail UndefinedBehaviour
| Some s =>
  let p1 := if negb local then with_locallabel_base (getName s) p else p in
  if negb (isEmpty (m_abspos p1))
  then Ok (with_defined s (DefineEqu (m_abspos p1)) p1)
  else Ok (with_defined s (DefineLabelAt (length (section_bytecodes p1))) p1)
end.

(** *** NasmParser::DirAlign *)

(** Modelled from the spec: [isIntNum] and [getIntNum] of yasmx Expr are not
  under src/; an expression is an integer when it is a single integer term,
  and [getIntNum] gives that term ([None] when [isIntNum] is false). *)
Definition getIntNum (e : Expr) : option IntNum :=
match e with [X_INT n] => Some n | _ => None end.

(** Modelled from the spec: [isExp2] is not under src/; powers of two. *)
Definition isExp2 (v : Z) : bool := Z.land v (v - 1) =? 0.

(** [Expr::Simplify] and [IntNum::getUInt] are not under src/ and the spec
  does not describe them; they are collaborators. *)
Variable Simplify : Expr -> Expr.
Variable getUInt : IntNum -> Z.

(** [boundval] is [namevals.front().getExpr(object)]. *)
Definition DirAlign (boundval : Expr) (p : NasmParser) : NasmParser :=
if negb (isEmpty (m_abspos p))
then
  (* an align directive in an absolute section: handle it gracefully *)
  let e := SUB_ (m_absstart p) (m_abspos p) in
  let e := Calc AND e (SUB_ boundval (Expr_int 1)) in
  with_abspos (Calc ADD (m_abspos p) e) p
else
  (* Largest .align in the section specifies section alignment. *)
  let boundval := Simplify boundval in
  let align :=
    match getIntNum boundval with
    | Some n =>
      let boundint := getUInt n in
      (* Alignments must be a power of two. *)
      if isExp2 boundint && (section_align p <? boundint)
      then boundint else section_align p
    | None => section_align p
    end in
  (* AppendAlign with nop fill *)
  with_section align (section_bytecodes p ++ [BC_Align boundval [] []]) p.

(** *** The preprocessor expression evaluator (nasm-eval.cpp) *)

(** Modelled from the spec: the token numbers of nasm.h are not under src/;
  a single-character token carries its character. *)
Inductive token : Type :=
| TOKEN_CHAR (c : ascii)
| TOKEN_INVALID | TOKEN_EOS
| TOKEN_EQ | TOKEN_GT | TOKEN_GE | TOKEN_LT | TOKEN_LE | TOKEN_NE
| TOKEN_ID | TOKEN_NUM | TOKEN_HERE | TOKEN_BASE
| TOKEN_SHL | TOKEN_SHR | TOKEN_SDIV | TOKEN_SMOD
| TOKEN_SEG | TOKEN_WRT
| TOKEN_DBL_AND | TOKEN_DBL_OR | TOKEN_DBL_XOR | TOKEN_TERN
| TOKEN_PPDIR.

Record tokenval : Type := mkTokenval {
t_type : token;
t_integer : IntNum;
t_charptr : string
}.

Inductive severity : Type := ERR_NONFATAL | ERR_FATAL.

(** One call of the error routine: severity, format and its %s arguments. *)
Record error_call : Type := mkError {
err_severity : severity;
err_format : string;
err_args : list string
}.

(** What the scanner keeps behind [scpriv]. *)
Variable Private : Type.

(** The functions [bexpr] can point to. *)
Inductive bexpr_fn : Type := bexpr_rexpc | bexpr_expr0.

(** The file-scope variables of nasm-eval.cpp.  A pointer is kept as what it
  points to: [tokval] is the token structure, [scpriv] the state of the
  scanner behind the pointer. *)
Record EvalState : Type := mkEval {
i : token;                       (* the t_type of tokval *)
tokval : tokenval;               (* the current token *)
scpriv : Private;
bexpr : bexpr_fn;
yasm_object : option Object;     (* null when there is no object *)
used : list Symbol;              (* symbols marked by Use() *)
errors : list error_call         (* calls of the error routine, in order *)
}.

(** The scanner installed by [setfuncs]. *)
Variable scan : Private -> tokenval -> token * tokenval * Private.

(** [i = scan(scpriv, tokval)] *)
Definition do_scan (st : EvalState) : EvalState :=
let '(t, tv, priv) := scan (scpriv st) (tokval st) in
mkEval t tv priv (bexpr st) (yasm_object st) (used st) (errors st).

Definition error (sev : severity) (fmt : string) (args : list string) (st : EvalState)
: EvalState :=
mkEval (i st) (tokval st) (scpriv st) (bexpr st) (yasm_object st) (used st)
       (errors st ++ [mkError sev fmt args]).

Definition with_private (priv : Private) (st : EvalState) : EvalState :=
mkEval (i st) (tokval st) priv (bexpr st) (yasm_object st) (used st) (errors st).

Definition with_tokval (tv : tokenval) (st : EvalState) : EvalState :=
mkEval (i st) tv (scpriv st) (bexpr st) (yasm_object st) (used st) (errors st).

Definition with_yasm_object (o : Object) (st : EvalState) : EvalState :=
mkEval (i st) (tokval st) (scpriv st) (bexpr st) (Some o) (used st) (errors st).

Definition Use (s : Symbol) (st : EvalState) : EvalState :=
mkEval (i st) (tokval st) (scpriv st) (bexpr st) (yasm_object st) (used st ++ [s])
       (errors st).

End Collaborators.

Arguments X_INT {Symbol} n.
Arguments X_SYM {Symbol} s.
Arguments X_OP {Symbol} op nchild.
Arguments isEmpty {Symbol} e.
Arguments Expr_int {Symbol} n.
Arguments Expr_sym {Symbol} s.
Arguments Calc1 {Symbol} op e.
Arguments Calc {Symbol} op e f.
Arguments SUB_ {Symbol} a b.
Arguments eval {Symbol} symval e.
Arguments eval_items {Symbol} symval items stack.
Arguments mkParser {Object Symbol}.
Arguments m_object {Object Symbol} n.
Arguments m_locallabel_base {Object Symbol} n.
Arguments m_absstart {Object Symbol} n.
Arguments m_abspos {Object Symbol} n.
Arguments section_align {Object Symbol} n.
Arguments section_bytecodes {Object Symbol} n.
Arguments defined {Object Symbol} n.
Arguments diagnostics {Object Symbol} n.
Arguments with_object {Object Symbol} o p.
Arguments with_locallabel_base {Object Symbol} s p.
Arguments with_abspos {Object Symbol} e p.
Arguments with_section {Object Symbol} a bcs p.
Arguments with_defined {Object Symbol} s d p.
Arguments Diag {Object Symbol} d p.
Arguments BC_Align {Symbol} boundary fill maxskip.
Arguments BC_Other {Symbol}.
Arguments DefineEqu {Symbol} e.
Arguments DefineLabelAt {Symbol} bc.
Arguments mkII {Symbol}.
Arguments ii_name {Symbol} i.
Arguments ii_symbol {Symbol} i.
Arguments setSymbol {Symbol} sym ii.
Arguments mkParsed {Object Symbol}.
Arguments ps_sym {Object Symbol} p.
Arguments ps_local {Object Symbol} p.
Arguments ps_ii {Object Symbol} p.
Arguments ps_parser {Object Symbol} p.
Arguments ParseSymbol {Object Symbol} getSymbol FindSpecialSymbol ii p.
Arguments DefineLabel {Object Symbol} getName sym local p.
Arguments getIntNum {Symbol} e.
Arguments DirAlign {Object Symbol} Simplify getUInt boundval p.
Arguments mkEval {Object Symbol Private}.
Arguments i {Object Symbol Private} e.
Arguments tokval {Object Symbol Private} e.
Arguments scpriv {Object Symbol Private} e.
Arguments yasm_object {Object Symbol Private} e.
Arguments used {Object Symbol Private} e.
Arguments bexpr {Object Symbol Private} e.
Arguments errors {Object Symbol Private} e.
Arguments do_scan {Object Symbol Private} scan st.
Arguments error {Object Symbol Private} sev fmt args st.
Arguments with_private {Object Symbol Private} priv st.
Arguments with_tokval {Object Symbol Private} tv st.
Arguments with_yasm_object {Object Symbol Private} o st.
Arguments Use {Object Symbol Private} s st.

End Nasm.


(** * Further code of the same files

    The rest of [libyasmx/expr.cpp] (building, cloning and searching
    expressions), [lib/yasmx/AssocData.cpp], [lib/yasmx/Support/StringExtras.cpp],
    the keyword and pseudo-instruction recognisers of
    [modules/parsers/nasm/NasmParser_parse.cpp] and the recursive-descent
    evaluator of [modules/parsers/nasm/nasm-eval.cpp]. *)

(** ** Building expressions (Expr::add_term and the constructors) *)

(** A constructor returns the expression or throws ValueError. *)
Inductive constructed (A : Type) : Type :=
| Built (a : A)
| ValueError (msg : string).
Arguments Built {A} a.
Arguments ValueError {A} msg.

(** The loop of [add_term]: "search downward until we find something other
    than an IDENT"; the result is [copyfrom], the last IDENT met ([None] is
    the null pointer). *)
Fixpoint copyfrom (e : Expr) : option Expr :=
  match e with
  | mkExpr IDENT ts =>
    match ts with
    | [EXPR sube] =>
      match copyfrom sube with
      | Some c => Some c
      | None => Some e
      end
    | _ => Some e
    end
  | mkExpr _ _ => None
  end.

Definition add_term (term : ExprTerm) (e : Expr) : Expr :=
  match get_expr term with
  | None => mkExpr (m_op e) (m_terms e ++ [term])
  | Some base_e =>
    match copyfrom base_e with
    | None => mkExpr (m_op e) (m_terms e ++ [EXPR base_e])
    | Some c =>
      (* Transfer the terms up *)
      mkExpr (m_op e) (m_terms e ++ m_terms c)
    end
  end.

(** [Expr(Op::Op op)] *)
Definition Expr_op (op : Op) : Expr := mkExpr op [].

(** [Expr(const ExprTerm& a, Op::Op op, const ExprTerm& b)] *)
Definition Expr_binary (a : ExprTerm) (op : Op) (b : ExprTerm) : Expr :=
  add_term b (add_term a (Expr_op op)).

(** [Expr(Op::Op op, const ExprTerm& a)] *)
Definition Expr_unary (op : Op) (a : ExprTerm) : constructed Expr :=
  if negb (is_unary op)
  then ValueError "expression with one term must be unary"
  else Built (add_term a (Expr_op op)).

(** [Expr(Op::Op op, const ExprTerms& terms)] *)
Definition Expr_terms (op : Op) (terms : list ExprTerm) : constructed Expr :=
  match length terms with
  | 0%nat => ValueError "expression must have more than 0 terms"
  | 1%nat =>
    if negb (is_unary op)
    then ValueError "expression with one term must be unary"
    else Built (mkExpr op (map clone_term terms))
  | 2%nat => Built (mkExpr op (map clone_term terms))
  | _ =>
    (* more than 2 terms *)
    if negb (is_associative op)
    then ValueError "expression with more than two terms must be associative"
    else Built (mkExpr op (map clone_term terms))
  end.

(** [Expr(const ExprTerm& a)] *)
Definition Expr_ident (a : ExprTerm) : Expr := add_term a (Expr_op IDENT).

(** ** Expr::clone(int except) *)

(** The copy loop of [clone]: [j] counts the terms from 0. *)
Fixpoint clone_terms_except (except j : Z) (ts : list ExprTerm) : list ExprTerm :=
  match ts with
  | [] => []
  | t :: ts' =>
    if j =? except
    then clone_terms_except except (j + 1) ts'
    else clone_term t :: clone_terms_except except (j + 1) ts'
  end.

Definition clone_except (except : Z) (e : Expr) : Expr :=
  if (except =? -1) || Nat.eqb (length (m_terms e)) 1
  then clone e
  else mkExpr (m_op e) (clone_terms_except except 0 (m_terms e)).

(** ** Expr::get_intnum *)

(** The null pointer is [None]; [front()] of an empty vector is undefined. *)
Definition get_intnum (e : Expr) : result (option IntNum) :=
  if Op_beq (m_op e) IDENT
  then t <- front (m_terms e) ;; Ok (get_int t)
  else Ok None.

(** ** Expr::extract_deep_segoff *)

(** The pair is the returned auto_ptr and the expression afterwards. *)
Fixpoint extract_deep_segoff (e : Expr) : option Expr * Expr :=
  (* Try to extract at this level *)
  match extract_segoff e with
  | (Some retval, e') => (Some retval, e')
  | (None, _) =>
    (* Not at this level?  Search any expr children. *)
    match e with
    | mkExpr op ts =>
      let '(retval, ts') :=
        (fix search (l : list ExprTerm) : option Expr * list ExprTerm :=
           match l with
           | [] => (None, [])
           | EXPR c :: l' =>
             match extract_deep_segoff c with
             | (Some r, c') => (Some r, EXPR c' :: l')
             | (None, c') => let '(r, l'') := search l' in (r, EXPR c' :: l'')
             end
           | t :: l' => let '(r, l'') := search l' in (r, t :: l'')
           end) ts in
      (retval, mkExpr op ts')
    end
  end.

(** ** Extra string functions (lib/yasmx/Support/StringExtras.cpp) *)

(** The classification of <cctype> in the "C" locale.  Its functions are
    defined on the values of unsigned char and on EOF only. *)
Definition EOF : Z := -1.
Definition ctype_defined (ch : Z) : bool := (ch =? EOF) || ((0 <=? ch) && (ch <=? 255)).
Definition isprint (ch : Z) : bool := (32 <=? ch) && (ch <=? 126).
Definition iscntrl (ch : Z) : bool := ((0 <=? ch) && (ch <=? 31)) || (ch =? 127).

(** The character appended by [unprint += ch]. *)
Definition char_of (ch : Z) : ascii := ascii_of_N (Z.to_N (ch mod 256)).

Definition ConvUnprint (ch : Z) : result string :=
  let high := negb (Z.land ch (Z.lnot 127) =? 0) in
  if high && negb (ctype_defined ch)
  then Fail UndefinedBehaviour
  else
    let '(unprint, ch) :=
      if high && negb (isprint ch)
      then ("M-"%string, Z.land ch 127)
      else (EmptyString, ch) in
    if negb (ctype_defined ch)
    then Fail UndefinedBehaviour
    else if iscntrl ch
    then Ok (String.append unprint
               (String "^" (String (if ch =? 127 then "?"%char else char_of (Z.lor ch 64))
                                   EmptyString)))
    else Ok (String.append unprint (String (char_of ch) EmptyString)).

(** ** Associated data (lib/yasmx/AssocData.cpp) *)

Section AssocDataContainer.

(** The data behind an [AssocData*]; the key is a [const void*], compared by
    address. *)
Variable AssocData : Type.

Record AssocMapEntry : Type := mkEntry {
key : nat;
value : option AssocData      (* a pointer that may be null *)
}.

(** [m_assoc_map] *)
Definition AssocMap : Type := list AssocMapEntry.

(** The pair is the returned auto_ptr (the previous data of the key, or null)
    and the map afterwards. *)
Fixpoint add_assoc_data (k : nat) (data : option AssocData) (m_assoc_map : AssocMap)
: option AssocData * AssocMap :=
match m_assoc_map with
| [] =>
  (* not found, insert at end *)
  (None, [mkEntry k data])
| i :: rest =>
  if Nat.eqb (key i) k
  then (value i, mkEntry (key i) data :: rest)
  else let '(rv, rest') := add_assoc_data k data rest in (rv, i :: rest')
end.

Fixpoint get_assoc_data (k : nat) (m_assoc_map : AssocMap) : option AssocData :=
match m_assoc_map with
| [] => None
| i :: rest => if Nat.eqb (key i) k then value i else get_assoc_data k rest
end.

End AssocDataContainer.

Arguments mkEntry {AssocData} key value.
Arguments key {AssocData} a.
Arguments value {AssocData} a.
Arguments add_assoc_data {AssocData} k data m_assoc_map.
Arguments get_assoc_data {AssocData} k m_assoc_map.

(** ** Keywords and pseudo-instructions of the NASM parser *)

Module NasmKeywords.

Local Open Scope nat_scope.

(** The token kinds and the pseudo-instruction table entries the two
    recognisers name. *)
Inductive TokenKind : Type :=
| unknown | identifier | label
| kw_abs | kw_byte | kw_dword | kw_dqword | kw_hword | kw_long | kw_nosplit
| kw_oword | kw_qword | kw_rel | kw_seg | kw_strict | kw_times | kw_tword
| kw_word | kw_wrt | kw_yword.

(** The index into [m_data_insns] and [m_reserve_insns]. *)
Inductive SizeIndex : Type :=
| DB | DHW | DW | DD | DQ | DT | DO | DY.

(** What [setCustom] is given: the address of [equ_insn], of [incbin_insn], or
    of an element of [m_data_insns] or [m_reserve_insns]. *)
Inductive PseudoInsnRef : Type :=
| equ_insn
| incbin_insn
| m_data_insns (idx : SizeIndex)
| m_reserve_insns (idx : SizeIndex).

(** [name[k] == lo || name[k] == up] on the NUL-terminated name. *)
Definition is_char (name : string) (k : nat) (lo up : ascii) : bool :=
  Ascii.eqb (Nasm.char_at name k) lo || Ascii.eqb (Nasm.char_at name k) up.

(** The second switch of [CheckPseudoInsn], "declare data / reserve space
    size lookup", on [name] advanced by [off]; the result is [idx] and the
    offset after the suffix. *)
Definition size_lookup (name : string) (off : nat) : option (SizeIndex * nat) :=
  let c := Nasm.char_at name off in
  if Ascii.eqb c "b" then Some (DB, S off)
  else if Ascii.eqb c "h"
  then if negb (Ascii.eqb (Nasm.char_at name (S off)) "w") then None
       else Some (DHW, S (S off))
  else if Ascii.eqb c "w" then Some (DW, S off)
  else if Ascii.eqb c "d"
  then if Ascii.eqb (Nasm.char_at name (S off)) "q"
       then Some (DO, S (S off))       (* ddq is an alias for do *)
       else Some (DD, S off)
  else if Ascii.eqb c "q" then Some (DQ, S off)
  else if Ascii.eqb c "t" then Some (DT, S off)
  else if Ascii.eqb c "o" then Some (DO, S off)
  else if Ascii.eqb c "y" then Some (DY, S off)
  else None.

(** The switches of [CheckPseudoInsn]: what is passed to [setCustom], or
    [None] on the paths that return without it. *)
Definition pseudo_of_name (name : string) : option PseudoInsnRef :=
  let len := String.length name in
  let sized (pseudo : SizeIndex -> PseudoInsnRef) (off : nat) :=
      match size_lookup name off with
      | None => None
      | Some (idx, off') =>
        if negb (Ascii.eqb (Nasm.char_at name off') Ascii.zero) then None
        else Some (pseudo idx)
      end in
  if is_char name 0 "e" "E"
  then (* EQU *)
    if negb (Nat.eqb len 3) || negb (is_char name 1 "q" "Q") || negb (is_char name 2 "u" "U")
    then None else Some equ_insn
  else if is_char name 0 "i" "I"
  then (* INCBIN *)
    if negb (Nat.eqb len 6) || negb (is_char name 1 "n" "N") ||
       negb (is_char name 2 "c" "C") || negb (is_char name 3 "b" "B") ||
       negb (is_char name 4 "i" "I") || negb (is_char name 5 "n" "N")
    then None else Some incbin_insn
  else if is_char name 0 "d" "D"
  then (* Declare data *)
    if Nat.ltb 3 len then None else sized m_data_insns 1
  else if is_char name 0 "r" "R"
  then (* Reserve space *)
    if Nat.ltb 5 len || negb (is_char name 1 "e" "E") || negb (is_char name 2 "s" "S")
    then None else sized m_reserve_insns 3
  else None.

(** "Common WORD suffix matching" on [name] advanced by [off]. *)
Definition word_suffix (name : string) (off : nat) : bool :=
  is_char name off "w" "W" && is_char name (1 + off) "o" "O" &&
  is_char name (2 + off) "r" "R" && is_char name (3 + off) "d" "D".

(** The switch of [CheckKeyword]: the kind that is set, or [None] on the paths
    that return false. *)
Definition keyword_of_name (name : string) : option TokenKind :=
  let len := String.length name in
  let word (kind : TokenKind) (off : nat) :=
      if word_suffix name off then Some kind else None in
  let times_or_tword :=
      (* TIMES or TWORD *)
      if negb (Nat.eqb len 5) then None
      else if is_char name 1 "w" "W" then word kw_tword 1
      else if negb (is_char name 1 "i" "I") || negb (is_char name 2 "m" "M") ||
              negb (is_char name 3 "e" "E") || negb (is_char name 4 "s" "S")
      then None else Some kw_times in
  if is_char name 0 "a" "A"
  then if negb (Nat.eqb len 3) || negb (is_char name 1 "b" "B") ||
          negb (is_char name 2 "s" "S")
       then None else Some kw_abs
  else if is_char name 0 "b" "B"
  then if negb (Nat.eqb len 4) || negb (is_char name 1 "y" "Y") ||
          negb (is_char name 2 "t" "T") || negb (is_char name 3 "e" "E")
       then None else Some kw_byte
  else if is_char name 0 "d" "D"
  then if Nat.eqb len 5 then word kw_dword 1
       else if Nat.eqb len 6 && is_char name 1 "q" "Q" then word kw_dqword 2
       else None
  else if is_char name 0 "h" "H"
  then if negb (Nat.eqb len 5) then None else word kw_hword 1
  else if is_char name 0 "l" "L"
  then if negb (Nat.eqb len 4) || negb (is_char name 1 "o" "O") ||
          negb (is_char name 2 "n" "N") || negb (is_char name 3 "g" "G")
       then None else Some kw_long
  else if is_char name 0 "n" "N"
  then if negb (Nat.eqb len 7) || negb (is_char name 1 "o" "O") ||
          negb (is_char name 2 "s" "S") || negb (is_char name 3 "p" "P") ||
          negb (is_char name 4 "l" "L") || negb (is_char name 5 "i" "I") ||
          negb (is_char name 6 "t" "T")
       then None else Some kw_nosplit
  else if is_char name 0 "o" "O"
  then if negb (Nat.eqb len 5) then None else word kw_oword 1
  else if is_char name 0 "q" "Q"
  then if negb (Nat.eqb len 5) then None else word kw_qword 1
  else if is_char name 0 "r" "R"
  then if negb (Nat.eqb len 3) || negb (is_char name 1 "e" "E") ||
          negb (is_char name 2 "l" "L")
       then None else Some kw_rel
  else if is_char name 0 "s" "S"
  then if Nat.eqb len 3 && is_char name 1 "e" "E" && is_char name 2 "g" "G"
       then Some kw_seg
       else if Nat.eqb len 6 && is_char name 1 "t" "T" && is_char name 2 "r" "R" &&
               is_char name 3 "i" "I" && is_char name 4 "c" "C" && is_char name 5 "t" "T"
       then Some kw_strict
       else (* no break: control falls into the next case *)
         times_or_tword
  else if is_char name 0 "t" "T"
  then times_or_tword
  else if is_char name 0 "w" "W"
  then if Nat.eqb len 3 && is_char name 1 "r" "R" && is_char name 2 "t" "T"
       then Some kw_wrt
       else if negb (Nat.eqb len 4) then None
       else word kw_word 0
  else if is_char name 0 "y" "Y"
  then if negb (Nat.eqb len 5) then None else word kw_yword 1
  else None.

Section Identifiers.

(** IdentifierInfo and Token are collaborators whose code is not under src/;
    the recognisers reach them only through these calls. *)
Variable IdentifierInfo : Type.
Variable Token : Type.
Variable isUnknown : IdentifierInfo -> bool.
Variable getName : IdentifierInfo -> string.      (* getNameStart(), getLength() *)
Variable setCustom : PseudoInsnRef -> IdentifierInfo -> IdentifierInfo.
Variable setTokenKind : TokenKind -> IdentifierInfo -> IdentifierInfo.
Variable setKind : TokenKind -> Token -> Token.

(** [CheckPseudoInsn(ii)]: the identifier afterwards. *)
Definition CheckPseudoInsn (ii : IdentifierInfo) : IdentifierInfo :=
if negb (isUnknown ii) then ii
else
  match pseudo_of_name (getName ii) with
  | Some pseudo => setCustom pseudo ii
  | None => ii
  end.

(** [CheckKeyword(ii)]: the returned flag, the identifier and [m_token]
    afterwards. *)
Definition CheckKeyword (ii : IdentifierInfo) (m_token : Token)
: bool * IdentifierInfo * Token :=
if negb (isUnknown ii) then (false, ii, m_token)
else
  match keyword_of_name (getName ii) with
  | Some kind => (true, setTokenKind kind ii, setKind kind m_token)
  | None => (false, ii, m_token)
  end.

End Identifiers.

Arguments CheckPseudoInsn {IdentifierInfo} isUnknown getName setCustom ii.
Arguments CheckKeyword {IdentifierInfo Token} isUnknown getName setTokenKind setKind
          ii m_token.

End NasmKeywords.

(** ** The preprocessor expression evaluator (nasm-eval.cpp) *)

Module NasmEval.

Section Evaluator.

(** The collaborators: the object, the scanner and the two routines of the
    preprocessor installed by [setfuncs].

    The preprocessor calls [nasm_evaluate] again for a condition inside a
    curly structure or a directive, so the two routines can leave every
    file-scope variable changed.  [curly_evaluator(scpriv)] is given the
    file-scope state and returns its result, what the two pointers [expr6]
    backs up around the call point to when it returns (the state of the
    scanner behind [saved_priv] and the token structure behind [saved_tok]),
    and the file-scope variables as it leaves them; [ppdir_evaluator(scpriv)]
    returns its result and the file-scope variables as it leaves them. *)
Variable Object : Type.
Variable Symbol : Type.
Variable Private : Type.
Variable getSymbol : string -> Object -> option Symbol * Object.
Variable scan : Private -> Nasm.tokenval -> Nasm.token * Nasm.tokenval * Private.
Variable curly_evaluator :
  Nasm.EvalState Object Symbol Private ->
  Z * Private * Nasm.tokenval * Nasm.EvalState Object Symbol Private.
Variable ppdir_evaluator :
  Nasm.EvalState Object Symbol Private -> Z * Nasm.EvalState Object Symbol Private.

(** A parsing function of the evaluator: from [*e] and the file-scope state
    to the returned flag, [*e] afterwards and the state afterwards. *)
Definition parser : Type :=
Nasm.Expr Symbol -> Nasm.EvalState Object Symbol Private ->
result (bool * Nasm.Expr Symbol * Nasm.EvalState Object Symbol Private).

(** The loop shared by the binary levels,
    [while (i is an operator of the level)
       { i = scan(); Expr f; if (!sub(&f)) return false; e->Calc(op, f); }
     return true;]
    [ops] gives the operator of a token of the level.  The number of
    iterations is bounded by [fuel]. *)
Fixpoint binary_loop (ops : Nasm.token -> option Op) (sub : parser) (fuel : nat)
         (e : Nasm.Expr Symbol) (st : Nasm.EvalState Object Symbol Private)
: result (bool * Nasm.Expr Symbol * Nasm.EvalState Object Symbol Private) :=
match ops (Nasm.i st) with
| None => Ok (true, e, st)
| Some op =>
  match fuel with
  | O => Fail OutOfFuel
  | S fuel' =>
    '(ok, f, st1) <- sub [] (Nasm.do_scan scan st) ;;
    if ok
    then binary_loop ops sub fuel' (Nasm.Calc op e f) st1
    else Ok (false, e, st1)
  end
end.

(** [if (!sub(e)) return false;] followed by the loop. *)
Definition binary_level (ops : Nasm.token -> option Op) (sub : parser) (fuel : nat)
: parser :=
fun e st =>
  '(ok, e1, st1) <- sub e st ;;
  if ok then binary_loop ops sub fuel e1 st1 else Ok (false, e1, st1).

(** The loop of [rexpc], for the !?: operand. *)
Fixpoint ternary_loop (rexp1 : parser) (fuel : nat)
         (e : Nasm.Expr Symbol) (st : Nasm.EvalState Object Symbol Private)
: result (bool * Nasm.Expr Symbol * Nasm.EvalState Object Symbol Private) :=
match Nasm.i st with
| Nasm.TOKEN_TERN =>
  match fuel with
  | O => Fail OutOfFuel
  | S fuel' =>
    '(ok, f, st1) <- rexp1 [] (Nasm.do_scan scan st) ;;
    if negb ok then Ok (false, e, st1)
    else
      match Nasm.i st1 with
      | Nasm.TOKEN_CHAR ":" =>
        '(ok2, f2, st2) <- rexp1 [] (Nasm.do_scan scan st1) ;;
        if negb ok2 then Ok (false, e, st2)
        else
          ternary_loop rexp1 fuel'
                       (Nasm.AppendOp Symbol (Nasm.Append Symbol (Nasm.Append Symbol e f) f2)
                                      COND 3)
                       st2
      | _ => Ok (false, e, Nasm.error Nasm.ERR_FATAL "expecting `:'" [] st1)
      end
  end
| _ => Ok (true, e, st)
end.

(** The operators of each level. *)
Definition rexp0_ops (t : Nasm.token) : option Op :=
match t with Nasm.TOKEN_DBL_OR => Some LOR | _ => None end.

Definition rexp1_ops (t : Nasm.token) : option Op :=
match t with Nasm.TOKEN_DBL_XOR => Some LXOR | _ => None end.

Definition rexp2_ops (t : Nasm.token) : option Op :=
match t with Nasm.TOKEN_DBL_AND => Some LAND | _ => None end.

Definition rexp3_ops (t : Nasm.token) : option Op :=
match t with
| Nasm.TOKEN_EQ => Some EQ
| Nasm.TOKEN_LT => Some LT
| Nasm.TOKEN_GT => Some GT
| Nasm.TOKEN_NE => Some NE
| Nasm.TOKEN_LE => Some LE
| Nasm.TOKEN_GE => Some GE
| _ => None
end.

Definition expr0_ops (t : Nasm.token) : option Op :=
match t with Nasm.TOKEN_CHAR "|" => Some OR | _ => None end.

Definition expr1_ops (t : Nasm.token) : option Op :=
match t with Nasm.TOKEN_CHAR "^" => Some XOR | _ => None end.

Definition expr2_ops (t : Nasm.token) : option Op :=
match t with Nasm.TOKEN_CHAR "&" => Some AND | _ => None end.

Definition expr3_ops (t : Nasm.token) : option Op :=
match t with
| Nasm.TOKEN_SHL => Some SHL
| Nasm.TOKEN_SHR => Some SHR
| _ => None
end.

Definition expr4_ops (t : Nasm.token) : option Op :=
match t with
| Nasm.TOKEN_CHAR "+" => Some ADD
| Nasm.TOKEN_CHAR "-" => Some SUB
| _ => None
end.

Definition expr5_ops (t : Nasm.token) : option Op :=
match t with
| Nasm.TOKEN_CHAR "*" => Some MUL
| Nasm.TOKEN_CHAR "/" => Some DIV
| Nasm.TOKEN_CHAR "%" => Some MOD
| Nasm.TOKEN_SDIV => Some SIGNDIV
| Nasm.TOKEN_SMOD => Some SIGNMOD
| _ => None
end.

(** The levels above a given [expr6]. *)
Definition expr5_over (expr6 : parser) (fuel : nat) : parser :=
binary_level expr5_ops expr6 fuel.

Definition expr4_over (expr6 : parser) (fuel : nat) : parser :=
binary_level expr4_ops (expr5_over expr6 fuel) fuel.

Definition expr3_over (expr6 : parser) (fuel : nat) : parser :=
binary_level expr3_ops (expr4_over expr6 fuel) fuel.

Definition expr2_over (expr6 : parser) (fuel : nat) : parser :=
binary_level expr2_ops (expr3_over expr6 fuel) fuel.

Definition expr1_over (expr6 : parser) (fuel : nat) : parser :=
binary_level expr1_ops (expr2_over expr6 fuel) fuel.

Definition expr0_over (expr6 : parser) (fuel : nat) : parser :=
binary_level expr0_ops (expr1_over expr6 fuel) fuel.

Definition rexp3_over (expr6 : parser) (fuel : nat) : parser :=
binary_level rexp3_ops (expr0_over expr6 fuel) fuel.

Definition rexp2_over (expr6 : parser) (fuel : nat) : parser :=
binary_level rexp2_ops (rexp3_over expr6 fuel) fuel.

Definition rexp1_over (expr6 : parser) (fuel : nat) : parser :=
binary_level rexp1_ops (rexp2_over expr6 fuel) fuel.

Definition rexp0_over (expr6 : parser) (fuel : nat) : parser :=
binary_level rexp0_ops (rexp1_over expr6 fuel) fuel.

Definition rexpc_over (expr6 : parser) (fuel : nat) : parser :=
fun e st =>
  '(ok, e1, st1) <- rexp0_over expr6 fuel e st ;;
  if ok then ternary_loop (rexp1_over expr6 fuel) fuel e1 st1 else Ok (false, e1, st1).

(** A call through the file-scope pointer [bexpr]: the function it points
    to when the call is made. *)
Definition bexpr_over (expr6 : parser) (fuel : nat) : parser :=
fun e st =>
  match Nasm.bexpr st with
  | Nasm.bexpr_rexpc => rexpc_over expr6 fuel e st
  | Nasm.bexpr_expr0 => expr0_over expr6 fuel e st
  end.

(** [expr6(e)].  The depth of the recursion and the iterations of every loop
    are bounded by [fuel]. *)
Fixpoint expr6 (fuel : nat)
         (e : Nasm.Expr Symbol) (st : Nasm.EvalState Object Symbol Private)
: result (bool * Nasm.Expr Symbol * Nasm.EvalState Object Symbol Private) :=
match fuel with
| O => Fail OutOfFuel
| S fuel' =>
  let unary (op : Op) :=
    '(ok, e1, st1) <- expr6 fuel' e (Nasm.do_scan scan st) ;;
    if ok then Ok (true, Nasm.Calc1 op e1, st1) else Ok (false, e1, st1) in
  match Nasm.i st with
  | Nasm.TOKEN_CHAR "-" => unary NEG
  | Nasm.TOKEN_CHAR "+" => expr6 fuel' e (Nasm.do_scan scan st)
  | Nasm.TOKEN_CHAR "~" => unary NOT
  | Nasm.TOKEN_CHAR "!" => unary LNOT
  | Nasm.TOKEN_SEG =>
    '(ok, e1, st1) <- expr6 fuel' e (Nasm.do_scan scan st) ;;
    if ok
    then Ok (true, e1, Nasm.error Nasm.ERR_NONFATAL "%s not supported" ["SEG"%string] st1)
    else Ok (false, e1, st1)
  | Nasm.TOKEN_CHAR "(" =>
    '(ok, e1, st1) <- bexpr_over (expr6 fuel') fuel' e (Nasm.do_scan scan st) ;;
    if negb ok then Ok (false, e1, st1)
    else
      match Nasm.i st1 with
      | Nasm.TOKEN_CHAR ")" => Ok (true, e1, Nasm.do_scan scan st1)
      | _ => Ok (false, e1, Nasm.error Nasm.ERR_NONFATAL "expecting `)'" [] st1)
      end
  | Nasm.TOKEN_CHAR "{" =>
    (* scpriv and tokval are backed up and restored: the restored scpriv
       points to the scanner state the routine has advanced, the restored
       tokval to the token structure as the routine leaves it; i and bexpr
       stay as the routine leaves them *)
    let '(j, saved_priv, saved_tok, st1) := curly_evaluator st in
    let st2 := Nasm.with_tokval saved_tok (Nasm.with_private saved_priv st1) in
    if j =? -1 then Ok (false, e, st2)
    else Ok (true, Nasm.Expr_int j, Nasm.do_scan scan st2)
  | Nasm.TOKEN_NUM =>
    Ok (true, Nasm.Expr_int (Nasm.t_integer (Nasm.tokval st)), Nasm.do_scan scan st)
  | Nasm.TOKEN_ID =>
    match Nasm.yasm_object st with
    | Some o =>
      let '(sym, o') := getSymbol (Nasm.t_charptr (Nasm.tokval st)) o in
      let st1 := Nasm.with_yasm_object o' st in
      match sym with
      | Some s => Ok (true, Nasm.Expr_sym s, Nasm.do_scan scan (Nasm.Use s st1))
      | None =>
        Ok (true, Nasm.Expr_int 1,
            Nasm.do_scan scan
              (Nasm.error Nasm.ERR_NONFATAL "undefined symbol `%s' in preprocessor"
                          [Nasm.t_charptr (Nasm.tokval st)] st1))
      end
    | None =>
      (* fallthrough *)
      Ok (true, Nasm.Expr_int 1,
          Nasm.do_scan scan
            (Nasm.error Nasm.ERR_NONFATAL "cannot reference symbol `%s' in preprocessor"
                        [Nasm.t_charptr (Nasm.tokval st)] st))
    end
  | Nasm.TOKEN_HERE =>
    Ok (true, Nasm.Expr_int 1,
        Nasm.do_scan scan
          (Nasm.error Nasm.ERR_NONFATAL "cannot reference symbol `%s' in preprocessor"
                      ["$"%string] st))
  | Nasm.TOKEN_BASE =>
    Ok (true, Nasm.Expr_int 1,
        Nasm.do_scan scan
          (Nasm.error Nasm.ERR_NONFATAL "cannot reference symbol `%s' in preprocessor"
                      ["$$"%string] st))
  | Nasm.TOKEN_PPDIR =>
    (* nothing is backed up here *)
    let '(j, st1) := ppdir_evaluator st in
    if j =? -1 then Ok (false, e, st1)
    else Ok (true, Nasm.Expr_int j, Nasm.do_scan scan st1)
  | _ => Ok (false, e, Nasm.error Nasm.ERR_NONFATAL "expression syntax error" [] st)
  end
end.

(** [nasm_evaluate(scprivate, tv, critical)]: [critical] is the CRITICAL bit of
    the flags; [st] gives the file-scope state before the call.  The pair is
    the returned expression (null is [None]) and the state afterwards. *)
Definition nasm_evaluate (scprivate : Private) (tv : Nasm.tokenval) (critical : bool)
           (fuel : nat) (st : Nasm.EvalState Object Symbol Private)
: result (option (Nasm.Expr Symbol) * Nasm.EvalState Object Symbol Private) :=
let st1 := Nasm.mkEval (Nasm.i st) tv scprivate
                       (if critical then Nasm.bexpr_rexpc else Nasm.bexpr_expr0)
                       (Nasm.yasm_object st) (Nasm.used st) (Nasm.errors st) in
let st2 := match Nasm.t_type tv with
           | Nasm.TOKEN_INVALID => Nasm.do_scan scan st1
           | t => Nasm.mkEval t (Nasm.tokval st1) (Nasm.scpriv st1) (Nasm.bexpr st1)
                              (Nasm.yasm_object st1) (Nasm.used st1) (Nasm.errors st1)
           end in
'(ok, e, st3) <- bexpr_over (expr6 fuel) fuel [] st2 ;;
Ok (if ok then Some e else None, st3).

End Evaluator.

Arguments binary_loop {Object Symbol Private} scan ops sub fuel e st.
Arguments binary_level {Object Symbol Private} scan ops sub fuel e st.
Arguments ternary_loop {Object Symbol Private} scan rexp1 fuel e st.
Arguments expr0_over {Object Symbol Private} scan expr6 fuel e st.
Arguments rexp0_over {Object Symbol Private} scan expr6 fuel e st.
Arguments rexp1_over {Object Symbol Private} scan expr6 fuel e st.
Arguments rexpc_over {Object Symbol Private} scan expr6 fuel e st.
Arguments bexpr_over {Object Symbol Private} scan expr6 fuel e st.
Arguments expr6 {Object Symbol Private} getSymbol scan curly_evaluator ppdir_evaluator
          fuel e st.
Arguments nasm_evaluate {Object Symbol Private} getSymbol scan curly_evaluator
          ppdir_evaluator scprivate tv critical fuel st.

End NasmEval.

(** * Vocabulary of the properties *)

(** ** Induction over expression trees *)

Section ExprInduction.

Variable P : Expr -> Prop.

Definition sub_holds (t : ExprTerm) : Prop :=
  match t with
  | EXPR e => P e
  | _ => True
  end.

Hypothesis Hnode : forall op ts, Forall sub_holds ts -> P (mkExpr op ts).

Fixpoint Expr_nested_ind (e : Expr) : P e :=
  match e with
  | mkExpr op ts =>
    Hnode op ts
      ((fix go (l : list ExprTerm) : Forall sub_holds l :=
          match l with
          | [] => Forall_nil _
          | t :: l' =>
            Forall_cons t
              (match t return sub_holds t with
               | EXPR sube => Expr_nested_ind sube
               | _ => I
               end) (go l')
          end) ts)
  end.

End ExprInduction.

(** ** Substitution (C6) *)

(** The substitution as the specification words it: every SUBST(i) leaf of the
    tree becomes a clone of [terms[i]]. *)
Fixpoint subst_leaves (subst_terms : list ExprTerm) (e : Expr) : Expr :=
  match e with
  | mkExpr op ts =>
    mkExpr op (map (fun t => match t with
                             | SUBST i => clone_term (nth i subst_terms NONE)
                             | EXPR sube => EXPR (subst_leaves subst_terms sube)
                             | _ => t
                             end) ts)
  end.

(** Every SUBST leaf of the tree carries an index below [n]. *)
Fixpoint substs_below (n : nat) (e : Expr) : bool :=
  match e with
  | mkExpr _ ts =>
    forallb (fun t => match t with
                      | SUBST i => Nat.ltb i n
                      | EXPR sube => substs_below n sube
                      | _ => true
                      end) ts
  end.

Definition subst_leaf_term (subst_terms : list ExprTerm) (t : ExprTerm) : ExprTerm :=
  match t with
  | SUBST i => clone_term (nth i subst_terms NONE)
  | _ => t
  end.

Definition subst_below_term (n : nat) (t : ExprTerm) : bool :=
  match t with
  | SUBST i => Nat.ltb i n
  | _ => true
  end.

Definition subst_child (subst_terms : list ExprTerm) (t : ExprTerm) : ExprTerm :=
  match t with
  | EXPR sube => EXPR (subst_leaves subst_terms sube)
  | _ => t
  end.

Definition child_below (n : nat) (t : ExprTerm) : bool :=
  match t with
  | EXPR sube => substs_below n sube
  | _ => true
  end.

Definition term_below (n : nat) (t : ExprTerm) : bool :=
  match t with
  | SUBST i => Nat.ltb i n
  | EXPR sube => substs_below n sube
  | _ => true
  end.

Definition substitute_ok_at (sts : list ExprTerm) (e : Expr) : Prop :=
  substs_below (length sts) e = true -> substitute sts e = (false, subst_leaves sts e).

Definition substitute_err_at (sts : list ExprTerm) (e : Expr) : Prop :=
  substs_below (length sts) e = false ->
  fst (substitute sts e) = true /\ substs_below (length sts) (snd (substitute sts e)) = false.

(** C6 read as it is stated: every SUBST(i) leaf with [i] below the number of
    terms is replaced by a clone of [terms[i]], in every expression; a leaf
    with another index is not substituted. *)
Fixpoint subst_leaves_as_stated (subst_terms : list ExprTerm) (e : Expr) : Expr :=
  match e with
  | mkExpr op ts =>
    mkExpr op (map (fun t => match t with
                             | SUBST i =>
                               if Nat.ltb i (length subst_terms)
                               then clone_term (nth i subst_terms NONE)
                               else t
                             | EXPR sube => EXPR (subst_leaves_as_stated subst_terms sube)
                             | _ => t
                             end) ts)
  end.

(** A term in which some SUBST(i) leaves with [i] below the number of terms
    have been replaced by a clone of [terms[i]], and nothing else has
    changed. *)
#[warnings="-register-all"] Inductive part_substituted (subst_terms : list ExprTerm)
  : ExprTerm -> ExprTerm -> Prop :=
| part_kept (t : ExprTerm) : part_substituted subst_terms t t
| part_filled (i : nat) :
    (i < length subst_terms)%nat ->
    part_substituted subst_terms (SUBST i) (clone_term (nth i subst_terms NONE))
| part_below (op : Op) (ts ts' : list ExprTerm) :
    Forall2 (part_substituted subst_terms) ts ts' ->
    part_substituted subst_terms (EXPR (mkExpr op ts)) (EXPR (mkExpr op ts')).

(** ** SEG:OFF and WRT extraction (C5) *)

(** The extracted side as its own expression: a sub-expression is handed over
    as it is, anything else is wrapped in an IDENT. *)
Definition own_expr (t : ExprTerm) : Expr :=
  match t with
  | EXPR sube => sube
  | _ => mkExpr IDENT [t]
  end.

(** ** Negative normalization (C2) *)

(** Negation of one term of a sum: a sub-expression is negated recursively, a
    leaf becomes [-1 * leaf]. *)
Definition negate_term (t : ExprTerm) : result ExprTerm :=
  match t with
  | EXPR sube => r <- xform_neg_helper sube ;; Ok (EXPR r)
  | _ => Ok (xform_neg_term t)
  end.

(** ** Identity simplification (C3) *)

Inductive identity_action : Type :=
| DeleteInt      (* the integer term goes, the other terms stay *)
| KeepOnlyInt    (* every term but the integer goes *)
| NoAction.

(** The identities as the specification lists them: 0*x, -1|x, 0&x, 0&&x make
    the result the integer; 1*x, 0+x, -1&x, nonzero&&x, 0|x, 0||x delete the
    integer wherever it stands; x/1, x<<0, x>>0 delete it unless it is the
    first term. *)
Definition listed_identity (op : Op) (n : IntNum) (int_first : bool) : identity_action :=
  match op with
  | MUL => if n =? 0 then KeepOnlyInt else if n =? 1 then DeleteInt else NoAction
  | OR => if n =? -1 then KeepOnlyInt else if n =? 0 then DeleteInt else NoAction
  | AND => if n =? 0 then KeepOnlyInt else if n =? -1 then DeleteInt else NoAction
  | LAND => if n =? 0 then KeepOnlyInt else DeleteInt
  | ADD => if n =? 0 then DeleteInt else NoAction
  | LOR => if n =? 0 then DeleteInt else NoAction
  | DIV => if negb int_first && (n =? 1) then DeleteInt else NoAction
  | SHL | SHR => if negb int_first && (n =? 0) then DeleteInt else NoAction
  | _ => NoAction
  end.

Definition is_int (t : ExprTerm) : bool :=
  match t with INT _ => true | _ => false end.

Definition count_ints (ts : list ExprTerm) : nat := length (filter is_int ts).

Definition without_ints (ts : list ExprTerm) : list ExprTerm :=
  filter (fun t => negb (is_int t)) ts.

(** 1*REG is kept when the expression is used to form an effective address. *)
Definition reg_mul_kept (simplify_reg_mul : bool) (op : Op) (n : IntNum) (e : Expr) : bool :=
  negb simplify_reg_mul && Op_beq op MUL && (n =? 1) && contains T_REG e.

Definition simplify_identity_listed (simplify_reg_mul : bool) (op : Op)
           (ts : list ExprTerm) (n : IntNum) : result Expr :=
  if Nat.ltb 1 (length ts)
  then
    if reg_mul_kept simplify_reg_mul op n (mkExpr op ts)
    then Ok (mkExpr op ts)
    else
      match listed_identity op n (match ts with INT _ :: _ => true | _ => false end) with
      | DeleteInt => Ok (ident_if_single (mkExpr op (without_ints ts)))
      | KeepOnlyInt => Ok (mkExpr IDENT [INT n])
      | NoAction => Ok (mkExpr op ts)
      end
  else
    (* a lone integer *)
    match op with
    | NOT | NEG | LNOT => v <- calc op n None ;; Ok (mkExpr IDENT [INT v])
    | _ => Ok (mkExpr IDENT [INT n])
    end.

(** ** Symbol resolution in the NASM parser (C7) *)

(** A small object for concrete runs: the table is the list of the names
    referenced so far, a symbol is its name tagged with whether it is special,
    and the special symbols are a fixed list. *)
Module TableObject.

Definition Object : Type := list string.

Definition Symbol : Type := (bool * string)%type.

Definition getSymbol (name : string) (o : Object) : option Symbol * Object :=
  (Some (false, name), if existsb (String.eqb name) o then o else o ++ [name]).

Definition FindSpecialSymbol (name : string) (o : Object) : option Symbol :=
  if existsb (String.eqb name) ["start"; "gotpc"; "gotoff"; "got"; "plt"; "sym"]%string
  then Some (true, name) else None.

Definition getName (s : Symbol) : string := snd s.

Definition parser (base : string) : Nasm.NasmParser Object Symbol :=
  Nasm.mkParser [] base [] [] 0 [] [] [].

End TableObject.

(** ** Symbols in the preprocessor evaluator (C10) *)

(** A scanner over a list of tokens, for concrete runs. *)
Definition list_scan (priv : list Nasm.tokenval) (tv : Nasm.tokenval)
  : Nasm.token * Nasm.tokenval * list Nasm.tokenval :=
  match priv with
  | [] => (Nasm.TOKEN_EOS, Nasm.mkTokenval Nasm.TOKEN_EOS 0 EmptyString, [])
  | t :: rest => (Nasm.t_type t, t, rest)
  end.

(** ** Leveling (C1) *)

(** A property of every node of a tree. *)
Fixpoint all_nodes (P : Op -> list ExprTerm -> Prop) (e : Expr) : Prop :=
  match e with
  | mkExpr op ts =>
    P op ts /\
    (fix go (l : list ExprTerm) : Prop :=
       match l with
       | [] => True
       | t :: l' => match t with EXPR sube => all_nodes P sube | _ => True end /\ go l'
       end) ts
  end.

(** What the constructors of Expr check: a node has terms, and a node with one
    term has a unary operator. *)
Definition wf_node (op : Op) (ts : list ExprTerm) : Prop :=
  ts <> [] /\ (length ts = 1%nat -> is_unary op = true).

Definition wf : Expr -> Prop := all_nodes wf_node.

(** No expression term of an associative node has the node's operator. *)
Definition flattened (op : Op) (ts : list ExprTerm) : Prop :=
  is_associative op = true -> forall sube, In (EXPR sube) ts -> m_op sube <> op.

(** No expression term is an IDENT wrapper, and an IDENT node holds a leaf. *)
Definition no_ident_wrapper (op : Op) (ts : list ExprTerm) : Prop :=
  (forall sube, In (EXPR sube) ts -> m_op sube <> IDENT) /\
  (op = IDENT -> forall sube rest, ts <> EXPR sube :: rest).

(** The integer terms a numeric node may be left with: one; two under an
    associative operator, where the copy loop of [level_op] can keep the
    node's own integer apart from the one it brings up (see C4), unless
    [strict] rules that out. *)
Definition ints_bound (strict : bool) (op : Op) : nat :=
  if strict || negb (is_associative op) then 1%nat else 2%nat.

(** The integers of a numeric node are folded. *)
Definition ints_folded (strict : bool) (op : Op) (ts : list ExprTerm) : Prop :=
  is_nonnum op = false -> (count_ints ts <= ints_bound strict op)%nat.

(** A node left with one term is an IDENT, or keeps its unary operator. *)
Definition single_term_op (op : Op) (ts : list ExprTerm) : Prop :=
  length ts = 1%nat -> op = IDENT \/ op = NOT \/ op = LNOT \/ op = SEG.

Definition leveled_node (strict : bool) (op : Op) (ts : list ExprTerm) : Prop :=
  ts <> [] /\ op <> NEG /\ op <> SUB /\
  flattened op ts /\ no_ident_wrapper op ts /\ ints_folded strict op ts /\
  single_term_op op ts.

Definition leveled (strict : bool) : Expr -> Prop := all_nodes (leveled_node strict).

(** At most one integer term under a numeric operator. *)
Definition one_int (op : Op) (ts : list ExprTerm) : Prop :=
  is_nonnum op = false -> (count_ints ts <= 1)%nat.

(** C1 read as it is stated: flattened, no IDENT wrappers, at most one integer
    term in every node, and IDENT on every node with exactly one term. *)
Definition leveled_as_stated_node (op : Op) (ts : list ExprTerm) : Prop :=
  flattened op ts /\ no_ident_wrapper op ts /\ (count_ints ts <= 1)%nat /\
  (length ts = 1%nat -> op = IDENT).

(** Outcomes allowed for a run on a well-formed tree: a leveled tree, or the
    division by zero thrown by [calc]; running out of fuel is allowed only
    where [oof] says so. *)
Definition good (strict oof : bool) (r : result Expr) : Prop :=
  match r with
  | Ok e => leveled strict e
  | Fail ZeroDivisionError => True
  | Fail OutOfFuel => oof = true
  | Fail _ => False
  end.

(** A term as it stands in a leveled node. *)
Definition term_final (strict : bool) (t : ExprTerm) : Prop :=
  match t with
  | EXPR c => leveled strict c /\ m_op c <> IDENT
  | _ => True
  end.

(** A term of a node whose sub-expressions have been leveled, before the node
    itself is: the sub-expression may still be an IDENT wrapper. *)
Definition child_ok (strict : bool) (t : ExprTerm) : Prop :=
  match t with
  | EXPR c =>
    m_terms c <> [] /\ Forall (term_final strict) (m_terms c) /\
    (m_op c <> IDENT -> leveled strict c)
  | _ => True
  end.

(** *** Negative normalization keeps trees well formed *)

Definition helper_op (op : Op) : Prop := op = ADD \/ op = IDENT \/ op = MUL.

(** *** The pieces of level_op *)

(** The state of the first pass. *)
Definition scan_inv (strict : bool) (op : Op) (fold_const : bool) (done : list ExprTerm)
           (int_term : option nat) (do_level : bool) : Prop :=
  Forall (term_final strict) done /\
  match int_term with
  | Some k => (exists v, nth_error done k = Some (INT v)) /\
              (fold_const = true -> count_ints done = 1%nat)
  | None => fold_const = true -> count_ints done = O
  end /\
  (do_level = false -> forall c, In (EXPR c) done -> m_op c <> op).

(** What [simplify_identity] leaves: some of the terms it was given (an integer
    may have a new value), at least one of them, and IDENT exactly when one
    term is left. *)
Definition simplified (op : Op) (ts : list ExprTerm) (r : result Expr) : Prop :=
  exists op' ts',
    r = Ok (mkExpr op' ts') /\ ts' <> [] /\
    (forall x, In x ts' -> (exists v, x = INT v) \/ In x ts) /\
    (count_ints ts' <= count_ints ts)%nat /\
    (length ts' = 1%nat -> op' = IDENT) /\
    (length ts' <> 1%nat -> op' = op).

(** The state of the second pass: [terms] holds final terms, none of them an
    expression with the node's operator, and [int_term] points at an integer. *)
Definition copy_inv (strict : bool) (op : Op) (terms : list ExprTerm)
           (int_term : option nat) : Prop :=
  Forall (term_final strict) terms /\
  (forall c, In (EXPR c) terms -> m_op c <> op) /\
  match int_term with
  | Some k => exists v, nth_error terms k = Some (INT v)
  | None => True
  end.

(** level_op as its two passes *)
Definition first_pass (fold_const simplify_ident simplify_reg_mul : bool) (e : Expr)
  : result (Expr * bool) :=
  '(ts, int_term, do_level) <- level_scan (m_op e) fold_const (m_terms e) [] None false ;;
  e1 <-
    (match int_term with
     | Some k =>
       if simplify_ident
       then simplify_identity k simplify_reg_mul (mkExpr (m_op e) (erase_folded k ts))
       else Ok (ident_if_single (mkExpr (m_op e) (erase_folded k ts)))
     | None => Ok (mkExpr (m_op e) ts)
     end) ;;
  e2 <- bring_up e1 ;;
  Ok (e2, do_level).

Definition second_pass (fold_const simplify_ident simplify_reg_mul : bool) (e2 : Expr)
  : result Expr :=
  '(terms, int_term2) <- level_copy_up (m_op e2) fold_const (rev (m_terms e2)) [] None ;;
  e4 <-
    (match int_term2 with
     | Some k =>
       if simplify_ident
       then simplify_identity ((length (rev terms) - 1) - k) simplify_reg_mul
                              (mkExpr (m_op e2) (rev terms))
       else Ok (ident_if_single (mkExpr (m_op e2) (rev terms)))
     | None => Ok (ident_if_single (mkExpr (m_op e2) (rev terms)))
     end) ;;
  bring_up e4.

(** The terms of a node on entry to [level_op]. *)
Definition pre_level (strict : bool) (op : Op) (ts : list ExprTerm) : Prop :=
  ts <> [] /\ (length ts = 1%nat -> is_unary op = true) /\
  op <> NEG /\ op <> SUB /\ Forall (child_ok strict) ts.

(** *** The SEG of SEG:OFF pre-pass and one step of level_tree *)

Definition level_child (n : nat) (simplify_reg_mul : bool) (t : ExprTerm) : result ExprTerm :=
  match t with
  | EXPR sube => r <- level_tree n true true simplify_reg_mul None sube ;; Ok (EXPR r)
  | _ => Ok t
  end.

(** *** The slip of the copy loop *)

(** A child with the node's operator that holds an integer term. *)
Definition child_with_int (op : Op) (t : ExprTerm) : bool :=
  match t with
  | EXPR c => Op_beq (m_op c) op && existsb is_int (m_terms c)
  | _ => false
  end.

(** An integer term stands to the left of a child with the node's operator
    that holds an integer term. *)
Fixpoint int_left_of_child_int (op : Op) (ts : list ExprTerm) : bool :=
  match ts with
  | [] => false
  | t :: ts' =>
    (is_int t && existsb (child_with_int op) ts') || int_left_of_child_int op ts'
  end.

(** The same, over the terms in the reverse order, as the copy loop meets
    them. *)
Fixpoint child_int_then_int (op : Op) (ts_rev : list ExprTerm) : bool :=
  match ts_rev with
  | [] => false
  | t :: rest =>
    (child_with_int op t && existsb is_int rest) || child_int_then_int op rest
  end.

(** The slip of the copy loop of [level_op] (C4).  The loop runs on the node
    [e2] that the first pass leaves, when a child has to be brought up and
    the operator is associative.  It folds an integer it brings up into the
    integer seen so far, but pushes an integer of the node itself as it is:
    an integer of the node left of a child that brings one up stays apart
    from it. *)
Definition level_op_slips (simplify_reg_mul : bool) (e : Expr) : bool :=
  match first_pass (negb (is_nonnum (m_op e))) true simplify_reg_mul e with
  | Ok (e2, do_level) =>
    do_level && is_associative (m_op e2) && int_left_of_child_int (m_op e2) (m_terms e2)
  | Fail _ => false
  end.

(** No call of [level_op] in a run of [level_tree] with fuel [n] slips. *)
Fixpoint slip_free (n : nat) (simplify_reg_mul : bool) (e : Expr) : bool :=
  match n with
  | O => true
  | S n' =>
    match xform_neg e with
    | Ok e1 =>
      forallb (fun t => match t with
                        | EXPR sube => slip_free n' simplify_reg_mul sube
                        | _ => true
                        end) (m_terms e1) &&
      match mapM (level_child n' simplify_reg_mul) (m_terms e1) with
      | Ok ts =>
        match seg_of_segoff (mkExpr (m_op e1) ts) with
        | Ok e2 => negb (level_op_slips simplify_reg_mul e2)
        | Fail _ => true
        end
      | Fail _ => true
      end
    | Fail _ => true
    end
  end.

(** *** Division by zero *)

(** The operators on which [calc] throws when the operand is zero. *)
Definition is_division (op : Op) : bool :=
  match op with
  | DIV | SIGNDIV | MOD | SIGNMOD => true
  | _ => false
  end.

(** No node of the tree divides. *)
Definition division_free : Expr -> Prop :=
  all_nodes (fun op _ => is_division op = false).

Definition no_zero_division {A : Type} (r : result A) : Prop :=
  r <> Fail ZeroDivisionError.

(** *** Twice the height is enough fuel *)

(** The terms of a node after negative normalization, in terms of the terms
    [ts] it had before. *)
Inductive neg_child (ts : list ExprTerm) : ExprTerm -> Prop :=
| nc_leaf (t : ExprTerm) : get_expr t = None -> neg_child ts t
| nc_same (c : Expr) : In (EXPR c) ts -> neg_child ts (EXPR c)
| nc_negated (c c' : Expr) :
    In (EXPR c) ts -> xform_neg_helper c = Ok c' -> neg_child ts (EXPR c')
| nc_wrapped (t : ExprTerm) : get_expr t = None -> neg_child ts (xform_neg_term t).

Definition negation_sinks (op : Op) : bool :=
  match op with
  | ADD | SUB | NEG | IDENT => true
  | _ => false
  end.

(** No run on the tree, or on its negation, throws a division by zero. *)
Definition never_divides (simplify_reg_mul : bool) (c : Expr) : Prop :=
  wf c -> division_free c ->
  (forall n, no_zero_division (level_tree n true true simplify_reg_mul None c)) /\
  (forall c' n, xform_neg_helper c = Ok c' ->
                no_zero_division (level_tree n true true simplify_reg_mul None c')).

(** A run with fuel [n] that ends in a leveled tree or in a division by zero. *)
Definition levels_within (simplify_reg_mul : bool) (n : nat) (c : Expr) : Prop :=
  good false false (level_tree n true true simplify_reg_mul None c).

(** Twice the height is enough for a tree, and one more for its negation. *)
Definition enough_fuel (simplify_reg_mul : bool) (c : Expr) : Prop :=
  wf c ->
  (forall n, (2 * expr_height c <= n)%nat -> levels_within simplify_reg_mul n c) /\
  (forall c' n, xform_neg_helper c = Ok c' -> (2 * expr_height c + 1 <= n)%nat ->
                levels_within simplify_reg_mul n c').

(** * Vocabulary of the further properties *)

(** ** Associated data *)

(** The map after a sequence of [add_assoc_data] calls on an empty container. *)
Definition filled {AssocData : Type} (adds : list (nat * option AssocData))
  : list (AssocMapEntry AssocData) :=
  fold_left (fun m kd => snd (add_assoc_data (fst kd) (snd kd) m)) adds [].

(** The keys of a list without repetitions, each at its first occurrence. *)
Definition first_occurrences (ks : list nat) : list nat :=
  rev (nodup Nat.eq_dec (rev ks)).

(** The data of the last call for key [k], if any. *)
Definition last_added {AssocData : Type} (k : nat) (adds : list (nat * option AssocData))
  : option AssocData :=
  match find (fun kd => Nat.eqb (fst kd) k) (rev adds) with
  | Some kd => snd kd
  | None => None
  end.

(** ** The read cursor of Bytes *)

(** The outcomes of a sequence of [read] calls with the counts [ns]. *)
Fixpoint read_each (ns : list Z) (b : Bytes) : list (result Z) :=
  match ns with
  | [] => []
  | n :: ns' => snd (read n b) :: read_each ns' (fst (read n b))
  end.

(** ** Extra string functions *)

(** The character codes of a string. *)
Definition codes (s : string) : list Z :=
  map (fun c => Z.of_N (N_of_ascii c)) (list_ascii_of_string s).

(** ** Building and searching expressions *)

(** [k] single-term IDENT wrappers around a term. *)
Fixpoint ident_wrapped (k : nat) (t : ExprTerm) : ExprTerm :=
  match k with
  | O => t
  | S k' => EXPR (mkExpr IDENT [ident_wrapped k' t])
  end.

(** A term that is not an IDENT expression. *)
Definition not_ident (t : ExprTerm) : Prop := forall c, t = EXPR c -> m_op c <> IDENT.

(** The leaves of a tree, left to right. *)
Fixpoint leaves (e : Expr) : list ExprTerm :=
  match e with
  | mkExpr _ ts =>
    flat_map (fun t => match t with EXPR c => leaves c | _ => [t] end) ts
  end.

(** The number of nodes that are a SEGOFF with two terms. *)
Fixpoint count_segoff (e : Expr) : nat :=
  match e with
  | mkExpr op ts =>
    ((if Op_beq op SEGOFF && Nat.eqb (length ts) 2 then 1 else 0) +
     fold_right (fun t acc => (match t with EXPR c => count_segoff c | _ => 0 end + acc))
                0 ts)%nat
  end.

(** The search of [extract_deep_segoff] through the terms of a node. *)
Definition search_children : list ExprTerm -> option Expr * list ExprTerm :=
  fix search (l : list ExprTerm) : option Expr * list ExprTerm :=
    match l with
    | [] => (None, [])
    | EXPR c :: l' =>
      match extract_deep_segoff c with
      | (Some r, c') => (Some r, EXPR c' :: l')
      | (None, c') => let '(r, l'') := search l' in (r, EXPR c' :: l'')
      end
    | t :: l' => let '(r, l'') := search l' in (r, t :: l'')
    end.

(** The two-term SEGOFF nodes below the terms of a node. *)
Definition count_segoff_terms (ts : list ExprTerm) : nat :=
  fold_right (fun t acc => (match t with EXPR c => count_segoff c | _ => 0 end + acc)%nat)
             0%nat ts.

(** ** Constant expressions *)

Definition to_option {A : Type} (r : result A) : option A :=
  match r with
  | Ok a => Some a
  | Fail _ => None
  end.

Fixpoint all_some (l : list (option Z)) : option (list Z) :=
  match l with
  | [] => Some []
  | Some v :: l' =>
    match all_some l' with
    | Some vs => Some (v :: vs)
    | None => None
    end
  | None :: _ => None
  end.

(** [calc] applied from left to right; [None] once a division by zero is met. *)
Definition fold_calc (op : Op) (v : Z) (rest : list Z) : option Z :=
  fold_left (fun acc x => match acc with
                          | Some a => to_option (calc op a (Some x))
                          | None => None
                          end) rest (Some v).

Definition node_value (op : Op) (vs : list Z) : option Z :=
  match vs with
  | [] => None
  | v :: rest =>
    match op with
    | IDENT => Some v
    | NEG | NOT | LNOT => to_option (calc op v None)
    | _ => fold_calc op v rest
    end
  end.

(** The value of an expression whose leaves are integers. *)
Fixpoint const_value (e : Expr) : option Z :=
  match e with
  | mkExpr op ts =>
    match all_some (map (fun t => match t with
                                  | INT n => Some n
                                  | EXPR c => const_value c
                                  | _ => None
                                  end) ts) with
    | Some vs => node_value op vs
    | None => None
    end
  end.

Definition term_value (t : ExprTerm) : option Z :=
  match t with
  | INT n => Some n
  | EXPR c => const_value c
  | _ => None
  end.

Definition const_term (t : ExprTerm) : Prop :=
  match t with
  | INT _ | EXPR _ => True
  | _ => False
  end.

(** A node of a constant expression: integers and sub-expressions under a
    numeric operator, as many as the constructors allow for it: one under
    IDENT, NEG, NOT and LNOT, two or more under an associative operator, two
    under any other. *)
Definition const_node (op : Op) (ts : list ExprTerm) : Prop :=
  Forall const_term ts /\
  ((op = IDENT \/ op = NEG \/ op = NOT \/ op = LNOT) /\ length ts = 1%nat \/
   (is_nonnum op = false /\ is_unary op = false /\ length ts = 2%nat) \/
   (is_associative op = true /\ (2 <= length ts)%nat)).

Definition constant : Expr -> Prop := all_nodes const_node.

(** The expression a constant expression is expected to level to. *)
Definition folded (e : Expr) : result Expr :=
  match const_value e with
  | Some v => Ok (mkExpr IDENT [INT v])
  | None => Fail ZeroDivisionError
  end.

(** A term that holds the integer [v], bare or under an IDENT. *)
Definition folded_term (t : ExprTerm) (v : Z) : Prop :=
  t = INT v \/ t = EXPR (mkExpr IDENT [INT v]).

(** ** Keywords and pseudo-instructions *)

(** The upper-case letter of a lower-case one: in ASCII, the code without
    its bit of value 32. *)
Definition to_upper (l : ascii) : ascii :=
  match l with
  | Ascii b0 b1 b2 b3 b4 _ b6 b7 => Ascii b0 b1 b2 b3 b4 false b6 b7
  end.

(** [name] without the prefix [pre], which is matched without regard to
    case; [pre] is in lower case. *)
Fixpoint strip_ci (pre name : string) : option string :=
  match pre, name with
  | EmptyString, _ => Some name
  | String l pre', String c name' =>
    if Ascii.eqb c l || Ascii.eqb c (to_upper l) then strip_ci pre' name' else None
  | String _ _, EmptyString => None
  end.

(** [name] is [pre] in any case followed by [suf] exactly. *)
Definition spelled (name pre suf : string) : bool :=
  match strip_ci pre name with
  | Some rest => String.eqb rest suf
  | None => false
  end.

Fixpoint no_nul (s : string) : bool :=
  match s with
  | EmptyString => true
  | String c s' => negb (Ascii.eqb c Ascii.zero) && no_nul s'
  end.

(** The size suffixes of the pseudo-instructions, in lower case only. *)
Definition size_suffixes : list (string * NasmKeywords.SizeIndex) :=
  [("b", NasmKeywords.DB); ("hw", NasmKeywords.DHW); ("w", NasmKeywords.DW);
   ("d", NasmKeywords.DD); ("dq", NasmKeywords.DO); ("q", NasmKeywords.DQ);
   ("t", NasmKeywords.DT); ("o", NasmKeywords.DO); ("y", NasmKeywords.DY)]%string.

(** The spellings of the pseudo-instructions: a prefix in any case, a suffix
    as written. *)
Definition pseudo_spellings : list (string * string * NasmKeywords.PseudoInsnRef) :=
  [("equ", "", NasmKeywords.equ_insn); ("incbin", "", NasmKeywords.incbin_insn)]%string ++
  map (fun si => ("d"%string, fst si, NasmKeywords.m_data_insns (snd si))) size_suffixes ++
  map (fun si => ("res"%string, fst si, NasmKeywords.m_reserve_insns (snd si))) size_suffixes.

Definition pseudo_spelled (name : string) : option NasmKeywords.PseudoInsnRef :=
  match find (fun e => spelled name (fst (fst e)) (snd (fst e))) pseudo_spellings with
  | Some e => Some (snd e)
  | None => None
  end.

(** The spellings of the keywords, in any case.  "sword" and "simes" are
    there because the case for 's' of the switch of [CheckKeyword] runs on
    into the case for 't'. *)
Definition keyword_spellings : list (string * NasmKeywords.TokenKind) :=
  [("abs", NasmKeywords.kw_abs); ("byte", NasmKeywords.kw_byte);
   ("dword", NasmKeywords.kw_dword); ("dqword", NasmKeywords.kw_dqword);
   ("hword", NasmKeywords.kw_hword); ("long", NasmKeywords.kw_long);
   ("nosplit", NasmKeywords.kw_nosplit); ("oword", NasmKeywords.kw_oword);
   ("qword", NasmKeywords.kw_qword); ("rel", NasmKeywords.kw_rel);
   ("seg", NasmKeywords.kw_seg); ("strict", NasmKeywords.kw_strict);
   ("sword", NasmKeywords.kw_tword); ("simes", NasmKeywords.kw_times);
   ("tword", NasmKeywords.kw_tword); ("times", NasmKeywords.kw_times);
   ("wrt", NasmKeywords.kw_wrt); ("word", NasmKeywords.kw_word);
   ("yword", NasmKeywords.kw_yword)]%string.

Definition keyword_spelled (name : string) : option NasmKeywords.TokenKind :=
  match find (fun e => spelled name (fst e) EmptyString) keyword_spellings with
  | Some e => Some (snd e)
  | None => None
  end.

(** ** The preprocessor expression evaluator *)

(** The depth of the operand stack after the items of a postfix expression,
    from depth [d]; [None] when an operator does not find its operands. *)
Fixpoint stack_depth {Symbol : Type} (items : Nasm.Expr Symbol) (d : nat) : option nat :=
  match items with
  | [] => Some d
  | Nasm.X_OP _ nchild :: rest =>
    if Nat.leb 1 nchild && Nat.leb nchild d
    then stack_depth rest (S (d - nchild))
    else None
  | _ :: rest => stack_depth rest (S d)
  end.

(** A postfix expression with one result. *)
Definition postfix {Symbol : Type} (e : Nasm.Expr Symbol) : Prop :=
  stack_depth e 0 = Some 1%nat.

(** One of the two routines of the preprocessor can return -1. *)
Definition evaluator_fails {Object Symbol Private : Type}
           (curly_evaluator : Nasm.EvalState Object Symbol Private ->
                              Z * Private * Nasm.tokenval *
                              Nasm.EvalState Object Symbol Private)
           (ppdir_evaluator : Nasm.EvalState Object Symbol Private ->
                              Z * Nasm.EvalState Object Symbol Private) : Prop :=
  exists st, fst (fst (fst (curly_evaluator st))) = -1 \/ fst (ppdir_evaluator st) = -1.

(** The two routines of the preprocessor only add to the errors reported. *)
Definition evaluators_report {Object Symbol Private : Type}
           (curly_evaluator : Nasm.EvalState Object Symbol Private ->
                              Z * Private * Nasm.tokenval *
                              Nasm.EvalState Object Symbol Private)
           (ppdir_evaluator : Nasm.EvalState Object Symbol Private ->
                              Z * Nasm.EvalState Object Symbol Private) : Prop :=
  (forall st, exists l, Nasm.errors (snd (curly_evaluator st)) = Nasm.errors st ++ l) /\
  (forall st, exists l, Nasm.errors (snd (ppdir_evaluator st)) = Nasm.errors st ++ l).

(** From [st] to [st'] errors were only added, at least one of them when
    [ok] is false, unless a routine of the preprocessor failed; this is said
    of routines that only add to the errors themselves. *)
Definition reports {Object Symbol Private : Type}
           (curly_evaluator : Nasm.EvalState Object Symbol Private ->
                              Z * Private * Nasm.tokenval *
                              Nasm.EvalState Object Symbol Private)
           (ppdir_evaluator : Nasm.EvalState Object Symbol Private ->
                              Z * Nasm.EvalState Object Symbol Private)
           (st st' : Nasm.EvalState Object Symbol Private) (ok : bool) : Prop :=
  evaluators_report curly_evaluator ppdir_evaluator ->
  exists l, Nasm.errors st' = Nasm.errors st ++ l /\
            (ok = false -> l <> [] \/ evaluator_fails curly_evaluator ppdir_evaluator).

(** What a parsing function of the evaluator keeps: it reports its errors,
    and when it returns true the expression is a postfix expression with one
    result. *)
Definition reports_and_builds {Object Symbol Private : Type}
           (curly_evaluator : Nasm.EvalState Object Symbol Private ->
                              Z * Private * Nasm.tokenval *
                              Nasm.EvalState Object Symbol Private)
           (ppdir_evaluator : Nasm.EvalState Object Symbol Private ->
                              Z * Nasm.EvalState Object Symbol Private)
           (p : NasmEval.parser Object Symbol Private) : Prop :=
  forall e st ok e' st',
    p e st = Ok (ok, e', st') ->
    reports curly_evaluator ppdir_evaluator st st' ok /\ (ok = true -> postfix e').

(** The tokens still to be read, the current one included. *)
Definition remaining {Object Symbol : Type}
           (st : Nasm.EvalState Object Symbol (list Nasm.tokenval)) : nat :=
  match Nasm.i st with
  | Nasm.TOKEN_EOS => 0
  | _ => S (length (Nasm.scpriv st))
  end.

(** A parsing function that returns on every state with at most [m] tokens
    to read, and reads on. *)
Definition returns_within {Object Symbol : Type} (m : nat)
           (p : NasmEval.parser Object Symbol (list Nasm.tokenval)) : Prop :=
  forall e st,
    (remaining st <= m)%nat ->
    exists ok e' st', p e st = Ok (ok, e', st') /\ (remaining st' <= remaining st)%nat.

(** A routine of the preprocessor that calls [nasm_evaluate] again without
    the CRITICAL flag: it returns [j], does not move the scanner, does not
    write to the token structure and leaves [bexpr] at [expr0]. *)
Definition leaves_bexpr_at_expr0 {Object Symbol Private : Type}
           (j : Z) (s : Nasm.EvalState Object Symbol Private)
  : Z * Private * Nasm.tokenval * Nasm.EvalState Object Symbol Private :=
  (j, Nasm.scpriv s, Nasm.tokval s,
   Nasm.mkEval (Nasm.i s) (Nasm.tokval s) (Nasm.scpriv s) Nasm.bexpr_expr0
               (Nasm.yasm_object s) (Nasm.used s) (Nasm.errors s)).


(** * Properties *)

(** ** Induction over expression trees *)

Lemma Op_beq_eq (a b : Op) : Op_beq a b = true <-> a = b.
Proof.
  split.
  - apply internal_Op_dec_bl.
  - apply internal_Op_dec_lb.
Qed.

Lemma Op_beq_refl (a : Op) : Op_beq a a = true.
Proof. now apply Op_beq_eq. Qed.

Lemma Op_beq_neq (a b : Op) : Op_beq a b = false <-> a <> b.
Proof.
  rewrite <- Op_beq_eq. destruct (Op_beq a b); split; congruence.
Qed.

Lemma clone_id (e : Expr) : clone e = e.
Proof.
  induction e as [op ts IH] using Expr_nested_ind. simpl. f_equal.
  induction IH as [|t l Ht _ IHl]; simpl; [reflexivity|].
  f_equal; [|exact IHl].
  destruct t; simpl in *; congruence.
Qed.

Lemma clone_term_id (t : ExprTerm) : clone_term t = t.
Proof. destruct t; simpl; try reflexivity. now rewrite clone_id. Qed.

Lemma all_nodes_unfold (P : Op -> list ExprTerm -> Prop) (op : Op) (ts : list ExprTerm) :
  all_nodes P (mkExpr op ts) <-> P op ts /\ Forall (sub_holds (all_nodes P)) ts.
Proof.
  simpl. split; intros [H1 H2]; (split; [exact H1|]); clear H1.
  - induction ts as [|t ts IH]; constructor.
    + destruct H2 as [H _]. destruct t; simpl; trivial.
    + apply IH. apply H2.
  - induction H2 as [|t ts Ht _ IH]; [exact I|]. split; [|exact IH].
    destruct t; simpl in *; trivial.
Qed.

(** ** Substitution (C6) *)

Lemma substitute_cb_terms_ok (subst_terms ts : list ExprTerm) :
  forallb (subst_below_term (length subst_terms)) ts = true ->
  substitute_cb_terms subst_terms ts = (false, map (subst_leaf_term subst_terms) ts).
Proof.
  induction ts as [|t ts IH]; simpl; [reflexivity|].
  intros H. apply andb_true_iff in H as [Ht Hts]. specialize (IH Hts).
  destruct t; simpl in *; try (now rewrite IH).
  apply Nat.ltb_lt in Ht.
  destruct (Nat.leb_spec (length subst_terms) i); [lia|]. now rewrite IH.
Qed.

Lemma substitute_cb_terms_err (subst_terms ts : list ExprTerm) :
  forallb (subst_below_term (length subst_terms)) ts = false ->
  fst (substitute_cb_terms subst_terms ts) = true /\
  forallb (subst_below_term (length subst_terms))
          (snd (substitute_cb_terms subst_terms ts)) = false.
Proof.
  induction ts as [|t ts IH]; simpl; [discriminate|].
  intros H. apply andb_false_iff in H.
  destruct t; simpl in *;
    try (destruct H as [H|H]; [discriminate|]; specialize (IH H);
         destruct (substitute_cb_terms subst_terms ts); simpl in *; tauto).
  destruct (Nat.leb_spec (length subst_terms) i) as [Hle|Hlt].
  - simpl. split; [reflexivity|].
    destruct (Nat.ltb_spec i (length subst_terms)); [lia|reflexivity].
  - destruct H as [H|H].
    + apply Nat.ltb_ge in H. lia.
    + specialize (IH H). destruct (substitute_cb_terms subst_terms ts); simpl in *.
      split; [tauto|]. apply andb_false_iff. tauto.
Qed.

Lemma term_below_split (n : nat) (ts : list ExprTerm) :
  forallb (term_below n) ts =
  forallb (child_below n) ts && forallb (subst_below_term n) ts.
Proof.
  induction ts as [|t ts IH]; simpl; [reflexivity|].
  rewrite IH. destruct t; simpl; try reflexivity.
  - destruct (Nat.ltb i n); simpl; [reflexivity|]. now rewrite andb_false_r.
  - destruct (substs_below n e), (forallb (child_below n) ts); reflexivity.
Qed.

Lemma subst_below_term_child (sts ts : list ExprTerm) (n : nat) :
  forallb (subst_below_term n) (map (subst_child sts) ts) =
  forallb (subst_below_term n) ts.
Proof.
  induction ts as [|t ts IH]; simpl; [reflexivity|].
  rewrite IH. now destruct t.
Qed.

Lemma substs_below_unfold (n : nat) (op : Op) (ts : list ExprTerm) :
  substs_below n (mkExpr op ts) = forallb (term_below n) ts.
Proof. reflexivity. Qed.

Lemma subst_leaves_unfold (sts : list ExprTerm) (op : Op) (ts : list ExprTerm) :
  subst_leaves sts (mkExpr op ts) =
  mkExpr op (map (subst_leaf_term sts) (map (subst_child sts) ts)).
Proof.
  simpl. f_equal. rewrite map_map. apply map_ext. now intros [].
Qed.

Lemma traverse_terms_substitute (sts ts : list ExprTerm) :
  Forall (sub_holds (fun e => substitute_ok_at sts e /\ substitute_err_at sts e)) ts ->
  (forallb (child_below (length sts)) ts = true /\
   traverse_post_terms (substitute sts) ts = (false, map (subst_child sts) ts)) \/
  (forallb (child_below (length sts)) ts = false /\
   fst (traverse_post_terms (substitute sts) ts) = true /\
   forallb (term_below (length sts)) (snd (traverse_post_terms (substitute sts) ts)) = false).
Proof.
  set (n := length sts).
  induction 1 as [|t ts Ht _ IH]; simpl; [now left|].
  destruct t as [| | | | | | |sube].
  8: {
    simpl in Ht. destruct Ht as [Hok Herr]. unfold substitute_ok_at, substitute_err_at in *.
    fold n in Hok, Herr.
    destruct (substs_below n sube) eqn:Hb.
    - rewrite (Hok eq_refl).
      destruct IH as [[Hc Heq]|[Hc [Hf Hs]]].
      + left. rewrite Heq. simpl. fold n. rewrite Hb, Hc. now split.
      + right. destruct (traverse_post_terms (substitute sts) ts) as [stop rs].
        simpl in *. subst stop. simpl. fold n.
        repeat split; rewrite ?Hc, ?Hs, ?Hb, ?andb_false_r; reflexivity.
    - right. destruct (Herr eq_refl) as [Hf Hs].
      destruct (substitute sts sube) as [stop r]. simpl in *. subst stop.
      simpl. fold n. repeat split; rewrite ?Hs, ?Hb; reflexivity.
  }
  all: destruct IH as [[Hc Heq]|[Hc [Hf Hs]]];
    [ left; rewrite Heq; simpl; now rewrite Hc
    | right; destruct (traverse_post_terms (substitute sts) ts) as [stop rs];
      simpl in *; subst stop; repeat split; try assumption;
      rewrite ?Hs, ?andb_false_r; reflexivity ].
Qed.

Lemma substitute_cb_terms_part (sts ts : list ExprTerm) :
  Forall2 (fun t t' => match t with
                       | EXPR _ => t' = t
                       | _ => part_substituted sts t t'
                       end) ts (snd (substitute_cb_terms sts ts)).
Proof.
  induction ts as [|t ts IH]; simpl; [constructor|].
  assert (Hsame : Forall2 (fun t t' => match t with
                                       | EXPR _ => t' = t
                                       | _ => part_substituted sts t t'
                                       end) ts ts).
  { clear. induction ts as [|t ts IH]; constructor; trivial.
    destruct t; trivial; apply part_kept. }
  destruct t; simpl;
    try (destruct (substitute_cb_terms sts ts) as [err rs]; simpl in *;
         constructor; [apply part_kept || reflexivity|exact IH]).
  destruct (Nat.leb_spec (length sts) i) as [Hle|Hlt]; simpl.
  - constructor; [apply part_kept|exact Hsame].
  - destruct (substitute_cb_terms sts ts) as [err rs]; simpl in *.
    constructor; [now apply part_filled|exact IH].
Qed.

Lemma traverse_post_terms_part (sts ts : list ExprTerm) :
  Forall (sub_holds (fun e => part_substituted sts (EXPR e)
                                               (EXPR (snd (substitute sts e))))) ts ->
  Forall2 (fun t t' => match t with
                       | EXPR _ => part_substituted sts t t'
                       | _ => t' = t
                       end) ts (snd (traverse_post_terms (substitute sts) ts)).
Proof.
  induction 1 as [|t ts Ht Hts IH]; simpl; [constructor|].
  assert (Hsame : Forall2 (fun t t' => match t with
                                       | EXPR _ => part_substituted sts t t'
                                       | _ => t' = t
                                       end) ts ts).
  { clear. induction ts as [|t ts IH]; constructor; trivial.
    destruct t; trivial; apply part_kept. }
  destruct t as [| | | | | | |sube];
    try (destruct (traverse_post_terms (substitute sts) ts) as [stop rs]; simpl in *;
         constructor; [reflexivity|exact IH]).
  simpl in Ht. destruct (substitute sts sube) as [stop r]. simpl in Ht.
  destruct stop; simpl.
  - constructor; [exact Ht|exact Hsame].
  - destruct (traverse_post_terms (substitute sts) ts) as [stop' rs]; simpl in *.
    constructor; [exact Ht|exact IH].
Qed.

Lemma part_substituted_two_steps (sts ts ts1 ts2 : list ExprTerm) :
  Forall2 (fun t t' => match t with
                       | EXPR _ => part_substituted sts t t'
                       | _ => t' = t
                       end) ts ts1 ->
  Forall2 (fun t t' => match t with
                       | EXPR _ => t' = t
                       | _ => part_substituted sts t t'
                       end) ts1 ts2 ->
  Forall2 (part_substituted sts) ts ts2.
Proof.
  intros H1. revert ts2. induction H1 as [|t t1 ts ts1 Ht _ IH]; intros ts2 H2.
  - inversion H2. constructor.
  - inversion H2 as [|x t2 l l2 Ht2 Hl2]; subst. constructor; [|now apply IH].
    destruct t as [| | | | | | |c]; try (subst t1; exact Ht2).
    inversion Ht as [|i Hi|op us us' Hus]; subst; simpl in Ht2; now subst t2.
Qed.

Lemma substitute_part (sts : list ExprTerm) (e : Expr) :
  part_substituted sts (EXPR e) (EXPR (snd (substitute sts e))).
Proof.
  induction e as [op ts IH] using Expr_nested_ind.
  pose proof (traverse_post_terms_part sts ts IH) as H1.
  unfold substitute. simpl traverse_post.
  change (traverse_post (substitute_cb sts)) with (substitute sts).
  destruct (traverse_post_terms (substitute sts) ts) as [stop ts1]. simpl in H1.
  destruct stop; simpl.
  - apply part_below. revert H1. apply Forall2_impl.
    intros t t' Ht. destruct t; try (subst t'; apply part_kept). exact Ht.
  - unfold substitute_cb. simpl m_terms. simpl m_op.
    pose proof (substitute_cb_terms_part sts ts1) as H2.
    destruct (substitute_cb_terms sts ts1) as [err ts2]. simpl in *.
    apply part_below. exact (part_substituted_two_steps sts ts ts1 ts2 H1 H2).
Qed.

Lemma substitute_in_or_out_of_range (subst_terms : list ExprTerm) (e : Expr) :
  (substs_below (length subst_terms) e = true ->
   substitute subst_terms e = (false, subst_leaves subst_terms e)) /\
  (substs_below (length subst_terms) e = false ->
   fst (substitute subst_terms e) = true /\
   substs_below (length subst_terms) (snd (substitute subst_terms e)) = false).
Proof.
  set (n := length subst_terms).
  induction e as [op ts IH] using Expr_nested_ind.
  pose proof (traverse_terms_substitute subst_terms ts IH) as Hts. fold n in Hts.
  rewrite substs_below_unfold, term_below_split.
  unfold substitute at 1 2 3. simpl traverse_post.
  change (traverse_post (substitute_cb subst_terms)) with (substitute subst_terms).
  destruct Hts as [[Hc Heq]|[Hc [Hf Hs]]].
  - rewrite Heq, Hc. simpl andb. unfold substitute_cb. simpl m_terms. simpl m_op.
    split; intros Hl.
    + rewrite substitute_cb_terms_ok by (fold n; now rewrite subst_below_term_child).
      now rewrite subst_leaves_unfold.
    + rewrite <- (subst_below_term_child subst_terms) in Hl.
      destruct (substitute_cb_terms_err subst_terms _ Hl) as [H1 H2]. fold n in H2.
      destruct (substitute_cb_terms subst_terms (map (subst_child subst_terms) ts))
        as [err rs].
      simpl in *. split; [assumption|].
      change (forallb (term_below n) rs = false).
      rewrite term_below_split, H2. apply andb_false_r.
  - rewrite Hc. simpl andb. split; [discriminate|]. intros _.
    destruct (traverse_post_terms (substitute subst_terms) ts) as [stop rs].
    simpl in *. subst stop. simpl. split; [reflexivity|assumption].
Qed.

(** C6, as stated, fails when an index is out of range: the traversal ends at
    the first SUBST leaf it cannot fill, so the leaves it has not visited
    yet stay, also those whose index is in range.  With the one term 7,
    SUBST(0) is left in [SUBST(9) + SUBST(0)], and in [SUBST(0) + (SUBST(5) * 2)],
    where the sub-expression is visited before the leaves of the sum. *)
Lemma substitute_stops_at_missing_index :
  let e1 := mkExpr ADD [SUBST 9; SUBST 0] in
  let e2 := mkExpr ADD [SUBST 0; EXPR (mkExpr MUL [SUBST 5; INT 2])] in
  substitute [INT 7] e1 = (true, e1) /\
  subst_leaves_as_stated [INT 7] e1 = mkExpr ADD [SUBST 9; INT 7] /\
  snd (substitute [INT 7] e1) <> subst_leaves_as_stated [INT 7] e1 /\
  substitute [INT 7] e2 = (true, e2) /\
  subst_leaves_as_stated [INT 7] e2 =
    mkExpr ADD [INT 7; EXPR (mkExpr MUL [SUBST 5; INT 2])] /\
  snd (substitute [INT 7] e2) <> subst_leaves_as_stated [INT 7] e2.
Proof.
  cbv zeta. repeat split; try reflexivity; discriminate.
Qed.

(** C6 (amended).  When every SUBST leaf of the tree carries an index below
    [terms.size()], [substitute(terms)] replaces every SUBST(i) leaf with a
    clone of [terms[i]] and returns false.  When some SUBST leaf carries an
    index [i >= terms.size()] it returns true (the error signal) and a SUBST
    leaf with such an index is still in the tree afterwards.  In both cases
    the tree afterwards differs from the tree before only in SUBST(i) leaves
    with [i < terms.size()] that have become a clone of [terms[i]]: on an
    error some of them may be left as they were. *)
Theorem substitute_replaces_or_signals (subst_terms : list ExprTerm) (e : Expr) :
  (substs_below (length subst_terms) e = true ->
   substitute subst_terms e = (false, subst_leaves subst_terms e)) /\
  (substs_below (length subst_terms) e = false ->
   fst (substitute subst_terms e) = true /\
   substs_below (length subst_terms) (snd (substitute subst_terms e)) = false) /\
  part_substituted subst_terms (EXPR e) (EXPR (snd (substitute subst_terms e))).
Proof.
  destruct (substitute_in_or_out_of_range subst_terms e) as [Hin Hout].
  split; [exact Hin|]. split; [exact Hout|]. apply substitute_part.
Qed.

Lemma substitute_replaces_or_signals_witness :
  substitute [INT 7; SYM "x"%string]
             (mkExpr ADD [SUBST 0; EXPR (mkExpr MUL [SUBST 1; INT 2])]) =
  (false, mkExpr ADD [INT 7; EXPR (mkExpr MUL [SYM "x"%string; INT 2])]) /\
  fst (substitute [INT 7] (mkExpr ADD [SUBST 0; SUBST 3])) = true.
Proof.
  split.
  - apply (proj1 (substitute_replaces_or_signals
                    [INT 7; SYM "x"%string]
                    (mkExpr ADD [SUBST 0; EXPR (mkExpr MUL [SUBST 1; INT 2])]))).
    reflexivity.
  - apply (proj1 (proj2 (substitute_replaces_or_signals
                             [INT 7] (mkExpr ADD [SUBST 0; SUBST 3])))).
    reflexivity.
Defined.

(** ** SEG:OFF and WRT extraction (C5) *)

(** C5, as stated, fails for [extract_segoff]: on SEGOFF(seg, off) the caller
    receives the left part and the expression keeps the right part. *)
Lemma extract_segoff_returns_left :
  extract_segoff (mkExpr SEGOFF [SYM "seg"%string; SYM "off"%string]) =
    (Some (mkExpr IDENT [SYM "seg"%string]), mkExpr IDENT [SYM "off"%string]) /\
  extract_segoff (mkExpr SEGOFF [SYM "seg"%string; SYM "off"%string]) <>
    (Some (own_expr (SYM "off"%string)), mkExpr IDENT [SYM "seg"%string]).
Proof. split; [reflexivity|discriminate]. Qed.

(** C5 (amended).  [extract_segoff] succeeds exactly on SEGOFF with two terms
    and [extract_wrt] exactly on WRT with two terms; any other shape returns
    null and leaves the expression unchanged.  On success [extract_segoff]
    returns the left (segment) part and turns the expression into the IDENT of
    the right part, while [extract_wrt] returns the right part and turns the
    expression into the IDENT of the left part. *)
Theorem extract_segoff_wrt_split (e : Expr) :
  (forall a b, e = mkExpr SEGOFF [a; b] ->
     extract_segoff e = (Some (own_expr a), mkExpr IDENT [b])) /\
  (forall a b, e = mkExpr WRT [a; b] ->
     extract_wrt e = (Some (own_expr b), mkExpr IDENT [a])) /\
  ((forall a b, e <> mkExpr SEGOFF [a; b]) -> extract_segoff e = (None, e)) /\
  ((forall a b, e <> mkExpr WRT [a; b]) -> extract_wrt e = (None, e)).
Proof.
  repeat split.
  - intros a b ->. now destruct a.
  - intros a b ->. now destruct b.
  - intros H. destruct e as [op ts]. unfold extract_segoff. simpl.
    destruct (Op_beq op SEGOFF) eqn:Hop; [|reflexivity].
    apply Op_beq_eq in Hop. subst op.
    destruct ts as [|a [|b [|c ts]]]; try reflexivity.
    now destruct (H a b).
  - intros H. destruct e as [op ts]. unfold extract_wrt. simpl.
    destruct (Op_beq op WRT) eqn:Hop; [|reflexivity].
    apply Op_beq_eq in Hop. subst op.
    destruct ts as [|a [|b [|c ts]]]; try reflexivity.
    now destruct (H a b).
Qed.

Lemma extract_segoff_wrt_split_witness :
  extract_segoff (mkExpr SEGOFF [INT 4096; SYM "off"%string]) =
    (Some (mkExpr IDENT [INT 4096]), mkExpr IDENT [SYM "off"%string]) /\
  extract_wrt (mkExpr WRT [SYM "sym"%string; EXPR (mkExpr ADD [SYM "got"%string; INT 4])]) =
    (Some (mkExpr ADD [SYM "got"%string; INT 4]), mkExpr IDENT [SYM "sym"%string]) /\
  extract_segoff (mkExpr ADD [INT 1; INT 2]) = (None, mkExpr ADD [INT 1; INT 2]) /\
  extract_wrt (mkExpr ADD [INT 1; INT 2]) = (None, mkExpr ADD [INT 1; INT 2]).
Proof.
  split; [|split; [|split]].
  - apply (proj1 (extract_segoff_wrt_split _) (INT 4096) (SYM "off"%string)).
    reflexivity.
  - apply (proj1 (proj2 (extract_segoff_wrt_split _)) (SYM "sym"%string)
                 (EXPR (mkExpr ADD [SYM "got"%string; INT 4]))).
    reflexivity.
  - apply (proj1 (proj2 (proj2 (extract_segoff_wrt_split _)))).
    intros a b H. discriminate H.
  - apply (proj2 (proj2 (proj2 (extract_segoff_wrt_split _)))).
    intros a b H. discriminate H.
Defined.

(** ** The read cursor of Bytes (C9) *)

(** C9, as stated, fails at the end of the buffer: with the read position equal
    to the size (here an empty buffer), [read(0)] satisfies "position + n does
    not exceed the size" and still throws, because [at(oldpos)] is range
    checked; the read position is not moved past the end. *)
Lemma read_zero_at_end_throws :
  let b := mkBytes [] false 0 in
  m_readpos b + 0 <= size b /\
  snd (read 0 b) = Fail OutOfRange /\
  m_readpos (fst (read 0 b)) = size b.
Proof. simpl. split; [discriminate|]. split; reflexivity. Qed.

(** The sum [m_readpos += n] is unsigned: a count that makes it wrap gets past
    the bound check. *)
Lemma read_wrapping_sum_succeeds :
  let b := mkBytes [Byte.x01; Byte.x02; Byte.x03] false 1 in
  let n := 2 ^ size_type_bits - 1 in
  size b < m_readpos b + n /\
  snd (read n b) = Ok 1 /\
  m_readpos (fst (read n b)) = 0.
Proof. split; [reflexivity|]. split; reflexivity. Qed.

Lemma size_type_wrap_small (x : Z) :
  0 <= x < 2 ^ size_type_bits -> size_type_wrap x = x.
Proof. intros H. unfold size_type_wrap. now apply Z.mod_small. Qed.

(** C9 (amended).  When the sum of the read position and [n] does not wrap,
    [read(n)] leaves the read position advanced by [n] and the bytes as they
    were, whether it returns or throws.  It returns a pointer to the byte at
    the pre-call read position if and only if the pre-call position plus [n]
    does not exceed the size and the pre-call position is inside the buffer;
    otherwise it throws std::out_of_range, so a sum beyond the size leaves the
    position past the end.  A successful read covers only bytes of the
    buffer. *)
Theorem read_cursor (b : Bytes) (n : Z) :
  0 <= m_readpos b ->
  0 <= n ->
  m_readpos b + n < 2 ^ size_type_bits ->
  let b' := fst (read n b) in
  let r := snd (read n b) in
  m_readpos b' = m_readpos b + n /\
  bytes_vector b' = bytes_vector b /\
  (r = Ok (m_readpos b) <-> m_readpos b + n <= size b /\ m_readpos b < size b) /\
  (r = Ok (m_readpos b) \/ r = Fail OutOfRange) /\
  (forall p, r = Ok p -> p = m_readpos b /\ 0 <= p /\ p + n <= size b) /\
  (size b < m_readpos b + n -> r = Fail OutOfRange /\ size b < m_readpos b').
Proof.
  intros Hpos Hn Hsum. unfold read, at_, set_readpos, size. simpl.
  set (sz := Z.of_nat (length (bytes_vector b))).
  rewrite size_type_wrap_small by lia.
  destruct (Z.ltb_spec sz (m_readpos b + n)) as [Hlt|Hge]; simpl.
  - split; [reflexivity|]. split; [reflexivity|]. split; [|split; [|split]].
    + split; [discriminate|lia].
    + now right.
    + discriminate.
    + intros _. split; [reflexivity|assumption].
  - destruct (Z.ltb_spec (m_readpos b) sz) as [Hin|Hout]; simpl.
    + split; [reflexivity|]. split; [reflexivity|]. split; [|split; [|split]].
      * split; [lia|reflexivity].
      * now left.
      * intros p Hp. injection Hp as <-. lia.
      * lia.
    + split; [reflexivity|]. split; [reflexivity|]. split; [|split; [|split]].
      * split; [discriminate|lia].
      * now right.
      * discriminate.
      * lia.
Qed.

Lemma read_cursor_witness :
  let b := mkBytes [Byte.x01; Byte.x02; Byte.x03] false 1 in
  m_readpos (fst (read 2 b)) = 3 /\ snd (read 2 b) = Ok 1.
Proof.
  assert (H1 : 0 <= 1) by discriminate.
  assert (H2 : 0 <= 2) by discriminate.
  assert (H3 : 1 + 2 < 2 ^ size_type_bits) by reflexivity.
  pose proof (read_cursor (mkBytes [Byte.x01; Byte.x02; Byte.x03] false 1) 2 H1 H2 H3) as H.
  simpl in H. destruct H as [Hp [_ [Hr _]]].
  split.
  - exact Hp.
  - apply Hr. split; [discriminate|reflexivity].
Defined.

(** ** Negative normalization (C2) *)

(** C2, as stated, fails for a NEG directly over a NEG: [xform_neg] does not
    collapse it to the inner expression but multiplies the inner NEG node by
    -1 (the inner NEG is only rewritten when the recursion reaches it). *)
Lemma xform_neg_of_neg_not_identity :
  xform_neg (mkExpr NEG [EXPR (mkExpr NEG [SYM "x"%string])]) =
    Ok (mkExpr MUL [EXPR (mkExpr NEG [SYM "x"%string]); INT (-1)]) /\
  xform_neg (mkExpr NEG [EXPR (mkExpr NEG [SYM "x"%string])]) <>
    Ok (mkExpr IDENT [SYM "x"%string]) /\
  xform_neg (mkExpr NEG [EXPR (mkExpr NEG [SYM "x"%string])]) <>
    Ok (mkExpr IDENT [EXPR (mkExpr IDENT [SYM "x"%string])]).
Proof. split; [reflexivity|]. split; discriminate. Qed.

(** C2 (amended).  [xform_neg] leaves every node other than NEG and SUB alone.
    On NEG x it computes the negation at once when x is an integer or float
    leaf, pushes the negation into x when x is a sub-expression that contains
    a float, and otherwise rewrites the node into MUL(x, -1), also when x is
    itself a NEG node.  On SUB(a, b) it yields ADD(a, b') where b' is
    MUL(-1, b) for a leaf b and the negation of b for a sub-expression b.
    Negating a sub-expression distributes over the terms of an ADD, negates
    the left side of a SUB (which becomes an ADD), turns a NEG node into the
    IDENT of its operand, treats an IDENT node as [xform_neg] treats the NEG
    of its term, and turns a node e with any other operator (MUL, DIV, ...)
    into MUL(-1, e). *)
Theorem xform_neg_rewrites :
  (forall n rest,
     xform_neg (mkExpr NEG (INT n :: rest)) = Ok (mkExpr IDENT (INT (- n) :: rest))) /\
  (forall f rest,
     xform_neg (mkExpr NEG (FLOAT f :: rest)) =
     Ok (mkExpr IDENT (FLOAT (float_neg f) :: rest))) /\
  (forall sube rest, contains T_FLOAT sube = true ->
     xform_neg (mkExpr NEG (EXPR sube :: rest)) =
     (r <- xform_neg_helper sube ;; Ok (mkExpr IDENT (EXPR r :: rest)))) /\
  (forall x rest,
     get_int x = None -> is_type x T_FLOAT = false ->
     (forall sube, x = EXPR sube -> contains T_FLOAT sube = false) ->
     xform_neg (mkExpr NEG (x :: rest)) = Ok (mkExpr MUL (x :: rest ++ [INT (-1)]))) /\
  (forall a b rest,
     xform_neg (mkExpr SUB (a :: b :: rest)) =
     (b' <- negate_term b ;; Ok (mkExpr ADD (a :: b' :: rest)))) /\
  (forall op ts, op <> NEG -> op <> SUB ->
     xform_neg (mkExpr op ts) = Ok (mkExpr op ts)) /\
  (forall t, get_expr t = None ->
     negate_term t = Ok (EXPR (mkExpr MUL [INT (-1); t]))) /\
  (forall ts,
     xform_neg_helper (mkExpr ADD ts) =
     (ts' <- mapM negate_term ts ;; Ok (mkExpr ADD ts'))) /\
  (forall a rest,
     xform_neg_helper (mkExpr SUB (a :: rest)) =
     (a' <- negate_term a ;; Ok (mkExpr ADD (a' :: rest)))) /\
  (forall ts, xform_neg_helper (mkExpr NEG ts) = Ok (mkExpr IDENT ts)) /\
  (forall ts, xform_neg_helper (mkExpr IDENT ts) = xform_neg (mkExpr NEG ts)) /\
  (forall op ts,
     op <> ADD -> op <> SUB -> op <> NEG -> op <> IDENT ->
     xform_neg_helper (mkExpr op ts) = Ok (mkExpr MUL [INT (-1); EXPR (mkExpr op ts)])) /\
  (forall sube,
     negate_term (EXPR sube) = (r <- xform_neg_helper sube ;; Ok (EXPR r))).
Proof.
  repeat match goal with |- _ /\ _ => split end.
  - reflexivity.
  - reflexivity.
  - intros sube rest H. simpl. now rewrite H.
  - intros x rest Hi Hf He. destruct x; simpl in *; try reflexivity; try discriminate.
    now rewrite (He e eq_refl).
  - intros a b rest. destruct b; simpl; try reflexivity.
    now destruct (xform_neg_helper e).
  - intros op ts Hn Hs. destruct op; try reflexivity; contradiction.
  - intros t H. destruct t; try reflexivity. discriminate.
  - reflexivity.
  - intros a rest. destruct a; simpl; try reflexivity.
    now destruct (xform_neg_helper e).
  - reflexivity.
  - reflexivity.
  - intros op ts Ha Hs Hn Hi. destruct op; try reflexivity; contradiction.
  - reflexivity.
Qed.

Lemma xform_neg_rewrites_witness :
  xform_neg (mkExpr NEG [EXPR (mkExpr ADD [SYM "a"%string; FLOAT (mkFloat false 0 3)])]) =
    Ok (mkExpr IDENT
          [EXPR (mkExpr ADD [EXPR (mkExpr MUL [INT (-1); SYM "a"%string]);
                             EXPR (mkExpr MUL [INT (-1); FLOAT (mkFloat false 0 3)])])]) /\
  xform_neg (mkExpr NEG [SYM "x"%string]) = Ok (mkExpr MUL [SYM "x"%string; INT (-1)]) /\
  xform_neg (mkExpr ADD [INT 1; INT 2]) = Ok (mkExpr ADD [INT 1; INT 2]) /\
  negate_term (SYM "y"%string) = Ok (EXPR (mkExpr MUL [INT (-1); SYM "y"%string])) /\
  xform_neg (mkExpr SUB [SYM "a"%string;
                         EXPR (mkExpr MUL [SYM "b"%string; SYM "c"%string])]) =
    Ok (mkExpr ADD [SYM "a"%string;
                    EXPR (mkExpr MUL [INT (-1);
                                      EXPR (mkExpr MUL [SYM "b"%string; SYM "c"%string])])]).
Proof.
  pose proof xform_neg_rewrites
    as [_ [_ [H3 [H4 [H5 [H6 [H7 [_ [_ [_ [_ [H12 H13]]]]]]]]]]]].
  split; [|split; [|split; [|split]]].
  - rewrite H3; reflexivity.
  - apply H4; [reflexivity|reflexivity|discriminate].
  - apply H6; discriminate.
  - apply H7. reflexivity.
  - rewrite H5, H13, H12 by discriminate. reflexivity.
Defined.

(** ** Identity simplification (C3) *)

Lemma one_int_first (ts : list ExprTerm) (k : nat) (n m : IntNum) (rest : list ExprTerm) :
  count_ints ts = 1%nat -> ts = INT m :: rest -> nth_error ts k = Some (INT n) ->
  k = O /\ m = n /\ without_ints ts = rest /\ erase_first_int ts = rest /\
  find_first_int ts = Ok (INT n).
Proof.
  intros Hc -> Hk. unfold count_ints in Hc. simpl in Hc.
  assert (Hrest : filter is_int rest = []).
  { destruct (filter is_int rest); [reflexivity|discriminate]. }
  destruct k as [|k].
  - simpl in Hk. injection Hk as ->. repeat split.
    unfold without_ints. simpl.
    clear -Hrest. induction rest as [|t r IH]; simpl in *; [reflexivity|].
    destruct (is_int t); simpl in *; [discriminate|]. now rewrite IH.
  - exfalso. simpl in Hk. apply nth_error_In in Hk.
    assert (In (INT n) (filter is_int rest)) by (apply filter_In; now split).
    now rewrite Hrest in H.
Qed.

Lemma one_int_later (ts : list ExprTerm) (k : nat) (n : IntNum) :
  count_ints ts = 1%nat -> nth_error ts k = Some (INT n) ->
  erase_first_int ts = without_ints ts /\ find_first_int ts = Ok (INT n).
Proof.
  revert k. induction ts as [|t ts IH]; intros k Hc Hk.
  - destruct k; discriminate.
  - destruct (is_int t) eqn:Ht.
    + destruct t; try discriminate.
      destruct (one_int_first _ k n n0 ts Hc eq_refl Hk) as [_ [-> [H1 [H2 H3]]]].
      now rewrite H1, H2, H3.
    + destruct k as [|k]; simpl in Hk.
      * injection Hk as ->. discriminate.
      * unfold count_ints in Hc. simpl in Hc. rewrite Ht in Hc.
        destruct (IH k Hc Hk) as [H1 H2].
        unfold without_ints in *. simpl. rewrite Ht. simpl.
        destruct t; try discriminate; now rewrite H1, H2.
Qed.

(** C3.  On a leveled node (never a SUB: [xform_neg] has turned it into an ADD
    before the node is leveled) that holds exactly one integer term,
    [simplify_identity] applies exactly the listed identities: it deletes the
    integer term, or every other term, as the list says, leaves the node
    unchanged otherwise, computes NOT, NEG and LNOT on a lone integer, and
    makes the node an IDENT when one term is left; with [simplify_reg_mul]
    false a MUL node with integer 1 that contains a register is left
    unchanged. *)
Theorem simplify_identity_applies_listed (simplify_reg_mul : bool) (op : Op)
        (ts : list ExprTerm) (k : nat) (n : IntNum) :
  op <> SUB ->
  nth_error ts k = Some (INT n) ->
  count_ints ts = 1%nat ->
  simplify_identity k simplify_reg_mul (mkExpr op ts) =
  simplify_identity_listed simplify_reg_mul op ts n.
Proof.
  intros Hsub Hk Hc.
  unfold simplify_identity, simplify_identity_listed, int_at. simpl m_terms. simpl m_op.
  rewrite Hk.
  destruct ts as [|t rest]; [destruct k; discriminate|].
  cbn [front bind].
  destruct rest as [|t2 rest].
  - (* a lone integer *)
    destruct k as [|[|k]]; try discriminate. simpl in Hk. injection Hk as ->.
    simpl. destruct op; reflexivity.
  - change (Nat.ltb 1 (length (t :: t2 :: rest))) with true. cbv iota.
    destruct (one_int_later _ _ _ Hc Hk) as [He Hf].
    destruct (is_int t) eqn:Ht.
    + destruct t as [| |m| | | | |]; try discriminate.
      destruct (one_int_first _ _ _ _ _ Hc eq_refl Hk) as [-> [-> [Hw _]]].
      rewrite He, Hf. unfold reg_mul_kept, listed_identity, is_constant,
        can_destroy_int_left, can_destroy_int_right, is_zero, is_pos1, is_neg1.
      change (Nat.eqb 0 0) with true.
      destruct simplify_reg_mul, (contains T_REG (mkExpr op (INT n :: t2 :: rest)));
        destruct (Z.eqb_spec n 0), (Z.eqb_spec n 1), (Z.eqb_spec n (-1));
        try lia; destruct op; try contradiction; simpl; try reflexivity;
        rewrite ?Hw; unfold ident_if_single; simpl;
        repeat match goal with
               | |- context [Nat.eqb ?a ?b] => destruct (Nat.eqb a b)
               end; reflexivity.
    + assert (Hfirst : match t with INT _ => Nat.eqb k 0 | _ => false end = false)
        by (destruct t; try reflexivity; discriminate).
      rewrite Hfirst.
      assert (Hhd : match t :: t2 :: rest with INT _ :: _ => true | _ => false end = false)
        by (destruct t; try reflexivity; discriminate).
      rewrite Hhd.
      rewrite He, Hf. unfold reg_mul_kept, listed_identity, is_constant,
        can_destroy_int_left, can_destroy_int_right, is_zero, is_pos1, is_neg1.
      destruct simplify_reg_mul, (contains T_REG (mkExpr op (t :: t2 :: rest)));
        destruct (Z.eqb_spec n 0), (Z.eqb_spec n 1), (Z.eqb_spec n (-1));
        try lia; destruct op; try contradiction; simpl; try reflexivity;
        unfold ident_if_single; simpl m_terms; simpl m_op;
        repeat match goal with
               | |- context [Nat.eqb ?a ?b] => destruct (Nat.eqb a b)
               end; reflexivity.
Qed.

Lemma simplify_identity_applies_listed_witness :
  simplify_identity 1 true (mkExpr MUL [SYM "x"%string; INT 1]) =
    Ok (mkExpr IDENT [SYM "x"%string]) /\
  simplify_identity 0 false (mkExpr MUL [INT 1; REG 3%nat]) =
    Ok (mkExpr MUL [INT 1; REG 3%nat]) /\
  simplify_identity 0 true (mkExpr OR [INT (-1); SYM "x"%string; SYM "y"%string]) =
    Ok (mkExpr IDENT [INT (-1)]).
Proof.
  split; [|split].
  - rewrite (simplify_identity_applies_listed true MUL [SYM "x"%string; INT 1] 1 1);
      [reflexivity|discriminate|reflexivity|reflexivity].
  - rewrite (simplify_identity_applies_listed false MUL [INT 1; REG 3%nat] 0 1);
      [reflexivity|discriminate|reflexivity|reflexivity].
  - rewrite (simplify_identity_applies_listed true OR
               [INT (-1); SYM "x"%string; SYM "y"%string] 0 (-1));
      [reflexivity|discriminate|reflexivity|reflexivity].
Defined.

(** ** Leveling twice (C4) *)

(** C4 fails on [1 + (a + 2)].  The reverse copy loop of [level_op] meets the
    integer 2 of the same-operator child before the node's own integer 1, so
    the 1 is pushed without being folded: the first pass leaves two integer
    terms, and a second pass folds them. *)
Lemma level_tree_twice_differs :
  let e := mkExpr ADD [INT 1; EXPR (mkExpr ADD [SYM "a"%string; INT 2])] in
  let once := mkExpr ADD [INT 1; SYM "a"%string; INT 2] in
  level_tree (level_fuel e) true true true None e = Ok once /\
  level_tree (level_fuel once) true true true None once =
    Ok (mkExpr ADD [INT 3; SYM "a"%string]).
Proof. split; reflexivity. Qed.

(** ** Symbol resolution in the NASM parser (C7) *)

Lemma substring_all (s : string) : String.substring 0 (String.length s) s = s.
Proof. induction s as [|c s IH]; simpl; [reflexivity|]. now rewrite IH. Qed.

Lemma advance_1 (c : ascii) (s : string) : Nasm.advance 1 (String c s) = s.
Proof. unfold Nasm.advance. simpl. rewrite Nat.sub_0_r. apply substring_all. Qed.

Lemma advance_2 (c d : ascii) (s : string) : Nasm.advance 2 (String c (String d s)) = s.
Proof. unfold Nasm.advance. simpl. rewrite Nat.sub_0_r. apply substring_all. Qed.

(** C7, as stated, fails for the name that is exactly "..@": it begins with
    "..@" but is looked up as the special symbol "@", not verbatim in the
    symbol table. *)
Lemma ParseSymbol_bare_dotdotat_is_special :
  let ii := Nasm.mkII "..@"%string None in
  let p := TableObject.parser "main"%string in
  let r := Nasm.ParseSymbol TableObject.getSymbol TableObject.FindSpecialSymbol ii p in
  Nasm.ps_sym r = TableObject.FindSpecialSymbol "@"%string (Nasm.m_object p) /\
  Nasm.ps_sym r <> fst (TableObject.getSymbol "..@"%string (Nasm.m_object p)).
Proof. split; [reflexivity|discriminate]. Qed.

Section ParseSymbolFacts.

Context {Object Symbol : Type}.

Variable getSymbol : string -> Object -> option Symbol * Object.

Variable FindSpecialSymbol : string -> Object -> option Symbol.

Variable getName : Symbol -> string.

Let ParseSymbol := Nasm.ParseSymbol getSymbol FindSpecialSymbol.

Let DefineLabel := @Nasm.DefineLabel Object Symbol getName.

Lemma ParseSymbol_nonlocal (ii : Nasm.IdentifierInfo Symbol) (p : Nasm.NasmParser Object Symbol)
      (c : ascii) (rest : string) :
  Nasm.ii_symbol ii = None ->
  Nasm.ii_name ii = String "." (String "." (String "@" (String c rest))) ->
  ParseSymbol ii p =
  Nasm.mkParsed (fst (getSymbol (Nasm.ii_name ii) (Nasm.m_object p))) false
                (Nasm.setSymbol (fst (getSymbol (Nasm.ii_name ii) (Nasm.m_object p))) ii)
                (Nasm.with_object (snd (getSymbol (Nasm.ii_name ii) (Nasm.m_object p))) p).
Proof.
  intros Hc Hn. unfold ParseSymbol, Nasm.ParseSymbol. rewrite Hc, Hn. simpl.
  now destruct (getSymbol _ _).
Qed.

Lemma ParseSymbol_special (ii : Nasm.IdentifierInfo Symbol) (p : Nasm.NasmParser Object Symbol)
      (c : ascii) (rest : string) :
  Nasm.ii_symbol ii = None ->
  Nasm.ii_name ii = String "." (String "." (String c rest)) ->
  (c = "@"%char -> rest = EmptyString) ->
  ParseSymbol ii p =
  Nasm.mkParsed (FindSpecialSymbol (String c rest) (Nasm.m_object p)) false
                (Nasm.setSymbol (FindSpecialSymbol (String c rest) (Nasm.m_object p)) ii)
                p.
Proof.
  intros Hc Hn Hat. unfold ParseSymbol, Nasm.ParseSymbol. rewrite Hc, Hn.
  cbn -[Nasm.advance Nat.ltb]. rewrite advance_2.
  change (Nat.ltb 1 (S (S (S (String.length rest))))) with true.
  change (Nat.ltb 2 (S (S (S (String.length rest))))) with true.
  cbn [andb].
  destruct (Ascii.eqb_spec c "@") as [->|Hne].
  - rewrite (Hat eq_refl). reflexivity.
  - now rewrite andb_false_r.
Qed.

Lemma ParseSymbol_local (ii : Nasm.IdentifierInfo Symbol) (p : Nasm.NasmParser Object Symbol)
      (c : ascii) (rest : string) :
  Nasm.ii_symbol ii = None ->
  Nasm.ii_name ii = String "." (String c rest) ->
  (c = "."%char -> rest = EmptyString) ->
  let key := (Nasm.m_locallabel_base p ++ Nasm.ii_name ii)%string in
  let p1 := if Nat.eqb (String.length (Nasm.m_locallabel_base p)) 0
            then Nasm.Diag Nasm.warn_no_nonlocal p else p in
  ParseSymbol ii p =
  Nasm.mkParsed (fst (getSymbol key (Nasm.m_object p))) true ii
                (Nasm.with_object (snd (getSymbol key (Nasm.m_object p))) p1).
Proof.
  intros Hc Hn Hdot. unfold ParseSymbol, Nasm.ParseSymbol. rewrite Hc, Hn.
  cbn -[Nat.ltb String.append].
  change (Nat.ltb 1 (S (S (String.length rest)))) with true. cbn [andb].
  assert (Hnot : Nat.ltb 2 (S (S (String.length rest))) && Ascii.eqb c "." = false).
  { destruct (Ascii.eqb_spec c ".") as [->|Hne]; [|apply andb_false_r].
    rewrite (Hdot eq_refl). reflexivity. }
  rewrite Hnot.
  assert (Hobj : forall q : Nasm.NasmParser Object Symbol,
             Nasm.m_object (if Nat.eqb (String.length (Nasm.m_locallabel_base p)) 0
                            then Nasm.Diag Nasm.warn_no_nonlocal p else p)
             = Nasm.m_object p).
  { intros _. now destruct (Nat.eqb _ _). }
  rewrite (Hobj p). now destruct (getSymbol _ _).
Qed.

Lemma ParseSymbol_normal (ii : Nasm.IdentifierInfo Symbol) (p : Nasm.NasmParser Object Symbol)
      (c : ascii) (rest : string) :
  Nasm.ii_symbol ii = None ->
  Nasm.ii_name ii = String c rest ->
  c <> "$"%char ->
  (c <> "."%char \/ rest = EmptyString) ->
  ParseSymbol ii p =
  Nasm.mkParsed (fst (getSymbol (Nasm.ii_name ii) (Nasm.m_object p))) false
                (Nasm.setSymbol (fst (getSymbol (Nasm.ii_name ii) (Nasm.m_object p))) ii)
                (Nasm.with_object (snd (getSymbol (Nasm.ii_name ii) (Nasm.m_object p))) p).
Proof.
  intros Hc Hn Hdollar Hdot. unfold ParseSymbol, Nasm.ParseSymbol. rewrite Hc, Hn.
  cbn -[Nat.ltb Nasm.advance].
  destruct (Ascii.eqb_spec c "$") as [|_]; [contradiction|].
  cbn -[Nat.ltb Nasm.advance].
  assert (Hnot : Nat.ltb 1 (S (String.length rest)) && Ascii.eqb c "." = false).
  { destruct Hdot as [Hne| ->]; [|reflexivity].
    destruct (Ascii.eqb_spec c "."); [contradiction|apply andb_false_r]. }
  rewrite Hnot. now destruct (getSymbol _ _).
Qed.

(** C7 (amended).  For an identifier that is not cached and does not start
    with '$': a name of more than three characters beginning with "..@" is
    an ordinary non-local symbol, looked up verbatim with [getSymbol]; any
    other name of more than two characters beginning with ".." is looked up
    with [FindSpecialSymbol] without its leading ".."; any other name of
    more than one character beginning with "." is a local label, looked up
    with [getSymbol] under the name of the last non-local label followed by
    the name itself, with a warning exactly when no non-local label came
    before; every other name (also the bare ".") is looked up verbatim.
    Defining a non-local label makes its name the prefix of the local labels
    that follow; defining a local label leaves the prefix. *)
Theorem ParseSymbol_DefineLabel_resolution
        (ii : Nasm.IdentifierInfo Symbol) (p : Nasm.NasmParser Object Symbol) :
  Nasm.ii_symbol ii = None ->
  let r := ParseSymbol ii p in
  let name := Nasm.ii_name ii in
  (forall c rest, name = String "." (String "." (String "@" (String c rest))) ->
     Nasm.ps_sym r = fst (getSymbol name (Nasm.m_object p)) /\
     Nasm.ps_local r = false /\
     Nasm.diagnostics (Nasm.ps_parser r) = Nasm.diagnostics p) /\
  (forall c rest, name = String "." (String "." (String c rest)) ->
     (c = "@"%char -> rest = EmptyString) ->
     Nasm.ps_sym r = FindSpecialSymbol (String c rest) (Nasm.m_object p) /\
     Nasm.ps_local r = false /\
     Nasm.ps_parser r = p) /\
  (forall c rest, name = String "." (String c rest) ->
     (c = "."%char -> rest = EmptyString) ->
     Nasm.ps_sym r =
       fst (getSymbol (Nasm.m_locallabel_base p ++ name)%string (Nasm.m_object p)) /\
     Nasm.ps_local r = true /\
     Nasm.ps_ii r = ii /\
     Nasm.diagnostics (Nasm.ps_parser r) =
       (if Nat.eqb (String.length (Nasm.m_locallabel_base p)) 0
        then Nasm.diagnostics p ++ [Nasm.warn_no_nonlocal]
        else Nasm.diagnostics p)) /\
  (forall c rest, name = String c rest -> c <> "$"%char ->
     (c <> "."%char \/ rest = EmptyString) ->
     Nasm.ps_sym r = fst (getSymbol name (Nasm.m_object p)) /\
     Nasm.ps_local r = false) /\
  (forall s local,
     exists p', DefineLabel (Some s) local p = Ok p' /\
       Nasm.m_locallabel_base p' =
         (if local then Nasm.m_locallabel_base p else getName s) /\
       Nasm.m_object p' = Nasm.m_object p /\
       Nasm.diagnostics p' = Nasm.diagnostics p).
Proof.
  intros Hc r name. subst r name.
  split; [|split; [|split; [|split]]].
  - intros c rest Hn. rewrite (ParseSymbol_nonlocal ii p c rest Hc Hn). simpl.
    repeat split.
  - intros c rest Hn Hat. rewrite (ParseSymbol_special ii p c rest Hc Hn Hat).
    simpl. repeat split.
  - intros c rest Hn Hdot. rewrite (ParseSymbol_local ii p c rest Hc Hn Hdot).
    cbn -[String.append]. repeat split.
    now destruct (Nat.eqb _ _).
  - intros c rest Hn Hd Hdot.
    rewrite (ParseSymbol_normal ii p c rest Hc Hn Hd Hdot).
    simpl. repeat split.
  - intros s local. unfold DefineLabel, Nasm.DefineLabel.
    destruct local; simpl;
      match goal with
      | |- context [if ?b then _ else _] => destruct b
      end; eexists; (split; [reflexivity|]); simpl; repeat split.
Qed.

End ParseSymbolFacts.

Lemma ParseSymbol_DefineLabel_resolution_witness :
  let p := TableObject.parser "main"%string in
  let resolve name :=
      Nasm.ps_sym (Nasm.ParseSymbol TableObject.getSymbol TableObject.FindSpecialSymbol
                                    (Nasm.mkII name None) p) in
  resolve "..@tmp"%string = Some (false, "..@tmp"%string) /\
  resolve "..start"%string = Some (true, "start"%string) /\
  resolve ".loop"%string = Some (false, "main.loop"%string) /\
  resolve "loop"%string = Some (false, "loop"%string).
Proof.
  pose (p := TableObject.parser "main"%string).
  pose (thm := fun name =>
          ParseSymbol_DefineLabel_resolution
            TableObject.getSymbol TableObject.FindSpecialSymbol TableObject.getName
            (Nasm.mkII name None) p eq_refl).
  cbv zeta. split; [|split; [|split]].
  - exact (proj1 (proj1 (thm "..@tmp"%string) "t"%char "mp"%string eq_refl)).
  - refine (proj1 (proj1 (proj2 (thm "..start"%string)) "s"%char "tart"%string eq_refl _)).
    discriminate.
  - refine (proj1 (proj1 (proj2 (proj2 (thm ".loop"%string))) "l"%char "oop"%string
                         eq_refl _)).
    discriminate.
  - refine (proj1 (proj1 (proj2 (proj2 (proj2 (thm "loop"%string)))) "l"%char "oop"%string
                         eq_refl _ _)).
    + discriminate.
    + left. discriminate.
Defined.

(** ** The align directive inside an absolute section (C8) *)

Section EvalFacts.

Context {Symbol : Type}.

Variable symval : Symbol -> option Z.

Lemma eval_items_app (e f : Nasm.Expr Symbol) (st : list Z) :
  Nasm.eval_items symval (e ++ f) st =
  match Nasm.eval_items symval e st with
  | Some st' => Nasm.eval_items symval f st'
  | None => None
  end.
Proof.
  revert st. induction e as [|it e IH]; intros st; simpl; [reflexivity|].
  destruct it as [n|s|op [|[|[|k]]]]; simpl; try reflexivity.
  - apply IH.
  - destruct (symval s); [apply IH|reflexivity].
  - destruct st as [|a st]; [reflexivity|].
    destruct (calc op a None); [apply IH|reflexivity].
  - destruct st as [|b [|a st]]; try reflexivity.
    destruct (calc op a (Some b)); [apply IH|reflexivity].
Qed.

Lemma eval_items_frame (e : Nasm.Expr Symbol) (st st' ext : list Z) :
  Nasm.eval_items symval e st = Some st' ->
  Nasm.eval_items symval e (st ++ ext) = Some (st' ++ ext).
Proof.
  revert st. induction e as [|it e IH]; intros st; simpl.
  - now intros [= ->].
  - destruct it as [n|s|op [|[|[|k]]]]; simpl; try discriminate.
    + apply (IH (n :: st)).
    + destruct (symval s) as [v|]; [apply (IH (v :: st))|discriminate].
    + destruct st as [|a st]; [discriminate|]. simpl.
      destruct (calc op a None) as [v|]; [apply (IH (v :: st))|discriminate].
    + destruct st as [|b [|a st]]; try discriminate. simpl.
      destruct (calc op a (Some b)) as [v|]; [apply (IH (v :: st))|discriminate].
Qed.

Lemma eval_push (e : Nasm.Expr Symbol) (v : Z) (st : list Z) :
  Nasm.eval symval e = Some v -> Nasm.eval_items symval e st = Some (v :: st).
Proof.
  unfold Nasm.eval. intros H.
  destruct (Nasm.eval_items symval e []) as [[|w [|x l]]|] eqn:He; try discriminate.
  injection H as ->. exact (eval_items_frame e [] [v] st He).
Qed.

Lemma eval_Calc (op : Op) (e f : Nasm.Expr Symbol) (a b v : Z) :
  Nasm.eval symval e = Some a -> Nasm.eval symval f = Some b ->
  calc op a (Some b) = Ok v ->
  Nasm.eval symval (Nasm.Calc op e f) = Some v.
Proof.
  intros He Hf Hv. unfold Nasm.eval, Nasm.Calc, Nasm.AppendOp, Nasm.Append.
  rewrite !eval_items_app, (eval_push e a [] He), (eval_push f b [a] Hf).
  simpl. now rewrite Hv.
Qed.

End EvalFacts.

Lemma land_pow2_pred (x k : Z) : 0 <= k -> Z.land x (2 ^ k - 1) = x mod 2 ^ k.
Proof.
  intros Hk. rewrite <- Z.land_ones by assumption.
  now rewrite Z.ones_equiv, <- Z.sub_1_r.
Qed.

Lemma align_up_least (s pos B : Z) :
  0 < B ->
  let pos' := pos + (s - pos) mod B in
  pos <= pos' /\ pos' - pos <= B - 1 /\ (pos' - s) mod B = 0 /\
  (forall q, pos <= q -> (q - s) mod B = 0 -> pos' <= q).
Proof.
  intros HB pos'. subst pos'.
  pose proof (Z.mod_pos_bound (s - pos) B HB) as Hd.
  repeat split; try lia.
  - replace (pos + (s - pos) mod B - s) with (- (B * ((s - pos) / B))).
    + rewrite <- Z.mul_opp_r, Z.mul_comm. now apply Z.mod_mul; lia.
    + pose proof (Z.div_mod (s - pos) B). lia.
  - intros q Hq Hm.
    destruct (Z.le_gt_cases (pos + (s - pos) mod B) q) as [|Hlt]; [assumption|exfalso].
    assert (Hqe : (q - pos) mod B = (s - pos) mod B).
    { replace (s - pos) with ((q - pos) + (-1) * (q - s)) by lia.
      rewrite Z.add_mod by lia. rewrite Z.mul_mod by lia. rewrite Hm.
      rewrite Z.mul_0_r, Z.mod_0_l by lia. rewrite Z.add_0_r.
      now rewrite Z.mod_mod by lia. }
    rewrite Z.mod_small in Hqe by lia. lia.
Qed.



(** ** Symbols in the preprocessor evaluator (C10) *)

Section Expr6Facts.

Context {Object Symbol Private : Type}.

Variable getSymbol : string -> Object -> option Symbol * Object.

Variable scan : Private -> Nasm.tokenval -> Nasm.token * Nasm.tokenval * Private.

Variable curly_evaluator :
  Nasm.EvalState Object Symbol Private ->
  Z * Private * Nasm.tokenval * Nasm.EvalState Object Symbol Private.

Variable ppdir_evaluator :
  Nasm.EvalState Object Symbol Private -> Z * Nasm.EvalState Object Symbol Private.

Let expr6 := NasmEval.expr6 getSymbol scan curly_evaluator ppdir_evaluator.

Lemma errors_do_scan (st : Nasm.EvalState Object Symbol Private) :
  Nasm.errors (Nasm.do_scan scan st) = Nasm.errors st.
Proof.
  unfold Nasm.do_scan. now destruct (scan _ _) as [[t tv] priv].
Qed.


End Expr6Facts.



(** ** Leveling (C1) *)

(** C1, as stated, fails on [~a]: the node keeps its single term and its
    operator NOT; on [1:2], a SEGOFF whose two integers are not folded
    because the operator is not numeric; and on [a - b*2], where the copy
    loop of [level_op] brings the 2 of [b*2] up beside the -1 of the negation
    without folding them, so that a MUL node is left with two integers. *)
Lemma level_tree_keeps_unary_and_segoff_ints :
  let not_a := mkExpr NOT [SYM "a"%string] in
  let far := mkExpr SEGOFF [INT 1; INT 2] in
  let diff := mkExpr SUB [SYM "a"%string; EXPR (mkExpr MUL [SYM "b"%string; INT 2])] in
  let diff' := mkExpr ADD [SYM "a"%string;
                           EXPR (mkExpr MUL [INT (-1); SYM "b"%string; INT 2])] in
  level_tree (level_fuel not_a) true true true None not_a = Ok not_a /\
  ~ all_nodes leveled_as_stated_node not_a /\
  level_tree (level_fuel far) true true true None far = Ok far /\
  ~ all_nodes leveled_as_stated_node far /\
  level_tree (level_fuel diff) true true true None diff = Ok diff' /\
  ~ all_nodes leveled_as_stated_node diff' /\
  slip_free (level_fuel diff) true diff = false.
Proof.
  cbv zeta. split; [reflexivity|]. split.
  - intros [[_ [_ [_ H]]] _]. specialize (H eq_refl). discriminate.
  - split; [reflexivity|]. split.
    + intros [[_ [_ [H _]]] _]. unfold count_ints in H. simpl in H. lia.
    + split; [reflexivity|]. split; [|reflexivity].
      intros [_ [_ [[[_ [_ [H _]]] _] _]]]. unfold count_ints in H. simpl in H. lia.
Qed.

Section Leveling.

Variable strict : bool.

Lemma leveled_terms_final (op : Op) (ts : list ExprTerm) :
  (leveled strict) (mkExpr op ts) -> Forall (term_final strict) ts.
Proof.
  intros H. apply all_nodes_unfold in H. destruct H as [Hn Hs].
  destruct Hn as [_ [_ [_ [_ [[Hid _] _]]]]].
  apply Forall_forall. intros t Hin.
  pose proof (proj1 (Forall_forall _ _) Hs t Hin) as Ht.
  destruct t; simpl in *; trivial. split; [exact Ht|]. now apply Hid.
Qed.

Lemma leveled_child_ok (c : Expr) : (leveled strict) c -> (child_ok strict) (EXPR c).
Proof.
  intros H. destruct c as [op ts]. simpl. split; [|split].
  - apply all_nodes_unfold in H. apply H.
  - now apply leveled_terms_final in H.
  - intros _. exact H.
Qed.

Lemma term_final_child_ok (t : ExprTerm) : (term_final strict) t -> (child_ok strict) t.
Proof.
  destruct t; simpl; trivial. intros [H _]. now apply leveled_child_ok.
Qed.

Lemma leveled_intro (op : Op) (ts : list ExprTerm) :
  (leveled_node strict) op ts -> Forall (term_final strict) ts -> (leveled strict) (mkExpr op ts).
Proof.
  intros Hn Hf. apply all_nodes_unfold. split; [exact Hn|].
  apply Forall_forall. intros t Hin.
  pose proof (proj1 (Forall_forall _ _) Hf t Hin) as Ht.
  destruct t; simpl in *; trivial. apply Ht.
Qed.

Lemma final_no_ident (ts : list ExprTerm) :
  Forall (term_final strict) ts -> forall sube, In (EXPR sube) ts -> m_op sube <> IDENT.
Proof.
  intros Hf sube Hin. exact (proj2 (proj1 (Forall_forall _ _) Hf _ Hin)).
Qed.

(** *** Negative normalization keeps trees well formed *)

Lemma wf_unfold (op : Op) (ts : list ExprTerm) :
  wf (mkExpr op ts) <-> wf_node op ts /\ Forall (sub_holds wf) ts.
Proof. apply all_nodes_unfold. Qed.

Lemma mapM_Forall {A B : Type} (f : A -> result B) (Q : B -> Prop) (l : list A) :
  Forall (fun a => exists b, f a = Ok b /\ Q b) l ->
  exists bs, mapM f l = Ok bs /\ Forall Q bs /\ length bs = length l.
Proof.
  induction 1 as [|a l [b [Hb Hq]] _ [bs [Hbs [HQ Hlen]]]]; simpl.
  - exists []. repeat split. constructor.
  - exists (b :: bs). rewrite Hb. simpl. rewrite Hbs. simpl.
    repeat split; [now constructor|now rewrite Hlen].
Qed.

Lemma wf_neg_leaf (t : ExprTerm) :
  get_expr t = None -> sub_holds wf (xform_neg_term t).
Proof.
  intros Ht. unfold xform_neg_term. simpl sub_holds. apply wf_unfold. split.
  - split; [discriminate|]. simpl. discriminate.
  - apply Forall_cons; [exact I|]. apply Forall_cons; [|apply Forall_nil].
    destruct t; simpl; trivial. discriminate.
Qed.

Lemma xform_neg_helper_wf (e : Expr) :
  wf e -> exists e', xform_neg_helper e = Ok e' /\ wf e' /\ helper_op (m_op e').
Proof.
  induction e as [op ts IH] using Expr_nested_ind. intros Hwf.
  apply wf_unfold in Hwf. destruct Hwf as [[Hne Hone] Hsub].
  assert (Hdefault :
            exists e', Ok (mkExpr MUL [INT (-1); EXPR (mkExpr op ts)]) = Ok e' /\
                       wf e' /\ helper_op (m_op e')).
  { eexists. split; [reflexivity|]. split; [|right; now right].
    apply wf_unfold. split; [split; [discriminate|simpl; discriminate]|].
    apply Forall_cons; [exact I|]. apply Forall_cons; [|apply Forall_nil].
    simpl. apply wf_unfold. split; [now split|exact Hsub]. }
  assert (Hterm : Forall (fun t => exists t', negate_term t = Ok t' /\ sub_holds wf t') ts).
  { clear Hdefault Hne Hone. induction ts as [|t ts IHts]; constructor.
    - inversion IH; subst. inversion Hsub; subst.
      destruct t; simpl; try (eexists; split; [reflexivity|]; now apply wf_neg_leaf).
      simpl in *. destruct (H1 H3) as [e' [He' [Hw _]]]. rewrite He'.
      eexists. split; [reflexivity|exact Hw].
    - inversion IH; subst. inversion Hsub; subst. now apply IHts. }
  destruct op; try exact Hdefault; clear Hdefault.
  - (* ADD *)
    destruct (mapM_Forall negate_term _ ts Hterm) as [ts' [Hts' [Hq Hlen]]].
    change (xform_neg_helper (mkExpr ADD ts))
      with (ts' <- mapM negate_term ts ;; Ok (mkExpr ADD ts')).
    rewrite Hts'. eexists. split; [reflexivity|]. split; [|now left].
    apply wf_unfold. split; [|exact Hq]. split.
    + destruct ts', ts; simpl in *; congruence.
    + rewrite Hlen. intros H. specialize (Hone H). discriminate.
  - (* SUB *)
    destruct ts as [|a rest]; [contradiction|].
    inversion Hterm as [|? ? [a' [Ha' Hwa]] _]; subst.
    inversion Hsub; subst.
    assert (Hres : xform_neg_helper (mkExpr SUB (a :: rest)) =
                   (a' <- negate_term a ;; Ok (mkExpr ADD (a' :: rest)))).
    { destruct a; simpl; try reflexivity. now destruct (xform_neg_helper e). }
    rewrite Hres, Ha'. eexists. split; [reflexivity|]. split; [|now left].
    apply wf_unfold. split; [|now constructor]. split; [discriminate|].
    intros H. specialize (Hone H). discriminate.
  - (* NEG *)
    eexists. split; [reflexivity|]. split; [|right; now left].
    apply wf_unfold. split; [|exact Hsub]. now split.
  - (* IDENT *)
    destruct ts as [|first rest]; [contradiction|].
    assert (Hmul : exists e', Ok (mkExpr MUL ((first :: rest) ++ [INT (-1)])) = Ok e' /\
                              wf e' /\ helper_op (m_op e')).
    { eexists. split; [reflexivity|]. split; [|right; now right].
      apply wf_unfold. split.
      - split; [discriminate|]. simpl. rewrite length_app. simpl. lia.
      - apply Forall_app. split; [exact Hsub|]. apply Forall_cons; [exact I|apply Forall_nil]. }
    inversion Hsub; subst. inversion IH; subst.
    destruct first; try exact Hmul.
    + eexists. split; [reflexivity|]. split; [|right; now left].
      apply wf_unfold. split; [now split|]. now constructor.
    + eexists. split; [reflexivity|]. split; [|right; now left].
      apply wf_unfold. split; [now split|]. now constructor.
    + simpl. destruct (contains T_FLOAT e); [|exact Hmul].
      simpl in *. destruct (H3 H1) as [e' [He' [Hw _]]]. rewrite He'.
      eexists. split; [reflexivity|]. split; [|right; now left].
      apply wf_unfold. split; [now split|]. now constructor.
Qed.

Lemma xform_neg_wf (e : Expr) :
  wf e ->
  exists e1, xform_neg e = Ok e1 /\ wf e1 /\ m_op e1 <> NEG /\ m_op e1 <> SUB.
Proof.
  intros Hwf. destruct e as [op ts].
  assert (Hsame : op <> NEG -> op <> SUB ->
                  exists e1, Ok (mkExpr op ts) = Ok e1 /\ wf e1 /\
                             m_op e1 <> NEG /\ m_op e1 <> SUB).
  { intros Hn Hs. eexists. split; [reflexivity|]. split; [exact Hwf|]. now split. }
  apply wf_unfold in Hwf. destruct Hwf as [[Hne Hone] Hsub].
  destruct op; try (apply Hsame; discriminate); clear Hsame.
  - (* SUB *)
    destruct ts as [|lhs [|rhs rest]]; [contradiction|specialize (Hone eq_refl); discriminate|].
    inversion Hsub as [|? ? Hl Hsub']; subst. inversion Hsub' as [|? ? Hr Hrest]; subst.
    assert (Hr' : exists r, negate_term rhs = Ok r /\ sub_holds wf r).
    { destruct rhs; simpl; try (eexists; split; [reflexivity|]; now apply wf_neg_leaf).
      simpl in Hr. destruct (xform_neg_helper_wf e Hr) as [e' [He' [Hw _]]].
      rewrite He'. eexists. split; [reflexivity|exact Hw]. }
    destruct Hr' as [r [Hr1 Hr2]].
    assert (Hres : xform_neg (mkExpr SUB (lhs :: rhs :: rest)) =
                   (b' <- negate_term rhs ;; Ok (mkExpr ADD (lhs :: b' :: rest)))).
    { destruct rhs; simpl; try reflexivity. now destruct (xform_neg_helper e). }
    rewrite Hres, Hr1. eexists. split; [reflexivity|].
    split; [|split; discriminate].
    apply wf_unfold. split; [split; [discriminate|simpl; discriminate]|].
    apply Forall_cons; [exact Hl|]. apply Forall_cons; [exact Hr2|exact Hrest].
  - (* NEG *)
    assert (Hid : wf (mkExpr IDENT ts)).
    { apply wf_unfold. split; [|exact Hsub]. now split. }
    destruct (xform_neg_helper_wf _ Hid) as [e' [He' [Hw Hop]]].
    exists e'. split; [exact He'|]. split; [exact Hw|].
    destruct Hop as [H|[H|H]]; rewrite H; split; discriminate.
Qed.

(** *** The pieces of level_op *)

Lemma calc_numeric (op : Op) (v n : IntNum) :
  is_nonnum op = false ->
  (exists v', calc op v (Some n) = Ok v') \/ calc op v (Some n) = Fail ZeroDivisionError.
Proof.
  intros Hn. destruct op; try discriminate Hn; simpl;
    try (left; eexists; reflexivity);
    destruct (n =? 0); (right; reflexivity) || (left; eexists; reflexivity).
Qed.

Lemma calc_associative (op : Op) (v n : IntNum) :
  is_associative op = true -> exists v', calc op v (Some n) = Ok v'.
Proof.
  intros Ha. destruct op; try discriminate Ha; simpl; eexists; reflexivity.
Qed.

Lemma strip_ident_final (t : ExprTerm) : (term_final strict) t -> strip_ident t = Ok t.
Proof.
  destruct t as [| | | | | | |[op ts]]; try reflexivity.
  simpl. intros [_ Hop]. destruct op; try reflexivity. contradiction.
Qed.

Lemma strip_ident_wrapper (ts : list ExprTerm) :
  ts <> [] -> Forall (term_final strict) ts ->
  exists x, strip_ident (EXPR (mkExpr IDENT ts)) = Ok x /\ (term_final strict) x.
Proof.
  induction ts as [|x ts IH]; intros Hne Hf; [contradiction|].
  inversion Hf as [|? ? Hx Hts]; subst.
  destruct ts as [|y ts].
  - exists x. split; [|exact Hx]. simpl. now apply strip_ident_final.
  - destruct IH as [z [Hz Hfz]]; [discriminate|exact Hts|].
    exists z. split; [|exact Hfz]. exact Hz.
Qed.

Lemma strip_ident_child (t : ExprTerm) :
  (child_ok strict) t -> exists t', strip_ident t = Ok t' /\ (term_final strict) t'.
Proof.
  destruct t as [| | | | | | |[op ts]];
    try (intros _; eexists; split; [reflexivity|exact I]).
  simpl. intros [Hne [Hf Hlev]].
  destruct (Op_eq_dec op IDENT) as [->|Hop].
  - now apply strip_ident_wrapper.
  - exists (EXPR (mkExpr op ts)). split.
    + destruct op; try reflexivity. contradiction.
    + split; [now apply Hlev|exact Hop].
Qed.

(** Facts on [set_nth] and on counting integers *)
Lemma set_nth_length (k : nat) (t : ExprTerm) (ts : list ExprTerm) :
  length (set_nth k t ts) = length ts.
Proof.
  revert k. induction ts as [|x ts IH]; intros [|k]; simpl; try reflexivity.
  now rewrite IH.
Qed.

Lemma set_nth_same (k : nat) (t x : ExprTerm) (ts : list ExprTerm) :
  nth_error ts k = Some x -> nth_error (set_nth k t ts) k = Some t.
Proof.
  revert k. induction ts as [|y ts IH]; intros [|k]; simpl; try discriminate.
  - reflexivity.
  - apply IH.
Qed.

Lemma set_nth_In (k : nat) (t x : ExprTerm) (ts : list ExprTerm) :
  In x (set_nth k t ts) -> x = t \/ In x ts.
Proof.
  revert k. induction ts as [|y ts IH]; intros [|k]; simpl; try tauto.
  - intros [H|H]; [left; now symmetry|right; now right].
  - intros [H|H]; [right; now left|]. destruct (IH k H); tauto.
Qed.

Lemma set_nth_count (k : nat) (v v' : IntNum) (ts : list ExprTerm) :
  nth_error ts k = Some (INT v) -> count_ints (set_nth k (INT v') ts) = count_ints ts.
Proof.
  unfold count_ints. revert k. induction ts as [|y ts IH]; intros [|k]; simpl; try discriminate.
  - now intros [= ->].
  - intros H. destruct (is_int y); simpl; now rewrite (IH k H).
Qed.

Lemma count_ints_app (l1 l2 : list ExprTerm) :
  count_ints (l1 ++ l2) = (count_ints l1 + count_ints l2)%nat.
Proof. unfold count_ints. now rewrite filter_app, length_app. Qed.

Lemma nth_error_snoc (l : list ExprTerm) (t : ExprTerm) :
  nth_error (l ++ [t]) (length l) = Some t.
Proof. rewrite nth_error_app2 by lia. now rewrite Nat.sub_diag. Qed.

Lemma nth_error_app_left (l r : list ExprTerm) (k : nat) (x : ExprTerm) :
  nth_error l k = Some x -> nth_error (l ++ r) k = Some x.
Proof.
  intros H. rewrite nth_error_app1; [exact H|].
  apply nth_error_Some. congruence.
Qed.

Lemma Forall_In_final (P : ExprTerm -> Prop) (l l' : list ExprTerm) :
  Forall P l -> (forall x, In x l' -> (exists v, x = INT v) \/ x = NONE \/ In x l) ->
  (forall v, P (INT v)) -> P NONE -> Forall P l'.
Proof.
  intros Hf Hin Hi Hn. apply Forall_forall. intros x Hx.
  destruct (Hin x Hx) as [[v ->]|[->|H]]; [apply Hi|exact Hn|].
  exact (proj1 (Forall_forall _ _) Hf x H).
Qed.

Lemma level_scan_ok (op : Op) (fold_const : bool) (todo : list ExprTerm) :
  (fold_const = true -> is_nonnum op = false) ->
  Forall (child_ok strict) todo ->
  forall done int_term do_level,
    (scan_inv strict) op fold_const done int_term do_level ->
    (exists ts it dl,
        level_scan op fold_const todo done int_term do_level = Ok (ts, it, dl) /\
        (scan_inv strict) op fold_const ts it dl /\
        length ts = (length done + length todo)%nat) \/
    level_scan op fold_const todo done int_term do_level = Fail ZeroDivisionError.
Proof.
  intros Hnum Hall. induction Hall as [|t todo Ht _ IH]; intros done it dl Hinv.
  - left. exists done, it, dl. simpl. split; [reflexivity|]. split; [exact Hinv|lia].
  - simpl. destruct (strip_ident_child t Ht) as [t1 [Hs Hf1]]. rewrite Hs. simpl.
    destruct Hinv as [Hfin [Hint Hdl]].
    assert (Hpush : forall it',
               match it' with
               | Some k => (exists v, nth_error (done ++ [t1]) k = Some (INT v)) /\
                           (fold_const = true -> count_ints (done ++ [t1]) = 1%nat)
               | None => fold_const = true -> count_ints (done ++ [t1]) = O
               end ->
               (exists ts it0 dl0,
                   level_scan op fold_const todo (done ++ [t1]) it'
                              (dl || same_op_expr op t1) = Ok (ts, it0, dl0) /\
                   (scan_inv strict) op fold_const ts it0 dl0 /\
                   length ts = (length done + S (length todo))%nat) \/
               level_scan op fold_const todo (done ++ [t1]) it'
                          (dl || same_op_expr op t1) = Fail ZeroDivisionError).
    { intros it' Hit'.
      destruct (IH (done ++ [t1]) it' (dl || same_op_expr op t1)) as [[ts [i0 [d0 [H1 [H2 H3]]]]]|H].
      - split; [|split; [exact Hit'|]].
        + apply Forall_app. split; [exact Hfin|]. now constructor.
        + intros Hor c Hin. apply orb_false_iff in Hor. destruct Hor as [Hd Hsame].
          apply in_app_or in Hin. destruct Hin as [Hin|[Heq|[]]]; [now apply Hdl|].
          subst t1. simpl in Hsame. now apply Op_beq_neq.
      - left. exists ts, i0, d0. split; [exact H1|]. split; [exact H2|].
        rewrite H3, length_app. simpl. lia.
      - now right. }
    assert (Hplain : is_int t1 = false \/ fold_const = false ->
               (exists ts it0 dl0,
                   level_scan op fold_const todo (done ++ [t1]) it
                              (dl || same_op_expr op t1) = Ok (ts, it0, dl0) /\
                   (scan_inv strict) op fold_const ts it0 dl0 /\
                   length ts = (length done + S (length todo))%nat) \/
               level_scan op fold_const todo (done ++ [t1]) it
                          (dl || same_op_expr op t1) = Fail ZeroDivisionError).
    { intros Hcase. apply Hpush. destruct it as [k|].
      - destruct Hint as [[v Hv] Hc]. split.
        + exists v. now apply nth_error_app_left.
        + intros Hfc. rewrite count_ints_app, (Hc Hfc).
          destruct Hcase as [Hni|Hfalse]; [|congruence].
          unfold count_ints. simpl. now rewrite Hni.
      - intros Hfc. rewrite count_ints_app, (Hint Hfc).
        destruct Hcase as [Hni|Hfalse]; [|congruence].
        unfold count_ints. simpl. now rewrite Hni. }
    destruct t1 as [| |n| | | | |]; try (apply Hplain; now left).
    destruct fold_const eqn:Hfc; [|apply Hplain; now right].
    destruct it as [k|].
    + destruct Hint as [[v Hv] Hc]. unfold int_at. rewrite Hv. simpl.
      destruct (calc_numeric op v n (Hnum eq_refl)) as [[v' Hcalc]|Hcalc];
        rewrite Hcalc; simpl; [|now right].
      destruct (IH (set_nth k (INT v') done ++ [NONE]) (Some k)
                   (dl || same_op_expr op (INT n)))
        as [[ts [i0 [d0 [H1 [H2 H3]]]]]|H].
      * split; [|split].
        -- apply Forall_app. split; [|now constructor].
           apply (Forall_In_final _ done); trivial.
           intros x Hx. destruct (set_nth_In _ _ _ _ Hx) as [->|H];
             [left; now exists v'|right; now right].
        -- split.
           ++ exists v'. apply nth_error_app_left. exact (set_nth_same _ _ _ _ Hv).
           ++ intros _. rewrite count_ints_app, (set_nth_count _ _ _ _ Hv), (Hc eq_refl).
              reflexivity.
        -- intros Hor c Hin. apply orb_false_iff in Hor. destruct Hor as [Hd _].
           apply in_app_or in Hin. destruct Hin as [Hin|[Heq|[]]]; [|discriminate].
           destruct (set_nth_In _ _ _ _ Hin) as [Heq|Hin']; [discriminate|].
           now apply Hdl.
      * left. exists ts, i0, d0. split; [exact H1|]. split; [exact H2|].
        rewrite H3, length_app, set_nth_length. simpl. lia.
      * now right.
    + apply Hpush. split.
      * exists n. apply nth_error_snoc.
      * intros _. rewrite count_ints_app, (Hint eq_refl). reflexivity.
Qed.

Lemma erase_folded_nth (k : nat) (ts : list ExprTerm) (x : ExprTerm) :
  nth_error ts k = Some x -> nth_error (erase_folded k ts) k = Some x.
Proof.
  unfold erase_folded. revert k. induction ts as [|y ts IH]; intros [|k]; simpl;
    try discriminate.
  - trivial.
  - intros H. exact (IH k H).
Qed.

Lemma erase_folded_In (k : nat) (ts : list ExprTerm) (x : ExprTerm) :
  In x (erase_folded k ts) -> In x ts.
Proof.
  unfold erase_folded. intros H. apply in_app_or in H.
  rewrite <- (firstn_skipn (S k) ts). apply in_or_app.
  destruct H as [H|H]; [now left|right]. now apply filter_In in H.
Qed.

Lemma count_ints_nonempty (l : list ExprTerm) :
  count_ints (filter (fun t => negb (is_empty t)) l) = count_ints l.
Proof.
  unfold count_ints. induction l as [|t l IH]; simpl; [reflexivity|].
  destruct t; simpl; rewrite ?IH; reflexivity.
Qed.

Lemma erase_folded_count (k : nat) (ts : list ExprTerm) :
  count_ints (erase_folded k ts) = count_ints ts.
Proof.
  unfold erase_folded. rewrite count_ints_app, count_ints_nonempty, <- count_ints_app.
  now rewrite firstn_skipn.
Qed.

Lemma erase_first_int_In (ts : list ExprTerm) (x : ExprTerm) :
  In x (erase_first_int ts) -> In x ts.
Proof.
  induction ts as [|t ts IH]; simpl; [trivial|].
  destruct t; simpl; try (intros [H|H]; [now left|right; now apply IH]).
  intros H. now right.
Qed.

Lemma erase_first_int_length (ts : list ExprTerm) :
  (0 < count_ints ts)%nat -> S (length (erase_first_int ts)) = length ts.
Proof.
  unfold count_ints. induction ts as [|t ts IH]; simpl; [lia|].
  destruct t; simpl; intros H; try (now rewrite (IH H)). reflexivity.
Qed.

Lemma erase_first_int_count (ts : list ExprTerm) :
  (count_ints (erase_first_int ts) <= count_ints ts)%nat.
Proof.
  unfold count_ints. induction ts as [|t ts IH]; simpl; [lia|].
  destruct t; simpl; lia.
Qed.

Lemma nth_int_count (ts : list ExprTerm) (k : nat) (v : IntNum) :
  nth_error ts k = Some (INT v) -> (0 < count_ints ts)%nat.
Proof.
  intros H. apply nth_error_In in H.
  assert (Hin : In (INT v) (filter is_int ts)) by (apply filter_In; now split).
  unfold count_ints. destruct (filter is_int ts); [destruct Hin|simpl; lia].
Qed.

Lemma find_first_int_some (ts : list ExprTerm) :
  (0 < count_ints ts)%nat -> exists m, find_first_int ts = Ok (INT m) /\ In (INT m) ts.
Proof.
  unfold count_ints. induction ts as [|t ts IH]; simpl; [lia|].
  destruct t; simpl; intros H;
    try (destruct (IH H) as [m [H1 H2]]; exists m; split; [exact H1|now right]).
  exists n. split; [reflexivity|now left].
Qed.

Lemma calc_unary_total (op : Op) (v : IntNum) :
  Op_beq op NOT || Op_beq op NEG || Op_beq op LNOT = true ->
  exists v', calc op v None = Ok v'.
Proof.
  destruct op; simpl; try discriminate; intros _; eexists; reflexivity.
Qed.

Lemma ident_if_one (op : Op) (ts : list ExprTerm) :
  ts <> [] ->
  simplified op ts (Ok (mkExpr (if Nat.eqb (length ts) 1 then IDENT else op) ts)).
Proof.
  intros Hne. exists (if Nat.eqb (length ts) 1 then IDENT else op), ts.
  split; [reflexivity|]. split; [exact Hne|]. split; [now right|]. split; [lia|].
  destruct (Nat.eqb_spec (length ts) 1); split; intros; congruence.
Qed.

Lemma simplified_weaken (op : Op) (ts ts0 : list ExprTerm) (r : result Expr) :
  simplified op ts r ->
  (forall x, In x ts -> (exists v, x = INT v) \/ In x ts0) ->
  (count_ints ts <= count_ints ts0)%nat ->
  simplified op ts0 r.
Proof.
  intros [op' [ts' [Hr [Hne [Hin [Hc [H1 H2]]]]]]] Hsub Hcnt.
  exists op', ts'. split; [exact Hr|]. split; [exact Hne|]. split; [|split; [lia|now split]].
  intros x Hx. destruct (Hin x Hx) as [H|H]; [now left|now apply Hsub].
Qed.

Lemma simplify_identity_ok (k : nat) (simplify_reg_mul : bool) (op : Op)
      (ts : list ExprTerm) (n : IntNum) :
  nth_error ts k = Some (INT n) ->
  simplified op ts (simplify_identity k simplify_reg_mul (mkExpr op ts)).
Proof.
  intros Hk. pose proof (nth_int_count _ _ _ Hk) as Hpos.
  unfold simplify_identity, int_at. simpl m_terms. simpl m_op. rewrite Hk.
  destruct ts as [|first rest]; [destruct k; discriminate|].
  cbn [front bind].
  set (is_first := match first with INT _ => Nat.eqb k 0 | _ => false end).
  set (ts := first :: rest) in *.
  assert (Hne : ts <> []) by discriminate.
  assert (Hkeep : forall opc : bool,
             simplified op ts
               (ts2 <- (if opc
                        then v <- int_at ts k ;; v' <- calc op v None ;;
                             Ok (set_nth k (INT v') ts)
                        else Ok ts) ;;
                Ok (mkExpr (if Nat.eqb (length ts2) 1 then IDENT else op) ts2))
             \/ opc = true /\ Op_beq op NOT || Op_beq op NEG || Op_beq op LNOT = false).
  { intros [|]; [|left; simpl; now apply ident_if_one].
    destruct (Op_beq op NOT || Op_beq op NEG || Op_beq op LNOT) eqn:Hop; [left|now right].
    unfold int_at. rewrite Hk. simpl.
    destruct (calc_unary_total op n Hop) as [v' Hv']. rewrite Hv'. simpl.
    apply (simplified_weaken op (set_nth k (INT v') ts)).
    - apply ident_if_one. intros H. apply (f_equal (@length _)) in H.
      rewrite set_nth_length in H. discriminate.
    - intros x Hx. destruct (set_nth_In _ _ _ _ Hx) as [->|H]; [left; now exists v'|now right].
    - now rewrite (set_nth_count _ _ _ _ Hk). }
  destruct (Nat.ltb 1 (length ts)) eqn:Hlen.
  - apply Nat.ltb_lt in Hlen.
    match goal with
    | |- context [if ?c then Ok (erase_first_int ts, None) else _] => destruct c
    end.
    + (* delete the integer term *)
      cbn [bind]. pose proof (erase_first_int_length ts Hpos) as Hl.
      apply (simplified_weaken op (erase_first_int ts)).
      * apply ident_if_one. intros H. rewrite H in Hl.
        change (1%nat = length ts) in Hl. lia.
      * intros x Hx. right. now apply erase_first_int_In.
      * apply erase_first_int_count.
    + destruct (is_constant op n).
      * (* keep only the integer term *)
        destruct (find_first_int_some ts Hpos) as [m [Hm Hin]]. rewrite Hm.
        cbn [bind length Nat.eqb]. cbn [andb].
        assert (Hone : simplified op ts (Ok (mkExpr IDENT [INT m]))).
        { exists IDENT, [INT m]. split; [reflexivity|]. split; [discriminate|].
          split; [intros x [<-|[]]; now right|]. split; [unfold count_ints at 1; simpl; lia|].
          split; [trivial|]. simpl. congruence. }
        destruct (is_first && (Op_beq op NOT || Op_beq op NEG || Op_beq op LNOT)) eqn:Hc;
          [|exact Hone].
        apply andb_true_iff in Hc. destruct Hc as [_ Hop].
        simpl. destruct (calc_unary_total op m Hop) as [v' Hv']. rewrite Hv'. simpl.
        exists IDENT, [INT v']. split; [reflexivity|]. split; [discriminate|].
        split; [intros x [<-|[]]; left; now exists v'|].
        split; [unfold count_ints at 1; simpl; lia|]. split; [trivial|]. simpl. congruence.
      * cbn [bind].
        destruct (Nat.eqb_spec (length ts) 1) as [H1|_]; [lia|]. cbn [andb].
        now apply ident_if_one.
  - cbn [bind].
    destruct (Hkeep (Nat.eqb (length ts) 1 && is_first &&
                     (Op_beq op NOT || Op_beq op NEG || Op_beq op LNOT))) as [H|[Hc Hop]];
      [exact H|].
    rewrite Hop, andb_false_r in Hc. discriminate.
Qed.

Lemma bring_up_ok (op : Op) (ts : list ExprTerm) :
  ts <> [] -> Forall (term_final strict) ts ->
  (exists c rest, op = IDENT /\ ts = EXPR c :: rest /\
                  bring_up (mkExpr op ts) = Ok c /\ (leveled strict) c /\ m_op c <> IDENT) \/
  (bring_up (mkExpr op ts) = Ok (mkExpr op ts) /\
   (op = IDENT -> forall c rest, ts <> EXPR c :: rest)).
Proof.
  intros Hne Hf. destruct ts as [|first rest]; [contradiction|].
  inversion Hf as [|? ? Hfirst _]; subst.
  destruct (Op_eq_dec op IDENT) as [->|Hop].
  - destruct first as [| | | | | | |c0];
      try (right; split; [reflexivity|intros _ ? ? Heq; discriminate Heq]).
    left. exists c0, rest. destruct Hfirst as [H1 H2].
    split; [reflexivity|]. split; [reflexivity|]. split; [reflexivity|]. now split.
  - right. split; [|contradiction]. unfold bring_up. simpl.
    destruct op; try reflexivity. contradiction.
Qed.

Lemma copy_inv_push (op : Op) (terms : list ExprTerm) (it : option nat) (t : ExprTerm) :
  (copy_inv strict) op terms it -> (term_final strict) t -> same_op_expr op t = false ->
  (copy_inv strict) op (terms ++ [t]) it.
Proof.
  intros [Hf [Hop Hit]] Ht Hs. split; [|split].
  - apply Forall_app. split; [exact Hf|]. now constructor.
  - intros c Hin. apply in_app_or in Hin. destruct Hin as [Hin|[Heq|[]]]; [now apply Hop|].
    subst t. simpl in Hs. now apply Op_beq_neq.
  - destruct it as [k|]; [|exact I]. destruct Hit as [v Hv]. exists v.
    now apply nth_error_app_left.
Qed.

Lemma copy_inv_push_int (op : Op) (terms : list ExprTerm) (n : IntNum) :
  (copy_inv strict) op terms None -> (copy_inv strict) op (terms ++ [INT n]) (Some (length terms)).
Proof.
  intros [Hf [Hop _]]. split; [|split].
  - apply Forall_app. split; [exact Hf|]. now constructor.
  - intros c Hin. apply in_app_or in Hin. destruct Hin as [Hin|[Heq|[]]]; [now apply Hop|].
    discriminate.
  - exists n. apply nth_error_snoc.
Qed.

Lemma app_nonempty (l : list ExprTerm) (t : ExprTerm) : l ++ [t] <> [].
Proof. destruct l; discriminate. Qed.

Lemma level_move_up_ok (op : Op) (fold_const : bool) (sub_rev : list ExprTerm) :
  is_associative op = true ->
  Forall (term_final strict) sub_rev ->
  (forall c, In (EXPR c) sub_rev -> m_op c <> op) ->
  forall terms it,
    (copy_inv strict) op terms it ->
    exists terms' it',
      level_move_up op fold_const sub_rev terms it = Ok (terms', it') /\
      (copy_inv strict) op terms' it' /\
      (sub_rev <> [] \/ terms <> [] -> terms' <> []).
Proof.
  intros Ha Hf. induction Hf as [|last rest Hlast _ IH]; intros Hop terms it Hinv.
  - exists terms, it. split; [reflexivity|]. split; [exact Hinv|].
    intros [H|H]; [contradiction|exact H].
  - assert (Hop' : forall c, In (EXPR c) rest -> m_op c <> op)
      by (intros c Hin; apply Hop; now right).
    assert (Hsame : same_op_expr op last = false).
    { destruct last; try reflexivity. simpl. apply Op_beq_neq. apply Hop. now left. }
    assert (Hpush : forall it',
               (copy_inv strict) op (terms ++ [last]) it' ->
               exists terms' it'',
                 level_move_up op fold_const rest (terms ++ [last]) it' = Ok (terms', it'') /\
                 (copy_inv strict) op terms' it'' /\
                 (last :: rest <> [] \/ terms <> [] -> terms' <> [])).
    { intros it' Hinv'. destruct (IH Hop' _ _ Hinv') as [t' [i' [H1 [H2 H3]]]].
      exists t', i'. split; [exact H1|]. split; [exact H2|].
      intros _. apply H3. right. apply app_nonempty. }
    simpl. destruct last as [| |n| | | | |];
      try (apply Hpush; now apply copy_inv_push).
    destruct fold_const; [|apply Hpush; now apply copy_inv_push].
    destruct it as [k|]; [|apply Hpush; now apply copy_inv_push_int].
    destruct Hinv as [Hfin [Hno [v Hv]]]. unfold int_at. rewrite Hv. simpl.
    destruct (calc_associative op v n Ha) as [v' Hv']. rewrite Hv'. simpl.
    destruct (IH Hop' (set_nth k (INT v') terms) (Some k)) as [t' [i' [H1 [H2 H3]]]].
    + split; [|split].
      * apply (Forall_In_final _ terms); trivial.
        intros x Hx. destruct (set_nth_In _ _ _ _ Hx) as [->|H];
          [left; now exists v'|right; now right].
      * intros c Hin. destruct (set_nth_In _ _ _ _ Hin) as [Heq|H]; [discriminate|].
        now apply Hno.
      * exists v'. exact (set_nth_same _ _ _ _ Hv).
    + exists t', i'. split; [exact H1|]. split; [exact H2|].
      intros _. apply H3. right. intros Hnil. apply (f_equal (@length _)) in Hnil.
      rewrite set_nth_length in Hnil. destruct terms; [destruct k; discriminate|discriminate].
Qed.

Lemma leveled_flat_terms (op : Op) (sub : list ExprTerm) :
  (leveled strict) (mkExpr op sub) -> is_associative op = true ->
  sub <> [] /\ Forall (term_final strict) sub /\ (forall c, In (EXPR c) sub -> m_op c <> op).
Proof.
  intros Hl Ha. pose proof (leveled_terms_final _ _ Hl) as Hf.
  apply all_nodes_unfold in Hl. destruct Hl as [[Hne [_ [_ [Hflat _]]]] _].
  split; [exact Hne|]. split; [exact Hf|]. exact (Hflat Ha).
Qed.

Lemma level_copy_up_ok (op : Op) (fold_const : bool) (ts_rev : list ExprTerm) :
  is_associative op = true ->
  Forall (term_final strict) ts_rev ->
  forall terms it,
    (copy_inv strict) op terms it ->
    exists terms' it',
      level_copy_up op fold_const ts_rev terms it = Ok (terms', it') /\
      (copy_inv strict) op terms' it' /\
      (ts_rev <> [] \/ terms <> [] -> terms' <> []).
Proof.
  intros Ha Hf. induction Hf as [|t rest Ht _ IH]; intros terms it Hinv.
  - exists terms, it. split; [reflexivity|]. split; [exact Hinv|].
    intros [H|H]; [contradiction|exact H].
  - assert (Hpush : forall it',
               (copy_inv strict) op (terms ++ [t]) it' ->
               exists terms' it'',
                 level_copy_up op fold_const rest (terms ++ [t]) it' = Ok (terms', it'') /\
                 (copy_inv strict) op terms' it'' /\
                 (t :: rest <> [] \/ terms <> [] -> terms' <> [])).
    { intros it' Hinv'. destruct (IH _ _ Hinv') as [t' [i' [H1 [H2 H3]]]].
      exists t', i'. split; [exact H1|]. split; [exact H2|].
      intros _. apply H3. right. apply app_nonempty. }
    simpl. destruct t as [| |n| | | | |[op' sub]];
      try (apply Hpush; now apply copy_inv_push).
    + (* an integer of the node itself *)
      destruct it as [k|]; [apply Hpush; now apply copy_inv_push|].
      apply Hpush. now apply copy_inv_push_int.
    + destruct (Op_beq op' op) eqn:Hop.
      * apply Op_beq_eq in Hop. subst op'.
        destruct Ht as [Hlev _].
        destruct (leveled_flat_terms _ _ Hlev Ha) as [Hne [Hfs Hnos]].
        destruct (level_move_up_ok op fold_const (rev sub) Ha) with (terms := terms) (it := it)
          as [t1 [i1 [H1 [H2 H3]]]].
        -- now apply Forall_rev.
        -- intros c Hin. apply Hnos. now apply in_rev.
        -- exact Hinv.
        -- rewrite H1. cbn [bind].
           destruct (IH _ _ H2) as [t' [i' [H4 [H5 H6]]]].
           exists t', i'. split; [exact H4|]. split; [exact H5|].
           intros _. apply H6. right. apply H3. left.
           intros Hnil. apply Hne. apply (f_equal (@rev _)) in Hnil.
           now rewrite rev_involutive in Hnil.
      * apply Hpush. apply copy_inv_push; [exact Hinv|exact Ht|exact Hop].
Qed.

(** *** Integers through the copy loop *)

Lemma count_ints_cons (t : ExprTerm) (ts : list ExprTerm) :
  count_ints (t :: ts) = ((if is_int t then 1 else 0) + count_ints ts)%nat.
Proof. unfold count_ints. simpl. now destruct (is_int t). Qed.

Lemma count_ints_snoc (ts : list ExprTerm) (t : ExprTerm) :
  count_ints (ts ++ [t]) = (count_ints ts + (if is_int t then 1 else 0))%nat.
Proof.
  rewrite count_ints_app, count_ints_cons.
  change (count_ints (@nil ExprTerm)) with O. lia.
Qed.

Lemma count_ints_rev (ts : list ExprTerm) : count_ints (rev ts) = count_ints ts.
Proof.
  induction ts as [|t ts IH]; [reflexivity|].
  simpl rev. rewrite count_ints_snoc, count_ints_cons, IH. lia.
Qed.

Lemma count_ints_none (ts : list ExprTerm) :
  existsb is_int ts = false <-> count_ints ts = O.
Proof.
  induction ts as [|t ts IH]; [now split|].
  simpl existsb. rewrite count_ints_cons. destruct (is_int t); simpl.
  - split; [discriminate|lia].
  - exact IH.
Qed.

Lemma existsb_rev {A : Type} (f : A -> bool) (l : list A) :
  existsb f (rev l) = existsb f l.
Proof.
  induction l as [|x l IH]; [reflexivity|].
  simpl. rewrite existsb_app, IH. simpl. rewrite orb_false_r. apply orb_comm.
Qed.

Lemma child_int_then_int_snoc (op : Op) (l : list ExprTerm) (t : ExprTerm) :
  child_int_then_int op (l ++ [t]) =
  child_int_then_int op l || (existsb (child_with_int op) l && is_int t).
Proof.
  induction l as [|x l IH]; simpl.
  - now rewrite andb_false_r.
  - rewrite IH, existsb_app. simpl. rewrite orb_false_r.
    destruct (child_with_int op x), (existsb is_int l), (is_int t),
      (child_int_then_int op l), (existsb (child_with_int op) l); reflexivity.
Qed.

Lemma child_int_then_int_rev (op : Op) (ts : list ExprTerm) :
  child_int_then_int op (rev ts) = int_left_of_child_int op ts.
Proof.
  induction ts as [|t ts IH]; [reflexivity|].
  simpl. rewrite child_int_then_int_snoc, IH, existsb_rev.
  destruct (is_int t), (existsb (child_with_int op) ts), (int_left_of_child_int op ts);
    reflexivity.
Qed.

Lemma int_at_nth (ts : list ExprTerm) (k : nat) (v : IntNum) :
  int_at ts k = Ok v -> nth_error ts k = Some (INT v).
Proof.
  unfold int_at. destruct (nth_error ts k) as [[]|]; try discriminate.
  now intros [= ->].
Qed.

Lemma associative_numeric (op : Op) : is_associative op = true -> is_nonnum op = false.
Proof. destruct op; try discriminate; reflexivity. Qed.

Lemma ints_bound_one (op : Op) : (1 <= ints_bound strict op)%nat.
Proof. unfold ints_bound. destruct (strict || negb (is_associative op)); lia. Qed.

Lemma level_move_up_count (op : Op) (sub_rev : list ExprTerm) :
  forall terms it terms' it',
    level_move_up op true sub_rev terms it = Ok (terms', it') ->
    match it with
    | Some _ => count_ints terms' = count_ints terms /\ it' = it
    | None =>
      if existsb is_int sub_rev
      then count_ints terms' = S (count_ints terms) /\ it' <> None
      else count_ints terms' = count_ints terms /\ it' = None
    end.
Proof.
  induction sub_rev as [|last rest IH]; intros terms it terms' it' H.
  - simpl in H. injection H as <- <-. now destruct it.
  - assert (Hpush : is_int last = false ->
              level_move_up op true rest (terms ++ [last]) it = Ok (terms', it') ->
              match it with
              | Some _ => count_ints terms' = count_ints terms /\ it' = it
              | None =>
                if existsb is_int (last :: rest)
                then count_ints terms' = S (count_ints terms) /\ it' <> None
                else count_ints terms' = count_ints terms /\ it' = None
              end).
    { intros Hl H'. specialize (IH _ _ _ _ H'). simpl existsb. rewrite Hl. simpl orb.
      rewrite count_ints_snoc, Hl, Nat.add_0_r in IH. exact IH. }
    simpl in H. destruct last as [| |n| | | | |]; try (now apply Hpush).
    destruct it as [k|].
    + destruct (int_at terms k) as [v|] eqn:Hv; [|discriminate]. cbn [bind] in H.
      destruct (calc op v (Some n)) as [v'|]; [|discriminate]. cbn [bind] in H.
      specialize (IH _ _ _ _ H). cbn in IH.
      rewrite (set_nth_count _ _ _ _ (int_at_nth _ _ _ Hv)) in IH. exact IH.
    + specialize (IH _ _ _ _ H). cbn in IH. simpl existsb.
      rewrite count_ints_snoc in IH. simpl in IH. destruct IH as [Hc Hi].
      split; [lia|]. rewrite Hi. discriminate.
Qed.

Lemma level_copy_up_count_flat (op : Op) (fold_const : bool) (ts_rev : list ExprTerm) :
  (forall c, In (EXPR c) ts_rev -> m_op c <> op) ->
  forall terms it terms' it',
    level_copy_up op fold_const ts_rev terms it = Ok (terms', it') ->
    count_ints terms' = (count_ints terms + count_ints ts_rev)%nat.
Proof.
  induction ts_rev as [|t rest IH]; intros Hflat terms it terms' it' H.
  - simpl in H. injection H as <- <-. change (count_ints (@nil ExprTerm)) with O. lia.
  - assert (Hrest : forall c, In (EXPR c) rest -> m_op c <> op)
      by (intros c Hin; apply Hflat; now right).
    assert (Hpush : forall it0,
              level_copy_up op fold_const rest (terms ++ [t]) it0 = Ok (terms', it') ->
              count_ints terms' = (count_ints terms + count_ints (t :: rest))%nat).
    { intros it0 H'. rewrite (IH Hrest _ _ _ _ H'), count_ints_snoc, count_ints_cons. lia. }
    simpl in H. destruct t as [| |n| | | | |[op' sub]]; try (now apply (Hpush it)).
    + now apply (Hpush (match it with None => Some (length terms) | Some k => Some k end)).
    + destruct (Op_beq op' op) eqn:Hop; [|now apply (Hpush it)].
      apply Op_beq_eq in Hop. subst op'. elim (Hflat (mkExpr op sub)); [now left|reflexivity].
Qed.

Lemma level_copy_up_count (op : Op) (ts_rev : list ExprTerm) :
  forall terms it terms' it',
    level_copy_up op true ts_rev terms it = Ok (terms', it') ->
    match it with
    | Some _ => count_ints terms' = (count_ints terms + count_ints ts_rev)%nat
    | None =>
      (count_ints terms' <= count_ints terms + count_ints ts_rev + 1)%nat /\
      (child_int_then_int op ts_rev = false ->
       (count_ints terms' <= count_ints terms + Nat.max 1 (count_ints ts_rev))%nat)
    end.
Proof.
  induction ts_rev as [|t rest IH]; intros terms it terms' it' H.
  - simpl in H. injection H as <- <-. change (count_ints (@nil ExprTerm)) with O.
    destruct it; [lia|]. split; [lia|intros _; lia].
  - assert (Hpush : is_int t = false -> child_with_int op t = false ->
              level_copy_up op true rest (terms ++ [t]) it = Ok (terms', it') ->
              match it with
              | Some _ => count_ints terms' = (count_ints terms + count_ints (t :: rest))%nat
              | None =>
                (count_ints terms' <= count_ints terms + count_ints (t :: rest) + 1)%nat /\
                (child_int_then_int op (t :: rest) = false ->
                 (count_ints terms' <=
                  count_ints terms + Nat.max 1 (count_ints (t :: rest)))%nat)
              end).
    { intros Hi Hc H'. specialize (IH _ _ _ _ H').
      rewrite count_ints_snoc, Hi, Nat.add_0_r in IH.
      rewrite count_ints_cons, Hi. simpl child_int_then_int. rewrite Hc. exact IH. }
    simpl in H. destruct t as [| |n| | | | |[op' sub]]; try (now apply Hpush).
    + (* an integer of the node itself *)
      assert (Hsome : count_ints terms' =
                      (count_ints terms + count_ints (INT n :: rest))%nat).
      { destruct it as [k|]; specialize (IH _ _ _ _ H); cbn in IH;
          rewrite count_ints_snoc in IH; rewrite count_ints_cons; simpl in *; lia. }
      destruct it; [exact Hsome|]. rewrite count_ints_cons in *. simpl in *.
      split; [lia|intros _; lia].
    + destruct (Op_beq op' op) eqn:Hop.
      * destruct (level_move_up op true (rev sub) terms it) as [[t1 i1]|] eqn:Hm;
          [|discriminate]. cbn [bind] in H.
        pose proof (level_move_up_count _ _ _ _ _ _ Hm) as Hmove.
        specialize (IH _ _ _ _ H). rewrite count_ints_cons. simpl is_int. cbn [Nat.add].
        destruct it as [k|].
        -- destruct Hmove as [Hc ->]. now rewrite <- Hc.
        -- rewrite existsb_rev in Hmove. simpl child_int_then_int. simpl m_op. simpl m_terms.
           rewrite Hop. simpl andb.
           destruct (existsb is_int sub) eqn:Hsub.
           ++ destruct Hmove as [Hc Hi]. destruct i1 as [k1|]; [|now elim Hi].
              split; [lia|]. intros Hslip. apply orb_false_iff in Hslip.
              destruct Hslip as [Hnone _]. apply count_ints_none in Hnone. lia.
           ++ destruct Hmove as [Hc ->]. simpl orb. rewrite Hc in IH. exact IH.
      * apply Hpush; [reflexivity| |exact H]. simpl. now rewrite Hop.
Qed.

Lemma level_op_passes (fold_const simplify_ident simplify_reg_mul : bool) (e : Expr) :
  level_op fold_const simplify_ident simplify_reg_mul e =
  let fc := if is_nonnum (m_op e) then false else fold_const in
  ('(e2, do_level) <- first_pass fc simplify_ident simplify_reg_mul e ;;
   if negb do_level || negb (is_associative (m_op e2))
   then Ok e2
   else second_pass fc simplify_ident simplify_reg_mul e2).
Proof.
  unfold level_op, first_pass, second_pass. cbv zeta.
  destruct (level_scan _ _ _ _ _ _) as [[[ts it] dl]|f]; [|reflexivity].
  cbn [bind].
  match goal with
  | |- bind ?x _ = bind (bind ?x _) _ => destruct x as [e1|f]; [|reflexivity]
  end.
  cbn [bind]. destruct (bring_up e1) as [e2|f]; reflexivity.
Qed.

Lemma nth_error_rev_index (l : list ExprTerm) (k : nat) (x : ExprTerm) :
  nth_error l k = Some x -> nth_error (rev l) (length (rev l) - 1 - k) = Some x.
Proof.
  intros H. assert (Hk : (k < length l)%nat) by (apply nth_error_Some; congruence).
  rewrite length_rev.
  rewrite (nth_error_nth' (rev l) NONE) by (rewrite length_rev; lia).
  rewrite rev_nth by lia.
  replace (length l - S (length l - 1 - k))%nat with k by lia.
  now rewrite (nth_error_nth _ _ NONE H).
Qed.

Lemma simplified_final (ts ts' : list ExprTerm) :
  Forall (term_final strict) ts ->
  (forall x, In x ts' -> (exists v, x = INT v) \/ In x ts) ->
  Forall (term_final strict) ts'.
Proof.
  intros Hf Hin. apply (Forall_In_final _ ts); [exact Hf| |intros v; exact I|exact I].
  intros x Hx. destruct (Hin x Hx) as [H|H]; [now left|right; now right].
Qed.

Lemma second_pass_ok (fold_const simplify_reg_mul : bool) (op2 : Op) (ts2 : list ExprTerm) :
  is_associative op2 = true -> ts2 <> [] -> Forall (term_final strict) ts2 ->
  ((forall c, In (EXPR c) ts2 -> m_op c <> op2) /\ ints_folded strict op2 ts2) \/
  (fold_const = true /\ (count_ints ts2 <= 1)%nat /\
   (strict = true -> int_left_of_child_int op2 ts2 = false)) ->
  exists r, second_pass fold_const true simplify_reg_mul (mkExpr op2 ts2) = Ok r /\ (leveled strict) r.
Proof.
  intros Ha Hne Hf Hcase. unfold second_pass. simpl m_op. simpl m_terms.
  assert (Hinit : (copy_inv strict) op2 [] None).
  { split; [constructor|]. split; [intros c []|exact I]. }
  destruct (level_copy_up_ok op2 fold_const (rev ts2) Ha (Forall_rev Hf) [] None Hinit)
    as [terms [it2 [Hc [[Hfin [Hno Hit]] Hnz]]]].
  assert (Hcnt : (count_ints (rev terms) <= ints_bound strict op2)%nat).
  { rewrite count_ints_rev. destruct Hcase as [[Hflat Hfold]|[Hfc [Hone Hslip]]].
    - assert (Hflat' : forall c, In (EXPR c) (rev ts2) -> m_op c <> op2)
        by (intros c Hin; apply Hflat; now apply in_rev).
      rewrite (level_copy_up_count_flat _ _ _ Hflat' _ _ _ _ Hc).
      change (count_ints (@nil ExprTerm)) with O. rewrite count_ints_rev.
      apply Hfold. now apply associative_numeric.
    - rewrite Hfc in Hc. destruct (level_copy_up_count _ _ _ _ _ _ Hc) as [Hle Hst].
      rewrite count_ints_rev in Hle, Hst. change (count_ints (@nil ExprTerm)) with O in *.
      unfold ints_bound. rewrite Ha. simpl negb. rewrite orb_false_r.
      destruct (bool_dec strict true) as [Hs|Hs].
      + rewrite Hs. rewrite child_int_then_int_rev in Hst.
        specialize (Hst (Hslip Hs)). lia.
      + apply not_true_is_false in Hs. rewrite Hs. lia. }
  rewrite Hc. cbn [bind].
  assert (Hrne : rev terms <> []).
  { intros Hnil. apply (f_equal (@rev _)) in Hnil. rewrite rev_involutive in Hnil.
    simpl in Hnil. revert Hnil. apply Hnz. left.
    intros Hnil. apply Hne. apply (f_equal (@rev _)) in Hnil.
    now rewrite rev_involutive in Hnil. }
  assert (Hrfin : Forall (term_final strict) (rev terms)) by now apply Forall_rev.
  assert (Hsimp : simplified op2 (rev terms)
            match it2 with
            | Some k => simplify_identity (length (rev terms) - 1 - k) simplify_reg_mul
                                          (mkExpr op2 (rev terms))
            | None => Ok (ident_if_single (mkExpr op2 (rev terms)))
            end).
  { destruct it2 as [k|].
    - destruct Hit as [v Hv]. apply (simplify_identity_ok _ _ _ _ v).
      now apply nth_error_rev_index.
    - unfold ident_if_single. simpl. now apply ident_if_one. }
  destruct Hsimp as [op4 [ts4 [Hr [Hne4 [Hin4 [Hc4 [Hone Hmany]]]]]]].
  rewrite Hr. cbn [bind].
  assert (Hfin4 : Forall (term_final strict) ts4) by (eapply simplified_final; eassumption).
  destruct (bring_up_ok op4 ts4 Hne4 Hfin4) as [[c [rest [_ [_ [Hb [Hlev _]]]]]]|[Hb Hleaf]].
  - exists c. now split.
  - exists (mkExpr op4 ts4). split; [exact Hb|].
    apply leveled_intro; [|exact Hfin4].
    assert (Hop4 : op4 = IDENT \/ op4 = op2).
    { destruct (Nat.eq_dec (length ts4) 1) as [H|H]; [left; now apply Hone|right; now apply Hmany]. }
    split; [exact Hne4|]. split; [|split; [|split; [|split; [|split]]]].
    + destruct Hop4 as [->| ->]; [discriminate|]. intros ->. discriminate.
    + destruct Hop4 as [->| ->]; [discriminate|]. intros ->. discriminate.
    + intros Ha4 c Hin. destruct Hop4 as [->| ->]; [discriminate|].
      destruct (Hin4 _ Hin) as [[v Hv]|Hin']; [discriminate|].
      apply Hno. now apply in_rev.
    + split; [now apply final_no_ident|exact Hleaf].
    + intros Hnum. destruct Hop4 as [->| ->]; [discriminate|]. lia.
    + intros H1. left. now apply Hone.
Qed.

Lemma unary_not_neg (op : Op) :
  is_unary op = true -> op <> NEG -> op = IDENT \/ op = NOT \/ op = LNOT \/ op = SEG.
Proof. destruct op; simpl; try discriminate; intros _ H; tauto. Qed.

Lemma first_pass_ok (simplify_reg_mul : bool) (op : Op) (ts : list ExprTerm) :
  (pre_level strict) op ts ->
  first_pass (negb (is_nonnum op)) true simplify_reg_mul (mkExpr op ts)
    = Fail ZeroDivisionError \/
  exists e2 dl,
    first_pass (negb (is_nonnum op)) true simplify_reg_mul (mkExpr op ts) = Ok (e2, dl) /\
    m_terms e2 <> [] /\ Forall (term_final strict) (m_terms e2) /\
    (negb dl || negb (is_associative (m_op e2)) = true -> (leveled strict) e2) /\
    (is_associative (m_op e2) = true ->
     ((forall c, In (EXPR c) (m_terms e2) -> m_op c <> m_op e2) /\
      ints_folded strict (m_op e2) (m_terms e2)) \/
     (negb (is_nonnum op) = true /\ (count_ints (m_terms e2) <= 1)%nat)).
Proof.
  intros [Hne [Hone [Hneg [Hsub Hch]]]]. unfold first_pass. simpl m_op. simpl m_terms.
  set (fc := negb (is_nonnum op)).
  assert (Hfc : fc = true -> is_nonnum op = false)
    by (subst fc; destruct (is_nonnum op); [discriminate|reflexivity]).
  assert (Hinit : (scan_inv strict) op fc [] None false).
  { split; [constructor|]. split; [intros _; reflexivity|intros _ c []]. }
  destruct (level_scan_ok op fc ts Hfc Hch [] None false Hinit)
    as [[ts1 [it [dl [Hs [[Hfin [Hint Hdl]] Hlen]]]]]|Hs];
    [|rewrite Hs; now left].
  right. rewrite Hs. cbn [bind]. simpl in Hlen.
  (* the node after folding and simplification *)
  assert (Hsum : exists op1 tsA,
             match it with
             | Some k => simplify_identity k simplify_reg_mul (mkExpr op (erase_folded k ts1))
             | None => Ok (mkExpr op ts1)
             end = Ok (mkExpr op1 tsA) /\
             tsA <> [] /\
             (forall x, In x tsA -> (exists v, x = INT v) \/ In x ts1) /\
             (op1 = op \/ op1 = IDENT) /\
             single_term_op op1 tsA /\
             (fc = true -> (count_ints tsA <= 1)%nat)).
  { destruct it as [k|].
    - destruct Hint as [[v Hv] Hc].
      destruct (simplify_identity_ok k simplify_reg_mul op _ v (erase_folded_nth _ _ _ Hv))
        as [op1 [tsA [Hr [HneA [HinA [HcA [H1 H2]]]]]]].
      exists op1, tsA. split; [exact Hr|]. split; [exact HneA|]. split; [|split; [|split]].
      + intros x Hx. destruct (HinA x Hx) as [H|H]; [now left|right].
        now apply erase_folded_In in H.
      + destruct (Nat.eq_dec (length tsA) 1) as [H|H]; [right; now apply H1|left; now apply H2].
      + intros H. left. now apply H1.
      + intros H. rewrite erase_folded_count, (Hc H) in HcA. exact HcA.
    - exists op, ts1. split; [reflexivity|]. split; [|split; [|split; [|split]]].
      + intros Hnil. apply Hne. destruct ts; [reflexivity|]. rewrite Hnil in Hlen. discriminate.
      + intros x Hx. now right.
      + now left.
      + intros H. rewrite Hlen in H. apply unary_not_neg; [now apply Hone|exact Hneg].
      + intros H. rewrite (Hint H). lia. }
  destruct Hsum as [op1 [tsA [Hr [HneA [HinA [Hop1 [Hsingle Hcount]]]]]]].
  rewrite Hr. cbn [bind].
  assert (HfinA : Forall (term_final strict) tsA) by (eapply simplified_final; eassumption).
  destruct (bring_up_ok op1 tsA HneA HfinA) as [[c [rest [_ [_ [Hb [Hlev _]]]]]]|[Hb Hleaf]];
    rewrite Hb; cbn [bind].
  - exists c, dl. split; [reflexivity|]. destruct c as [opc tsc].
    pose proof (leveled_terms_final _ _ Hlev) as Hf.
    apply all_nodes_unfold in Hlev as Hlev'.
    destruct Hlev' as [[Hnec [_ [_ [Hfl [_ [Hif _]]]]]] _].
    split; [exact Hnec|]. split; [exact Hf|]. split; [intros _; exact Hlev|].
    simpl m_op. simpl m_terms. intros Hac. left. split; [exact (Hfl Hac)|exact Hif].
  - exists (mkExpr op1 tsA), dl. split; [reflexivity|]. split; [exact HneA|].
    split; [exact HfinA|]. simpl m_op. simpl m_terms. split.
    { intros Hcond.
      apply leveled_intro; [|exact HfinA].
      split; [exact HneA|]. split; [|split; [|split; [|split; [|split]]]].
      + destruct Hop1 as [->| ->]; [exact Hneg|discriminate].
      + destruct Hop1 as [->| ->]; [exact Hsub|discriminate].
      + intros Ha c Hin. destruct Hop1 as [->| ->]; [|discriminate].
        rewrite Ha in Hcond. simpl in Hcond. rewrite orb_false_r in Hcond.
        apply negb_true_iff in Hcond.
        destruct (HinA _ Hin) as [[v Hv]|Hin']; [discriminate|]. now apply Hdl.
      + split; [now apply final_no_ident|exact Hleaf].
      + intros Hnum. apply (Nat.le_trans _ 1); [|apply ints_bound_one].
        apply Hcount. subst fc.
        destruct Hop1 as [->| ->]; [now rewrite Hnum|discriminate].
      + exact Hsingle. }
    intros Hac. right. destruct Hop1 as [->| ->]; [|discriminate].
    assert (Htrue : fc = true)
      by (subst fc; now rewrite (associative_numeric _ Hac)).
    split; [exact Htrue|now apply Hcount].
Qed.

Lemma level_op_ok (simplify_reg_mul : bool) (op : Op) (ts : list ExprTerm) :
  (pre_level strict) op ts ->
  (strict = true -> level_op_slips simplify_reg_mul (mkExpr op ts) = false) ->
  (good strict) false (level_op true true simplify_reg_mul (mkExpr op ts)).
Proof.
  intros Hpre Hslip. rewrite level_op_passes. cbv zeta. simpl m_op.
  replace (if is_nonnum op then false else true) with (negb (is_nonnum op))
    by now destruct (is_nonnum op).
  destruct (first_pass_ok simplify_reg_mul op ts Hpre)
    as [H|[e2 [dl [H [Hne [Hf [Hlev Hcase]]]]]]];
    rewrite H; [exact I|].
  cbn [bind].
  destruct (negb dl || negb (is_associative (m_op e2))) eqn:Hc.
  - simpl. now apply Hlev.
  - apply orb_false_iff in Hc. destruct Hc as [Hdl Ha].
    apply negb_false_iff in Hdl. apply negb_false_iff in Ha.
    assert (Hs : strict = true ->
                 int_left_of_child_int (m_op e2) (m_terms e2) = false).
    { intros Hst. specialize (Hslip Hst). unfold level_op_slips in Hslip.
      simpl m_op in Hslip. rewrite H, Hdl, Ha in Hslip. exact Hslip. }
    assert (Hcase' :
              ((forall c, In (EXPR c) (m_terms e2) -> m_op c <> m_op e2) /\
               ints_folded strict (m_op e2) (m_terms e2)) \/
              (negb (is_nonnum op) = true /\ (count_ints (m_terms e2) <= 1)%nat /\
               (strict = true ->
                int_left_of_child_int (m_op e2) (m_terms e2) = false))).
    { destruct (Hcase Ha) as [HA|[Hfc Hone]]; [now left|right; now repeat split]. }
    destruct e2 as [op2 ts2]. simpl m_op in *. simpl m_terms in *.
    destruct (second_pass_ok (negb (is_nonnum op)) simplify_reg_mul op2 ts2 Ha Hne Hf Hcase')
      as [r [Hr Hl]].
    rewrite Hr. exact Hl.
Qed.

(** *** The SEG of SEG:OFF pre-pass and one step of level_tree *)

Lemma back_some (l : list ExprTerm) : l <> [] -> exists x, back l = Ok x.
Proof.
  induction l as [|x l IH]; [contradiction|]. intros _.
  destruct l as [|y l]; [now exists x|]. apply IH. discriminate.
Qed.

Lemma removelast_In (l : list ExprTerm) (x : ExprTerm) : In x (removelast l) -> In x l.
Proof.
  induction l as [|y l IH]; simpl; [trivial|].
  destruct l as [|z l]; [intros []|]. intros [H|H]; [now left|right; now apply IH].
Qed.

Lemma seg_of_segoff_ok (op : Op) (ts : list ExprTerm) :
  (pre_level strict) op ts ->
  exists op' ts', seg_of_segoff (mkExpr op ts) = Ok (mkExpr op' ts') /\ (pre_level strict) op' ts'.
Proof.
  intros Hpre.
  assert (Hsame : exists op' ts', Ok (mkExpr op ts) = Ok (mkExpr op' ts') /\ (pre_level strict) op' ts')
    by (exists op, ts; now split).
  unfold seg_of_segoff. simpl m_op. simpl m_terms.
  destruct op; try exact Hsame.
  destruct Hpre as [Hne [_ [_ [_ Hch]]]].
  destruct ts as [|first rest]; [contradiction|]. cbn [front bind].
  destruct first as [| | | | | | |[op' sub]]; try exact Hsame.
  destruct op'; try exact Hsame.
  inversion Hch as [|? ? Hfirst Hrest]; subst. simpl in Hfirst.
  destruct Hfirst as [Hsne [Hsf Hsl]].
  destruct (back_some sub Hsne) as [x Hx]. rewrite Hx. cbn [bind tl].
  eexists _, _. split; [reflexivity|].
  split; [discriminate|]. split; [reflexivity|]. split; [discriminate|].
  split; [discriminate|]. constructor; [|exact Hrest].
  simpl. split; [|split; [|intros H; now contradiction H]].
  - specialize (Hsl ltac:(discriminate)). apply all_nodes_unfold in Hsl.
    destruct Hsl as [[_ [_ [_ [_ [_ [_ Hsingle]]]]]] _].
    destruct sub as [|a [|b sub]]; [contradiction| |discriminate].
    destruct (Hsingle eq_refl) as [H|[H|[H|H]]]; discriminate H.
  - apply Forall_forall. intros y Hy. apply removelast_In in Hy.
    exact (proj1 (Forall_forall _ _) Hsf y Hy).
Qed.

Lemma good_weaken (oof : bool) (r : result Expr) : (good strict) false r -> (good strict) oof r.
Proof. destruct r as [e|[]]; simpl; trivial; discriminate. Qed.

Lemma level_tree_unfold (n : nat) (simplify_reg_mul : bool) (e : Expr) :
  level_tree (S n) true true simplify_reg_mul None e =
  (e1 <- xform_neg e ;;
   ts <- mapM (level_child n simplify_reg_mul) (m_terms e1) ;;
   e2 <- seg_of_segoff (mkExpr (m_op e1) ts) ;;
   level_op true true simplify_reg_mul e2).
Proof.
  simpl. destruct (xform_neg e) as [e1|]; [|reflexivity]. cbn [bind].
  match goal with
  | |- bind ?a _ = bind ?b _ => change a with b; destruct b as [ts|]; [|reflexivity]
  end.
  cbn [bind]. destruct (seg_of_segoff _) as [e2|]; [|reflexivity]. cbn [bind].
  now destruct (level_op _ _ _ _).
Qed.

Lemma mapM_level_children (oof : bool) (n : nat) (simplify_reg_mul : bool)
      (l : list ExprTerm) :
  Forall (sub_holds (fun c => (good strict) oof (level_tree n true true simplify_reg_mul None c))) l ->
  match mapM (level_child n simplify_reg_mul) l with
  | Ok ts => length ts = length l /\ Forall (child_ok strict) ts
  | Fail ZeroDivisionError => True
  | Fail OutOfFuel => oof = true
  | Fail _ => False
  end.
Proof.
  induction 1 as [|t l Ht _ IH]; simpl; [split; [reflexivity|constructor]|].
  assert (Hleaf : get_expr t = None ->
            match (b <- Ok t ;; bs <- mapM (level_child n simplify_reg_mul) l ;; Ok (b :: bs))
            with
            | Ok ts => length ts = S (length l) /\ Forall (child_ok strict) ts
            | Fail ZeroDivisionError => True
            | Fail OutOfFuel => oof = true
            | Fail _ => False
            end).
  { intros Hl. cbn [bind].
    destruct (mapM (level_child n simplify_reg_mul) l) as [bs|f]; [|exact IH].
    cbn [bind]. destruct IH as [H1 H2]. split; [simpl; now rewrite H1|].
    constructor; [|exact H2]. destruct t; try exact I. discriminate. }
  destruct t as [| | | | | | |c]; try (apply Hleaf; reflexivity).
  simpl in Ht. simpl level_child.
  destruct (level_tree n true true simplify_reg_mul None c) as [r|f]; [|exact Ht].
  cbn [bind]. destruct (mapM (level_child n simplify_reg_mul) l) as [bs|f]; [|exact IH].
  cbn [bind]. destruct IH as [H1 H2]. split; [simpl; now rewrite H1|].
  constructor; [|exact H2]. now apply leveled_child_ok.
Qed.

Lemma level_tree_step (oof : bool) (n : nat) (simplify_reg_mul : bool) (e : Expr) :
  wf e ->
  (forall e1, xform_neg e = Ok e1 ->
     Forall (sub_holds (fun c => (good strict) oof (level_tree n true true simplify_reg_mul None c)))
            (m_terms e1)) ->
  (strict = true -> slip_free (S n) simplify_reg_mul e = true) ->
  (good strict) oof (level_tree (S n) true true simplify_reg_mul None e).
Proof.
  intros Hwf Hch Hslip. rewrite level_tree_unfold.
  destruct (xform_neg_wf e Hwf) as [[op1 ts1] [He [Hw [Hneg Hsub]]]].
  assert (Hslip' : strict = true -> forall ts e2,
             mapM (level_child n simplify_reg_mul) ts1 = Ok ts ->
             seg_of_segoff (mkExpr op1 ts) = Ok e2 ->
             level_op_slips simplify_reg_mul e2 = false).
  { intros Hst ts e2 Hm Hs. specialize (Hslip Hst). cbn [slip_free] in Hslip.
    rewrite He in Hslip. simpl m_terms in Hslip. simpl m_op in Hslip.
    rewrite Hm, Hs in Hslip. apply andb_true_iff in Hslip.
    destruct Hslip as [_ Hn]. now apply negb_true_iff in Hn. }
  rewrite He. cbn [bind]. specialize (Hch _ He). simpl m_terms in *. simpl m_op in *.
  pose proof (mapM_level_children oof n simplify_reg_mul ts1 Hch) as Hm.
  destruct (mapM (level_child n simplify_reg_mul) ts1) as [ts|f] eqn:Hmap;
    [|destruct f; exact Hm].
  cbn [bind]. destruct Hm as [Hlen Hok].
  apply wf_unfold in Hw. destruct Hw as [[Hne Hone] _].
  assert (Hpre : (pre_level strict) op1 ts).
  { split; [|split; [|split; [|split]]]; trivial.
    - intros Hnil. rewrite Hnil in Hlen. destruct ts1; [contradiction|discriminate].
    - intros H. apply Hone. congruence. }
  destruct (seg_of_segoff_ok op1 ts Hpre) as [op2 [ts2 [Hs Hpre2]]].
  rewrite Hs. cbn [bind]. apply good_weaken.
  apply level_op_ok; [exact Hpre2|]. intros Hst. exact (Hslip' Hst _ _ eq_refl Hs).
Qed.

Lemma wf_children (op : Op) (ts : list ExprTerm) (c : Expr) :
  wf (mkExpr op ts) -> In (EXPR c) ts -> wf c.
Proof.
  intros Hw Hin. apply wf_unfold in Hw. destruct Hw as [_ Hs].
  exact (proj1 (Forall_forall _ _) Hs _ Hin).
Qed.

(** Whatever the fuel, a run on a well-formed tree ends in a leveled tree, in a
    division by zero, or out of fuel; never in undefined behaviour.  Under
    [strict], the run is one in which the copy loop never slips. *)
Lemma level_tree_good (simplify_reg_mul : bool) (n : nat) :
  forall e, wf e -> (strict = true -> slip_free n simplify_reg_mul e = true) ->
            (good strict) true (level_tree n true true simplify_reg_mul None e).
Proof.
  induction n as [|n IH]; intros e Hwf Hslip; [reflexivity|].
  apply level_tree_step; [exact Hwf| |exact Hslip].
  intros e1 He. destruct (xform_neg_wf e Hwf) as [e1' [He' [Hw _]]].
  rewrite He in He'. injection He' as <-.
  destruct e1 as [op1 ts1]. apply Forall_forall. intros t Hin.
  destruct t as [| | | | | | |c]; simpl; trivial.
  apply IH; [exact (wf_children _ _ _ Hw Hin)|].
  intros Hst. specialize (Hslip Hst). cbn [slip_free] in Hslip.
  rewrite He in Hslip. simpl m_terms in Hslip. apply andb_true_iff in Hslip.
  destruct Hslip as [Hall _].
  exact (proj1 (forallb_forall _ _) Hall _ Hin).
Qed.

End Leveling.

(** One step of [level_tree], with two integers allowed under an associative
    operator. *)
Lemma level_tree_step_lax (oof : bool) (n : nat) (simplify_reg_mul : bool) (e : Expr) :
  wf e ->
  (forall e1, xform_neg e = Ok e1 ->
     Forall (sub_holds (fun c => good false oof (level_tree n true true simplify_reg_mul None c)))
            (m_terms e1)) ->
  good false oof (level_tree (S n) true true simplify_reg_mul None e).
Proof.
  intros Hwf Hch. apply level_tree_step; [exact Hwf|exact Hch|discriminate].
Qed.

Lemma all_nodes_impl (P Q : Op -> list ExprTerm -> Prop) :
  (forall op ts, P op ts -> Q op ts) -> forall e, all_nodes P e -> all_nodes Q e.
Proof.
  intros HPQ e. induction e as [op ts IH] using Expr_nested_ind. intros H.
  apply all_nodes_unfold in H. apply all_nodes_unfold. destruct H as [H1 H2].
  split; [now apply HPQ|]. clear H1.
  induction IH as [|t l Ht _ IHl]; [constructor|].
  inversion H2 as [|? ? Ha Hb]; subst. constructor; [|now apply IHl].
  destruct t; simpl in *; trivial. now apply Ht.
Qed.

(** A tree leveled with no slip holds at most one integer under every numeric
    operator. *)
Lemma leveled_strict_one_int (e : Expr) : leveled true e -> all_nodes one_int e.
Proof.
  unfold leveled. apply all_nodes_impl. intros op ts [_ [_ [_ [_ [_ [H _]]]]]].
  exact H.
Qed.

(** *** Twice the height is enough fuel *)

Lemma expr_height_child (op : Op) (ts : list ExprTerm) (c : Expr) :
  In (EXPR c) ts -> (expr_height c < expr_height (mkExpr op ts))%nat.
Proof.
  simpl. induction ts as [|t ts IH]; simpl; [intros []|].
  intros [->|Hin]; [lia|]. specialize (IH Hin). lia.
Qed.

Lemma neg_child_self (ts : list ExprTerm) (t : ExprTerm) : In t ts -> neg_child ts t.
Proof.
  intros Hin. destruct t; try (apply nc_leaf; reflexivity). now apply nc_same.
Qed.

Lemma neg_child_all (ts l : list ExprTerm) : incl l ts -> Forall (neg_child ts) l.
Proof.
  intros Hincl. apply Forall_forall. intros t Hin. apply neg_child_self. now apply Hincl.
Qed.

Lemma negate_term_child (ts : list ExprTerm) (t t' : ExprTerm) :
  In t ts -> negate_term t = Ok t' -> neg_child ts t'.
Proof.
  intros Hin H. destruct t; simpl in H;
    try (injection H as <-; apply nc_wrapped; reflexivity).
  destruct (xform_neg_helper e) as [r|] eqn:Hr; [|discriminate].
  injection H as <-. now apply (nc_negated ts e r).
Qed.

Lemma mapM_negate_children (ts l l' : list ExprTerm) :
  incl l ts -> mapM negate_term l = Ok l' -> Forall (neg_child ts) l'.
Proof.
  revert l'. induction l as [|t l IH]; intros l' Hincl H; simpl in H.
  - injection H as <-. constructor.
  - destruct (negate_term t) as [t'|] eqn:Ht; [|discriminate]. cbn [bind] in H.
    destruct (mapM negate_term l) as [r|] eqn:Hr; [|discriminate]. cbn [bind] in H.
    injection H as <-. constructor.
    + apply (negate_term_child ts t); [apply Hincl; now left|exact Ht].
    + apply IH; [|reflexivity]. intros x Hx. apply Hincl. now right.
Qed.

Lemma xform_neg_helper_default (op : Op) (ts : list ExprTerm) :
  negation_sinks op = false ->
  xform_neg_helper (mkExpr op ts) = Ok (mkExpr MUL [INT (-1); EXPR (mkExpr op ts)]).
Proof. destruct op; try discriminate; reflexivity. Qed.

Lemma xform_neg_helper_children (op : Op) (ts : list ExprTerm) (e' : Expr) :
  negation_sinks op = true ->
  xform_neg_helper (mkExpr op ts) = Ok e' ->
  helper_op (m_op e') /\ Forall (neg_child ts) (m_terms e').
Proof.
  intros Hop H. destruct op; try discriminate Hop.
  - (* ADD *)
    change (xform_neg_helper (mkExpr ADD ts))
      with (ts' <- mapM negate_term ts ;; Ok (mkExpr ADD ts')) in H.
    destruct (mapM negate_term ts) as [ts'|] eqn:Hm; [|discriminate].
    injection H as <-. split; [now left|].
    apply (mapM_negate_children ts ts); [apply incl_refl|exact Hm].
  - (* SUB *)
    destruct ts as [|a rest]; [discriminate|].
    assert (Hres : xform_neg_helper (mkExpr SUB (a :: rest)) =
                   (a' <- negate_term a ;; Ok (mkExpr ADD (a' :: rest)))).
    { destruct a; simpl; try reflexivity. now destruct (xform_neg_helper e). }
    rewrite Hres in H. destruct (negate_term a) as [a'|] eqn:Ha; [|discriminate].
    injection H as <-. split; [now left|]. constructor.
    + apply (negate_term_child _ a); [now left|exact Ha].
    + apply neg_child_all. intros x Hx. now right.
  - (* NEG *)
    injection H as <-. split; [right; now left|]. apply neg_child_all, incl_refl.
  - (* IDENT *)
    destruct ts as [|first rest]; [discriminate|].
    assert (Hrest : Forall (neg_child (first :: rest)) rest)
      by (apply neg_child_all; intros x Hx; now right).
    assert (Hmul : forall e0, Ok (mkExpr MUL ((first :: rest) ++ [INT (-1)])) = Ok e0 ->
                helper_op (m_op e0) /\ Forall (neg_child (first :: rest)) (m_terms e0)).
    { intros e0 [= <-]. split; [right; now right|].
      apply (proj2 (Forall_app (neg_child (first :: rest)) (first :: rest) [INT (-1)])).
      split.
      - apply neg_child_all, incl_refl.
      - constructor; [|constructor]. now apply nc_leaf. }
    destruct first; try (now apply Hmul); simpl in H.
    + injection H as <-. split; [right; now left|].
      constructor; [now apply nc_leaf|exact Hrest].
    + injection H as <-. split; [right; now left|].
      constructor; [now apply nc_leaf|exact Hrest].
    + destruct (contains T_FLOAT e); [|now apply Hmul].
      destruct (xform_neg_helper e) as [r|] eqn:Hr; [|discriminate].
      injection H as <-. split; [right; now left|].
      constructor; [|exact Hrest]. apply (nc_negated _ e r); [now left|exact Hr].
Qed.

Lemma xform_neg_children (e e1 : Expr) :
  xform_neg e = Ok e1 -> Forall (neg_child (m_terms e)) (m_terms e1).
Proof.
  destruct e as [op ts]. intros H.
  assert (Hsame : Ok (mkExpr op ts) = Ok e1 -> Forall (neg_child ts) (m_terms e1)).
  { intros [= <-]. apply neg_child_all, incl_refl. }
  simpl m_terms. destruct op; try (now apply Hsame); clear Hsame.
  - (* SUB *)
    destruct ts as [|lhs [|rhs rest]]; try discriminate.
    assert (Hres : xform_neg (mkExpr SUB (lhs :: rhs :: rest)) =
                   (b' <- negate_term rhs ;; Ok (mkExpr ADD (lhs :: b' :: rest)))).
    { destruct rhs; simpl; try reflexivity. now destruct (xform_neg_helper e). }
    rewrite Hres in H. destruct (negate_term rhs) as [b'|] eqn:Hb; [|discriminate].
    injection H as <-. simpl. constructor; [apply neg_child_self; now left|].
    constructor.
    + apply (negate_term_child _ rhs); [right; now left|exact Hb].
    + apply neg_child_all. intros x Hx. right. now right.
  - (* NEG *)
    exact (proj2 (xform_neg_helper_children IDENT ts e1 eq_refl H)).
Qed.

Lemma xform_neg_helper_result (e e' : Expr) :
  wf e -> xform_neg_helper e = Ok e' -> wf e' /\ xform_neg e' = Ok e'.
Proof.
  intros Hwf H. destruct (xform_neg_helper_wf e Hwf) as [e0 [H0 [Hw Hop]]].
  rewrite H in H0. injection H0 as <-. split; [exact Hw|].
  destruct e' as [op' ts']. simpl in Hop.
  destruct Hop as [->|[->| ->]]; reflexivity.
Qed.

Section Fuel.

Variable simplify_reg_mul : bool.

Lemma levels_wrapped_leaf (t : ExprTerm) (n : nat) :
  get_expr t = None -> (1 <= n)%nat ->
  sub_holds (levels_within simplify_reg_mul n) (xform_neg_term t).
Proof.
  intros Ht Hn. destruct n as [|n]; [lia|]. simpl sub_holds. unfold levels_within.
  apply level_tree_step_lax.
  - exact (wf_neg_leaf t Ht).
  - intros e1 [= <-]. simpl. constructor; [exact I|]. constructor; [|constructor].
    destruct t; try exact I. discriminate.
Qed.

Lemma levels_neg_children (op : Op) (ts l : list ExprTerm) (n : nat) :
  wf (mkExpr op ts) ->
  Forall (sub_holds (enough_fuel simplify_reg_mul)) ts ->
  (2 * expr_height (mkExpr op ts) <= S n)%nat ->
  Forall (neg_child ts) l ->
  Forall (sub_holds (levels_within simplify_reg_mul n)) l.
Proof.
  intros Hwf IH Hn Hl. apply Forall_forall. intros t Hin.
  pose proof (proj1 (Forall_forall _ _) Hl t Hin) as Hc.
  assert (Hh : (2 <= 2 * expr_height (mkExpr op ts))%nat) by (simpl; lia).
  destruct Hc as [t Ht|c Hc|c c' Hc Hneg|t Ht].
  - destruct t; try exact I. discriminate.
  - simpl. pose proof (expr_height_child op ts c Hc) as Hlt.
    pose proof (proj1 (Forall_forall _ _) IH _ Hc) as Hfuel. simpl in Hfuel.
    apply (proj1 (Hfuel (wf_children _ _ _ Hwf Hc))). lia.
  - simpl. pose proof (expr_height_child op ts c Hc) as Hlt.
    pose proof (proj1 (Forall_forall _ _) IH _ Hc) as Hfuel. simpl in Hfuel.
    apply (proj2 (Hfuel (wf_children _ _ _ Hwf Hc)) c'); [exact Hneg|lia].
  - apply levels_wrapped_leaf; [exact Ht|lia].
Qed.

Lemma level_tree_enough_fuel (e : Expr) : enough_fuel simplify_reg_mul e.
Proof.
  induction e as [op ts IH] using Expr_nested_ind. intros Hwf.
  assert (HA : forall n, (2 * expr_height (mkExpr op ts) <= n)%nat -> levels_within simplify_reg_mul n (mkExpr op ts)).
  { intros n Hn. destruct n as [|n]; [simpl in Hn; lia|]. unfold levels_within.
    apply level_tree_step_lax; [exact Hwf|]. intros e1 He.
    apply (levels_neg_children op ts _ n Hwf IH); [lia|].
    exact (xform_neg_children _ _ He). }
  split; [exact HA|].
  intros c' n Hneg Hn. destruct n as [|n]; [lia|]. unfold levels_within.
  destruct (xform_neg_helper_result _ _ Hwf Hneg) as [Hw' Hx'].
  apply level_tree_step_lax; [exact Hw'|]. intros e1 He1.
  rewrite Hx' in He1. injection He1 as <-.
  destruct (negation_sinks op) eqn:Hop.
  - destruct (xform_neg_helper_children op ts c' Hop Hneg) as [_ Hch].
    apply (levels_neg_children op ts _ n Hwf IH); [lia|exact Hch].
  - rewrite (xform_neg_helper_default op ts Hop) in Hneg. injection Hneg as <-.
    simpl m_terms. constructor; [exact I|]. constructor; [|constructor].
    simpl. apply HA. lia.
Qed.

End Fuel.

(** *** Only a division throws *)

Lemma bind_no_zero_division {A B : Type} (r : result A) (k : A -> result B) :
  no_zero_division r -> (forall x, r = Ok x -> no_zero_division (k x)) ->
  no_zero_division (bind r k).
Proof.
  intros Hr Hk. destruct r as [x|f]; simpl; [now apply Hk|].
  intros H. apply Hr. now injection H as ->.
Qed.

Lemma calc_no_zero_division (op : Op) (n : IntNum) (operand : option IntNum) :
  is_division op = false -> no_zero_division (calc op n operand).
Proof. destruct op; try discriminate; destruct operand; discriminate. Qed.

Lemma calc_unary_no_zero_division (op : Op) (n : IntNum) :
  no_zero_division (calc op n None).
Proof. destruct op; discriminate. Qed.

Lemma int_at_no_zero_division (ts : list ExprTerm) (k : nat) :
  no_zero_division (int_at ts k).
Proof. unfold int_at. destruct (nth_error ts k) as [[]|]; discriminate. Qed.

Lemma front_no_zero_division (ts : list ExprTerm) : no_zero_division (front ts).
Proof. destruct ts; discriminate. Qed.

Lemma back_no_zero_division (ts : list ExprTerm) : no_zero_division (back ts).
Proof.
  induction ts as [|x l IH]; [discriminate|]. simpl. destruct l; [discriminate|exact IH].
Qed.

Lemma find_first_int_no_zero_division (ts : list ExprTerm) :
  no_zero_division (find_first_int ts).
Proof.
  induction ts as [|t ts IH]; [discriminate|]. simpl. destruct t; try exact IH. discriminate.
Qed.

Lemma strip_ident_expr_no_zero_division (e : Expr) :
  no_zero_division (strip_ident (EXPR e)).
Proof.
  induction e as [op ts IH] using Expr_nested_ind.
  destruct op; try discriminate. simpl.
  induction IH as [|x l Hx Hl IHl]; [discriminate|].
  destruct l as [|y l']; [|exact IHl].
  destruct x; try discriminate. exact Hx.
Qed.

Lemma strip_ident_no_zero_division (t : ExprTerm) : no_zero_division (strip_ident t).
Proof.
  destruct t; try discriminate. apply strip_ident_expr_no_zero_division.
Qed.

Lemma level_scan_no_zero_division (op : Op) (fold_const : bool) (todo : list ExprTerm) :
  is_division op = false ->
  forall done it dl, no_zero_division (level_scan op fold_const todo done it dl).
Proof.
  intros Hop. induction todo as [|t todo IH]; intros done it dl; [discriminate|].
  simpl. apply bind_no_zero_division; [apply strip_ident_no_zero_division|].
  intros t1 _. destruct t1; try apply IH.
  destruct fold_const; [|apply IH]. destruct it as [k|]; [|apply IH].
  apply bind_no_zero_division; [apply int_at_no_zero_division|]. intros v _.
  apply bind_no_zero_division; [now apply calc_no_zero_division|]. intros v' _. apply IH.
Qed.

Lemma simplify_identity_no_zero_division (k : nat) (simplify_reg_mul : bool) (e : Expr) :
  no_zero_division (simplify_identity k simplify_reg_mul e).
Proof.
  unfold simplify_identity.
  apply bind_no_zero_division; [apply front_no_zero_division|]. intros first _.
  apply bind_no_zero_division; [apply int_at_no_zero_division|]. intros n _.
  apply bind_no_zero_division.
  - destruct (Nat.ltb _ _); [|discriminate].
    destruct (_ && _); [discriminate|].
    destruct (is_constant _ _); [|discriminate].
    apply bind_no_zero_division; [apply find_first_int_no_zero_division|]. discriminate.
  - intros [ts1 intn1] _. apply bind_no_zero_division; [|discriminate].
    destruct intn1 as [k1|]; [|discriminate].
    destruct (_ && _); [|discriminate].
    apply bind_no_zero_division; [apply int_at_no_zero_division|]. intros v _.
    apply bind_no_zero_division; [apply calc_unary_no_zero_division|]. discriminate.
Qed.

Lemma bring_up_no_zero_division (e : Expr) : no_zero_division (bring_up e).
Proof.
  unfold bring_up. destruct (m_op e); try discriminate.
  apply bind_no_zero_division; [apply front_no_zero_division|].
  intros first _. destruct first; discriminate.
Qed.

Lemma level_move_up_no_zero_division (op : Op) (fold_const : bool)
      (sub_rev : list ExprTerm) :
  is_division op = false ->
  forall terms it, no_zero_division (level_move_up op fold_const sub_rev terms it).
Proof.
  intros Hop. induction sub_rev as [|last rest IH]; intros terms it; [discriminate|].
  simpl. destruct last; try apply IH.
  destruct fold_const; [|apply IH]. destruct it as [k|]; [|apply IH].
  apply bind_no_zero_division; [apply int_at_no_zero_division|]. intros v _.
  apply bind_no_zero_division; [now apply calc_no_zero_division|]. intros v' _. apply IH.
Qed.

Lemma level_copy_up_no_zero_division (op : Op) (fold_const : bool)
      (ts_rev : list ExprTerm) :
  is_division op = false ->
  forall terms it, no_zero_division (level_copy_up op fold_const ts_rev terms it).
Proof.
  intros Hop. induction ts_rev as [|t rest IH]; intros terms it; [discriminate|].
  simpl. destruct t as [| | | | | | |[op' sub]]; try apply IH.
  destruct (Op_beq op' op); [|apply IH].
  apply bind_no_zero_division; [now apply level_move_up_no_zero_division|].
  intros [terms' it'] _. apply IH.
Qed.

Lemma associative_no_division (op : Op) :
  is_associative op = true -> is_division op = false.
Proof. destruct op; try discriminate; reflexivity. Qed.

Lemma level_op_no_zero_division (simplify_reg_mul : bool) (e : Expr) :
  is_division (m_op e) = false ->
  no_zero_division (level_op true true simplify_reg_mul e).
Proof.
  intros Hop. rewrite level_op_passes. cbv zeta.
  apply bind_no_zero_division.
  - unfold first_pass.
    apply bind_no_zero_division; [now apply level_scan_no_zero_division|].
    intros [[ts it] dl] _.
    apply bind_no_zero_division.
    + destruct it as [k|]; [apply simplify_identity_no_zero_division|discriminate].
    + intros e1 _. apply bind_no_zero_division; [apply bring_up_no_zero_division|].
      discriminate.
  - intros [e2 dl] _.
    destruct (negb dl || negb (is_associative (m_op e2))) eqn:Hc; [discriminate|].
    apply orb_false_iff in Hc. destruct Hc as [_ Ha]. apply negb_false_iff in Ha.
    unfold second_pass.
    apply bind_no_zero_division;
      [apply level_copy_up_no_zero_division; now apply associative_no_division|].
    intros [terms it2] _.
    apply bind_no_zero_division; [|intros e4 _; apply bring_up_no_zero_division].
    destruct it2 as [k|]; [apply simplify_identity_no_zero_division|discriminate].
Qed.

Lemma seg_of_segoff_no_zero_division (op : Op) (ts : list ExprTerm) :
  is_division op = false ->
  match seg_of_segoff (mkExpr op ts) with
  | Ok e2 => is_division (m_op e2) = false
  | Fail f => f <> ZeroDivisionError
  end.
Proof.
  intros Hop. unfold seg_of_segoff. simpl m_op. simpl m_terms.
  destruct op; try exact Hop.
  destruct ts as [|first rest]; [discriminate|]. cbn [front bind].
  destruct first as [| | | | | | |[op' sub]]; try reflexivity.
  destruct op'; try reflexivity.
  pose proof (back_no_zero_division sub) as Hb.
  destruct (back sub) as [x|f]; [reflexivity|].
  simpl. intros ->. now apply Hb.
Qed.

Lemma mapM_level_child_no_zero_division (n : nat) (simplify_reg_mul : bool)
      (l : list ExprTerm) :
  Forall (sub_holds (fun c => no_zero_division
                                (level_tree n true true simplify_reg_mul None c))) l ->
  no_zero_division (mapM (level_child n simplify_reg_mul) l).
Proof.
  induction 1 as [|t l Ht _ IH]; [discriminate|]. simpl.
  apply bind_no_zero_division.
  - destruct t; try discriminate. simpl in *.
    apply bind_no_zero_division; [exact Ht|discriminate].
  - intros b _. apply bind_no_zero_division; [exact IH|discriminate].
Qed.

Lemma level_tree_step_no_zero_division (n : nat) (simplify_reg_mul : bool) (e : Expr) :
  wf e ->
  (forall e1, xform_neg e = Ok e1 ->
     is_division (m_op e1) = false /\
     Forall (sub_holds (fun c => no_zero_division
                                   (level_tree n true true simplify_reg_mul None c)))
            (m_terms e1)) ->
  no_zero_division (level_tree (S n) true true simplify_reg_mul None e).
Proof.
  intros Hwf Hch. rewrite level_tree_unfold.
  destruct (xform_neg_wf e Hwf) as [[op1 ts1] [He _]].
  rewrite He. cbn [bind]. destruct (Hch _ He) as [Hop Hts]. simpl in Hop, Hts.
  apply bind_no_zero_division;
    [now apply mapM_level_child_no_zero_division|].
  intros ts _. simpl m_op.
  pose proof (seg_of_segoff_no_zero_division op1 ts Hop) as Hs.
  destruct (seg_of_segoff (mkExpr op1 ts)) as [e2|f].
  - cbn [bind]. now apply level_op_no_zero_division.
  - simpl. intros H. apply Hs. now injection H as ->.
Qed.

Lemma helper_op_no_division (op : Op) : helper_op op -> is_division op = false.
Proof. intros [->|[->| ->]]; reflexivity. Qed.

Lemma xform_neg_no_division (e e1 : Expr) :
  is_division (m_op e) = false -> xform_neg e = Ok e1 -> is_division (m_op e1) = false.
Proof.
  destruct e as [op ts]. simpl m_op. intros Hop H.
  destruct op; try (injection H as <-; exact Hop).
  - (* SUB *)
    destruct ts as [|lhs [|rhs rest]]; try discriminate.
    destruct rhs; simpl in H; try (injection H as <-; reflexivity).
    destruct (xform_neg_helper e) as [r|]; [|discriminate].
    injection H as <-. reflexivity.
  - (* NEG *)
    apply helper_op_no_division.
    exact (proj1 (xform_neg_helper_children IDENT ts e1 eq_refl H)).
Qed.

Lemma division_free_unfold (op : Op) (ts : list ExprTerm) :
  division_free (mkExpr op ts) <->
  is_division op = false /\ Forall (sub_holds division_free) ts.
Proof. apply all_nodes_unfold. Qed.

Section NoDivision.

Variable simplify_reg_mul : bool.

Lemma wrapped_leaf_never_divides (t : ExprTerm) (n : nat) :
  get_expr t = None ->
  sub_holds (fun c => no_zero_division (level_tree n true true simplify_reg_mul None c))
            (xform_neg_term t).
Proof.
  intros Ht. simpl sub_holds. destruct n as [|n]; [discriminate|].
  apply level_tree_step_no_zero_division.
  - exact (wf_neg_leaf t Ht).
  - intros e1 [= <-]. split; [reflexivity|]. simpl. constructor; [exact I|].
    constructor; [|constructor]. destruct t; try exact I. discriminate.
Qed.

Lemma neg_children_never_divide (op : Op) (ts l : list ExprTerm) (n : nat) :
  wf (mkExpr op ts) -> division_free (mkExpr op ts) ->
  Forall (sub_holds (never_divides simplify_reg_mul)) ts ->
  Forall (neg_child ts) l ->
  Forall (sub_holds (fun c => no_zero_division
                                (level_tree n true true simplify_reg_mul None c))) l.
Proof.
  intros Hwf Hdf IH Hl. apply Forall_forall. intros t Hin.
  pose proof (proj1 (Forall_forall _ _) Hl t Hin) as Hc.
  apply division_free_unfold in Hdf. destruct Hdf as [_ Hdf].
  destruct Hc as [t Ht|c Hc|c c' Hc Hneg|t Ht].
  - destruct t; try exact I. discriminate.
  - simpl. pose proof (proj1 (Forall_forall _ _) IH _ Hc) as Hnd. simpl in Hnd.
    pose proof (proj1 (Forall_forall _ _) Hdf _ Hc) as Hd. simpl in Hd.
    apply (proj1 (Hnd (wf_children _ _ _ Hwf Hc) Hd)).
  - simpl. pose proof (proj1 (Forall_forall _ _) IH _ Hc) as Hnd. simpl in Hnd.
    pose proof (proj1 (Forall_forall _ _) Hdf _ Hc) as Hd. simpl in Hd.
    apply (proj2 (Hnd (wf_children _ _ _ Hwf Hc) Hd) c'). exact Hneg.
  - now apply wrapped_leaf_never_divides.
Qed.

Lemma level_tree_never_divides (e : Expr) : never_divides simplify_reg_mul e.
Proof.
  induction e as [op ts IH] using Expr_nested_ind. intros Hwf Hdf.
  assert (Hop : is_division op = false)
    by exact (proj1 (proj1 (division_free_unfold op ts) Hdf)).
  assert (HA : forall n, no_zero_division
                           (level_tree n true true simplify_reg_mul None (mkExpr op ts))).
  { intros n. destruct n as [|n]; [discriminate|].
    apply level_tree_step_no_zero_division; [exact Hwf|]. intros e1 He. split.
    - exact (xform_neg_no_division (mkExpr op ts) _ Hop He).
    - apply (neg_children_never_divide op ts _ n Hwf Hdf IH).
      exact (xform_neg_children _ _ He). }
  split; [exact HA|].
  intros c' n Hneg. destruct n as [|n]; [discriminate|].
  destruct (xform_neg_helper_result _ _ Hwf Hneg) as [Hw' Hx'].
  destruct (xform_neg_helper_wf _ Hwf) as [e0 [H0 [_ Hhop]]].
  rewrite Hneg in H0. injection H0 as <-.
  apply level_tree_step_no_zero_division; [exact Hw'|]. intros e1 He1.
  rewrite Hx' in He1. injection He1 as <-.
  split; [now apply helper_op_no_division|].
  destruct (negation_sinks op) eqn:Hs.
  - destruct (xform_neg_helper_children op ts c' Hs Hneg) as [_ Hch].
    exact (neg_children_never_divide op ts _ n Hwf Hdf IH Hch).
  - rewrite (xform_neg_helper_default op ts Hs) in Hneg. injection Hneg as <-.
    simpl m_terms. constructor; [exact I|]. constructor; [|constructor].
    simpl. apply HA.
Qed.

End NoDivision.

(** C1 (amended).  On an expression tree as the constructors build it (every
    node has terms, and a node with one term has a unary operator),
    [level_tree] with constant folding and identity simplification enabled
    and no extra transform returns a tree, unless [calc] throws on a division
    by zero, which it does only when the tree holds a DIV, SIGNDIV, MOD or
    SIGNMOD node.  In the tree returned, at every node: no expression term
    has the node's operator when that operator is associative; no expression
    term is an IDENT wrapper, and an IDENT node holds a leaf; no node is a NEG
    or a SUB; a node with exactly one term is an IDENT or keeps its unary
    operator NOT, LNOT or SEG; a node with a numeric operator holds at most
    one integer term when the operator is not associative, and at most two
    when it is; and it holds at most one under every numeric operator when
    no call of [level_op] in the run met, on the node its copy loop starts
    from, an integer term to the left of a same-operator child holding an
    integer term.  The integer terms under a non-numeric operator (SEG, WRT,
    SEGOFF, IDENT) are not folded. *)
Theorem level_tree_levels (simplify_reg_mul : bool) (e : Expr) :
  wf e ->
  (exists r, level_tree (level_fuel e) true true simplify_reg_mul None e = Ok r /\
             all_nodes (leveled_node false) r /\
             (slip_free (level_fuel e) simplify_reg_mul e = true ->
              all_nodes one_int r)) \/
  (level_tree (level_fuel e) true true simplify_reg_mul None e = Fail ZeroDivisionError /\
   ~ division_free e).
Proof.
  intros Hwf.
  pose proof (proj1 (level_tree_enough_fuel simplify_reg_mul e Hwf) (level_fuel e)
                    (Nat.le_refl _)) as H.
  unfold levels_within in H.
  destruct (level_tree (level_fuel e) true true simplify_reg_mul None e) as [r|f] eqn:Hr.
  - left. exists r. split; [reflexivity|]. split; [exact H|]. intros Hslip.
    apply leveled_strict_one_int.
    pose proof (level_tree_good true simplify_reg_mul (level_fuel e) e Hwf
                                (fun _ => Hslip)) as Hg.
    rewrite Hr in Hg. exact Hg.
  - right. destruct f; simpl in H; try contradiction; [|discriminate].
    split; [reflexivity|]. intros Hdf.
    exact (proj1 (level_tree_never_divides simplify_reg_mul e Hwf Hdf) (level_fuel e) Hr).
Qed.

Lemma level_tree_levels_witness :
  (level_tree 4 true true true None
              (mkExpr ADD [SYM "a"%string;
                           EXPR (mkExpr ADD [SYM "b"%string; INT 1]); INT 2]) =
     Ok (mkExpr ADD [SYM "a"%string; SYM "b"%string; INT 3]) /\
   all_nodes (leveled_node false) (mkExpr ADD [SYM "a"%string; SYM "b"%string; INT 3]) /\
   all_nodes one_int (mkExpr ADD [SYM "a"%string; SYM "b"%string; INT 3])) /\
  (level_tree 2 true true true None (mkExpr DIV [INT 1; INT 0]) =
     Fail ZeroDivisionError /\
   ~ division_free (mkExpr DIV [INT 1; INT 0])).
Proof.
  split.
  - assert (Hwf : wf (mkExpr ADD [SYM "a"%string;
                                  EXPR (mkExpr ADD [SYM "b"%string; INT 1]); INT 2])).
    { simpl. unfold wf_node. simpl. repeat split; discriminate. }
    destruct (level_tree_levels true _ Hwf) as [[r [Hr [Hl Hone]]]|[Hf _]].
    + change (level_fuel _) with 4%nat in Hr, Hone.
      assert (Heq : r = mkExpr ADD [SYM "a"%string; SYM "b"%string; INT 3]).
      { vm_compute in Hr. now injection Hr as <-. }
      rewrite <- Heq. split; [exact Hr|]. split; [exact Hl|]. apply Hone. reflexivity.
    + vm_compute in Hf. discriminate Hf.
  - assert (Hwf : wf (mkExpr DIV [INT 1; INT 0])).
    { simpl. unfold wf_node. simpl. repeat split; discriminate. }
    destruct (level_tree_levels true _ Hwf) as [[r [Hr _]]|Hf].
    + vm_compute in Hr. discriminate Hr.
    + exact Hf.
Defined.

(** * Further properties *)

(** ** Associated data *)

Section AssocDataFacts.

Context {AssocData : Type}.

Implicit Types (m : list (AssocMapEntry AssocData)) (d : option AssocData).

Lemma get_add_assoc_data (k k' : nat) d m :
  get_assoc_data k' (snd (add_assoc_data k d m)) =
  if Nat.eqb k' k then d else get_assoc_data k' m.
Proof.
  induction m as [|i rest IH]; simpl.
  - rewrite (Nat.eqb_sym k k'). now destruct (Nat.eqb k' k).
  - destruct (Nat.eqb_spec (key i) k) as [Hk|Hk]; simpl.
    + subst k. rewrite (Nat.eqb_sym k' (key i)). now destruct (Nat.eqb (key i) k').
    + destruct (add_assoc_data k d rest) as [rv rest'] eqn:Hadd. simpl in *.
      destruct (Nat.eqb_spec (key i) k') as [Hk'|Hk']; [|exact IH].
      subst k'. destruct (Nat.eqb_spec (key i) k); [contradiction|reflexivity].
Qed.

Lemma add_assoc_data_previous (k : nat) d m :
  fst (add_assoc_data k d m) = get_assoc_data k m.
Proof.
  induction m as [|i rest IH]; simpl; [reflexivity|].
  destruct (Nat.eqb (key i) k); [reflexivity|].
  now destruct (add_assoc_data k d rest).
Qed.

Lemma add_assoc_data_keys (k : nat) d m :
  map key (snd (add_assoc_data k d m)) =
  if in_dec Nat.eq_dec k (map key m) then map key m else map key m ++ [k].
Proof.
  induction m as [|i rest IH]; simpl; [reflexivity|].
  destruct (Nat.eqb_spec (key i) k) as [Hk|Hk]; simpl.
  - destruct (Nat.eq_dec (key i) k); [reflexivity|contradiction].
  - destruct (add_assoc_data k d rest) as [rv rest'] eqn:Hadd. simpl in *. rewrite IH.
    destruct (Nat.eq_dec (key i) k); [contradiction|].
    now destruct (in_dec Nat.eq_dec k (map key rest)).
Qed.

(** X1.  Looking a key up after [add_assoc_data(key, data)] gives [data] for that
    key and what was there before for every other key; the call returns the
    data the key had before (null when it had none). *)
Theorem get_after_add_assoc_data (k k' : nat) d m :
  get_assoc_data k (snd (add_assoc_data k d m)) = d /\
  (k' <> k ->
   get_assoc_data k' (snd (add_assoc_data k d m)) = get_assoc_data k' m) /\
  fst (add_assoc_data k d m) = get_assoc_data k m.
Proof.
  split; [|split].
  - rewrite get_add_assoc_data. now rewrite Nat.eqb_refl.
  - intros Hne. rewrite get_add_assoc_data.
    destruct (Nat.eqb_spec k' k); [contradiction|reflexivity].
  - apply add_assoc_data_previous.
Qed.

End AssocDataFacts.

Lemma get_after_add_assoc_data_witness :
  get_assoc_data 7 (snd (add_assoc_data 7 (Some 1%nat) [mkEntry 3 (Some 5%nat)])) = Some 1%nat /\
  get_assoc_data 3 (snd (add_assoc_data 7 (Some 1%nat) [mkEntry 3 (Some 5%nat)])) = Some 5%nat.
Proof.
  pose proof (@get_after_add_assoc_data nat 7 3 (Some 1%nat)
                                       [mkEntry 3 (Some 5%nat)]) as [H1 [H2 _]].
  split; [exact H1|]. rewrite H2; [reflexivity|]. discriminate.
Defined.

Lemma filled_snoc {AssocData : Type} (adds : list (nat * option AssocData))
      (k : nat) (d : option AssocData) :
  filled (adds ++ [(k, d)]) = snd (add_assoc_data k d (filled adds)).
Proof. unfold filled. now rewrite fold_left_app. Qed.

Lemma first_occurrences_snoc (l : list nat) (k : nat) :
  first_occurrences (l ++ [k]) =
  if in_dec Nat.eq_dec k (first_occurrences l)
  then first_occurrences l else first_occurrences l ++ [k].
Proof.
  unfold first_occurrences. rewrite rev_app_distr. simpl.
  destruct (in_dec Nat.eq_dec k (rev l)) as [Hin|Hin];
    destruct (in_dec Nat.eq_dec k (rev (nodup Nat.eq_dec (rev l)))) as [Hin'|Hin'];
    try reflexivity.
  - exfalso. apply Hin'. apply -> in_rev. now apply nodup_In.
  - exfalso. apply Hin. apply in_rev in Hin'. now apply nodup_In in Hin'.
Qed.

(** X2.  A container filled by calls of [add_assoc_data] holds every key once, in
    the order in which the keys were first added, and [get_assoc_data] gives
    for each key the data of the last call for it (null for a key never
    added). *)
Theorem filled_assoc_map_is_a_map {AssocData : Type}
        (adds : list (nat * option AssocData)) (k : nat) :
  map key (filled adds) = first_occurrences (map fst adds) /\
  NoDup (map key (filled adds)) /\
  get_assoc_data k (filled adds) = last_added k adds.
Proof.
  assert (Hkeys : map key (filled adds) = first_occurrences (map fst adds)).
  { induction adds as [|[k0 d0] adds IH] using rev_ind; [reflexivity|].
    rewrite filled_snoc, add_assoc_data_keys, map_app. cbn [map fst].
    now rewrite first_occurrences_snoc, IH. }
  split; [exact Hkeys|split].
  - rewrite Hkeys. unfold first_occurrences. apply NoDup_rev. apply NoDup_nodup.
  - clear Hkeys. induction adds as [|[k0 d0] adds IH] using rev_ind; [reflexivity|].
    rewrite filled_snoc, get_add_assoc_data. unfold last_added in *.
    rewrite rev_app_distr. simpl. rewrite (Nat.eqb_sym k0 k).
    destruct (Nat.eqb k k0); [reflexivity|]. apply IH.
Qed.

(** ** The read cursor of Bytes, call after call *)

Lemma read_no_wrap (b : Bytes) (n : Z) :
  0 <= m_readpos b -> 0 <= n -> m_readpos b + n < 2 ^ size_type_bits ->
  read n b =
  (set_readpos (m_readpos b + n) b,
   if size b <? m_readpos b + n then Fail OutOfRange
   else if m_readpos b <? size b then Ok (m_readpos b) else Fail OutOfRange).
Proof.
  intros Hpos Hn Hsum. unfold read, at_, set_readpos, size. simpl.
  rewrite size_type_wrap_small by lia.
  now destruct (Z.ltb_spec (Z.of_nat (length (bytes_vector b))) (m_readpos b + n)).
Qed.

Lemma fold_right_nonneg (ms : list Z) :
  Forall (fun m => 0 <= m) ms -> 0 <= fold_right Z.add 0 ms.
Proof. induction 1; simpl; lia. Qed.

Lemma read_past_end (b : Bytes) (m : Z) :
  size b <= m_readpos b -> snd (read m b) = Fail OutOfRange.
Proof.
  intros Hend. unfold read, at_. cbn [m_readpos set_readpos].
  change (size (set_readpos (size_type_wrap (m_readpos b + m)) b)) with (size b).
  destruct (size b <? size_type_wrap (m_readpos b + m)); [reflexivity|].
  cbn [snd]. destruct (Z.ltb_spec (m_readpos b) (size b)); [lia|reflexivity].
Qed.

Lemma read_each_past_end (ms : list Z) :
  Forall (fun m => 0 <= m) ms ->
  forall b : Bytes,
    0 <= m_readpos b -> size b <= m_readpos b ->
    m_readpos b + fold_right Z.add 0 ms < 2 ^ size_type_bits ->
    Forall (fun r => r = Fail OutOfRange) (read_each ms b).
Proof.
  induction 1 as [|m ms Hm Hms IH]; intros b Hpos Hend Hsum; [constructor|].
  cbn [read_each fold_right] in *. constructor; [now apply read_past_end|].
  pose proof (fold_right_nonneg ms Hms) as Hnn.
  rewrite read_no_wrap by lia. cbn [fst]. apply IH.
  - cbn [m_readpos set_readpos]. lia.
  - change (size (set_readpos (m_readpos b + m) b)) with (size b).
    cbn [m_readpos set_readpos]. lia.
  - cbn [m_readpos set_readpos]. lia.
Qed.

(** X3.  Once a [read] whose count does not carry the read position around
    the end of size_type has thrown, the read position is at or past the end
    of the buffer: the next [read] throws whatever its count, and every later
    [read] throws as long as the counts do not carry the position around the
    end of size_type.  A [set_readpos] after the failed read gives the buffer
    that it gives before it: the failed read has left no other trace. *)
Theorem read_after_failed_read (b : Bytes) (n : Z) :
  0 <= m_readpos b -> 0 <= n -> m_readpos b + n < 2 ^ size_type_bits ->
  snd (read n b) = Fail OutOfRange ->
  let b1 := fst (read n b) in
  size b <= m_readpos b1 /\
  (forall m, snd (read m b1) = Fail OutOfRange) /\
  (forall ms, Forall (fun m => 0 <= m) ms ->
              m_readpos b1 + fold_right Z.add 0 ms < 2 ^ size_type_bits ->
              Forall (fun r => r = Fail OutOfRange) (read_each ms b1)) /\
  (forall pos, set_readpos pos b1 = set_readpos pos b).
Proof.
  intros Hpos Hn Hsum Hfail b1. subst b1.
  rewrite (read_no_wrap b n) in * by lia. cbn [fst snd] in *.
  assert (Hend : size b <= m_readpos b + n).
  { destruct (Z.ltb_spec (size b) (m_readpos b + n)); [lia|].
    destruct (Z.ltb_spec (m_readpos b) (size b)); [discriminate|lia]. }
  split; [exact Hend|]. split; [|split; [|reflexivity]].
  - intros m. now apply read_past_end.
  - intros ms Hms Hs. apply read_each_past_end; trivial.
    cbn [m_readpos set_readpos]. lia.
Qed.

Lemma read_after_failed_read_witness :
  let b := mkBytes [Byte.x01; Byte.x02; Byte.x03] false 2 in
  snd (read 2 b) = Fail OutOfRange /\
  snd (read (2 ^ 64 - 3) (fst (read 2 b))) = Fail OutOfRange /\
  Forall (fun r => r = Fail OutOfRange) (read_each [0; 1; 5] (fst (read 2 b))).
Proof.
  assert (H0 : 0 <= 2) by discriminate.
  assert (H2 : 2 + 2 < 2 ^ size_type_bits) by reflexivity.
  assert (H3 : snd (read 2 (mkBytes [Byte.x01; Byte.x02; Byte.x03] false 2))
               = Fail OutOfRange) by reflexivity.
  pose proof (read_after_failed_read
                (mkBytes [Byte.x01; Byte.x02; Byte.x03] false 2) 2 H0 H0 H2 H3)
    as [_ [Hnext [Hlater _]]].
  split; [exact H3|]. split; [apply Hnext|].
  assert (Hms : Forall (fun m => 0 <= m) [0; 1; 5]).
  { repeat constructor; discriminate. }
  exact (Hlater [0; 1; 5] Hms eq_refl).
Defined.

(** X4.  When the read position plus [n] plus [m] stays within size_type, a
    successful [read(n + m)] can be done in two steps: [read(n)] returns the
    same pointer, and the following [read(m)] leaves the same read position;
    that second call returns the pointer [n] bytes further exactly when this
    is still inside the buffer, and throws when the first step ended at the
    end of the buffer (also for [m = 0]).  Under the same condition two
    successful reads in a row return adjacent ranges and amount to one read
    of the sum. *)
Theorem read_in_two_steps (b : Bytes) (n m p : Z) :
  0 <= m_readpos b -> 0 <= n -> 0 <= m ->
  m_readpos b + n + m < 2 ^ size_type_bits ->
  let b1 := fst (read n b) in
  (snd (read (n + m) b) = Ok p ->
   snd (read n b) = Ok p /\
   fst (read m b1) = fst (read (n + m) b) /\
   (snd (read m b1) = Ok (p + n) <-> p + n < size b) /\
   (snd (read m b1) = Ok (p + n) \/ snd (read m b1) = Fail OutOfRange)) /\
  (forall q, snd (read n b) = Ok p -> snd (read m b1) = Ok q ->
             q = p + n /\ read (n + m) b = (fst (read m b1), Ok p)).
Proof.
  intros Hpos Hn Hm Hsum b1. subst b1.
  rewrite (read_no_wrap b n) by lia.
  rewrite (read_no_wrap b (n + m)) by lia.
  cbn [fst snd]. rewrite read_no_wrap by (cbn [m_readpos set_readpos]; lia).
  cbn [fst snd].
  change (size (set_readpos (m_readpos b + n) b)) with (size b).
  change (m_readpos (set_readpos (m_readpos b + n) b)) with (m_readpos b + n).
  replace (m_readpos b + (n + m)) with (m_readpos b + n + m) by lia.
  assert (Hset : set_readpos (m_readpos b + n + m) (set_readpos (m_readpos b + n) b)
                 = set_readpos (m_readpos b + n + m) b) by reflexivity.
  rewrite Hset.
  destruct (Z.ltb_spec (size b) (m_readpos b + n + m)) as [H1|H1];
    destruct (Z.ltb_spec (size b) (m_readpos b + n)) as [H2|H2];
    destruct (Z.ltb_spec (m_readpos b) (size b)) as [H3|H3];
    destruct (Z.ltb_spec (m_readpos b + n) (size b)) as [H4|H4];
    try lia;
    (split; [intros Hp; try discriminate Hp|intros q Hp Hq; try discriminate Hp;
                                             try discriminate Hq]).
  all: try (injection Hp as <-).
  all: try (injection Hq as <-).
  all: repeat split; try reflexivity; try lia; try discriminate; auto.
Qed.

Lemma read_in_two_steps_witness :
  let b := mkBytes [Byte.x01; Byte.x02; Byte.x03] false 1 in
  snd (read 1 b) = Ok 1 /\ snd (read 1 (fst (read 1 b))) = Ok 2.
Proof.
  assert (H0 : 0 <= 1) by discriminate.
  assert (H2 : 1 + 1 + 1 < 2 ^ size_type_bits) by reflexivity.
  pose proof (proj1 (read_in_two_steps
                       (mkBytes [Byte.x01; Byte.x02; Byte.x03] false 1) 1 1 1 H0 H0 H0 H2)
                    eq_refl) as [Ha [_ [Hb _]]].
  split; [exact Ha|]. apply Hb. reflexivity.
Defined.

(** ** Extra string functions *)

Lemma byte_range_forall (P : Z -> bool) :
  forallb P (map Z.of_nat (seq 0 256)) = true ->
  forall ch, 0 <= ch <= 255 -> P ch = true.
Proof.
  intros H ch Hch. rewrite forallb_forall in H. apply H.
  apply in_map_iff. exists (Z.to_nat ch). split; [lia|]. apply in_seq. lia.
Qed.

(** X5.  For every character code of unsigned char and for EOF, [ConvUnprint]
    returns one to four characters, all of them printable ASCII: a control
    character becomes "^" and a letter, a code above 127 gets the prefix
    "M-". *)
Theorem ConvUnprint_is_printable (ch : Z) :
  -1 <= ch <= 255 ->
  exists s, ConvUnprint ch = Ok s /\
            (1 <= String.length s <= 4)%nat /\
            Forall (fun c => isprint c = true) (codes s).
Proof.
  intros Hch.
  pose (P := fun c : Z =>
               match ConvUnprint c with
               | Ok s => Nat.leb 1 (String.length s) && Nat.leb (String.length s) 4 &&
                         forallb isprint (codes s)
               | Fail _ => false
               end).
  assert (HP : P ch = true).
  { destruct (Z.eq_dec ch (-1)) as [->|Hne]; [reflexivity|].
    apply byte_range_forall; [vm_compute; reflexivity|lia]. }
  unfold P in HP. destruct (ConvUnprint ch) as [s|]; [|discriminate].
  exists s. split; [reflexivity|].
  apply andb_prop in HP. destruct HP as [HP H3]. apply andb_prop in HP.
  destruct HP as [H1 H2]. apply Nat.leb_le in H1. apply Nat.leb_le in H2.
  split; [lia|]. apply Forall_forall. now apply forallb_forall.
Qed.

Lemma ConvUnprint_is_printable_witness :
  exists s, ConvUnprint 137 = Ok s /\
            (1 <= String.length s <= 4)%nat /\
            Forall (fun c => isprint c = true) (codes s).
Proof.
  apply ConvUnprint_is_printable. split; discriminate.
Defined.

(** X6.  Distinct character codes of unsigned char get distinct renderings, so the
    rendering of a byte can be read back. *)
Theorem ConvUnprint_is_injective (a b : Z) :
  0 <= a <= 255 -> 0 <= b <= 255 ->
  ConvUnprint a = ConvUnprint b -> a = b.
Proof.
  intros Ha Hb Heq.
  pose (same := fun x y : Z =>
                  match ConvUnprint x, ConvUnprint y with
                  | Ok s, Ok t => String.eqb s t
                  | _, _ => true
                  end).
  pose (P := fun x : Z =>
               forallb (fun y => implb (same x y) (x =? y)) (map Z.of_nat (seq 0 256))).
  assert (HP : P a = true) by (apply byte_range_forall; [vm_compute; reflexivity|lia]).
  unfold P in HP.
  pose proof (byte_range_forall _ HP b Hb) as H. cbv beta in H.
  unfold same in H. rewrite Heq in H.
  destruct (ConvUnprint b) as [s|f].
  - rewrite String.eqb_refl in H. simpl in H. now apply Z.eqb_eq.
  - simpl in H. now apply Z.eqb_eq.
Qed.

Lemma ConvUnprint_is_injective_witness : ConvUnprint 65 <> ConvUnprint 193.
Proof.
  intros H. apply ConvUnprint_is_injective in H; [discriminate H| |]; split; discriminate.
Defined.

(** ** Building expressions *)

Lemma copyfrom_spec (e : Expr) :
  match copyfrom e with
  | None => m_op e <> IDENT
  | Some c =>
    m_op c = IDENT /\ (forall s, m_terms c = [EXPR s] -> m_op s <> IDENT) /\
    (forall P, all_nodes P e -> all_nodes P c)
  end.
Proof.
  induction e as [op ts IH] using Expr_nested_ind.
  destruct op; try (simpl; discriminate).
  destruct ts as [|t [|t2 rest]].
  - simpl. split; [reflexivity|]. split; [discriminate|trivial].
  - destruct t as [| | | | | | |sube];
      try (simpl; split; [reflexivity|]; split; [discriminate|trivial]).
    inversion IH as [|? ? Hsub _]; subst. simpl in Hsub.
    change (copyfrom (mkExpr IDENT [EXPR sube]))
      with (match copyfrom sube with
            | Some c => Some c
            | None => Some (mkExpr IDENT [EXPR sube])
            end).
    destruct (copyfrom sube) as [c|].
    + destruct Hsub as [H1 [H2 H3]]. split; [exact H1|]. split; [exact H2|].
      intros P HP. apply H3. simpl in HP. apply HP.
    + split; [reflexivity|]. split; [|trivial].
      intros s [= <-]. exact Hsub.
  - destruct t; simpl; (split; [reflexivity|]; split; [discriminate|trivial]).
Qed.

Lemma copyfrom_non_ident (c : Expr) : m_op c <> IDENT -> copyfrom c = None.
Proof. destruct c as [op ts]. destruct op; simpl; intros H; try reflexivity. now elim H. Qed.

Lemma copyfrom_wrapped (k : nat) (t : ExprTerm) :
  not_ident t ->
  copyfrom (mkExpr IDENT [ident_wrapped k t]) = Some (mkExpr IDENT [t]).
Proof.
  intros Ht. induction k as [|k IH].
  - destruct t as [| | | | | | |c]; try reflexivity.
    change (copyfrom (mkExpr IDENT [ident_wrapped 0 (EXPR c)]))
      with (match copyfrom c with
            | Some c' => Some c'
            | None => Some (mkExpr IDENT [EXPR c])
            end).
    now rewrite (copyfrom_non_ident c (Ht c eq_refl)).
  - change (ident_wrapped (S k) t) with (EXPR (mkExpr IDENT [ident_wrapped k t])).
    change (copyfrom (mkExpr IDENT [EXPR (mkExpr IDENT [ident_wrapped k t])]))
      with (match copyfrom (mkExpr IDENT [ident_wrapped k t]) with
            | Some c => Some c
            | None => Some (mkExpr IDENT [EXPR (mkExpr IDENT [ident_wrapped k t])])
            end).
    now rewrite IH.
Qed.

Lemma add_term_op (term : ExprTerm) (e : Expr) : m_op (add_term term e) = m_op e.
Proof.
  unfold add_term. destruct (get_expr term) as [base_e|]; [|reflexivity].
  now destruct (copyfrom base_e).
Qed.

(** X7.  [add_term] appends to the terms and keeps the operator.  What it appends
    is never a lone IDENT sub-expression: a term under any number of
    single-term IDENT wrappers is added without them, so building
    expressions never stacks IDENT wrappers. *)
Theorem add_term_unwraps_ident (term : ExprTerm) (e : Expr) :
  m_op (add_term term e) = m_op e /\
  (exists added,
     m_terms (add_term term e) = m_terms e ++ added /\
     forall c, added = [EXPR c] -> m_op c <> IDENT) /\
  (forall k t, not_ident t -> term = ident_wrapped k t ->
               m_terms (add_term term e) = m_terms e ++ [t]).
Proof.
  split; [|split].
  - apply add_term_op.
  - unfold add_term. destruct term as [| | | | | | |base_e]; simpl;
      try (eexists; split; [reflexivity|]; intros c [=]).
    pose proof (copyfrom_spec base_e) as H. destruct (copyfrom base_e) as [c0|].
    + exists (m_terms c0). split; [reflexivity|]. intros c Hc. now apply (proj1 (proj2 H)).
    + exists [EXPR base_e]. split; [reflexivity|]. now intros c [= <-].
  - intros k t Ht ->. destruct k as [|k].
    + simpl. unfold add_term. destruct t as [| | | | | | |c]; try reflexivity.
      simpl. now rewrite (copyfrom_non_ident c (Ht c eq_refl)).
    + unfold add_term.
      change (get_expr (ident_wrapped (S k) t))
        with (Some (mkExpr IDENT [ident_wrapped k t])).
      cbv iota beta. now rewrite (copyfrom_wrapped k t Ht).
Qed.

Lemma add_term_unwraps_ident_witness :
  m_terms (add_term (EXPR (mkExpr IDENT [EXPR (mkExpr IDENT [SYM "a"%string])]))
                    (mkExpr ADD [INT 1])) = [INT 1; SYM "a"%string].
Proof.
  refine (proj2 (proj2 (add_term_unwraps_ident _ (mkExpr ADD [INT 1])))
                2%nat (SYM "a"%string) _ eq_refl).
  intros c [=].
Defined.

Lemma add_term_wf (term : ExprTerm) (e : Expr) :
  Forall (sub_holds wf) (m_terms e) -> sub_holds wf term ->
  Forall (sub_holds wf) (m_terms (add_term term e)) /\
  (length (m_terms e) < length (m_terms (add_term term e)))%nat.
Proof.
  intros He Ht. unfold add_term.
  destruct term as [| | | | | | |base_e]; simpl;
    try (split; [apply Forall_app; split; [exact He|repeat constructor]
                |rewrite length_app; simpl; lia]).
  simpl in Ht. pose proof (copyfrom_spec base_e) as H.
  destruct (copyfrom base_e) as [c|]; simpl.
  - destruct H as [_ [_ H]]. specialize (H wf_node Ht). destruct c as [opc tsc].
    apply wf_unfold in H. destruct H as [[Hne _] Hsub]. simpl.
    split; [apply Forall_app; split; assumption|].
    rewrite length_app. destruct tsc; [contradiction|simpl; lia].
  - split; [apply Forall_app; split; [exact He|repeat constructor; exact Ht]|].
    rewrite length_app. simpl. lia.
Qed.

(** X8.  The constructors build well-formed trees, the trees [level_tree] is
    proved for: from terms whose sub-expressions are well formed,
    [Expr(a, op, b)] has at least two terms, [Expr(a)] and a successful
    [Expr(op, a)] at least one under a unary operator, and every node below is
    well formed.  [Expr(op, a)] throws ValueError exactly when [op] is not
    unary; [Expr(op, terms)] throws exactly when there is no term, one term
    under an operator that is not unary, or more than two under one that is
    not associative, and otherwise holds the terms as given. *)
Theorem constructors_build_well_formed :
  (forall a op b, sub_holds wf a -> sub_holds wf b ->
     wf (Expr_binary a op b) /\ (2 <= length (m_terms (Expr_binary a op b)))%nat) /\
  (forall a, sub_holds wf a -> wf (Expr_ident a)) /\
  (forall op a,
     (is_unary op = false -> exists msg, Expr_unary op a = ValueError msg) /\
     (is_unary op = true ->
      Expr_unary op a = Built (add_term a (Expr_op op)) /\
      (sub_holds wf a -> wf (add_term a (Expr_op op))))) /\
  (forall op terms,
     let fits := terms <> [] /\ (length terms = 1%nat -> is_unary op = true) /\
                 ((2 < length terms)%nat -> is_associative op = true) in
     (fits -> Expr_terms op terms = Built (mkExpr op terms) /\
              (Forall (sub_holds wf) terms -> wf (mkExpr op terms))) /\
     (~ fits -> exists msg, Expr_terms op terms = ValueError msg)).
Proof.
  split; [|split; [|split]].
  - intros a op b Ha Hb. unfold Expr_binary.
    destruct (add_term_wf a (Expr_op op) (Forall_nil _) Ha) as [H1 L1].
    destruct (add_term_wf b (add_term a (Expr_op op)) H1 Hb) as [H2 L2].
    simpl in L1. split; [|lia].
    destruct (add_term b (add_term a (Expr_op op))) as [op' ts'] eqn:E. simpl in *.
    apply wf_unfold. split; [|exact H2]. split.
    + intros ->. simpl in L2. lia.
    + intros Hl. lia.
  - intros a Ha. unfold Expr_ident.
    destruct (add_term_wf a (Expr_op IDENT) (Forall_nil _) Ha) as [H1 L1].
    pose proof (add_term_op a (Expr_op IDENT)) as Hop.
    destruct (add_term a (Expr_op IDENT)) as [op' ts'] eqn:E. simpl in *. subst op'.
    apply wf_unfold. split; [|exact H1]. split; [|reflexivity].
    intros ->. simpl in L1. lia.
  - intros op a. unfold Expr_unary. split.
    + intros ->. simpl. eexists. reflexivity.
    + intros Hu. rewrite Hu. simpl. split; [reflexivity|]. intros Ha.
      destruct (add_term_wf a (Expr_op op) (Forall_nil _) Ha) as [H1 L1].
      pose proof (add_term_op a (Expr_op op)) as Hop.
      destruct (add_term a (Expr_op op)) as [op' ts'] eqn:E. simpl in *. subst op'.
      apply wf_unfold. split; [|exact H1]. split; [|intros _; exact Hu].
      intros ->. simpl in L1. lia.
  - intros op terms fits. subst fits. unfold Expr_terms.
    assert (Hmap : map clone_term terms = terms).
    { induction terms as [|t l IH]; simpl; [reflexivity|].
      now rewrite clone_term_id, IH. }
    rewrite Hmap.
    destruct terms as [|t1 [|t2 [|t3 rest]]]; simpl length; cbv iota.
    + split; [intros [H _]; now elim H|]. intros _. eexists. reflexivity.
    + destruct (is_unary op) eqn:Hu; simpl.
      * split; [|intros H; elim H; repeat split; try discriminate; simpl; lia].
        intros _. split; [reflexivity|]. intros Hsub. apply wf_unfold.
        split; [|exact Hsub]. split; [discriminate|trivial].
      * split; [intros [_ [H _]]; specialize (H eq_refl); discriminate|].
        intros _. eexists. reflexivity.
    + split; [|intros H; elim H; repeat split; try discriminate; simpl; lia].
      intros _. split; [reflexivity|]. intros Hsub. apply wf_unfold.
      split; [|exact Hsub]. split; [discriminate|simpl; discriminate].
    + destruct (is_associative op) eqn:Ha; simpl.
      * split; [|intros H; elim H; repeat split; try discriminate; trivial].
        intros _. split; [reflexivity|]. intros Hsub. apply wf_unfold.
        split; [|exact Hsub]. split; [discriminate|simpl; discriminate].
      * split; [intros [_ [_ H]]; simpl in H;
                assert (Hd : true = false) by (rewrite <- H; [reflexivity|lia]);
                discriminate|].
        intros _. eexists. reflexivity.
Qed.

Lemma constructors_build_well_formed_witness :
  wf (Expr_binary (EXPR (mkExpr IDENT [SYM "a"%string])) SUB (INT 1)) /\
  Expr_terms DIV [SYM "a"%string; INT 2] = Built (mkExpr DIV [SYM "a"%string; INT 2]).
Proof.
  destruct constructors_build_well_formed as [Hbin [_ [_ Hterms]]].
  split.
  - refine (proj1 (Hbin (EXPR (mkExpr IDENT [SYM "a"%string])) SUB (INT 1) _ I)).
    simpl. unfold wf_node. simpl.
    split; [split; [discriminate|reflexivity]|split; exact I].
  - refine (proj1 (proj1 (Hterms DIV [SYM "a"%string; INT 2]) _)).
    split; [discriminate|]. split; simpl; [discriminate|lia].
Defined.

(** ** Splitting SEG:OFF and WRT, and building them again *)

Lemma add_term_not_ident (t : ExprTerm) (e : Expr) :
  not_ident t -> add_term t e = mkExpr (m_op e) (m_terms e ++ [t]).
Proof.
  intros Ht. unfold add_term. destruct t as [| | | | | | |c]; try reflexivity.
  simpl. now rewrite (copyfrom_non_ident c (Ht c eq_refl)).
Qed.

Lemma add_term_own (t : ExprTerm) (e : Expr) :
  not_ident t ->
  add_term (EXPR (match t with EXPR sube => sube | _ => mkExpr IDENT [t] end)) e =
  mkExpr (m_op e) (m_terms e ++ [t]).
Proof.
  intros Ht. destruct t as [| | | | | | |c]; try reflexivity.
  now apply add_term_not_ident.
Qed.

Lemma add_term_ident_of (t : ExprTerm) (e : Expr) :
  not_ident t ->
  add_term (EXPR (mkExpr IDENT [t])) e = mkExpr (m_op e) (m_terms e ++ [t]).
Proof.
  intros Ht. unfold add_term. simpl get_expr. cbv iota beta.
  pose proof (copyfrom_wrapped 0 t Ht) as H. change (ident_wrapped 0 t) with t in H.
  now rewrite H.
Qed.

(** X9.  What [extract_segoff] and [extract_wrt] take apart, the binary constructor
    puts together again: for SEGOFF(l, r) and WRT(l, r) whose two terms are not
    IDENT expressions, building the operator from the two pieces (the returned
    expression and what is left of the original) gives the original back.
    After a successful extraction the original is an IDENT, so a second
    extraction returns null and changes nothing. *)
Theorem extract_then_rebuild (l r : ExprTerm) :
  not_ident l -> not_ident r ->
  (exists s e',
     extract_segoff (mkExpr SEGOFF [l; r]) = (Some s, e') /\
     Expr_binary (EXPR s) SEGOFF (EXPR e') = mkExpr SEGOFF [l; r] /\
     extract_segoff e' = (None, e')) /\
  (exists s e',
     extract_wrt (mkExpr WRT [l; r]) = (Some s, e') /\
     Expr_binary (EXPR e') WRT (EXPR s) = mkExpr WRT [l; r] /\
     extract_wrt e' = (None, e')).
Proof.
  intros Hl Hr. split.
  - eexists. eexists. split; [reflexivity|]. split; [|reflexivity].
    unfold Expr_binary. rewrite (add_term_own l _ Hl).
    now rewrite (add_term_ident_of r _ Hr).
  - eexists. eexists. split; [reflexivity|]. split; [|reflexivity].
    unfold Expr_binary. simpl removelast. rewrite (add_term_ident_of l _ Hl).
    now rewrite (add_term_own r _ Hr).
Qed.

Lemma extract_then_rebuild_witness :
  Expr_binary (EXPR (mkExpr IDENT [REG 3%nat])) SEGOFF (EXPR (mkExpr IDENT [SYM "a"%string]))
  = mkExpr SEGOFF [REG 3%nat; SYM "a"%string].
Proof.
  assert (H1 : not_ident (REG 3%nat)) by (intros c [=]).
  assert (H2 : not_ident (SYM "a"%string)) by (intros c [=]).
  destruct (proj1 (extract_then_rebuild _ _ H1 H2)) as [s [e' [He [Hb _]]]].
  injection He as <- <-. exact Hb.
Defined.

(** ** Expr::clone(int except) *)

Lemma clone_terms_except_spec (except : Z) (ts : list ExprTerm) :
  forall j,
    clone_terms_except except j ts =
    if (j <=? except) && (except <? j + Z.of_nat (length ts))
    then firstn (Z.to_nat (except - j)) ts ++ skipn (S (Z.to_nat (except - j))) ts
    else ts.
Proof.
  induction ts as [|t ts IH]; intros j.
  - simpl. destruct ((j <=? except) && (except <? j + 0)); [|reflexivity].
    now rewrite firstn_nil.
  - cbn [clone_terms_except]. rewrite IH, clone_term_id.
    destruct (Z.eqb_spec j except) as [->|Hne].
    + replace (except - except) with 0 by lia. simpl firstn. simpl skipn.
      assert (H1 : (except + 1 <=? except) = false) by (apply Z.leb_gt; lia).
      assert (H2 : (except <=? except) = true) by (apply Z.leb_le; lia).
      assert (H3 : (except <? except + Z.of_nat (length (t :: ts))) = true).
      { apply Z.ltb_lt. simpl length. lia. }
      now rewrite H1, H2, H3.
    + destruct (Z.leb_spec (j + 1) except) as [Hle|Hgt].
      * assert (H2 : (j <=? except) = true) by (apply Z.leb_le; lia).
        rewrite H2. cbn [andb].
        replace (j + 1 + Z.of_nat (length ts)) with (j + Z.of_nat (length (t :: ts)))
          by (simpl length; lia).
        destruct (except <? j + Z.of_nat (length (t :: ts))); [|reflexivity].
        replace (Z.to_nat (except - j)) with (S (Z.to_nat (except - (j + 1)))) by lia.
        reflexivity.
      * assert (H2 : (j <=? except) = false) by (apply Z.leb_gt; lia).
        now rewrite H2.
Qed.

(** X10.  [clone(except)] copies the expression without the term at index [except];
    it copies all of it when [except] is -1 or no index of a term, and also,
    whatever [except] is, when the expression has a single term.  So the copy
    of an expression that has terms always has terms. *)
Theorem clone_except_drops_one_term (except : Z) (e : Expr) :
  m_op (clone_except except e) = m_op e /\
  (0 <= except < Z.of_nat (length (m_terms e)) -> length (m_terms e) <> 1%nat ->
   m_terms (clone_except except e) =
   firstn (Z.to_nat except) (m_terms e) ++ skipn (S (Z.to_nat except)) (m_terms e)) /\
  (except < 0 \/ Z.of_nat (length (m_terms e)) <= except \/ length (m_terms e) = 1%nat ->
   clone_except except e = e) /\
  (m_terms e <> [] -> m_terms (clone_except except e) <> []).
Proof.
  destruct e as [op ts]. unfold clone_except.
  rewrite clone_id, clone_terms_except_spec. cbn [m_terms m_op].
  rewrite Z.sub_0_r. rewrite Z.add_0_l.
  split; [|split; [|split]].
  - now destruct ((except =? -1) || Nat.eqb (length ts) 1); [|destruct (_ && _)].
  - intros [H0 H1] Hlen.
    destruct (Z.eqb_spec except (-1)); [lia|].
    destruct (Nat.eqb_spec (length ts) 1); [contradiction|]. simpl.
    assert (Ha : (0 <=? except) = true) by (apply Z.leb_le; lia).
    assert (Hb : (except <? Z.of_nat (length ts)) = true) by (apply Z.ltb_lt; lia).
    now rewrite Ha, Hb.
  - intros H. destruct ((except =? -1) || Nat.eqb (length ts) 1) eqn:E; [reflexivity|].
    apply orb_false_elim in E. destruct E as [_ E]. apply Nat.eqb_neq in E.
    destruct H as [H|[H|H]]; [| |contradiction].
    + assert (Ha : (0 <=? except) = false) by (apply Z.leb_gt; lia). now rewrite Ha.
    + assert (Hb : (except <? Z.of_nat (length ts)) = false) by (apply Z.ltb_ge; lia).
      rewrite Hb. now rewrite andb_false_r.
  - intros Hne. destruct ((except =? -1) || Nat.eqb (length ts) 1) eqn:E; [exact Hne|].
    apply orb_false_elim in E. destruct E as [_ E]. apply Nat.eqb_neq in E.
    destruct ((0 <=? except) && (except <? Z.of_nat (length ts))) eqn:R; [|exact Hne].
    simpl m_terms. intros Hnil. apply (f_equal (@length ExprTerm)) in Hnil.
    rewrite length_app, length_firstn in Hnil.
    apply andb_prop in R. destruct R as [R1 R2].
    apply Z.leb_le in R1. apply Z.ltb_lt in R2.
    destruct ts as [|t1 [|t2 rest]]; [now elim Hne|now elim E|].
    rewrite length_skipn in Hnil. simpl length in *. lia.
Qed.

Lemma clone_except_drops_one_term_witness :
  m_terms (clone_except 1 (mkExpr ADD [SYM "a"%string; INT 2; SYM "b"%string])) =
  [SYM "a"%string; SYM "b"%string].
Proof.
  refine (proj1 (proj2 (clone_except_drops_one_term 1
                          (mkExpr ADD [SYM "a"%string; INT 2; SYM "b"%string]))) _ _).
  - simpl. lia.
  - simpl. discriminate.
Defined.

(** ** Searching the leaves (Expr::traverse_leaves_in, Expr::contains) *)

Lemma existsb_flat_map {A B : Type} (f : B -> bool) (g : A -> list B) (l : list A) :
  existsb f (flat_map g l) = existsb (fun x => existsb f (g x)) l.
Proof.
  induction l as [|x l IH]; simpl; [reflexivity|].
  now rewrite existsb_app, IH.
Qed.

Lemma traverse_leaves_in_leaves (func : ExprTerm -> bool) (e : Expr) :
  traverse_leaves_in func e = existsb func (leaves e).
Proof.
  induction e as [op ts IH] using Expr_nested_ind. simpl.
  rewrite existsb_flat_map.
  induction IH as [|t l Ht _ IHl]; simpl; [reflexivity|].
  rewrite IHl. f_equal. destruct t; simpl in *; try now rewrite orb_false_r.
  exact Ht.
Qed.

Lemma leaves_not_expr (e : Expr) : Forall (fun t => get_expr t = None) (leaves e).
Proof.
  induction e as [op ts IH] using Expr_nested_ind. simpl.
  induction IH as [|t l Ht _ IHl]; simpl; [constructor|].
  apply Forall_app. split; [|exact IHl].
  destruct t; simpl in *; try (repeat constructor). exact Ht.
Qed.

(** X11.  [contains(type)] holds exactly when a leaf of the tree, at any depth, has
    that type.  Sub-expressions are entered and never tested themselves, so
    [contains(EXPR)] is false for every expression. *)
Theorem contains_looks_at_leaves (ty : TermType) (e : Expr) :
  (contains ty e = true <-> exists t, In t (leaves e) /\ get_type t = ty) /\
  contains T_EXPR e = false.
Proof.
  unfold contains. rewrite !traverse_leaves_in_leaves. split.
  - rewrite existsb_exists. split; intros [t [Hin Ht]]; exists t; (split; [exact Hin|]).
    + unfold is_type in Ht. destruct (get_type t), ty; simpl in Ht; congruence.
    + unfold is_type. rewrite Ht. now destruct ty.
  - pose proof (leaves_not_expr e) as H.
    induction H as [|t l Ht _ IH]; simpl; [reflexivity|].
    rewrite IH. now destruct t.
Qed.

(** ** Expr::extract_deep_segoff *)

Lemma extract_segoff_count (op : Op) (ts : list ExprTerm) :
  match extract_segoff (mkExpr op ts) with
  | (None, e') =>
    e' = mkExpr op ts /\ Op_beq op SEGOFF && Nat.eqb (length ts) 2 = false
  | (Some s, e') =>
    Op_beq op SEGOFF && Nat.eqb (length ts) 2 = true /\
    count_segoff (mkExpr op ts) = S (count_segoff s + count_segoff e')
  end.
Proof.
  unfold extract_segoff. simpl m_op. simpl m_terms.
  destruct (Op_beq op SEGOFF) eqn:Hop; simpl; [|split; reflexivity].
  destruct ts as [|l [|r [|x rest]]]; simpl; try (split; reflexivity).
  split; [reflexivity|]. rewrite Hop. simpl.
  destruct l; simpl; lia.
Qed.

Lemma extract_deep_segoff_unfold (op : Op) (ts : list ExprTerm) :
  extract_deep_segoff (mkExpr op ts) =
  match extract_segoff (mkExpr op ts) with
  | (Some retval, e') => (Some retval, e')
  | (None, _) => let '(retval, ts') := search_children ts in (retval, mkExpr op ts')
  end.
Proof. reflexivity. Qed.

Lemma search_children_cons (t : ExprTerm) (l : list ExprTerm) :
  search_children (t :: l) =
  match t with
  | EXPR c =>
    match extract_deep_segoff c with
    | (Some r, c') => (Some r, EXPR c' :: l)
    | (None, c') => let '(r, l'') := search_children l in (r, EXPR c' :: l'')
    end
  | _ => let '(r, l'') := search_children l in (r, t :: l'')
  end.
Proof. now destruct t. Qed.

Lemma count_segoff_unfold (op : Op) (ts : list ExprTerm) :
  count_segoff (mkExpr op ts) =
  ((if Op_beq op SEGOFF && Nat.eqb (length ts) 2 then 1 else 0) + count_segoff_terms ts)%nat.
Proof. reflexivity. Qed.

Lemma search_children_count (l : list ExprTerm) :
  Forall (sub_holds (fun e =>
            match extract_deep_segoff e with
            | (None, e') => e' = e /\ count_segoff e = 0%nat
            | (Some s, e') => count_segoff e = S (count_segoff s + count_segoff e')
            end)) l ->
  match search_children l with
  | (None, l') => l' = l /\ count_segoff_terms l = 0%nat
  | (Some s, l') =>
    length l' = length l /\
    count_segoff_terms l = S (count_segoff s + count_segoff_terms l')
  end.
Proof.
  induction 1 as [|t l Ht _ IH]; [split; reflexivity|].
  rewrite search_children_cons.
  assert (Hleaf : get_expr t = None ->
            match (let '(r, l'') := search_children l in (r, t :: l'')) with
            | (None, l') => l' = t :: l /\ count_segoff_terms (t :: l) = 0%nat
            | (Some s, l') =>
              length l' = length (t :: l) /\
              count_segoff_terms (t :: l) = S (count_segoff s + count_segoff_terms l')
            end).
  { intros Hl. destruct (search_children l) as [[s|] l''].
    - destruct IH as [Hlen IH]. split; [simpl; now rewrite Hlen|].
      destruct t; try discriminate; simpl; exact IH.
    - destruct IH as [-> IH]. split; [reflexivity|].
      destruct t; try discriminate; simpl; exact IH. }
  destruct t as [| | | | | | |c]; try (apply Hleaf; reflexivity).
  simpl in Ht. destruct (extract_deep_segoff c) as [[r|] c'].
  - split; [reflexivity|]. unfold count_segoff_terms. cbn [fold_right]. lia.
  - destruct Ht as [-> Hc]. destruct (search_children l) as [[s|] l''].
    + destruct IH as [Hlen IH]. split; [simpl; now rewrite Hlen|].
      unfold count_segoff_terms in *. cbn [fold_right]. lia.
    + destruct IH as [-> IH]. split; [reflexivity|].
      unfold count_segoff_terms in *. cbn [fold_right]. lia.
Qed.

Lemma extract_deep_segoff_count (e : Expr) :
  match extract_deep_segoff e with
  | (None, e') => e' = e /\ count_segoff e = 0%nat
  | (Some s, e') => count_segoff e = S (count_segoff s + count_segoff e')
  end.
Proof.
  induction e as [op ts IH] using Expr_nested_ind.
  pose proof (extract_segoff_count op ts) as Hx.
  rewrite extract_deep_segoff_unfold.
  destruct (extract_segoff (mkExpr op ts)) as [[s|] e'].
  - exact (proj2 Hx).
  - destruct Hx as [-> Hx].
    pose proof (search_children_count ts IH) as Hs.
    destruct (search_children ts) as [[s|] ts'].
    + destruct Hs as [Hlen Hs]. rewrite !count_segoff_unfold, Hlen, Hx. lia.
    + destruct Hs as [-> Hs]. split; [reflexivity|].
      rewrite count_segoff_unfold, Hx. exact Hs.
Qed.

(** X12.  [extract_deep_segoff] returns null exactly when no node of the tree is a
    SEGOFF with two terms, and then leaves the tree as it was.  When the root
    is such a node it is the one split, as by [extract_segoff].  Otherwise
    one such node is turned into the IDENT of its offset and its segment is
    returned: every other two-term SEGOFF node is still in one of the two
    pieces, so repeated extraction comes to an end. *)
Theorem extract_deep_segoff_finds (e : Expr) :
  (fst (extract_deep_segoff e) = None <-> count_segoff e = 0%nat) /\
  (fst (extract_deep_segoff e) = None -> snd (extract_deep_segoff e) = e) /\
  (forall s, fst (extract_deep_segoff e) = Some s ->
             count_segoff e = S (count_segoff s + count_segoff (snd (extract_deep_segoff e)))) /\
  (Op_beq (m_op e) SEGOFF && Nat.eqb (length (m_terms e)) 2 = true ->
   extract_deep_segoff e = extract_segoff e).
Proof.
  assert (Hroot : Op_beq (m_op e) SEGOFF && Nat.eqb (length (m_terms e)) 2 = true ->
                  extract_deep_segoff e = extract_segoff e).
  { destruct e as [op ts]. intros Hr. rewrite extract_deep_segoff_unfold.
    pose proof (extract_segoff_count op ts) as Hx.
    destruct (extract_segoff (mkExpr op ts)) as [[s|] e']; [reflexivity|].
    simpl in Hr. destruct Hx as [_ Hx]. congruence. }
  pose proof (extract_deep_segoff_count e) as H.
  destruct (extract_deep_segoff e) as [[s|] e']; simpl.
  - split; [split; [discriminate|lia]|]. split; [discriminate|]. split; [|exact Hroot].
    now intros s0 [= <-].
  - destruct H as [-> H0]. split; [split; trivial|]. split; [trivial|].
    split; [discriminate|exact Hroot].
Qed.

Lemma extract_deep_segoff_finds_witness :
  let e := mkExpr ADD [INT 1; EXPR (mkExpr SEGOFF [REG 2%nat; SYM "a"%string])] in
  extract_deep_segoff e =
  (Some (mkExpr IDENT [REG 2%nat]), mkExpr ADD [INT 1; EXPR (mkExpr IDENT [SYM "a"%string])]) /\
  count_segoff e = 1%nat.
Proof.
  cbv zeta. split; [reflexivity|].
  exact (proj1 (proj2 (proj2 (extract_deep_segoff_finds
           (mkExpr ADD [INT 1; EXPR (mkExpr SEGOFF [REG 2%nat; SYM "a"%string])]))))
         (mkExpr IDENT [REG 2%nat]) eq_refl).
Defined.

(** ** Constant folding *)

Lemma const_value_unfold (op : Op) (ts : list ExprTerm) :
  const_value (mkExpr op ts) =
  match all_some (map term_value ts) with
  | Some vs => node_value op vs
  | None => None
  end.
Proof. reflexivity. Qed.

Lemma constant_unfold (op : Op) (ts : list ExprTerm) :
  constant (mkExpr op ts) <-> const_node op ts /\ Forall (sub_holds constant) ts.
Proof. apply all_nodes_unfold. Qed.

Lemma constant_wf (e : Expr) : constant e -> wf e.
Proof.
  induction e as [op ts IH] using Expr_nested_ind. intros Hc.
  apply constant_unfold in Hc. destruct Hc as [[Hts Har] Hsub].
  apply wf_unfold. split.
  - split.
    + intros ->. simpl in Har. destruct Har as [[_ H]|[[_ [_ H]]|[_ H]]]; simpl in H; lia.
    + intros Hl. destruct Har as [[H _]|[[_ [_ H]]|[_ H]]]; try lia.
      destruct H as [->|[->|[->| ->]]]; reflexivity.
  - clear Hts Har. induction IH as [|t l Ht _ IHl]; [constructor|].
    inversion Hsub; subst. constructor; [|now apply IHl].
    destruct t; simpl in *; trivial. now apply Ht.
Qed.

Lemma constant_no_float (e : Expr) : constant e -> contains T_FLOAT e = false.
Proof.
  unfold contains. rewrite traverse_leaves_in_leaves.
  induction e as [op ts IH] using Expr_nested_ind. intros Hc.
  apply constant_unfold in Hc. destruct Hc as [[Hts _] Hsub].
  simpl. rewrite existsb_flat_map.
  induction IH as [|t l Ht _ IHl]; [reflexivity|].
  inversion Hsub; subst. inversion Hts; subst. simpl.
  rewrite IHl by assumption. rewrite orb_false_r.
  destruct t; simpl in *; try contradiction; [reflexivity|]. now apply Ht.
Qed.

Lemma fold_calc_cons (op : Op) (v x : Z) (rest : list Z) :
  fold_calc op v (x :: rest) =
  match calc op v (Some x) with
  | Ok v' => fold_calc op v' rest
  | Fail _ => None
  end.
Proof.
  unfold fold_calc. cbn [fold_left]. unfold IntNum.
  destruct (calc op v (Some x)) as [v'|f]; [reflexivity|].
  cbn [to_option]. induction rest as [|y rest IH]; [reflexivity|exact IH].
Qed.

Lemma fold_calc_ADD (v : Z) (rest : list Z) :
  fold_calc ADD v rest = Some (fold_left Z.add rest v).
Proof.
  revert v. induction rest as [|x rest IH]; intros v; [reflexivity|].
  rewrite fold_calc_cons. simpl. apply IH.
Qed.

Lemma fold_add_opp (v : Z) (rest : list Z) :
  fold_left Z.add (map Z.opp rest) (- v) = - fold_left Z.add rest v.
Proof.
  revert v. induction rest as [|x rest IH]; intros v; [reflexivity|].
  simpl. replace (- v + - x) with (- (v + x)) by lia. apply IH.
Qed.

Lemma all_some_cons (o : option Z) (l : list (option Z)) :
  all_some (o :: l) =
  match o, all_some l with
  | Some v, Some vs => Some (v :: vs)
  | _, _ => None
  end.
Proof. destruct o; [reflexivity|]. simpl. now destruct (all_some l). Qed.

Lemma all_some_length (l : list (option Z)) (vs : list Z) :
  all_some l = Some vs -> length vs = length l.
Proof.
  revert vs. induction l as [|o l IH]; intros vs; [now intros [= <-]|].
  rewrite all_some_cons. destruct o as [v|]; [|discriminate].
  destruct (all_some l) as [vs'|]; [|discriminate].
  intros [= <-]. simpl. now rewrite (IH vs' eq_refl).
Qed.

(** *** Negative normalization keeps the value *)

Lemma negate_leaf_constant (n : Z) :
  sub_holds constant (xform_neg_term (INT n)) /\
  term_value (xform_neg_term (INT n)) = Some (- n).
Proof.
  split.
  - unfold xform_neg_term. cbn [sub_holds]. apply constant_unfold.
    split; [|repeat constructor]. split; [repeat constructor|].
    right. right. split; [reflexivity|simpl; lia].
  - simpl. unfold fold_calc. simpl. f_equal; lia.
Qed.

Lemma mul_neg1_constant (c : Expr) :
  constant c ->
  constant (mkExpr MUL [INT (-1); EXPR c]) /\
  const_value (mkExpr MUL [INT (-1); EXPR c]) = option_map Z.opp (const_value c) /\
  constant (mkExpr MUL [EXPR c; INT (-1)]) /\
  const_value (mkExpr MUL [EXPR c; INT (-1)]) = option_map Z.opp (const_value c).
Proof.
  intros Hc.
  assert (Hn : forall a b, const_term a -> const_term b ->
                           const_node MUL [a; b]).
  { intros a b Ha Hb. split; [repeat constructor; assumption|].
    right. right. split; [reflexivity|simpl; lia]. }
  split; [|split; [|split]].
  - apply constant_unfold. split; [apply Hn; exact I|]. repeat constructor. exact Hc.
  - rewrite const_value_unfold. simpl map. rewrite !all_some_cons. simpl all_some.
    destruct (const_value c) as [v|]; [|reflexivity]. simpl. unfold fold_calc. simpl.
    f_equal; lia.
  - apply constant_unfold. split; [apply Hn; exact I|]. repeat constructor. exact Hc.
  - rewrite const_value_unfold. simpl map. rewrite !all_some_cons. simpl all_some.
    destruct (const_value c) as [v|]; [|reflexivity]. simpl. unfold fold_calc. simpl.
    f_equal; lia.
Qed.

Lemma negate_terms_constant (ts : list ExprTerm) :
  Forall const_term ts ->
  Forall (sub_holds constant) ts ->
  Forall (sub_holds (fun c => constant c ->
            exists c', xform_neg_helper c = Ok c' /\ constant c' /\
                       const_value c' = option_map Z.opp (const_value c))) ts ->
  exists ts', mapM negate_term ts = Ok ts' /\
              length ts' = length ts /\
              Forall const_term ts' /\ Forall (sub_holds constant) ts' /\
              all_some (map term_value ts') =
              option_map (map Z.opp) (all_some (map term_value ts)).
Proof.
  intros Hts Hsub IH. induction ts as [|t ts IHts].
  - exists []. repeat split; constructor.
  - inversion Hts; subst. inversion Hsub; subst. inversion IH; subst.
    destruct (IHts H2 H4 H6) as [ts' [Hm [Hlen [Hc1 [Hc2 Hv]]]]].
    assert (Ht : exists t', negate_term t = Ok t' /\ const_term t' /\
                            sub_holds constant t' /\
                            term_value t' = option_map Z.opp (term_value t)).
    { destruct t as [| |n| | | | |c]; try contradiction.
      - eexists. split; [reflexivity|]. split; [exact I|]. apply negate_leaf_constant.
      - simpl in *. destruct (H5 H3) as [c' [Hc' [Hcc Hcv]]]. rewrite Hc'.
        eexists. split; [reflexivity|]. split; [exact I|]. split; [exact Hcc|exact Hcv]. }
    destruct Ht as [t' [Ht' [Hct [Hcs Hcv]]]].
    exists (t' :: ts').
    change (mapM negate_term (t :: ts))
      with (b <- negate_term t ;; bs <- mapM negate_term ts ;; Ok (b :: bs)).
    rewrite Ht', Hm. cbn [bind]. split; [reflexivity|].
    split; [simpl; now rewrite Hlen|].
    split; [now constructor|]. split; [now constructor|].
    cbn [map]. rewrite !all_some_cons, Hv, Hcv.
    destruct (term_value t); [|reflexivity]. simpl.
    now destruct (all_some (map term_value ts)).
Qed.

Lemma xform_neg_helper_constant (c : Expr) :
  constant c ->
  exists c', xform_neg_helper c = Ok c' /\ constant c' /\
             const_value c' = option_map Z.opp (const_value c).
Proof.
  induction c as [op ts IH] using Expr_nested_ind. intros Hc.
  pose proof Hc as Hc0.
  apply constant_unfold in Hc. destruct Hc as [[Hts Har] Hsub].
  assert (Hdefault :
            exists c', Ok (mkExpr MUL [INT (-1); EXPR (mkExpr op ts)]) = Ok c' /\
                       constant c' /\
                       const_value c' = option_map Z.opp (const_value (mkExpr op ts))).
  { eexists. split; [reflexivity|].
    destruct (mul_neg1_constant _ Hc0) as [H1 [H2 _]]. now split. }
  destruct op; try exact Hdefault; clear Hdefault.
  - (* ADD *)
    destruct (negate_terms_constant ts Hts Hsub IH) as [ts' [Hm [Hlen [Hc1 [Hc2 Hv]]]]].
    change (xform_neg_helper (mkExpr ADD ts))
      with (ts' <- mapM negate_term ts ;; Ok (mkExpr ADD ts')).
    rewrite Hm. eexists. split; [reflexivity|]. split.
    + apply constant_unfold. split; [|exact Hc2]. split; [exact Hc1|].
      rewrite Hlen. exact Har.
    + rewrite !const_value_unfold, Hv.
      destruct (all_some (map term_value ts)) as [vs|]; [|reflexivity]. simpl.
      destruct vs as [|v rest]; [reflexivity|]. simpl.
      rewrite !fold_calc_ADD. simpl. f_equal. apply fold_add_opp.
  - (* SUB *)
    destruct Har as [[H _]|[[_ [_ Hl]]|[H _]]];
      [destruct H as [H|[H|[H|H]]]; discriminate| |discriminate].
    destruct ts as [|a [|b [|x rest]]]; try discriminate Hl.
    inversion Hts as [|? ? Ha Hts']; subst. inversion Hts' as [|? ? Hb _]; subst.
    inversion Hsub as [|? ? Hsa Hsub']; subst. inversion Hsub' as [|? ? Hsb _]; subst.
    inversion IH as [|? ? IHa _]; subst.
    assert (Hres : xform_neg_helper (mkExpr SUB [a; b]) =
                   (a' <- negate_term a ;; Ok (mkExpr ADD [a'; b]))).
    { destruct a; simpl; try reflexivity. now destruct (xform_neg_helper e). }
    rewrite Hres.
    assert (Ht : exists t', negate_term a = Ok t' /\ const_term t' /\
                            sub_holds constant t' /\
                            term_value t' = option_map Z.opp (term_value a)).
    { destruct a as [| |n| | | | |c]; try contradiction.
      - eexists. split; [reflexivity|]. split; [exact I|]. apply negate_leaf_constant.
      - simpl in *. destruct (IHa Hsa) as [c' [Hc' [Hcc Hcv]]]. rewrite Hc'.
        eexists. split; [reflexivity|]. split; [exact I|]. split; [exact Hcc|exact Hcv]. }
    destruct Ht as [a' [Ha' [Hct [Hcs Hcv]]]]. rewrite Ha'.
    eexists. split; [reflexivity|]. split.
    + apply constant_unfold. split; [|repeat constructor; assumption].
      split; [repeat constructor; assumption|].
      right. right. split; [reflexivity|simpl; lia].
    + rewrite !const_value_unfold. simpl map. rewrite !all_some_cons, Hcv. simpl all_some.
      destruct (term_value a) as [va|]; [|reflexivity].
      destruct (term_value b) as [vb|]; [|reflexivity]. simpl.
      unfold fold_calc. simpl. f_equal; lia.
  - (* NEG *)
    destruct Har as [[_ Hl]|[[_ [H _]]|[H _]]]; [|discriminate|discriminate].
    eexists. split; [reflexivity|]. split.
    + apply constant_unfold. split; [|exact Hsub]. split; [exact Hts|].
      left. split; [now left|exact Hl].
    + rewrite !const_value_unfold.
      destruct (all_some (map term_value ts)) as [vs|]; [|reflexivity].
      destruct vs as [|v rest]; [reflexivity|]. simpl. f_equal; lia.
  - (* IDENT *)
    destruct Har as [[_ Hl]|[[H _]|[H _]]]; [|discriminate|discriminate].
    destruct ts as [|t [|x rest]]; try discriminate Hl.
    inversion Hts as [|? ? Ht _]; subst. inversion Hsub as [|? ? Hst _]; subst.
    destruct t as [| |n| | | | |c]; try contradiction.
    + eexists. split; [reflexivity|]. split.
      * apply constant_unfold. split; [|repeat constructor].
        split; [repeat constructor|]. left. split; [now left|reflexivity].
      * reflexivity.
    + simpl in Hst. simpl. rewrite (constant_no_float c Hst).
      eexists. split; [reflexivity|].
      destruct (mul_neg1_constant _ Hst) as [_ [_ [H1 H2]]]. split; [exact H1|].
      rewrite H2. now destruct (const_value c).
Qed.

Lemma xform_neg_constant (e : Expr) :
  constant e ->
  exists e1, xform_neg e = Ok e1 /\ constant e1 /\ const_value e1 = const_value e /\
             m_op e1 <> NEG /\ m_op e1 <> SUB.
Proof.
  intros Hc. destruct e as [op ts].
  assert (Hsame : op <> NEG -> op <> SUB ->
                  exists e1, Ok (mkExpr op ts) = Ok e1 /\ constant e1 /\
                             const_value e1 = const_value (mkExpr op ts) /\
                             m_op e1 <> NEG /\ m_op e1 <> SUB).
  { intros Hn Hs. eexists. split; [reflexivity|]. split; [exact Hc|]. now repeat split. }
  pose proof Hc as Hc0.
  apply constant_unfold in Hc. destruct Hc as [[Hts Har] Hsub].
  destruct op; try (apply Hsame; discriminate); clear Hsame.
  - (* SUB *)
    destruct Har as [[H _]|[[_ [_ Hl]]|[H _]]];
      [destruct H as [H|[H|[H|H]]]; discriminate| |discriminate].
    destruct ts as [|a [|b [|x rest]]]; try discriminate Hl.
    inversion Hts as [|? ? Ha Hts']; subst. inversion Hts' as [|? ? Hb _]; subst.
    inversion Hsub as [|? ? Hsa Hsub']; subst. inversion Hsub' as [|? ? Hsb _]; subst.
    assert (Hres : xform_neg (mkExpr SUB [a; b]) =
                   (b' <- negate_term b ;; Ok (mkExpr ADD [a; b']))).
    { destruct b; simpl; try reflexivity. now destruct (xform_neg_helper e). }
    rewrite Hres.
    assert (Ht : exists t', negate_term b = Ok t' /\ const_term t' /\
                            sub_holds constant t' /\
                            term_value t' = option_map Z.opp (term_value b)).
    { destruct b as [| |n| | | | |c]; try contradiction.
      - eexists. split; [reflexivity|]. split; [exact I|]. apply negate_leaf_constant.
      - simpl in *. destruct (xform_neg_helper_constant c Hsb) as [c' [Hc' [Hcc Hcv]]].
        rewrite Hc'.
        eexists. split; [reflexivity|]. split; [exact I|]. split; [exact Hcc|exact Hcv]. }
    destruct Ht as [b' [Hb' [Hct [Hcs Hcv]]]]. rewrite Hb'.
    eexists. split; [reflexivity|]. split; [|split; [|split; discriminate]].
    + apply constant_unfold. split; [|repeat constructor; assumption].
      split; [repeat constructor; assumption|].
      right. right. split; [reflexivity|simpl; lia].
    + rewrite !const_value_unfold. simpl map. rewrite !all_some_cons, Hcv. simpl all_some.
      destruct (term_value a) as [va|]; [|reflexivity].
      destruct (term_value b) as [vb|]; [|reflexivity]. simpl.
      unfold fold_calc. simpl. f_equal; lia.
  - (* NEG *)
    destruct Har as [[_ Hl]|[[_ [H _]]|[H _]]]; [|discriminate|discriminate].
    assert (Hid : constant (mkExpr IDENT ts)).
    { apply constant_unfold. split; [|exact Hsub]. split; [exact Hts|].
      left. split; [now left|exact Hl]. }
    destruct (xform_neg_helper_constant _ Hid) as [c' [Hc' [Hcc Hcv]]].
    exists c'. split; [exact Hc'|]. split; [exact Hcc|]. split.
    + rewrite Hcv, !const_value_unfold.
      destruct (all_some (map term_value ts)) as [vs|]; [|reflexivity].
      destruct vs as [|v rest]; reflexivity.
    + destruct (xform_neg_helper_wf _ (constant_wf _ Hid)) as [c'' [Hc'' [_ Hop]]].
      rewrite Hc' in Hc''. injection Hc'' as <-.
      destruct Hop as [H|[H|H]]; rewrite H; split; discriminate.
Qed.

(** *** One level over folded terms *)

Lemma strip_ident_folded (t : ExprTerm) (v : Z) :
  folded_term t v -> strip_ident t = Ok (INT v).
Proof. intros [->| ->]; reflexivity. Qed.

Lemma repeat_snoc {A : Type} (x : A) (k : nat) : repeat x k ++ [x] = repeat x (S k).
Proof. induction k as [|k IH]; simpl; [reflexivity|]. now rewrite IH. Qed.

Lemma level_scan_folded (op : Op) (ts : list ExprTerm) (vs : list Z) :
  is_nonnum op = false ->
  Forall2 folded_term ts vs ->
  forall acc k,
    level_scan op true ts (INT acc :: repeat NONE k) (Some 0%nat) false =
    match fold_calc op acc vs with
    | Some v => Ok (INT v :: repeat NONE (k + length ts), Some 0%nat, false)
    | None => Fail ZeroDivisionError
    end.
Proof.
  intros Hnum H. induction H as [|t v ts vs Ht _ IH]; intros acc k.
  - simpl. now rewrite Nat.add_0_r.
  - cbn [level_scan]. rewrite (strip_ident_folded t v Ht). cbn [bind same_op_expr orb].
    cbn [int_at nth_error]. cbn [bind]. rewrite fold_calc_cons.
    pose proof (calc_numeric op acc v Hnum) as Hcalc. unfold IntNum in *.
    destruct Hcalc as [[v' Hv]| Hv]; rewrite !Hv; cbn [bind].
    + cbn [set_nth]. rewrite <- app_comm_cons, repeat_snoc, IH.
      cbn [length]. now rewrite Nat.add_succ_r.
    + reflexivity.
Qed.

Lemma erase_folded_repeat (v : Z) (k : nat) :
  erase_folded 0 (INT v :: repeat NONE k) = [INT v].
Proof.
  unfold erase_folded. simpl. f_equal.
  induction k as [|k IH]; simpl; [reflexivity|exact IH].
Qed.

Lemma level_op_folded (simplify_reg_mul : bool) (op : Op) (ts : list ExprTerm)
      (vs : list Z) :
  Forall2 folded_term ts vs ->
  op <> NEG -> op <> SUB ->
  ((op = IDENT \/ op = NEG \/ op = NOT \/ op = LNOT) /\ length ts = 1%nat \/
   (is_nonnum op = false /\ is_unary op = false /\ length ts = 2%nat) \/
   (is_associative op = true /\ (2 <= length ts)%nat)) ->
  level_op true true simplify_reg_mul (mkExpr op ts) =
  match node_value op vs with
  | Some v => Ok (mkExpr IDENT [INT v])
  | None => Fail ZeroDivisionError
  end.
Proof.
  intros Hf Hneg Hsub Har.
  destruct Hf as [|t v ts vs Ht Hf].
  { exfalso. destruct Har as [[_ H]|[[_ [_ H]]|[_ H]]]; simpl in H; lia. }
  destruct (Op_eq_dec op IDENT) as [->|Hid].
  - (* an IDENT wrapper: nothing is folded *)
    destruct Har as [[_ Hl]|[[H _]|[H _]]]; [|discriminate|discriminate].
    destruct ts; [|discriminate]. inversion Hf; subst.
    unfold level_op. cbn [m_op m_terms is_nonnum op_index NONNUM_index Nat.ltb Nat.leb].
    cbn [level_scan]. rewrite (strip_ident_folded t v Ht). reflexivity.
  - assert (Hnum : is_nonnum op = false).
    { destruct Har as [[H _]|[[H _]|[H _]]].
      - destruct H as [H|[H|[H|H]]]; subst; try reflexivity; contradiction.
      - exact H.
      - destruct op; try discriminate H; reflexivity. }
    unfold level_op. cbn [m_op m_terms]. rewrite Hnum.
    cbn [level_scan]. rewrite (strip_ident_folded t v Ht). cbn [bind same_op_expr orb].
    cbn [app length].
    pose proof (level_scan_folded op ts vs Hnum Hf v 0) as Hscan.
    cbn [repeat Nat.add] in Hscan. rewrite Hscan. clear Hscan.
    assert (Hval : node_value op (v :: vs) =
                   if Op_beq op NOT || Op_beq op LNOT
                   then to_option (calc op v None) else fold_calc op v vs).
    { destruct op; try reflexivity; contradiction. }
    rewrite Hval.
    destruct (Op_beq op NOT || Op_beq op LNOT) eqn:Hun.
    + (* NOT, LNOT: one term, computed by simplify_identity *)
      assert (Hl : ts = []).
      { destruct Har as [[_ Hl]|[[_ [H _]]|[H _]]].
        - destruct ts; [reflexivity|discriminate].
        - destruct op; discriminate.
        - destruct op; discriminate. }
      subst ts. inversion Hf; subst. cbn [fold_calc fold_left length repeat].
      destruct op; try discriminate Hun; reflexivity.
    + destruct (fold_calc op v vs) as [v'|]; [|reflexivity].
      cbn [bind]. rewrite erase_folded_repeat.
      destruct op; try discriminate Hun; try reflexivity; contradiction.
Qed.

(** *** The whole tree *)

Lemma mapM_level_folded (n : nat) (simplify_reg_mul : bool) (l : list ExprTerm) :
  Forall const_term l ->
  Forall (sub_holds (fun c =>
            level_tree n true true simplify_reg_mul None c = Fail OutOfFuel \/
            level_tree n true true simplify_reg_mul None c = folded c)) l ->
  mapM (level_child n simplify_reg_mul) l = Fail OutOfFuel \/
  match all_some (map term_value l) with
  | Some vs =>
    exists ts, mapM (level_child n simplify_reg_mul) l = Ok ts /\ Forall2 folded_term ts vs
  | None => mapM (level_child n simplify_reg_mul) l = Fail ZeroDivisionError
  end.
Proof.
  intros Hc H. induction H as [|t l Ht _ IH].
  - right. exists []. split; [reflexivity|constructor].
  - inversion Hc; subst.
    change (mapM (level_child n simplify_reg_mul) (t :: l))
      with (b <- level_child n simplify_reg_mul t ;;
            bs <- mapM (level_child n simplify_reg_mul) l ;; Ok (b :: bs)).
    cbn [map]. rewrite all_some_cons.
    assert (Hhead : (level_child n simplify_reg_mul t = Fail OutOfFuel) \/
                    match term_value t with
                    | Some v => exists t', level_child n simplify_reg_mul t = Ok t' /\
                                           folded_term t' v
                    | None => level_child n simplify_reg_mul t = Fail ZeroDivisionError
                    end).
    { destruct t as [| |m| | | | |c]; try contradiction.
      - right. exists (INT m). split; [reflexivity|now left].
      - simpl in Ht. cbn [level_child term_value]. destruct Ht as [Ht|Ht]; rewrite Ht.
        + now left.
        + right. unfold folded. destruct (const_value c) as [v|].
          * eexists. split; [reflexivity|]. now right.
          * reflexivity. }
    destruct Hhead as [Hh|Hh]; [rewrite Hh; now left|].
    destruct (term_value t) as [v|].
    + destruct Hh as [t' [Ht' Hft]]. rewrite Ht'. cbn [bind].
      destruct (IH H2) as [Hr|Hr]; [rewrite Hr; now left|].
      destruct (all_some (map term_value l)) as [vs|].
      * destruct Hr as [ts [Hts Hfs]]. rewrite Hts. right.
        eexists. split; [reflexivity|]. now constructor.
      * rewrite Hr. now right.
    + rewrite Hh. now right.
Qed.

Lemma level_tree_folds_or_starves (simplify_reg_mul : bool) (n : nat) :
  forall e, constant e ->
            level_tree n true true simplify_reg_mul None e = Fail OutOfFuel \/
            level_tree n true true simplify_reg_mul None e = folded e.
Proof.
  induction n as [|n IH]; intros e Hc; [now left|].
  rewrite level_tree_unfold.
  destruct (xform_neg_constant e Hc) as [[op1 ts1] [He1 [Hc1 [Hv1 [Hneg Hsub]]]]].
  rewrite He1. cbn [bind m_terms m_op]. unfold folded. rewrite <- Hv1.
  apply constant_unfold in Hc1. destruct Hc1 as [[Hts Har] Hch].
  assert (Hall : Forall (sub_holds (fun c =>
                   level_tree n true true simplify_reg_mul None c = Fail OutOfFuel \/
                   level_tree n true true simplify_reg_mul None c = folded c)) ts1).
  { apply Forall_forall. intros t Hin. destruct t; simpl; trivial.
    apply IH. exact (proj1 (Forall_forall _ _) Hch _ Hin). }
  destruct (mapM_level_folded n simplify_reg_mul ts1 Hts Hall) as [Hm|Hm];
    [rewrite Hm; now left|].
  rewrite const_value_unfold.
  destruct (all_some (map term_value ts1)) as [vs|] eqn:Hvs.
  - destruct Hm as [ts [Hm Hf]]. rewrite Hm. cbn [bind]. right.
    assert (Hlen : length ts = length ts1).
    { rewrite (Forall2_length Hf). rewrite (all_some_length _ _ Hvs). apply length_map. }
    assert (Hseg : seg_of_segoff (mkExpr op1 ts) = Ok (mkExpr op1 ts)).
    { unfold seg_of_segoff. simpl m_op.
      destruct op1; try reflexivity.
      destruct Har as [[H _]|[[H _]|[H _]]]; try discriminate.
      destruct H as [H|[H|[H|H]]]; discriminate. }
    rewrite Hseg. cbn [bind]. simpl in Hneg, Hsub.
    apply level_op_folded; try assumption. now rewrite Hlen.
  - rewrite Hm. now right.
Qed.

(** X13.  A constant expression (integer leaves under numeric operators, with as
    many terms as the constructors allow) levels to a single integer: with
    constant folding and identity simplification enabled, [level_tree] returns
    IDENT of the value obtained by applying [calc] from left to right, so that
    [get_intnum] gives that value; it throws on a division by zero, and in no
    other case. *)
Theorem level_tree_folds_constants (simplify_reg_mul : bool) (e : Expr) :
  constant e ->
  match const_value e with
  | Some v =>
    level_tree (level_fuel e) true true simplify_reg_mul None e = Ok (mkExpr IDENT [INT v]) /\
    get_intnum (mkExpr IDENT [INT v]) = Ok (Some v)
  | None =>
    level_tree (level_fuel e) true true simplify_reg_mul None e = Fail ZeroDivisionError
  end.
Proof.
  intros Hc.
  pose proof (proj1 (level_tree_enough_fuel simplify_reg_mul e (constant_wf e Hc))
                    (level_fuel e) (Nat.le_refl _)) as Hfuel.
  unfold levels_within in Hfuel.
  destruct (level_tree_folds_or_starves simplify_reg_mul (level_fuel e) e Hc) as [H|H].
  - rewrite H in Hfuel. discriminate Hfuel.
  - rewrite H. unfold folded. destruct (const_value e) as [v|]; [|reflexivity].
    split; reflexivity.
Qed.

Lemma level_tree_folds_constants_witness :
  level_tree 6 true true true None
             (mkExpr ADD [INT 1; EXPR (mkExpr ADD [INT 2; EXPR (mkExpr ADD [INT 3; INT 4])])])
  = Ok (mkExpr IDENT [INT 10]).
Proof.
  assert (Hc : constant (mkExpr ADD [INT 1; EXPR (mkExpr ADD [INT 2;
                                       EXPR (mkExpr ADD [INT 3; INT 4])])])).
  { assert (Hn : forall a b, const_term a -> const_term b -> const_node ADD [a; b]).
    { intros a b Ha Hb. split; [repeat constructor; assumption|].
      right. right. split; [reflexivity|simpl; lia]. }
    assert (Hadd : forall a b, const_term a -> const_term b ->
                               sub_holds constant a -> sub_holds constant b ->
                               constant (mkExpr ADD [a; b])).
    { intros a b Ha Hb Hsa Hsb. apply constant_unfold. split; [now apply Hn|].
      apply Forall_cons; [exact Hsa|]. apply Forall_cons; [exact Hsb|apply Forall_nil]. }
    apply Hadd; try exact I. cbn [sub_holds].
    apply Hadd; try exact I. cbn [sub_holds].
    apply Hadd; exact I. }
  exact (proj1 (level_tree_folds_constants true _ Hc)).
Defined.

(** ** Symbol resolution: the cache and forced identifiers *)

Section ParseSymbolCache.

Context {Object Symbol : Type}.

Variable getSymbol : string -> Object -> option Symbol * Object.

Variable FindSpecialSymbol : string -> Object -> option Symbol.

Let ParseSymbol := Nasm.ParseSymbol getSymbol FindSpecialSymbol.

(** X14.  [ParseSymbol] caches every lookup that is not one of a local label: the
    identifier then holds the returned symbol, and resolving it again returns
    that symbol without a lookup, whatever the parser state, so it can no
    longer become a local label.  A local label is never cached: its
    identifier is left as it was, to be resolved against the label base of the
    moment. *)
Theorem ParseSymbol_caches_nonlocal
        (ii : Nasm.IdentifierInfo Symbol) (p : Nasm.NasmParser Object Symbol) :
  let r := ParseSymbol ii p in
  Nasm.ii_name (Nasm.ps_ii r) = Nasm.ii_name ii /\
  (Nasm.ps_local r = false ->
   Nasm.ii_symbol (Nasm.ps_ii r) = Some (Nasm.ps_sym r) /\
   forall p', ParseSymbol (Nasm.ps_ii r) p' =
              Nasm.mkParsed (Nasm.ps_sym r) false (Nasm.ps_ii r) p') /\
  (Nasm.ps_local r = true ->
   Nasm.ps_ii r = ii /\ Nasm.ii_symbol ii = None).
Proof.
  unfold ParseSymbol, Nasm.ParseSymbol. destruct ii as [name cached].
  cbn [Nasm.ii_symbol Nasm.ii_name].
  destruct cached as [s|]; [cbn; repeat split; discriminate|].
  repeat match goal with
         | |- context [if ?b then _ else _] => destruct b
         | |- context [getSymbol ?n ?o] => destruct (getSymbol n o)
         end; cbn; repeat split; try discriminate; reflexivity.
Qed.

(** X15.  A name with a leading '$' (a forced identifier) is looked up without the
    '$': when what follows does not start with '.', it is an ordinary
    non-local symbol looked up under the rest of the name, and cached.  The
    tests on the length still count the '$': "$." is a local label (the bare
    "." is not), and "$.." is the special symbol with the empty name. *)
Theorem ParseSymbol_forced_identifier
        (rest : string) (p : Nasm.NasmParser Object Symbol) :
  let resolve name := ParseSymbol (Nasm.mkII name None) p in
  ((forall rest', rest <> String "." rest') ->
   Nasm.ps_sym (resolve (String "$" rest)) = fst (getSymbol rest (Nasm.m_object p)) /\
   Nasm.ps_local (resolve (String "$" rest)) = false /\
   Nasm.ii_symbol (Nasm.ps_ii (resolve (String "$" rest))) =
     Some (fst (getSymbol rest (Nasm.m_object p)))) /\
  (Nasm.ps_sym (resolve "$."%string) =
     fst (getSymbol (Nasm.m_locallabel_base p ++ ".")%string (Nasm.m_object p)) /\
   Nasm.ps_local (resolve "$."%string) = true) /\
  Nasm.ps_sym (resolve "$.."%string) = FindSpecialSymbol EmptyString (Nasm.m_object p).
Proof.
  cbv zeta. split; [|split].
  - intros Hrest. unfold ParseSymbol, Nasm.ParseSymbol.
    cbn [Nasm.ii_symbol Nasm.ii_name]. cbn [Nasm.char_at String.get].
    rewrite Ascii.eqb_refl. rewrite advance_1.
    assert (Hdot : Ascii.eqb (Nasm.char_at rest 0) "." = false).
    { destruct rest as [|c rest']; [reflexivity|]. cbn.
      destruct (Ascii.eqb_spec c "."); [subst; now elim (Hrest rest')|reflexivity]. }
    rewrite Hdot, andb_false_r.
    destruct (getSymbol rest (Nasm.m_object p)); cbn. repeat split.
  - unfold ParseSymbol, Nasm.ParseSymbol. cbn -[String.append].
    assert (Hobj : Nasm.m_object
                     (if Nat.eqb (String.length (Nasm.m_locallabel_base p)) 0
                      then Nasm.Diag Nasm.warn_no_nonlocal p else p) = Nasm.m_object p).
    { now destruct (Nat.eqb _ _). }
    rewrite Hobj. now destruct (getSymbol _ _).
  - reflexivity.
Qed.

End ParseSymbolCache.

Lemma ParseSymbol_caches_nonlocal_witness :
  let r := Nasm.ParseSymbol TableObject.getSymbol TableObject.FindSpecialSymbol
                            (Nasm.mkII "loop"%string None) (TableObject.parser "main"%string) in
  Nasm.ParseSymbol TableObject.getSymbol TableObject.FindSpecialSymbol (Nasm.ps_ii r)
                   (TableObject.parser "other"%string) =
  Nasm.mkParsed (Some (false, "loop"%string)) false (Nasm.ps_ii r)
                (TableObject.parser "other"%string).
Proof.
  cbv zeta.
  exact (proj2 (proj1 (proj2 (ParseSymbol_caches_nonlocal
                                TableObject.getSymbol TableObject.FindSpecialSymbol
                                (Nasm.mkII "loop"%string None)
                                (TableObject.parser "main"%string))) eq_refl)
               (TableObject.parser "other"%string)).
Defined.

Lemma ParseSymbol_forced_identifier_witness :
  Nasm.ps_sym (Nasm.ParseSymbol TableObject.getSymbol TableObject.FindSpecialSymbol
                                (Nasm.mkII "$eax"%string None)
                                (TableObject.parser "main"%string)) =
  Some (false, "eax"%string).
Proof.
  refine (proj1 (proj1 (ParseSymbol_forced_identifier
                          TableObject.getSymbol TableObject.FindSpecialSymbol
                          "eax"%string (TableObject.parser "main"%string)) _)).
  intros rest' [=].
Defined.

(** ** Keywords and pseudo-instructions *)

(** Case analysis on the comparisons of one character of the name. *)
Ltac split_on c :=
  repeat match goal with
         | |- context [Ascii.eqb c ?k] =>
           destruct (Ascii.eqb_spec c k) as [?|?]; [subst c; cbn|cbn]
         end.

Lemma keyword_of_name_spelled (name : string) :
  NasmKeywords.keyword_of_name name = keyword_spelled name.
Proof.
  unfold NasmKeywords.keyword_of_name, NasmKeywords.word_suffix, NasmKeywords.is_char,
    keyword_spelled, keyword_spellings, spelled.
  destruct name as [|c0 [|c1 [|c2 [|c3 [|c4 [|c5 [|c6 [|c7 rest]]]]]]]];
    cbn;
    try (split_on c0); try (split_on c1); try (split_on c2); try (split_on c3);
    try (split_on c4); try (split_on c5); try (split_on c6); try (split_on c7);
    reflexivity.
Qed.

Lemma pseudo_of_name_spelled (name : string) :
  no_nul name = true ->
  NasmKeywords.pseudo_of_name name = pseudo_spelled name.
Proof.
  unfold NasmKeywords.pseudo_of_name, NasmKeywords.size_lookup, NasmKeywords.is_char,
    pseudo_spelled, pseudo_spellings, size_suffixes, spelled, Nasm.char_at.
  destruct name as [|c0 [|c1 [|c2 [|c3 [|c4 [|c5 [|c6 rest]]]]]]];
    cbn; unfold Ascii.zero; cbn;
    try (split_on c0); try (split_on c1); try (split_on c2); try (split_on c3);
    try (split_on c4); try (split_on c5); try (split_on c6);
    intros; try discriminate; try reflexivity; congruence.
Qed.

(** The size suffix is matched as written: "db" and "Db" declare bytes, "DB"
    and "dB" are no pseudo-instructions. *)
Lemma pseudo_suffix_is_case_sensitive :
  NasmKeywords.pseudo_of_name "Db" = Some (NasmKeywords.m_data_insns NasmKeywords.DB) /\
  NasmKeywords.pseudo_of_name "DB" = None /\
  NasmKeywords.pseudo_of_name "dB" = None.
Proof. repeat split. Qed.

Section KeywordFacts.

Context {IdentifierInfo Token : Type}.

Variable isUnknown : IdentifierInfo -> bool.

Variable getName : IdentifierInfo -> string.

Variable setCustom : NasmKeywords.PseudoInsnRef -> IdentifierInfo -> IdentifierInfo.

Variable setTokenKind : NasmKeywords.TokenKind -> IdentifierInfo -> IdentifierInfo.

Variable setKind : NasmKeywords.TokenKind -> Token -> Token.

(** X16.  [CheckKeyword] leaves an identifier that is not unknown alone and returns
    false.  For an unknown identifier it returns true, and sets the kind of
    the identifier and of the current token, exactly when the name is, in
    any mix of upper and lower case, one of abs, byte, dword, dqword, hword,
    long, nosplit, oword, qword, rel, seg, strict, times, tword, wrt, word,
    yword, or one of "sword" and "simes", which it takes for tword and
    times. *)
Theorem CheckKeyword_recognises (ii : IdentifierInfo) (m_token : Token) :
  NasmKeywords.CheckKeyword isUnknown getName setTokenKind setKind ii m_token =
  if isUnknown ii
  then match keyword_spelled (getName ii) with
       | Some kind => (true, setTokenKind kind ii, setKind kind m_token)
       | None => (false, ii, m_token)
       end
  else (false, ii, m_token).
Proof.
  unfold NasmKeywords.CheckKeyword. rewrite keyword_of_name_spelled.
  now destruct (isUnknown ii).
Qed.

(** X17.  [CheckPseudoInsn] leaves an identifier that is not unknown alone.  An
    unknown identifier (whose name holds no NUL) gets its pseudo-instruction
    exactly when the name is "equ" or "incbin" in any mix of case, or "d" or
    "res" in any mix of case followed by one of the size suffixes b, hw, w, d,
    dq, q, t, o, y in lower case ("dq" standing for "o"); every other name is
    left alone. *)
Theorem CheckPseudoInsn_recognises (ii : IdentifierInfo) :
  no_nul (getName ii) = true ->
  NasmKeywords.CheckPseudoInsn isUnknown getName setCustom ii =
  if isUnknown ii
  then match pseudo_spelled (getName ii) with
       | Some pseudo => setCustom pseudo ii
       | None => ii
       end
  else ii.
Proof.
  intros Hn. unfold NasmKeywords.CheckPseudoInsn. rewrite (pseudo_of_name_spelled _ Hn).
  now destruct (isUnknown ii).
Qed.

End KeywordFacts.

Lemma CheckKeyword_recognises_witness :
  NasmKeywords.CheckKeyword (fun _ : string => true) (fun ii => ii)
                            (fun _ ii => ii) (fun kind _ => kind)
                            "SWord"%string NasmKeywords.identifier =
  (true, "SWord"%string, NasmKeywords.kw_tword).
Proof.
  exact (CheckKeyword_recognises (fun _ : string => true) (fun ii => ii)
                                 (fun _ ii => ii) (fun kind _ => kind)
                                 "SWord"%string NasmKeywords.identifier).
Defined.

Lemma CheckPseudoInsn_recognises_witness :
  NasmKeywords.CheckPseudoInsn (fun ii : string * option NasmKeywords.PseudoInsnRef => true)
                               fst (fun pseudo ii => (fst ii, Some pseudo))
                               ("ResDQ"%string, None) = ("ResDQ"%string, None) /\
  NasmKeywords.CheckPseudoInsn (fun ii : string * option NasmKeywords.PseudoInsnRef => true)
                               fst (fun pseudo ii => (fst ii, Some pseudo))
                               ("RESdq"%string, None) =
  ("RESdq"%string, Some (NasmKeywords.m_reserve_insns NasmKeywords.DO)).
Proof.
  split.
  - exact (CheckPseudoInsn_recognises
             (fun ii : string * option NasmKeywords.PseudoInsnRef => true)
             fst (fun pseudo ii => (fst ii, Some pseudo)) ("ResDQ"%string, None) eq_refl).
  - exact (CheckPseudoInsn_recognises
             (fun ii : string * option NasmKeywords.PseudoInsnRef => true)
             fst (fun pseudo ii => (fst ii, Some pseudo)) ("RESdq"%string, None) eq_refl).
Defined.

(** ** The preprocessor expression evaluator *)

Lemma stack_depth_app {Symbol : Type} (a b : Nasm.Expr Symbol) (d : nat) :
  stack_depth (a ++ b) d =
  match stack_depth a d with
  | Some d' => stack_depth b d'
  | None => None
  end.
Proof.
  revert d. induction a as [|x a IH]; intros d; [reflexivity|].
  destruct x as [n|s|op nchild]; cbn [app stack_depth]; try apply IH.
  destruct (Nat.leb 1 nchild && Nat.leb nchild d); [apply IH|reflexivity].
Qed.

Lemma stack_depth_frame {Symbol : Type} (a : Nasm.Expr Symbol) (d k x : nat) :
  stack_depth a d = Some k -> stack_depth a (d + x) = Some (k + x)%nat.
Proof.
  revert d. induction a as [|y a IH]; intros d; cbn [stack_depth].
  - now intros [= <-].
  - destruct y as [n|s|op nchild]; try (intros H; exact (IH (S d) H)).
    destruct (Nat.leb_spec 1 nchild) as [H1|H1]; [|discriminate].
    destruct (Nat.leb_spec nchild d) as [H2|H2]; [|discriminate]. cbn [andb].
    destruct (Nat.leb_spec nchild (d + x)) as [H3|H3]; [|lia].
    intros H. replace (S (d + x - nchild)) with (S (d - nchild) + x)%nat by lia.
    now apply IH.
Qed.

Lemma postfix_push {Symbol : Type} (e f : Nasm.Expr Symbol) (k : nat) :
  stack_depth e 0 = Some k -> postfix f -> stack_depth (e ++ f) 0 = Some (S k).
Proof.
  intros He Hf. rewrite stack_depth_app, He.
  exact (stack_depth_frame f 0 1 k Hf).
Qed.

Lemma postfix_Calc {Symbol : Type} (op : Op) (e f : Nasm.Expr Symbol) :
  postfix e -> postfix f -> postfix (Nasm.Calc op e f).
Proof.
  intros He Hf. unfold postfix, Nasm.Calc, Nasm.AppendOp, Nasm.Append.
  rewrite stack_depth_app, (postfix_push e f 1 He Hf). reflexivity.
Qed.

Lemma postfix_Calc1 {Symbol : Type} (op : Op) (e : Nasm.Expr Symbol) :
  postfix e -> postfix (Nasm.Calc1 op e).
Proof.
  intros He. unfold postfix, Nasm.Calc1, Nasm.AppendOp.
  rewrite stack_depth_app, He. reflexivity.
Qed.

Lemma postfix_COND {Symbol : Type} (e f f2 : Nasm.Expr Symbol) :
  postfix e -> postfix f -> postfix f2 ->
  postfix (Nasm.AppendOp Symbol (Nasm.Append Symbol (Nasm.Append Symbol e f) f2) COND 3).
Proof.
  intros He Hf Hf2. unfold postfix, Nasm.AppendOp, Nasm.Append.
  rewrite stack_depth_app.
  rewrite (postfix_push (e ++ f) f2 2 (postfix_push e f 1 He Hf) Hf2). reflexivity.
Qed.

Section EvaluatorFacts.

Context {Object Symbol Private : Type}.

Variable getSymbol : string -> Object -> option Symbol * Object.

Variable scan : Private -> Nasm.tokenval -> Nasm.token * Nasm.tokenval * Private.

Variable curly_evaluator :
  Nasm.EvalState Object Symbol Private ->
  Z * Private * Nasm.tokenval * Nasm.EvalState Object Symbol Private.

Variable ppdir_evaluator :
  Nasm.EvalState Object Symbol Private -> Z * Nasm.EvalState Object Symbol Private.

Let reports := @reports Object Symbol Private curly_evaluator ppdir_evaluator.

Let sound := @reports_and_builds Object Symbol Private curly_evaluator ppdir_evaluator.

Lemma reports_none (st : Nasm.EvalState Object Symbol Private) : reports st st true.
Proof. intros _. exists []. split; [now rewrite app_nil_r|discriminate]. Qed.

Lemma reports_step (st st1 st2 : Nasm.EvalState Object Symbol Private) (ok1 ok : bool) :
  reports st st1 ok1 -> reports st1 st2 ok -> reports st st2 ok.
Proof.
  intros H1 H2 Hq. destruct (H1 Hq) as [l1 [Hl1 _]]. destruct (H2 Hq) as [l2 [Hl2 Hf2]].
  exists (l1 ++ l2). split; [now rewrite Hl2, Hl1, app_assoc|].
  intros Hok. destruct (Hf2 Hok) as [Hne|Hev]; [left|now right].
  intros Happ. apply app_eq_nil in Happ. now destruct Happ.
Qed.

Lemma reports_from_scan (st st' : Nasm.EvalState Object Symbol Private) (ok : bool) :
  reports (Nasm.do_scan scan st) st' ok -> reports st st' ok.
Proof. intros H Hq. destruct (H Hq) as [l Hl]. rewrite errors_do_scan in Hl. now exists l. Qed.

Lemma reports_to_scan (st st' : Nasm.EvalState Object Symbol Private) (ok : bool) :
  reports st st' ok -> reports st (Nasm.do_scan scan st') ok.
Proof. intros H Hq. destruct (H Hq) as [l Hl]. rewrite errors_do_scan. now exists l. Qed.

Lemma reports_error (st st1 : Nasm.EvalState Object Symbol Private) (ok1 ok : bool)
      (sev : Nasm.severity) (fmt : string) (args : list string) :
  reports st st1 ok1 -> reports st (Nasm.error sev fmt args st1) ok.
Proof.
  intros H Hq. destruct (H Hq) as [l [Hl _]].
  exists (l ++ [Nasm.mkError sev fmt args]). split.
  - cbn [Nasm.error Nasm.errors]. now rewrite Hl, app_assoc.
  - intros _. left. intros Happ. apply app_eq_nil in Happ.
    destruct Happ as [_ Happ]. discriminate.
Qed.

Lemma binary_loop_sound (ops : Nasm.token -> option Op)
      (sub : NasmEval.parser Object Symbol Private) :
  sound sub ->
  forall fuel e st ok e' st',
    postfix e ->
    NasmEval.binary_loop scan ops sub fuel e st = Ok (ok, e', st') ->
    reports st st' ok /\ (ok = true -> postfix e').
Proof.
  intros Hsub fuel. induction fuel as [|fuel IH]; intros e st ok e' st' He H.
  - simpl in H. destruct (ops (Nasm.i st)); [discriminate|].
    injection H as <- <- <-. split; [apply reports_none|trivial].
  - cbn [NasmEval.binary_loop] in H. destruct (ops (Nasm.i st)) as [op|].
    + destruct (sub [] (Nasm.do_scan scan st)) as [[[ok1 f] st1]|err] eqn:Hs;
        [|discriminate]. cbn [bind] in H.
      destruct (Hsub _ _ _ _ _ Hs) as [Hr1 Hp1]. apply reports_from_scan in Hr1.
      destruct ok1.
      * destruct (IH _ _ _ _ _ (postfix_Calc op e f He (Hp1 eq_refl)) H) as [Hr2 Hp2].
        split; [exact (reports_step _ _ _ _ _ Hr1 Hr2)|exact Hp2].
      * injection H as <- <- <-. split; [exact Hr1|discriminate].
    + injection H as <- <- <-. split; [apply reports_none|trivial].
Qed.

Lemma binary_level_sound (ops : Nasm.token -> option Op)
      (sub : NasmEval.parser Object Symbol Private) (fuel : nat) :
  sound sub -> sound (NasmEval.binary_level scan ops sub fuel).
Proof.
  intros Hsub e st ok e' st' H. unfold NasmEval.binary_level in H.
  destruct (sub e st) as [[[ok1 e1] st1]|err] eqn:Hs; [|discriminate]. cbn [bind] in H.
  destruct (Hsub _ _ _ _ _ Hs) as [Hr1 Hp1].
  destruct ok1.
  - destruct (binary_loop_sound ops sub Hsub _ _ _ _ _ _ (Hp1 eq_refl) H) as [Hr2 Hp2].
    split; [exact (reports_step _ _ _ _ _ Hr1 Hr2)|exact Hp2].
  - injection H as <- <- <-. split; [exact Hr1|discriminate].
Qed.

Lemma ternary_loop_sound (rexp1 : NasmEval.parser Object Symbol Private) :
  sound rexp1 ->
  forall fuel e st ok e' st',
    postfix e ->
    NasmEval.ternary_loop scan rexp1 fuel e st = Ok (ok, e', st') ->
    reports st st' ok /\ (ok = true -> postfix e').
Proof.
  intros Hsub fuel. induction fuel as [|fuel IH]; intros e st ok e' st' He H.
  - simpl in H. destruct (Nasm.i st); try discriminate;
      injection H as <- <- <-; (split; [apply reports_none|trivial]).
  - cbn [NasmEval.ternary_loop] in H.
    assert (Hstop : Ok (true, e, st) = Ok (ok, e', st') ->
                    reports st st' ok /\ (ok = true -> postfix e')).
    { intros [= <- <- <-]. split; [apply reports_none|trivial]. }
    destruct (Nasm.i st); try (exact (Hstop H)). clear Hstop.
    destruct (rexp1 [] (Nasm.do_scan scan st)) as [[[ok1 f] st1]|err] eqn:Hs;
      [|discriminate]. cbn [bind] in H.
    destruct (Hsub _ _ _ _ _ Hs) as [Hr1 Hp1]. apply reports_from_scan in Hr1.
    destruct ok1; cbn [negb] in H.
    + assert (Hcolon :
                Ok (false, e, Nasm.error Nasm.ERR_FATAL "expecting `:'" [] st1) =
                Ok (ok, e', st') ->
                reports st st' ok /\ (ok = true -> postfix e')).
      { intros [= <- <- <-]. split; [|discriminate].
        exact (reports_error _ _ _ _ _ _ _ Hr1). }
      destruct (Nasm.i st1) as [c| | | | | | | | | | | | | | | | | | | | | | |];
        try (exact (Hcolon H)).
      destruct (Ascii.eqb_spec c ":") as [->|Hc].
      * clear Hcolon.
        destruct (rexp1 [] (Nasm.do_scan scan st1)) as [[[ok2 f2] st2]|err] eqn:Hs2;
          [|discriminate]. cbn [bind] in H.
        destruct (Hsub _ _ _ _ _ Hs2) as [Hr2 Hp2]. apply reports_from_scan in Hr2.
        pose proof (reports_step _ _ _ _ _ Hr1 Hr2) as Hr12.
        destruct ok2; cbn [negb] in H.
        -- destruct (IH _ _ _ _ _ (postfix_COND e f f2 He (Hp1 eq_refl) (Hp2 eq_refl)) H)
             as [Hr3 Hp3].
           split; [exact (reports_step _ _ _ _ _ Hr12 Hr3)|exact Hp3].
        -- injection H as <- <- <-. split; [exact Hr12|discriminate].
      * apply Hcolon. revert H. clear -Hc.
        destruct c as [[] [] [] [] [] [] [] []]; try (intros H; exact H).
        now elim Hc.
    + injection H as <- <- <-. split; [exact Hr1|discriminate].
Qed.

Lemma bexpr_over_sound (expr6 : NasmEval.parser Object Symbol Private) (fuel : nat) :
  sound expr6 -> sound (NasmEval.bexpr_over scan expr6 fuel).
Proof.
  intros H6.
  assert (H0 : sound (NasmEval.expr0_over scan expr6 fuel)).
  { repeat apply binary_level_sound. exact H6. }
  assert (H1 : sound (NasmEval.rexp1_over scan expr6 fuel)).
  { repeat apply binary_level_sound. exact H6. }
  assert (Hr0 : sound (NasmEval.rexp0_over scan expr6 fuel)).
  { apply binary_level_sound. exact H1. }
  intros e st ok e' st' H. unfold NasmEval.bexpr_over in H.
  destruct (Nasm.bexpr st); [|exact (H0 _ _ _ _ _ H)].
  unfold NasmEval.rexpc_over in H.
  destruct (NasmEval.rexp0_over scan expr6 fuel e st)
    as [[[ok1 e1] st1]|err] eqn:Hs; [|discriminate]. cbn [bind] in H.
  destruct (Hr0 _ _ _ _ _ Hs) as [Hr1 Hp1].
  destruct ok1.
  - destruct (ternary_loop_sound _ H1 _ _ _ _ _ _ (Hp1 eq_refl) H) as [Hr2 Hp2].
    split; [exact (reports_step _ _ _ _ _ Hr1 Hr2)|exact Hp2].
  - injection H as <- <- <-. split; [exact Hr1|discriminate].
Qed.

Lemma expr6_sound (fuel : nat) :
  sound (NasmEval.expr6 getSymbol scan curly_evaluator ppdir_evaluator fuel).
Proof.
  induction fuel as [|fuel IH]; intros e st ok e' st' H; [discriminate|].
  pose proof (bexpr_over_sound _ fuel IH) as Hb.
  cbn [NasmEval.expr6] in H.
  set (goal := reports st st' ok /\ (ok = true -> postfix e')).
  assert (Hdefault :
            Ok (false, e, Nasm.error Nasm.ERR_NONFATAL "expression syntax error" [] st) =
            Ok (ok, e', st') -> goal).
  { intros [= <- <- <-]. split; [|discriminate].
    exact (reports_error _ _ _ _ _ _ _ (reports_none st)). }
  assert (Hplus :
            NasmEval.expr6 getSymbol scan curly_evaluator ppdir_evaluator fuel e
                           (Nasm.do_scan scan st) = Ok (ok, e', st') -> goal).
  { intros Hs. destruct (IH _ _ _ _ _ Hs) as [Hr Hp].
    split; [exact (reports_from_scan _ _ _ Hr)|exact Hp]. }
  assert (Hunary : forall op,
            ('(ok1, e1, st1) <-
               NasmEval.expr6 getSymbol scan curly_evaluator ppdir_evaluator fuel e
                              (Nasm.do_scan scan st) ;;
             if ok1 then Ok (true, Nasm.Calc1 op e1, st1) else Ok (false, e1, st1)) =
            Ok (ok, e', st') -> goal).
  { intros op Hu.
    destruct (NasmEval.expr6 getSymbol scan curly_evaluator ppdir_evaluator fuel e
                             (Nasm.do_scan scan st)) as [[[ok1 e1] st1]|err] eqn:Hs;
      [|discriminate]. cbn [bind] in Hu.
    destruct (IH _ _ _ _ _ Hs) as [Hr Hp]. apply reports_from_scan in Hr.
    destruct ok1; injection Hu as <- <- <-.
    - split; [exact Hr|]. intros _. apply postfix_Calc1. now apply Hp.
    - split; [exact Hr|discriminate]. }
  assert (Hseg :
            ('(ok1, e1, st1) <-
               NasmEval.expr6 getSymbol scan curly_evaluator ppdir_evaluator fuel e
                              (Nasm.do_scan scan st) ;;
             if ok1
             then Ok (true, e1,
                      Nasm.error Nasm.ERR_NONFATAL "%s not supported" ["SEG"%string] st1)
             else Ok (false, e1, st1)) =
            Ok (ok, e', st') -> goal).
  { intros Hu.
    destruct (NasmEval.expr6 getSymbol scan curly_evaluator ppdir_evaluator fuel e
                             (Nasm.do_scan scan st)) as [[[ok1 e1] st1]|err] eqn:Hs;
      [|discriminate]. cbn [bind] in Hu.
    destruct (IH _ _ _ _ _ Hs) as [Hr Hp]. apply reports_from_scan in Hr.
    destruct ok1; injection Hu as <- <- <-.
    - split; [exact (reports_error _ _ _ _ _ _ _ Hr)|exact Hp].
    - split; [exact Hr|discriminate]. }
  assert (Hparen :
            ('(ok1, e1, st1) <-
               NasmEval.bexpr_over scan
                 (NasmEval.expr6 getSymbol scan curly_evaluator ppdir_evaluator fuel)
                 fuel e (Nasm.do_scan scan st) ;;
             if negb ok1 then Ok (false, e1, st1)
             else
               match Nasm.i st1 with
               | Nasm.TOKEN_CHAR ")" => Ok (true, e1, Nasm.do_scan scan st1)
               | _ => Ok (false, e1, Nasm.error Nasm.ERR_NONFATAL "expecting `)'" [] st1)
               end) =
            Ok (ok, e', st') -> goal).
  { intros Hu.
    destruct (NasmEval.bexpr_over scan _ fuel e (Nasm.do_scan scan st))
      as [[[ok1 e1] st1]|err] eqn:Hs; [|discriminate]. cbn [bind] in Hu.
    destruct (Hb _ _ _ _ _ Hs) as [Hr Hp]. apply reports_from_scan in Hr.
    destruct ok1; cbn [negb] in Hu.
    - assert (Hmiss :
                Ok (false, e1, Nasm.error Nasm.ERR_NONFATAL "expecting `)'" [] st1) =
                Ok (ok, e', st') -> goal).
      { intros [= <- <- <-]. split; [|discriminate].
        exact (reports_error _ _ _ _ _ _ _ Hr). }
      destruct (Nasm.i st1) as [c| | | | | | | | | | | | | | | | | | | | | | |];
        try (exact (Hmiss Hu)).
      destruct (Ascii.eqb_spec c ")") as [->|Hc].
      + injection Hu as <- <- <-. split; [|exact Hp].
        exact (reports_to_scan _ _ _ Hr).
      + apply Hmiss. revert Hu. clear -Hc.
        destruct c as [[] [] [] [] [] [] [] []]; try (intros H; exact H).
        now elim Hc.
    - injection Hu as <- <- <-. split; [exact Hr|discriminate]. }
  assert (Hcurly :
            (let '(j, saved_priv, saved_tok, st1) := curly_evaluator st in
             let st2 := Nasm.with_tokval saved_tok (Nasm.with_private saved_priv st1) in
             if j =? -1 then Ok (false, e, st2)
             else Ok (true, Nasm.Expr_int j, Nasm.do_scan scan st2)) =
            Ok (ok, e', st') -> goal).
  { intros Hu. cbv zeta in Hu.
    destruct (curly_evaluator st) as [[[j priv] tok] st1] eqn:He.
    assert (Hst2 : forall b,
               (b = false -> j = -1) ->
               reports st (Nasm.with_tokval tok (Nasm.with_private priv st1)) b).
    { intros b Hb1 Hq. destruct (proj1 Hq st) as [l Hl]. rewrite He in Hl.
      exists l. split; [exact Hl|]. intros Hbf. right. exists st. left.
      rewrite He. now apply Hb1. }
    destruct (Z.eqb_spec j (-1)) as [->|Hj]; injection Hu as <- <- <-.
    - split; [|discriminate]. now apply Hst2.
    - split; [|reflexivity]. apply reports_to_scan. apply Hst2. discriminate. }
  assert (Hppdir :
            (let '(j, st1) := ppdir_evaluator st in
             if j =? -1 then Ok (false, e, st1)
             else Ok (true, Nasm.Expr_int j, Nasm.do_scan scan st1)) =
            Ok (ok, e', st') -> goal).
  { intros Hu. destruct (ppdir_evaluator st) as [j st1] eqn:He.
    assert (Hst1 : forall b, (b = false -> j = -1) -> reports st st1 b).
    { intros b Hb1 Hq. destruct (proj2 Hq st) as [l Hl]. rewrite He in Hl.
      exists l. split; [exact Hl|]. intros Hbf. right. exists st. right.
      rewrite He. now apply Hb1. }
    destruct (Z.eqb_spec j (-1)) as [->|Hj]; injection Hu as <- <- <-.
    - split; [|discriminate]. now apply Hst1.
    - split; [|reflexivity]. apply reports_to_scan. apply Hst1. discriminate. }
  assert (Hleaf : forall (v : Nasm.Expr Symbol) st1 l,
            Nasm.errors st1 = Nasm.errors st ++ l -> postfix v ->
            Ok (true, v, Nasm.do_scan scan st1) = Ok (ok, e', st') -> goal).
  { intros v st1 l Hl Hv [= <- <- <-]. split; [|intros _; exact Hv].
    intros _. exists l. rewrite errors_do_scan. split; [exact Hl|discriminate]. }
  destruct (Nasm.i st) as [c| | | | | | | | | | | | | | | | | | | | | | |];
    try (exact (Hdefault H)).
  - destruct c as [[] [] [] [] [] [] [] []];
      first [exact (Hdefault H) | exact (Hplus H) | exact (Hparen H)
            | exact (Hunary NEG H) | exact (Hunary NOT H) | exact (Hunary LNOT H)
            | exact (Hcurly H)].
  - (* TOKEN_ID *)
    destruct (Nasm.yasm_object st) as [o|].
    + destruct (getSymbol (Nasm.t_charptr (Nasm.tokval st)) o) as [[s|] o'].
      * refine (Hleaf _ _ [] _ _ H); [now rewrite app_nil_r|reflexivity].
      * refine (Hleaf _ _ _ _ _ H); [reflexivity|reflexivity].
    + refine (Hleaf _ _ _ _ _ H); [reflexivity|reflexivity].
  - (* TOKEN_NUM *)
    refine (Hleaf _ _ [] _ _ H); [now rewrite app_nil_r|reflexivity].
  - (* TOKEN_HERE *)
    refine (Hleaf _ _ _ _ _ H); [reflexivity|reflexivity].
  - (* TOKEN_BASE *)
    refine (Hleaf _ _ _ _ _ H); [reflexivity|reflexivity].
  - (* TOKEN_SEG *)
    exact (Hseg H).
  - (* TOKEN_PPDIR *)
    exact (Hppdir H).
Qed.

Lemma nasm_evaluate_sound (scprivate : Private) (tv : Nasm.tokenval) (critical : bool)
      (fuel : nat) (st : Nasm.EvalState Object Symbol Private)
      (r : option (Nasm.Expr Symbol)) (st' : Nasm.EvalState Object Symbol Private) :
  NasmEval.nasm_evaluate getSymbol scan curly_evaluator ppdir_evaluator
                         scprivate tv critical fuel st = Ok (r, st') ->
  reports st st' (match r with Some _ => true | None => false end) /\
  (forall e, r = Some e -> postfix e).
Proof.
  unfold NasmEval.nasm_evaluate. cbv zeta. intros H.
  match type of H with
  | bind (NasmEval.bexpr_over _ _ _ _ ?s) _ = _ => set (st2 := s) in H
  end.
  assert (Hst2 : Nasm.errors st2 = Nasm.errors st).
  { subst st2. destruct (Nasm.t_type tv); try reflexivity. now rewrite errors_do_scan. }
  destruct (NasmEval.bexpr_over scan _ fuel [] st2) as [[[ok e1] st3]|err] eqn:Hs;
    [|discriminate]. cbn [bind] in H.
  destruct (bexpr_over_sound _ fuel (expr6_sound fuel) _ _ _ _ _ Hs) as [Hr Hp].
  injection H as <- <-. split.
  - intros Hq. destruct (Hr Hq) as [l [Hl Hf]]. rewrite Hst2 in Hl.
    exists l. split; [exact Hl|]. now destruct ok.
  - intros e He. destruct ok; [|discriminate]. injection He as <-. now apply Hp.
Qed.

(** X18.  "evaluate() should report its own errors": when the two routines of
    the preprocessor only add to the errors reported and never return -1,
    [nasm_evaluate] only adds to the errors reported too, and when it returns
    null it has added at least one. *)
Theorem nasm_evaluate_reports_its_errors
        (scprivate : Private) (tv : Nasm.tokenval) (critical : bool)
        (fuel : nat) (st : Nasm.EvalState Object Symbol Private)
        (r : option (Nasm.Expr Symbol)) (st' : Nasm.EvalState Object Symbol Private) :
  evaluators_report curly_evaluator ppdir_evaluator ->
  (forall s, fst (fst (fst (curly_evaluator s))) <> -1) ->
  (forall s, fst (ppdir_evaluator s) <> -1) ->
  NasmEval.nasm_evaluate getSymbol scan curly_evaluator ppdir_evaluator
                         scprivate tv critical fuel st = Ok (r, st') ->
  exists l, Nasm.errors st' = Nasm.errors st ++ l /\ (r = None -> l <> []).
Proof.
  intros Hq Hc Hp H. destruct (proj1 (nasm_evaluate_sound _ _ _ _ _ _ _ H) Hq) as [l [Hl Hf]].
  exists l. split; [exact Hl|]. intros Hr. subst r.
  destruct (Hf eq_refl) as [Hne|[s [Hev|Hev]]].
  - exact Hne.
  - now elim (Hc s).
  - now elim (Hp s).
Qed.

(** X19.  Whatever the scanner and the two routines of the preprocessor do,
    also to the file-scope variables of the evaluator, an expression returned
    by [nasm_evaluate] is a postfix expression with one result: every
    operator appended finds its operands (one for a unary operator, two for
    a binary one, three for the conditional). *)
Theorem nasm_evaluate_builds_postfix
        (scprivate : Private) (tv : Nasm.tokenval) (critical : bool)
        (fuel : nat) (st : Nasm.EvalState Object Symbol Private)
        (e : Nasm.Expr Symbol) (st' : Nasm.EvalState Object Symbol Private) :
  NasmEval.nasm_evaluate getSymbol scan curly_evaluator ppdir_evaluator
                         scprivate tv critical fuel st = Ok (Some e, st') ->
  postfix e.
Proof.
  intros H. exact (proj2 (nasm_evaluate_sound _ _ _ _ _ _ _ H) e eq_refl).
Qed.

End EvaluatorFacts.

Lemma nasm_evaluate_reports_its_errors_witness :
  let tok t := Nasm.mkTokenval t 0 EmptyString in
  let num n := Nasm.mkTokenval Nasm.TOKEN_NUM n EmptyString in
  exists st',
    NasmEval.nasm_evaluate (Object := TableObject.Object) TableObject.getSymbol list_scan
                           (leaves_bexpr_at_expr0 7) (fun s => (0, s))
                           [tok (Nasm.TOKEN_CHAR "{"); tok (Nasm.TOKEN_CHAR "*");
                            tok (Nasm.TOKEN_CHAR "("); num 1; tok Nasm.TOKEN_TERN; num 2;
                            tok (Nasm.TOKEN_CHAR ":"); num 3; tok (Nasm.TOKEN_CHAR ")")]
                           (tok Nasm.TOKEN_INVALID) true 9
                           (Nasm.mkEval Nasm.TOKEN_INVALID (tok Nasm.TOKEN_INVALID) []
                                        Nasm.bexpr_expr0 (Some ["bar"%string]) [] []) =
      Ok (None, st') /\
    exists l, Nasm.errors st' = [] ++ l /\ l <> [].
Proof.
  cbv zeta. eexists. split; [reflexivity|].
  destruct (nasm_evaluate_reports_its_errors
              (Object := TableObject.Object) TableObject.getSymbol list_scan
              (leaves_bexpr_at_expr0 7) (fun s => (0, s))
              [Nasm.mkTokenval (Nasm.TOKEN_CHAR "{") 0 EmptyString;
               Nasm.mkTokenval (Nasm.TOKEN_CHAR "*") 0 EmptyString;
               Nasm.mkTokenval (Nasm.TOKEN_CHAR "(") 0 EmptyString;
               Nasm.mkTokenval Nasm.TOKEN_NUM 1 EmptyString;
               Nasm.mkTokenval Nasm.TOKEN_TERN 0 EmptyString;
               Nasm.mkTokenval Nasm.TOKEN_NUM 2 EmptyString;
               Nasm.mkTokenval (Nasm.TOKEN_CHAR ":") 0 EmptyString;
               Nasm.mkTokenval Nasm.TOKEN_NUM 3 EmptyString;
               Nasm.mkTokenval (Nasm.TOKEN_CHAR ")") 0 EmptyString]
              (Nasm.mkTokenval Nasm.TOKEN_INVALID 0 EmptyString) true 9
              (Nasm.mkEval Nasm.TOKEN_INVALID
                           (Nasm.mkTokenval Nasm.TOKEN_INVALID 0 EmptyString) []
                           Nasm.bexpr_expr0 (Some ["bar"%string]) [] [])
              None _
              (conj (fun s => ex_intro _ [] (eq_sym (app_nil_r _)))
                    (fun s => ex_intro _ [] (eq_sym (app_nil_r _))))
              (fun s => ltac:(discriminate)) (fun s => ltac:(discriminate)) eq_refl)
    as [l [Hl Hne]].
  exists l. split; [exact Hl|]. now apply Hne.
Defined.

Lemma nasm_evaluate_builds_postfix_witness :
  postfix (Symbol := TableObject.Symbol)
          [Nasm.X_INT 7; Nasm.X_INT 2; Nasm.X_OP MUL 2; Nasm.X_INT 3; Nasm.X_OP ADD 2].
Proof.
  refine (nasm_evaluate_builds_postfix
            (Object := TableObject.Object) TableObject.getSymbol list_scan
            (leaves_bexpr_at_expr0 7) (fun s => (0, s))
            [Nasm.mkTokenval (Nasm.TOKEN_CHAR "{") 0 EmptyString;
             Nasm.mkTokenval (Nasm.TOKEN_CHAR "*") 0 EmptyString;
             Nasm.mkTokenval Nasm.TOKEN_NUM 2 EmptyString;
             Nasm.mkTokenval (Nasm.TOKEN_CHAR "+") 0 EmptyString;
             Nasm.mkTokenval Nasm.TOKEN_NUM 3 EmptyString]
            (Nasm.mkTokenval Nasm.TOKEN_INVALID 0 EmptyString) true 7
            (Nasm.mkEval Nasm.TOKEN_INVALID
                         (Nasm.mkTokenval Nasm.TOKEN_INVALID 0 EmptyString) []
                         Nasm.bexpr_expr0 (Some ["bar"%string]) [] [])
            _ _ _).
  reflexivity.
Defined.

(** *** The evaluator on a finite list of tokens *)

Section EvaluatorReturns.

Context {Object Symbol : Type}.

Variable getSymbol : string -> Object -> option Symbol * Object.

Variable curly_evaluator :
  Nasm.EvalState Object Symbol (list Nasm.tokenval) ->
  Z * list Nasm.tokenval * Nasm.tokenval *
  Nasm.EvalState Object Symbol (list Nasm.tokenval).

Variable ppdir_evaluator :
  Nasm.EvalState Object Symbol (list Nasm.tokenval) ->
  Z * Nasm.EvalState Object Symbol (list Nasm.tokenval).

Hypothesis curly_reads_on :
  forall st,
    (length (snd (fst (fst (curly_evaluator st)))) <= length (Nasm.scpriv st))%nat.

Hypothesis ppdir_reads_on :
  forall st, (length (Nasm.scpriv (snd (ppdir_evaluator st))) <= length (Nasm.scpriv st))%nat.

Lemma remaining_not_EOS (st : Nasm.EvalState Object Symbol (list Nasm.tokenval)) :
  Nasm.i st <> Nasm.TOKEN_EOS -> remaining st = S (length (Nasm.scpriv st)).
Proof. unfold remaining. destruct (Nasm.i st); try reflexivity. now intros H. Qed.

Lemma remaining_le (st : Nasm.EvalState Object Symbol (list Nasm.tokenval)) :
  (remaining st <= S (length (Nasm.scpriv st)))%nat.
Proof. unfold remaining. destruct (Nasm.i st); lia. Qed.

Lemma remaining_do_scan (st : Nasm.EvalState Object Symbol (list Nasm.tokenval)) :
  (remaining (Nasm.do_scan list_scan st) <= length (Nasm.scpriv st))%nat.
Proof.
  unfold Nasm.do_scan, list_scan. destruct (Nasm.scpriv st) as [|t rest]; [reflexivity|].
  apply remaining_le.
Qed.

Lemma binary_loop_returns (m : nat) (ops : Nasm.token -> option Op)
      (sub : NasmEval.parser Object Symbol (list Nasm.tokenval)) :
  returns_within m sub -> ops Nasm.TOKEN_EOS = None ->
  forall fuel e st,
    (remaining st <= fuel)%nat -> (remaining st <= S m)%nat ->
    exists ok e' st',
      NasmEval.binary_loop list_scan ops sub fuel e st = Ok (ok, e', st') /\
      (remaining st' <= remaining st)%nat.
Proof.
  intros Hsub Hops fuel. induction fuel as [|fuel IH]; intros e st Hf Hm.
  - assert (Hi : Nasm.i st = Nasm.TOKEN_EOS).
    { unfold remaining in Hf. destruct (Nasm.i st); try reflexivity; lia. }
    simpl. rewrite Hi, Hops. now exists true, e, st.
  - cbn [NasmEval.binary_loop]. destruct (ops (Nasm.i st)) as [op|] eqn:Hop;
      [|now exists true, e, st].
    assert (Hi : Nasm.i st <> Nasm.TOKEN_EOS) by (intros Hi; congruence).
    pose proof (remaining_not_EOS st Hi) as Hr.
    pose proof (remaining_do_scan st) as Hs.
    destruct (Hsub [] (Nasm.do_scan list_scan st)) as [ok1 [f [st1 [H1 Hr1]]]]; [lia|].
    rewrite H1. cbn [bind]. destruct ok1.
    + destruct (IH (Nasm.Calc op e f) st1) as [ok [e' [st' [H Hr']]]]; [lia|lia|].
      exists ok, e', st'. split; [exact H|lia].
    + exists false, e, st1. split; [reflexivity|lia].
Qed.

Lemma binary_level_returns (m : nat) (ops : Nasm.token -> option Op)
      (sub : NasmEval.parser Object Symbol (list Nasm.tokenval)) (fuel : nat) :
  returns_within m sub -> ops Nasm.TOKEN_EOS = None -> (m <= fuel)%nat ->
  returns_within m (NasmEval.binary_level list_scan ops sub fuel).
Proof.
  intros Hsub Hops Hf e st Hm. unfold NasmEval.binary_level.
  destruct (Hsub e st Hm) as [ok1 [e1 [st1 [H1 Hr1]]]]. rewrite H1. cbn [bind].
  destruct ok1.
  - destruct (binary_loop_returns m ops sub Hsub Hops fuel e1 st1)
      as [ok [e' [st' [H Hr']]]]; [lia|lia|].
    exists ok, e', st'. split; [exact H|lia].
  - exists false, e1, st1. split; [reflexivity|exact Hr1].
Qed.

Lemma ternary_loop_returns (m : nat)
      (rexp1 : NasmEval.parser Object Symbol (list Nasm.tokenval)) :
  returns_within m rexp1 ->
  forall fuel e st,
    (remaining st <= fuel)%nat -> (remaining st <= S m)%nat ->
    exists ok e' st',
      NasmEval.ternary_loop list_scan rexp1 fuel e st = Ok (ok, e', st') /\
      (remaining st' <= remaining st)%nat.
Proof.
  intros Hsub fuel. induction fuel as [|fuel IH]; intros e st Hf Hm.
  - assert (Hi : Nasm.i st = Nasm.TOKEN_EOS).
    { unfold remaining in Hf. destruct (Nasm.i st); try reflexivity; lia. }
    simpl. rewrite Hi. now exists true, e, st.
  - cbn [NasmEval.ternary_loop].
    destruct (Nasm.i st) eqn:Hi0; try (now exists true, e, st).
    assert (Hi : Nasm.i st <> Nasm.TOKEN_EOS) by (rewrite Hi0; discriminate).
    pose proof (remaining_not_EOS st Hi) as Hr.
    pose proof (remaining_do_scan st) as Hs.
    destruct (Hsub [] (Nasm.do_scan list_scan st)) as [ok1 [f [st1 [H1 Hr1]]]]; [lia|].
    rewrite H1. cbn [bind]. destruct ok1; cbn [negb];
      [|exists false, e, st1; split; [reflexivity|lia]].
    assert (Hmiss : exists ok e' st',
               Ok (false, e, Nasm.error Nasm.ERR_FATAL "expecting `:'" [] st1) =
               Ok (ok, e', st') /\ (remaining st' <= remaining st)%nat).
    { eexists. eexists. eexists. split; [reflexivity|].
      change (remaining (Nasm.error Nasm.ERR_FATAL "expecting `:'" [] st1))
        with (remaining st1). lia. }
    destruct (Nasm.i st1) as [c| | | | | | | | | | | | | | | | | | | | | | |] eqn:Hi1;
      try exact Hmiss.
    destruct (Ascii.eqb_spec c ":") as [->|Hc].
    + assert (Hi1' : Nasm.i st1 <> Nasm.TOKEN_EOS) by (rewrite Hi1; discriminate).
      pose proof (remaining_not_EOS st1 Hi1') as Hr1'.
      pose proof (remaining_do_scan st1) as Hs1.
      destruct (Hsub [] (Nasm.do_scan list_scan st1)) as [ok2 [f2 [st2 [H2 Hr2]]]]; [lia|].
      rewrite H2. cbn [bind]. destruct ok2; cbn [negb];
        [|exists false, e, st2; split; [reflexivity|lia]].
      destruct (IH (Nasm.AppendOp Symbol
                      (Nasm.Append Symbol (Nasm.Append Symbol e f) f2) COND 3) st2)
        as [ok [e' [st' [H Hr']]]]; [lia|lia|].
      exists ok, e', st'. split; [exact H|lia].
    + revert Hmiss. clear -Hc.
      destruct c as [[] [] [] [] [] [] [] []]; try (intros H; exact H).
      now elim Hc.
Qed.

Lemma bexpr_over_returns (m : nat)
      (expr6 : NasmEval.parser Object Symbol (list Nasm.tokenval)) (fuel : nat) :
  returns_within m expr6 -> (m <= fuel)%nat ->
  returns_within m (NasmEval.bexpr_over list_scan expr6 fuel).
Proof.
  intros H6 Hf.
  assert (H0 : returns_within m (NasmEval.expr0_over list_scan expr6 fuel)).
  { repeat (apply binary_level_returns; [|reflexivity|exact Hf]). exact H6. }
  assert (H1 : returns_within m (NasmEval.rexp1_over list_scan expr6 fuel)).
  { repeat (apply binary_level_returns; [|reflexivity|exact Hf]). exact H6. }
  assert (Hr0 : returns_within m (NasmEval.rexp0_over list_scan expr6 fuel)).
  { apply binary_level_returns; [exact H1|reflexivity|exact Hf]. }
  intros e st Hm. unfold NasmEval.bexpr_over.
  destruct (Nasm.bexpr st); [|exact (H0 e st Hm)].
  unfold NasmEval.rexpc_over.
  destruct (Hr0 e st Hm) as [ok1 [e1 [st1 [Hs Hr1]]]]. rewrite Hs. cbn [bind].
  destruct ok1.
  - destruct (ternary_loop_returns m _ H1 fuel e1 st1) as [ok [e' [st' [H Hr']]]];
      [lia|lia|].
    exists ok, e', st'. split; [exact H|lia].
  - exists false, e1, st1. split; [reflexivity|exact Hr1].
Qed.

Lemma expr6_returns (fuel : nat) :
  returns_within fuel (NasmEval.expr6 getSymbol list_scan curly_evaluator ppdir_evaluator
                                      (S fuel)).
Proof.
  induction fuel as [|fuel IH]; intros e st Hm.
  - assert (Hi : Nasm.i st = Nasm.TOKEN_EOS).
    { unfold remaining in Hm. destruct (Nasm.i st); try reflexivity; lia. }
    cbn [NasmEval.expr6]. rewrite Hi. eexists. eexists. eexists.
    split; [reflexivity|]. unfold remaining. simpl. rewrite Hi. lia.
  - pose proof (bexpr_over_returns fuel _ (S fuel) IH (Nat.le_succ_diag_r _)) as Hb.
    cbn [NasmEval.expr6].
    set (goal := fun r : result (bool * Nasm.Expr Symbol *
                                 Nasm.EvalState Object Symbol (list Nasm.tokenval)) =>
                   exists ok e' st', r = Ok (ok, e', st') /\
                                     (remaining st' <= remaining st)%nat).
    match goal with
    | |- exists ok e' st', ?r = _ /\ _ => change (goal r)
    end.
    assert (Hdefault :
              goal (Ok (false, e,
                        Nasm.error Nasm.ERR_NONFATAL "expression syntax error" [] st))).
    { eexists. eexists. eexists. split; [reflexivity|].
      change (remaining (Nasm.error Nasm.ERR_NONFATAL "expression syntax error" [] st))
        with (remaining st). lia. }
    destruct (Nasm.i st) as [c| | | | | | | | | | | | | | | | | | | | | | |] eqn:Hi0;
      try exact Hdefault.
    all: assert (Hi : Nasm.i st <> Nasm.TOKEN_EOS) by (rewrite Hi0; discriminate).
    all: pose proof (remaining_not_EOS st Hi) as Hr.
    all: pose proof (remaining_do_scan st) as Hs.
    all: assert (Hleaf : forall (v : Nasm.Expr Symbol) st1,
                   Nasm.scpriv st1 = Nasm.scpriv st ->
                   goal (Ok (true, v, Nasm.do_scan list_scan st1))).
    all: try (intros v st1 Hp; eexists; eexists; eexists; split; [reflexivity|];
              pose proof (remaining_do_scan st1) as Hs1; rewrite Hp in Hs1; lia).
    all: assert (Hafter : forall (j : Z) st1,
                   (length (Nasm.scpriv st1) <= length (Nasm.scpriv st))%nat ->
                   goal (if j =? -1 then Ok (false, e, st1)
                         else Ok (true, Nasm.Expr_int j, Nasm.do_scan list_scan st1))).
    all: try (intros j st1 Hl; destruct (j =? -1);
              (eexists; eexists; eexists; split; [reflexivity|]);
              [pose proof (remaining_le st1) as Hw|
               pose proof (remaining_do_scan st1) as Hw]; lia).
    all: assert (Hrec : exists ok1 e1 st1,
                   NasmEval.expr6 getSymbol list_scan curly_evaluator ppdir_evaluator
                                  (S fuel) e (Nasm.do_scan list_scan st) =
                   Ok (ok1, e1, st1) /\
                   (remaining st1 <= length (Nasm.scpriv st))%nat).
    all: try (destruct (IH e (Nasm.do_scan list_scan st)) as [ok1 [e1 [st1 [H1 Hr1]]]];
              [lia|]; exists ok1, e1, st1; split; [exact H1|lia]).
    all: assert (Hplus :
                   goal (NasmEval.expr6 getSymbol list_scan curly_evaluator ppdir_evaluator
                                        (S fuel) e (Nasm.do_scan list_scan st))).
    all: try (destruct Hrec as [ok1 [e1 [st1 [H1 Hr1]]]]; exists ok1, e1, st1;
              split; [exact H1|lia]).
    all: assert (Hunary : forall op,
                   goal ('(ok1, e1, st1) <-
                           NasmEval.expr6 getSymbol list_scan curly_evaluator ppdir_evaluator
                                          (S fuel) e (Nasm.do_scan list_scan st) ;;
                         if ok1 then Ok (true, Nasm.Calc1 op e1, st1)
                         else Ok (false, e1, st1))).
    all: try (intros op; destruct Hrec as [ok1 [e1 [st1 [H1 Hr1]]]]; rewrite H1;
              cbn [bind]; destruct ok1; eexists; eexists; eexists;
              (split; [reflexivity|lia])).
    all: assert (Hseg :
                   goal ('(ok1, e1, st1) <-
                           NasmEval.expr6 getSymbol list_scan curly_evaluator ppdir_evaluator
                                          (S fuel) e (Nasm.do_scan list_scan st) ;;
                         if ok1
                         then Ok (true, e1,
                                  Nasm.error Nasm.ERR_NONFATAL "%s not supported"
                                             ["SEG"%string] st1)
                         else Ok (false, e1, st1))).
    all: try (destruct Hrec as [ok1 [e1 [st1 [H1 Hr1]]]]; rewrite H1; cbn [bind];
              destruct ok1; eexists; eexists; eexists; (split; [reflexivity|]);
              [change (remaining (Nasm.error Nasm.ERR_NONFATAL "%s not supported"
                                             ["SEG"%string] st1)) with (remaining st1)|];
              lia).
    + (* a single-character token *)
      assert (Hparen :
                goal ('(ok1, e1, st1) <-
                        NasmEval.bexpr_over list_scan
                          (NasmEval.expr6 getSymbol list_scan curly_evaluator
                                          ppdir_evaluator (S fuel))
                          (S fuel) e (Nasm.do_scan list_scan st) ;;
                      if negb ok1 then Ok (false, e1, st1)
                      else
                        match Nasm.i st1 with
                        | Nasm.TOKEN_CHAR ")" => Ok (true, e1, Nasm.do_scan list_scan st1)
                        | _ => Ok (false, e1,
                                   Nasm.error Nasm.ERR_NONFATAL "expecting `)'" [] st1)
                        end)).
      { destruct (Hb e (Nasm.do_scan list_scan st)) as [ok1 [e1 [st1 [H1 Hr1]]]]; [lia|].
        rewrite H1. cbn [bind]. destruct ok1; cbn [negb];
          [|eexists; eexists; eexists; split; [reflexivity|lia]].
        assert (Hmiss : goal (Ok (false, e1,
                                  Nasm.error Nasm.ERR_NONFATAL "expecting `)'" [] st1))).
        { eexists. eexists. eexists. split; [reflexivity|].
          change (remaining (Nasm.error Nasm.ERR_NONFATAL "expecting `)'" [] st1))
            with (remaining st1). lia. }
        destruct (Nasm.i st1) as [c1| | | | | | | | | | | | | | | | | | | | | | |] eqn:Hi1;
          try exact Hmiss.
        destruct (Ascii.eqb_spec c1 ")") as [->|Hc1].
        - eexists. eexists. eexists. split; [reflexivity|].
          assert (Hi1' : Nasm.i st1 <> Nasm.TOKEN_EOS) by (rewrite Hi1; discriminate).
          pose proof (remaining_not_EOS st1 Hi1') as Hr1'.
          pose proof (remaining_do_scan st1) as Hs1. lia.
        - revert Hmiss. clear -Hc1.
          destruct c1 as [[] [] [] [] [] [] [] []]; try (intros H; exact H).
          now elim Hc1. }
      assert (Hcurly :
                goal (let '(j, saved_priv, saved_tok, st1) := curly_evaluator st in
                      let st2 := Nasm.with_tokval saved_tok
                                                  (Nasm.with_private saved_priv st1) in
                      if j =? -1 then Ok (false, e, st2)
                      else Ok (true, Nasm.Expr_int j, Nasm.do_scan list_scan st2))).
      { cbv zeta. pose proof (curly_reads_on st) as Hl.
        destruct (curly_evaluator st) as [[[j priv] tok] st1]. apply Hafter. exact Hl. }
      destruct c as [[] [] [] [] [] [] [] []];
        first [exact Hdefault | exact Hplus | exact Hparen
              | exact (Hunary NEG) | exact (Hunary NOT) | exact (Hunary LNOT)
              | exact Hcurly].
    + (* TOKEN_ID *)
      destruct (Nasm.yasm_object st) as [o|].
      * destruct (getSymbol (Nasm.t_charptr (Nasm.tokval st)) o) as [[s|] o'];
          (apply Hleaf; reflexivity).
      * apply Hleaf. reflexivity.
    + apply Hleaf. reflexivity.
    + apply Hleaf. reflexivity.
    + apply Hleaf. reflexivity.
    + (* TOKEN_SEG *)
      exact Hseg.
    + (* TOKEN_PPDIR *)
      pose proof (ppdir_reads_on st) as Hl.
      destruct (ppdir_evaluator st) as [j st1]. apply Hafter. exact Hl.
Qed.

(** X20.  nasm_evaluate on a finite list of tokens: when the two routines of
    the preprocessor do not lengthen the list that is left to read (whatever
    else they do to the file-scope variables), the call returns, an
    expression or null, whatever the tokens are; a depth of recursion of two
    more than the number of tokens is enough. *)
Theorem nasm_evaluate_returns (scprivate : list Nasm.tokenval) (tv : Nasm.tokenval)
        (critical : bool) (fuel : nat)
        (st : Nasm.EvalState Object Symbol (list Nasm.tokenval)) :
  (length scprivate + 2 <= fuel)%nat ->
  exists r st',
    NasmEval.nasm_evaluate getSymbol list_scan curly_evaluator ppdir_evaluator
                           scprivate tv critical fuel st = Ok (r, st').
Proof.
  intros Hfuel. destruct fuel as [|fuel]; [lia|].
  unfold NasmEval.nasm_evaluate. cbv zeta.
  match goal with
  | |- exists r st', bind (NasmEval.bexpr_over _ _ _ _ ?s) _ = _ => set (st2 := s)
  end.
  assert (H2 : (remaining st2 <= S (length scprivate))%nat).
  { subst st2. destruct (Nasm.t_type tv);
      try (etransitivity; [apply remaining_le|]; simpl; lia).
    etransitivity; [apply remaining_do_scan|]. simpl. lia. }
  destruct (bexpr_over_returns fuel _ (S fuel) (expr6_returns fuel)
                               (Nat.le_succ_diag_r _) [] st2)
    as [ok [e [st3 [H _]]]]; [lia|].
  rewrite H. cbn [bind]. eexists. eexists. reflexivity.
Qed.

End EvaluatorReturns.

Lemma nasm_evaluate_returns_witness :
  exists r st',
    NasmEval.nasm_evaluate (Object := TableObject.Object) TableObject.getSymbol list_scan
                           (fun s => leaves_bexpr_at_expr0 7 (Nasm.with_private
                                                                (tl (Nasm.scpriv s)) s))
                           (fun s => (0, s))
                           [Nasm.mkTokenval (Nasm.TOKEN_CHAR "{") 0 EmptyString;
                            Nasm.mkTokenval (Nasm.TOKEN_CHAR "(") 0 EmptyString;
                            Nasm.mkTokenval Nasm.TOKEN_NUM 4 EmptyString]
                           (Nasm.mkTokenval Nasm.TOKEN_INVALID 0 EmptyString) true 5
                           (Nasm.mkEval Nasm.TOKEN_INVALID
                                        (Nasm.mkTokenval Nasm.TOKEN_INVALID 0 EmptyString)
                                        [] Nasm.bexpr_expr0 (Some ["bar"%string]) [] []) =
    Ok (r, st').
Proof.
  apply (nasm_evaluate_returns (Object := TableObject.Object) TableObject.getSymbol
           (fun s => leaves_bexpr_at_expr0 7 (Nasm.with_private (tl (Nasm.scpriv s)) s))
           (fun s => (0, s))).
  - intros s. cbn. destruct (Nasm.scpriv s); simpl; lia.
  - intros s. cbn. lia.
  - simpl. lia.
Defined.
